(** * VoltDB execution engine: persistent table storage and DR binary log

    A shallow embedding of the storage-and-replication core of the
    execution engine:

    - [src/ee/storage/DRTupleStream.h] and [AbstractDRTupleStream.h]:
      the wire-format constants and the stream state;
    - [src/ee/storage/persistenttable.cpp]: truncate, insert, update,
      delete, their undo entry points, tuple lookup, index maintenance,
      compaction moves and the choice of the unique index used by DR.

    Integers of the C++ code ([size_t], [int64_t], [uint32_t]) are [Z];
    [double] is the kernel's binary64 [float]; [std::string] is [string];
    vectors are lists; a tuple address is the position of its slot. *)

From Stdlib Require Import ZArith Lia Bool List String Ascii Floats.
From stdpp Require Import base tactics option list.

Set Warnings "-inexact-float".
Set Default Proof Using "Type".

Open Scope Z_scope.

(** ** Wire format of the DR binary log ([DRTupleStream.h]) *)

Module DRTupleStreamFormat.

(** Version(1), type(1), drId(8), uniqueId(8), hashFlag(1), txnLength(4), parHash(4) *)
Definition BEGIN_RECORD_SIZE : Z := 1 + 1 + 8 + 8 + 1 + 4 + 4.
(** Version(1), type(1), drId(8), uniqueId(8) *)
Definition BEGIN_RECORD_HEADER_SIZE : Z := 1 + 1 + 8 + 8.
(** Type(1), drId(8), checksum(4) *)
Definition END_RECORD_SIZE : Z := 1 + 8 + 4.
(** Type(1), table signature(8) *)
Definition TXN_RECORD_HEADER_SIZE : Z := 1 + 8.
(** Type(1), parHash(4) *)
Definition HASH_DELIMITER_SIZE : Z := 1 + 4.

Definition PROTOCOL_VERSION : Z := 4.

(** [AbstractDRTupleStream.h] *)
Definition MAGIC_DR_TRANSACTION_PADDING : Z := 78.
Definition SECONDARY_BUFFER_SIZE : Z := (45 * 1024 * 1024) + 4096.
Definition SIZE_MAX : Z := 2 ^ 64 - 1.
Definition INVALID_DR_MARK : Z := SIZE_MAX.

(** Big-endian image of the low [n] bytes of [v] (two's complement). *)
Fixpoint bigEndian (n : nat) (v : Z) : list Z :=
  match n with
  | O => []
  | S k => ((v / 256 ^ Z.of_nat k) mod 256) :: bigEndian k v
  end.

(** The records, field by field as the size comments of the header list
    them.  The record type codes live in [common/types.h], which is not
    part of these sources, so each writer takes its code as an argument. *)
Definition beginRecord (typeCode drId uniqueId hashFlag txnLength parHash : Z) : list Z :=
  bigEndian 1 PROTOCOL_VERSION ++ bigEndian 1 typeCode ++ bigEndian 8 drId
    ++ bigEndian 8 uniqueId ++ bigEndian 1 hashFlag ++ bigEndian 4 txnLength
    ++ bigEndian 4 parHash.

Definition beginRecordHeader (typeCode drId uniqueId : Z) : list Z :=
  bigEndian 1 PROTOCOL_VERSION ++ bigEndian 1 typeCode ++ bigEndian 8 drId
    ++ bigEndian 8 uniqueId.

Definition endRecord (typeCode drId checksum : Z) : list Z :=
  bigEndian 1 typeCode ++ bigEndian 8 drId ++ bigEndian 4 checksum.

Definition rowRecordHeader (typeCode tableSignature : Z) : list Z :=
  bigEndian 1 typeCode ++ bigEndian 8 tableSignature.

Definition hashDelimiter (typeCode parHash : Z) : list Z :=
  bigEndian 1 typeCode ++ bigEndian 4 parHash.

Lemma length_bigEndian n v : length (bigEndian n v) = n.
Proof. induction n as [|n IH]; simpl; [reflexivity | now rewrite IH]. Qed.

Lemma beginRecord_length t d u h l p :
  Z.of_nat (length (beginRecord t d u h l p)) = BEGIN_RECORD_SIZE.
Proof. unfold beginRecord. rewrite !length_app, !length_bigEndian. reflexivity. Qed.

Lemma beginRecordHeader_length t d u :
  Z.of_nat (length (beginRecordHeader t d u)) = BEGIN_RECORD_HEADER_SIZE.
Proof. unfold beginRecordHeader. rewrite !length_app, !length_bigEndian. reflexivity. Qed.

Lemma endRecord_length t d c :
  Z.of_nat (length (endRecord t d c)) = END_RECORD_SIZE.
Proof. unfold endRecord. rewrite !length_app, !length_bigEndian. reflexivity. Qed.

Lemma rowRecordHeader_length t s :
  Z.of_nat (length (rowRecordHeader t s)) = TXN_RECORD_HEADER_SIZE.
Proof. unfold rowRecordHeader. rewrite !length_app, !length_bigEndian. reflexivity. Qed.

Lemma hashDelimiter_length t p :
  Z.of_nat (length (hashDelimiter t p)) = HASH_DELIMITER_SIZE.
Proof. unfold hashDelimiter. rewrite !length_app, !length_bigEndian. reflexivity. Qed.

Lemma beginRecord_version t d u h l p :
  head (beginRecord t d u h l p) = Some PROTOCOL_VERSION.
Proof. reflexivity. Qed.

(** C8. The record sizes of the DR wire format are the fixed constants
    27 (begin record), 18 (begin header), 13 (end record), 9 (row record
    header) and 5 (hash delimiter); every begin record, whatever its
    fields, has exactly 27 bytes and its leading byte is the protocol
    version, which is 4. *)
Theorem wire_format_record_sizes :
  BEGIN_RECORD_SIZE = 27 /\ BEGIN_RECORD_HEADER_SIZE = 18 /\
  END_RECORD_SIZE = 13 /\ TXN_RECORD_HEADER_SIZE = 9 /\
  HASH_DELIMITER_SIZE = 5 /\ PROTOCOL_VERSION = 4 /\
  (forall t d u h l p,
      Z.of_nat (length (beginRecord t d u h l p)) = 27 /\
      head (beginRecord t d u h l p) = Some 4) /\
  (forall t d u, Z.of_nat (length (beginRecordHeader t d u)) = 18) /\
  (forall t d c, Z.of_nat (length (endRecord t d c)) = 13) /\
  (forall t s, Z.of_nat (length (rowRecordHeader t s)) = 9) /\
  (forall t p, Z.of_nat (length (hashDelimiter t p)) = 5).
Proof.
  unfold BEGIN_RECORD_SIZE, BEGIN_RECORD_HEADER_SIZE, END_RECORD_SIZE,
    TXN_RECORD_HEADER_SIZE, HASH_DELIMITER_SIZE, PROTOCOL_VERSION.
  repeat split; intros;
    first [ reflexivity
          | apply beginRecord_length | apply beginRecordHeader_length
          | apply endRecord_length | apply rowRecordHeader_length
          | apply hashDelimiter_length ].
Qed.

End DRTupleStreamFormat.

(** ** Tuples, schemas and indexes *)

(** Modelled from the spec: the column cell of a tuple ([common/NValue.hpp]
    and [common/tabletuple.h] are not part of these sources).  "A tuple
    is a fixed-width header plus inline columns plus out-of-line
    references for variable-length columns."  An inlined value lives in
    the tuple's own bytes; a non-inlined value is a pointer stored in
    the tuple to an object holding the bytes.  [NullValue] stands for
    the null pattern of the column's type. *)
Inductive NValue : Type :=
| NullValue
| InlineValue (v : Z)
| ObjectValue (ptr : Z) (data : list Z).

#[global] Instance NValue_eq_dec : EqDecision NValue.
Proof. solve_decision. Defined.

Definition isNull (v : NValue) : bool :=
  match v with NullValue => true | _ => false end.

(** Modelled from the spec: what [memcmp] over tuple storage sees of a
    cell, the inlined bytes or the pointer. *)
Definition sameBytes (a b : NValue) : bool :=
  match a, b with
  | NullValue, NullValue => true
  | InlineValue x, InlineValue y => x =? y
  | ObjectValue p _, ObjectValue q _ => p =? q
  | _, _ => false
  end.

(** Modelled from the spec: what the value comparison of [NValue] sees,
    the value, whatever object holds it. *)
Definition sameValue (a b : NValue) : bool :=
  match a, b with
  | NullValue, NullValue => true
  | InlineValue x, InlineValue y => x =? y
  | ObjectValue _ d, ObjectValue _ e => bool_decide (d = e)
  | _, _ => false
  end.

Fixpoint forall2b {A} (f : A -> A -> bool) (l1 l2 : list A) : bool :=
  match l1, l2 with
  | [], [] => true
  | x :: l1', y :: l2' => f x y && forall2b f l1' l2'
  | _, _ => false
  end.

(** Modelled from the spec: the storage of a tuple ([common/tabletuple.h]
    is not part of these sources).  "A header byte (flags: active, dirty,
    pending-delete, pending-delete-on-undo-release), inline column
    bytes, [...] and optionally hidden columns appended after the
    visible image." *)
Record TupleStorage : Type := mkTuple {
  isActive : bool;
  isDirty : bool;
  isPendingDelete : bool;
  isPendingDeleteOnUndoRelease : bool;
  m_columns : list NValue;
  m_hiddenColumns : list NValue
}.

#[global] Instance TupleStorage_eq_dec : EqDecision TupleStorage.
Proof. solve_decision. Defined.

Definition setActive (b : bool) (t : TupleStorage) : TupleStorage :=
  mkTuple b (isDirty t) (isPendingDelete t) (isPendingDeleteOnUndoRelease t)
          (m_columns t) (m_hiddenColumns t).
Definition setDirty (b : bool) (t : TupleStorage) : TupleStorage :=
  mkTuple (isActive t) b (isPendingDelete t) (isPendingDeleteOnUndoRelease t)
          (m_columns t) (m_hiddenColumns t).
Definition setPendingDelete (b : bool) (t : TupleStorage) : TupleStorage :=
  mkTuple (isActive t) (isDirty t) b (isPendingDeleteOnUndoRelease t)
          (m_columns t) (m_hiddenColumns t).
Definition setPendingDeleteOnUndoRelease (b : bool) (t : TupleStorage) : TupleStorage :=
  mkTuple (isActive t) (isDirty t) (isPendingDelete t) b
          (m_columns t) (m_hiddenColumns t).
Definition setHiddenNValue (i : nat) (v : NValue) (t : TupleStorage) : TupleStorage :=
  mkTuple (isActive t) (isDirty t) (isPendingDelete t) (isPendingDeleteOnUndoRelease t)
          (m_columns t) (<[i := v]> (m_hiddenColumns t)).

(** The data of a tuple without its header. *)
Definition Row : Type := (list NValue * list NValue)%type.
Definition rowOf (t : TupleStorage) : Row := (m_columns t, m_hiddenColumns t).

(** A slot that was never used. *)
Definition freeSlot : TupleStorage := mkTuple false false false false [] [].

(** Modelled from the spec: the tuples a table scan returns
    ([storage/tableiterator.h] is not part of these sources): the active
    tuples that carry neither deletion flag, "hidden from scans but live
    until undo/snapshot resolves it". *)
Definition isVisible (t : TupleStorage) : bool :=
  isActive t && negb (isPendingDelete t) && negb (isPendingDeleteOnUndoRelease t).

Record TupleSchema : Type := mkSchema {
  columnCount : nat;
  hiddenColumnCount : nat;
  getUninlinedObjectColumnCount : nat
}.

(** Modelled from the spec: the schema's two lengths
    ([common/TupleSchema.h] is not part of these sources), counted in
    cells: "hidden columns are appended after user columns". *)
Definition offsetOfHiddenColumns (s : TupleSchema) : nat := columnCount s.
Definition tupleLength (s : TupleSchema) : nat := (columnCount s + hiddenColumnCount s)%nat.

Definition tupleData (t : TupleStorage) : list NValue := m_columns t ++ m_hiddenColumns t.

(** [memcmp(a + TUPLE_HEADER_SIZE, b + TUPLE_HEADER_SIZE, n) == 0], with
    [n] counted in cells. *)
Definition memcmp_eq (a b : TupleStorage) (n : nat) : bool :=
  forall2b sameBytes (firstn n (tupleData a)) (firstn n (tupleData b)).

(** Modelled from the spec: [TableTuple::equalsNoSchemaCheck(other,
    includeHiddenColumns)], the column-by-column value comparison whose
    flag says "whether hidden columns participate". *)
Definition equalsNoSchemaCheck (a b : TupleStorage) (includeHiddenColumns : bool) : bool :=
  forall2b sameValue (m_columns a) (m_columns b)
  && (if includeHiddenColumns
      then forall2b sameValue (m_hiddenColumns a) (m_hiddenColumns b)
      else true).

(** *** Indexes *)

(** Modelled from the spec: the value of a key column; the key of an
    index is a "projection of selected columns" and compares values, not
    the objects that hold them. *)
Inductive KeyValue : Type :=
| KeyNull
| KeyInline (v : Z)
| KeyObject (data : list Z).

#[global] Instance KeyValue_eq_dec : EqDecision KeyValue.
Proof. solve_decision. Defined.

Definition keyValueOf (v : NValue) : KeyValue :=
  match v with
  | NullValue => KeyNull
  | InlineValue z => KeyInline z
  | ObjectValue _ d => KeyObject d
  end.

Definition IndexKey : Type := list KeyValue.

(** Modelled from the spec: [TableIndex] ([indexes/tableindex.h] is not
    part of these sources).  "A mapping from key tuple (projection of
    selected columns) to the address of the row tuple.  Uniqueness is a
    declared property."  The entries are kept as a list of (key, address)
    pairs; the predicate of a partial index is not represented. *)
Record TableIndex : Type := mkIndex {
  getName : string;
  isUniqueIndex : bool;
  isPartialIndex : bool;
  getColumnIndices : list nat;
  keyTupleLength : Z;                (* getKeySchema()->tupleLength() *)
  keyUsesNonInlinedMemory : bool;
  m_entries : list (IndexKey * nat)
}.

Definition setEntries (e : list (IndexKey * nat)) (i : TableIndex) : TableIndex :=
  mkIndex (getName i) (isUniqueIndex i) (isPartialIndex i) (getColumnIndices i)
          (keyTupleLength i) (keyUsesNonInlinedMemory i) e.

Definition keyOf (index : TableIndex) (t : TupleStorage) : IndexKey :=
  map (fun c => keyValueOf (nth c (m_columns t) NullValue)) (getColumnIndices index).

Definition findKey (k : IndexKey) (e : list (IndexKey * nat)) : option nat :=
  snd <$> find (fun p => bool_decide (fst p = k)) e.

Fixpoint removeEntry (k : IndexKey) (a : nat) (e : list (IndexKey * nat))
  : option (list (IndexKey * nat)) :=
  match e with
  | [] => None
  | p :: e' =>
      if bool_decide (p = (k, a)) then Some e'
      else cons p <$> removeEntry k a e'
  end.

Fixpoint replaceAddress (k : IndexKey) (a b : nat) (e : list (IndexKey * nat))
  : option (list (IndexKey * nat)) :=
  match e with
  | [] => None
  | p :: e' =>
      if bool_decide (p = (k, a)) then Some ((k, b) :: e')
      else cons p <$> replaceAddress k a b e'
  end.

(** Modelled from the spec: [exists(tuple)], some entry has the key of
    [tuple]. *)
Definition indexExists (index : TableIndex) (t : TupleStorage) : bool :=
  bool_decide (is_Some (findKey (keyOf index t) (m_entries index))).

(** Modelled from the spec: [addEntry(tuple, conflict)]; a unique index
    that already holds the key reports the tuple that holds it and adds
    nothing. *)
Definition addEntry (index : TableIndex) (t : TupleStorage) (a : nat)
  : TableIndex * option nat :=
  let k := keyOf index t in
  match (if isUniqueIndex index then findKey k (m_entries index) else None) with
  | Some conflict => (index, Some conflict)
  | None => (setEntries ((k, a) :: m_entries index) index, None)
  end.

(** Modelled from the spec: [deleteEntry(tuple)], false when the index
    has no entry for the tuple. *)
Definition deleteEntry (index : TableIndex) (t : TupleStorage) (a : nat)
  : TableIndex * bool :=
  match removeEntry (keyOf index t) a (m_entries index) with
  | Some e => (setEntries e index, true)
  | None => (index, false)
  end.

(** Modelled from the spec: [replaceEntryNoKeyChange(destinationTuple,
    originalTuple)], the entry of the original tuple is made to point at
    the destination; false when there is no such entry. *)
Definition replaceEntryNoKeyChange (index : TableIndex)
    (original : TupleStorage) (originalAddr destinationAddr : nat)
  : TableIndex * bool :=
  match replaceAddress (keyOf index original) originalAddr destinationAddr
                       (m_entries index) with
  | Some e => (setEntries e index, true)
  | None => (index, false)
  end.

(** Modelled from the spec: [checkForIndexChange(old, new)], "true iff
    indexed columns differ". *)
Definition checkForIndexChange (index : TableIndex) (lhs rhs : TupleStorage) : bool :=
  negb (bool_decide (keyOf index lhs = keyOf index rhs)).

(** Modelled from the spec: [uniqueMatchingTuple(searchTuple)], the
    address held for the key of the search tuple, if any. *)
Definition uniqueMatchingTuple (index : TableIndex) (searchTuple : TupleStorage)
  : option nat :=
  findKey (keyOf index searchTuple) (m_entries index).

(** ** [PersistentTable::truncateTable]: delete row by row, or swap *)

Module Truncate.

(** Modelled from the spec: what [truncateTable] reads of a storage
    block ([storage/TupleBlock.h] is not part of these sources): a block
    "reports [loadFactor]". *)
Record TupleBlock : Type := mkBlock { loadFactor : float }.

(** What [truncateTable] reads of the table before it chooses its path. *)
Record TableState : Type := mkTableState {
  isPersistentTableEmpty : bool;
  m_data : list TupleBlock;
  m_views : list string
}.

(** The three ways out of the first part of [truncateTable]: nothing to
    do, [deleteAllTuples(true)], or the construction of an empty table
    that is swapped in. *)
Inductive TruncatePath : Type :=
| ReturnEmpty
| DeleteAllTuples
| SwapInEmptyTable.

(** cut-off for table with no views *)
Definition tableLFCutoffForTrunc : float := 0.105666%float.
(** cut-off for table with views *)
Definition tableWithViewsLFCutoffForTrunc : float := 0.015416%float.

Definition truncateTable (t : TableState) : TruncatePath :=
  if isPersistentTableEmpty t then ReturnEmpty
  else
    match m_data t with
    | [block] =>
        let blockLoadFactor := loadFactor block in
        if (PrimFloat.leb blockLoadFactor tableLFCutoffForTrunc)
           || ((0 <? length (m_views t))%nat
               && PrimFloat.leb blockLoadFactor tableWithViewsLFCutoffForTrunc)
        then DeleteAllTuples
        else SwapInEmptyTable
    | _ => SwapInEmptyTable
    end.

(** The rule the comments of the function document: one cut-off for a
    table with no views, the other for a table with views. *)
Definition documentedPath (t : TableState) : TruncatePath :=
  if isPersistentTableEmpty t then ReturnEmpty
  else
    match m_data t with
    | [block] =>
        let cutoff := if (0 <? length (m_views t))%nat
                      then tableWithViewsLFCutoffForTrunc
                      else tableLFCutoffForTrunc in
        if PrimFloat.leb (loadFactor block) cutoff
        then DeleteAllTuples else SwapInEmptyTable
    | _ => SwapInEmptyTable
    end.

(** A table with one view whose single block is 5% full. *)
Definition oneViewFivePercent : TableState :=
  mkTableState false [mkBlock 0.05%float] ["V"%string].

(** C4. On a non-empty table with one block and one view whose load
    factor is 0.05, above the cut-off 0.015416 for tables with views,
    [truncateTable] deletes tuple by tuple (the first disjunct of its
    test ignores the views), where the documented rule selects the swap. *)
Theorem truncate_with_views_ignores_view_cutoff :
  truncateTable oneViewFivePercent = DeleteAllTuples /\
  documentedPath oneViewFivePercent = SwapInEmptyTable /\
  PrimFloat.leb 0.05%float tableWithViewsLFCutoffForTrunc = false.
Proof. vm_compute. repeat split. Qed.

(** Without views the function and the documented rule agree. *)
Lemma truncate_without_views t :
  m_views t = [] -> truncateTable t = documentedPath t.
Proof.
  intros Hv. unfold truncateTable, documentedPath. rewrite Hv. simpl.
  destruct (isPersistentTableEmpty t); [reflexivity|].
  destruct (m_data t) as [|b [|]]; try reflexivity.
  now rewrite orb_false_r.
Qed.

End Truncate.

(** ** The persistent table *)

(** Modelled from the spec: the snapshot streamer, "an external
    collaborator that iterates live tuples for snapshotting"; the table
    only asks it two questions, answered here by two oracles. *)
Record TableStreamer : Type := mkStreamer {
  notifyTupleInsert : TupleStorage -> bool;
  notifyTupleDelete : TupleStorage -> bool
}.

(** Modelled from the spec: the members of [PersistentTable] that
    [persistenttable.cpp] reads and writes ([storage/persistenttable.h]
    and [storage/table.h] are not part of these sources).  [m_tuples]
    holds the tuple slots of all the blocks in address order; the
    primary key and the cached smallest unique index, pointers in the
    C++ code, are positions in [m_indexes]; a view is its target's name. *)
Record PersistentTable : Type := mkTable {
  m_name : string;
  m_signature : Z;
  m_schema : TupleSchema;
  m_allowNulls : list bool;
  m_tuples : list TupleStorage;
  m_tupleCount : Z;
  m_tuplesPinnedByUndo : Z;
  m_invisibleTuplesPendingDeleteCount : Z;
  m_tupleLimit : Z;
  m_indexes : list TableIndex;
  m_pkeyIndex : option nat;
  m_views : list string;
  m_tableStreamer : option TableStreamer;
  m_partitionColumn : Z;
  m_isMaterialized : bool;
  m_drEnabled : bool;
  m_noAvailableUniqueIndex : bool;
  m_smallestUniqueIndex : option nat;
  m_smallestUniqueIndexCrc : Z;
  m_drTimestampColumnIndex : Z
}.

Definition setTuples (v : list TupleStorage) (t : PersistentTable) : PersistentTable :=
  mkTable (m_name t) (m_signature t) (m_schema t) (m_allowNulls t) v
    (m_tupleCount t) (m_tuplesPinnedByUndo t) (m_invisibleTuplesPendingDeleteCount t)
    (m_tupleLimit t) (m_indexes t) (m_pkeyIndex t) (m_views t) (m_tableStreamer t)
    (m_partitionColumn t) (m_isMaterialized t) (m_drEnabled t)
    (m_noAvailableUniqueIndex t) (m_smallestUniqueIndex t)
    (m_smallestUniqueIndexCrc t) (m_drTimestampColumnIndex t).

Definition setTupleCount (v : Z) (t : PersistentTable) : PersistentTable :=
  mkTable (m_name t) (m_signature t) (m_schema t) (m_allowNulls t) (m_tuples t)
    v (m_tuplesPinnedByUndo t) (m_invisibleTuplesPendingDeleteCount t)
    (m_tupleLimit t) (m_indexes t) (m_pkeyIndex t) (m_views t) (m_tableStreamer t)
    (m_partitionColumn t) (m_isMaterialized t) (m_drEnabled t)
    (m_noAvailableUniqueIndex t) (m_smallestUniqueIndex t)
    (m_smallestUniqueIndexCrc t) (m_drTimestampColumnIndex t).

Definition setTuplesPinnedByUndo (v : Z) (t : PersistentTable) : PersistentTable :=
  mkTable (m_name t) (m_signature t) (m_schema t) (m_allowNulls t) (m_tuples t)
    (m_tupleCount t) v (m_invisibleTuplesPendingDeleteCount t)
    (m_tupleLimit t) (m_indexes t) (m_pkeyIndex t) (m_views t) (m_tableStreamer t)
    (m_partitionColumn t) (m_isMaterialized t) (m_drEnabled t)
    (m_noAvailableUniqueIndex t) (m_smallestUniqueIndex t)
    (m_smallestUniqueIndexCrc t) (m_drTimestampColumnIndex t).

Definition setInvisibleTuplesPendingDeleteCount (v : Z) (t : PersistentTable)
  : PersistentTable :=
  mkTable (m_name t) (m_signature t) (m_schema t) (m_allowNulls t) (m_tuples t)
    (m_tupleCount t) (m_tuplesPinnedByUndo t) v
    (m_tupleLimit t) (m_indexes t) (m_pkeyIndex t) (m_views t) (m_tableStreamer t)
    (m_partitionColumn t) (m_isMaterialized t) (m_drEnabled t)
    (m_noAvailableUniqueIndex t) (m_smallestUniqueIndex t)
    (m_smallestUniqueIndexCrc t) (m_drTimestampColumnIndex t).

Definition setIndexes (v : list TableIndex) (t : PersistentTable) : PersistentTable :=
  mkTable (m_name t) (m_signature t) (m_schema t) (m_allowNulls t) (m_tuples t)
    (m_tupleCount t) (m_tuplesPinnedByUndo t) (m_invisibleTuplesPendingDeleteCount t)
    (m_tupleLimit t) v (m_pkeyIndex t) (m_views t) (m_tableStreamer t)
    (m_partitionColumn t) (m_isMaterialized t) (m_drEnabled t)
    (m_noAvailableUniqueIndex t) (m_smallestUniqueIndex t)
    (m_smallestUniqueIndexCrc t) (m_drTimestampColumnIndex t).

Definition setSmallestUniqueIndex (none : bool) (i : option nat) (crc : Z)
    (t : PersistentTable) : PersistentTable :=
  mkTable (m_name t) (m_signature t) (m_schema t) (m_allowNulls t) (m_tuples t)
    (m_tupleCount t) (m_tuplesPinnedByUndo t) (m_invisibleTuplesPendingDeleteCount t)
    (m_tupleLimit t) (m_indexes t) (m_pkeyIndex t) (m_views t) (m_tableStreamer t)
    (m_partitionColumn t) (m_isMaterialized t) (m_drEnabled t)
    none i crc (m_drTimestampColumnIndex t).

Definition primaryKeyIndex (t : PersistentTable) : option TableIndex :=
  i ← m_pkeyIndex t; m_indexes t !! i.

Definition hasDRTimestampColumn (t : PersistentTable) : bool :=
  negb (m_drTimestampColumnIndex t =? -1).

Definition visibleTupleCount (t : PersistentTable) : Z :=
  m_tupleCount t - m_invisibleTuplesPendingDeleteCount t.

(** ** The unique index that keys DR records *)

Definition UINT32_MAX : Z := 2 ^ 32 - 1.

(** The locals of the loop of [computeSmallestUniqueIndex]; the chosen
    index is kept with its position in [m_indexes]. *)
Record SmallestSoFar : Type := mkSmallest {
  smallestIndexTupleLength : Z;
  smallestUniqueIndex : option (nat * TableIndex);
  smallestUniqueIndexName : string
}.

Definition considerIndex (acc : SmallestSoFar) (pos : nat) (index : TableIndex)
  : SmallestSoFar :=
  if isUniqueIndex index && negb (isPartialIndex index) then
    let indexTupleLength := keyTupleLength index in
    if match smallestUniqueIndex acc with
       | None => true
       | Some (_, current) =>
           (keyUsesNonInlinedMemory current && negb (keyUsesNonInlinedMemory index))
           || (indexTupleLength <? smallestIndexTupleLength acc)
           || ((indexTupleLength =? smallestIndexTupleLength acc)
               && String.ltb (getName index) (smallestUniqueIndexName acc))
       end
    then mkSmallest indexTupleLength (Some (pos, index)) (getName index)
    else acc
  else acc.

Fixpoint scanIndexes (pos : nat) (indexes : list TableIndex) (acc : SmallestSoFar)
  : SmallestSoFar :=
  match indexes with
  | [] => acc
  | index :: rest => scanIndexes (S pos) rest (considerIndex acc pos index)
  end.

Definition sizeof_int : Z := 4.

(** An index that DR may use as a key. *)
Definition isDRCandidate (index : TableIndex) : bool :=
  isUniqueIndex index && negb (isPartialIndex index).

(** [a] comes strictly before [b]: shorter key tuple, or the same length
    and a smaller name. *)
Definition shorterOrSmallerName (a b : TableIndex) : Prop :=
  keyTupleLength a < keyTupleLength b \/
  (keyTupleLength a = keyTupleLength b /\ String.ltb (getName a) (getName b) = true).

(** The statement of the specification: the result is a candidate and no
    candidate comes strictly before it. *)
Definition smallestByLengthThenName (indexes : list TableIndex) (r : TableIndex) : Prop :=
  In r indexes /\ isDRCandidate r = true /\
  forall j, In j indexes -> isDRCandidate j = true -> ~ shorterOrSmallerName j r.

(** No candidate whose key uses non-inlined memory comes strictly before
    a candidate whose key is inlined. *)
Definition inlinedKeysComeFirst (indexes : list TableIndex) : Prop :=
  forall a b, In a indexes -> In b indexes ->
    isDRCandidate a = true -> isDRCandidate b = true ->
    keyUsesNonInlinedMemory a = true -> keyUsesNonInlinedMemory b = false ->
    ~ shorterOrSmallerName a b.

(** The cache of a table whose indexes were just (re)defined. *)
Definition cacheInvalidated (t : PersistentTable) : Prop :=
  m_smallestUniqueIndex t = None /\ m_noAvailableUniqueIndex t = false.

(** *** The order of [std::string] *)

Lemma ascii_compare_refl a : Ascii.compare a a = Eq.
Proof. unfold Ascii.compare. apply N.compare_refl. Qed.

Lemma ascii_compare_lt_trans a b c :
  Ascii.compare a b = Lt -> Ascii.compare b c = Lt -> Ascii.compare a c = Lt.
Proof.
  unfold Ascii.compare. rewrite !N.compare_lt_iff. apply N.lt_trans.
Qed.

Lemma string_compare_refl s : String.compare s s = Eq.
Proof.
  induction s as [|a s IH]; simpl; [reflexivity|].
  now rewrite ascii_compare_refl.
Qed.

Lemma string_compare_lt_trans s1 :
  forall s2 s3, String.compare s1 s2 = Lt -> String.compare s2 s3 = Lt ->
                String.compare s1 s3 = Lt.
Proof.
  induction s1 as [|a s1 IH]; intros [|b s2] [|c s3]; simpl; try congruence.
  destruct (Ascii.compare a b) eqn:Hab; try discriminate;
    destruct (Ascii.compare b c) eqn:Hbc; try discriminate; intros H1 H2.
  - apply Ascii.compare_eq_iff in Hab, Hbc. subst.
    rewrite ascii_compare_refl. eauto.
  - apply Ascii.compare_eq_iff in Hab. subst. now rewrite Hbc.
  - apply Ascii.compare_eq_iff in Hbc. subst. now rewrite Hab.
  - now rewrite (ascii_compare_lt_trans _ _ _ Hab Hbc).
Qed.

Lemma string_ltb_irrefl s : String.ltb s s = false.
Proof. unfold String.ltb. now rewrite string_compare_refl. Qed.

Lemma string_ltb_trans s1 s2 s3 :
  String.ltb s1 s2 = true -> String.ltb s2 s3 = true -> String.ltb s1 s3 = true.
Proof.
  unfold String.ltb.
  destruct (String.compare s1 s2) eqn:H12; try discriminate.
  destruct (String.compare s2 s3) eqn:H23; try discriminate.
  now rewrite (string_compare_lt_trans _ _ _ H12 H23).
Qed.

Lemma string_compare_not_lt_trans s1 s2 s3 :
  String.compare s1 s2 <> Lt -> String.compare s2 s3 <> Lt -> String.compare s1 s3 <> Lt.
Proof.
  intros H12 H23 H13.
  destruct (String.compare s1 s2) eqn:E12; try congruence.
  - apply String.compare_eq_iff in E12. subst. congruence.
  - destruct (String.compare s2 s3) eqn:E23; try congruence.
    + apply String.compare_eq_iff in E23. subst. congruence.
    + rewrite String.compare_antisym in E12, E23.
      destruct (String.compare s2 s1) eqn:E21; try discriminate.
      destruct (String.compare s3 s2) eqn:E32; try discriminate.
      pose proof (string_compare_lt_trans _ _ _ E32 E21) as E31.
      rewrite String.compare_antisym, E31 in H13. discriminate.
Qed.

Lemma string_ltb_false_trans s1 s2 s3 :
  String.ltb s1 s2 = false -> String.ltb s2 s3 = false -> String.ltb s1 s3 = false.
Proof.
  unfold String.ltb. intros H12 H23.
  assert (N12 : String.compare s1 s2 <> Lt) by (intros E; rewrite E in H12; discriminate).
  assert (N23 : String.compare s2 s3 <> Lt) by (intros E; rewrite E in H23; discriminate).
  pose proof (string_compare_not_lt_trans _ _ _ N12 N23) as N13.
  destruct (String.compare s1 s3); congruence.
Qed.

Lemma shorterOrSmallerName_irrefl a : ~ shorterOrSmallerName a a.
Proof.
  intros [H | [_ H]]; [lia|]. rewrite string_ltb_irrefl in H. discriminate.
Qed.

Lemma shorterOrSmallerName_trans a b c :
  shorterOrSmallerName a b -> shorterOrSmallerName b c -> shorterOrSmallerName a c.
Proof.
  intros [H1 | [H1 N1]] [H2 | [H2 N2]].
  - left; lia.
  - left; lia.
  - left; lia.
  - right; split; [lia|]. eapply string_ltb_trans; eauto.
Qed.

Lemma shorterOrSmallerName_neg_trans a b c :
  ~ shorterOrSmallerName a b -> ~ shorterOrSmallerName b c -> ~ shorterOrSmallerName a c.
Proof.
  unfold shorterOrSmallerName. intros Hab Hbc Hac.
  assert (Lab : keyTupleLength b <= keyTupleLength a) by lia.
  assert (Lbc : keyTupleLength c <= keyTupleLength b) by lia.
  destruct Hac as [Hac | [Hac Nac]]; [lia|].
  assert (Nab : String.ltb (getName a) (getName b) = false).
  { destruct (String.ltb (getName a) (getName b)) eqn:E; [|reflexivity].
    exfalso. apply Hab. right. split; [lia | reflexivity]. }
  assert (Nbc : String.ltb (getName b) (getName c) = false).
  { destruct (String.ltb (getName b) (getName c)) eqn:E; [|reflexivity].
    exfalso. apply Hbc. right. split; [lia | reflexivity]. }
  rewrite (string_ltb_false_trans _ _ _ Nab Nbc) in Nac. discriminate.
Qed.

(** *** The scan of [computeSmallestUniqueIndex] *)

(** What the loop maintains once it holds an index: the two scalar
    locals describe the index held. *)
Definition describesHeld (acc : SmallestSoFar) : Prop :=
  match smallestUniqueIndex acc with
  | Some (_, cur) =>
      smallestIndexTupleLength acc = keyTupleLength cur /\
      smallestUniqueIndexName acc = getName cur
  | None => True
  end.

Definition heldIsMinimal (acc : SmallestSoFar) (seen : list TableIndex) : Prop :=
  match smallestUniqueIndex acc with
  | Some (_, cur) =>
      isDRCandidate cur = true /\ In cur seen /\
      forall j, In j seen -> isDRCandidate j = true -> ~ shorterOrSmallerName j cur
  | None => forall j, In j seen -> isDRCandidate j = false
  end.

Lemma considerIndex_describesHeld acc pos index :
  describesHeld acc -> describesHeld (considerIndex acc pos index).
Proof.
  intros H. unfold considerIndex.
  destruct (isUniqueIndex index && negb (isPartialIndex index)); [|exact H].
  destruct (smallestUniqueIndex acc) as [[p cur]|] eqn:E.
  - match goal with |- describesHeld (if ?c then _ else _) => destruct c end;
      [now split | exact H].
  - now split.
Qed.

Lemma scanIndexes_no_candidate indexes : forall pos acc,
  (forall j, In j indexes -> isDRCandidate j = false) ->
  scanIndexes pos indexes acc = acc.
Proof.
  induction indexes as [|index rest IH]; intros pos acc H; simpl; [reflexivity|].
  assert (Hc : considerIndex acc pos index = acc).
  { unfold considerIndex. specialize (H index (or_introl eq_refl)).
    unfold isDRCandidate in H. now rewrite H. }
  rewrite Hc. apply IH. intros j Hj. apply H. now right.
Qed.

(** One step of the loop keeps the index held minimal among the indexes
    seen, as long as a smaller non-inlined key never meets an inlined one. *)
Lemma considerIndex_minimal (all : list TableIndex) acc pos index seen :
  inlinedKeysComeFirst all ->
  (forall j, In j seen -> In j all) -> In index all ->
  describesHeld acc ->
  heldIsMinimal acc seen ->
  heldIsMinimal (considerIndex acc pos index) (seen ++ [index]).
Proof.
  intros Hfirst Hsub Hin Hd Hinv. unfold considerIndex, heldIsMinimal in *.
  fold (isDRCandidate index).
  destruct (isDRCandidate index) eqn:Hc.
  2:{ destruct (smallestUniqueIndex acc) as [[p cur]|] eqn:E.
      - destruct Hinv as (H2 & H3 & H4). repeat split; auto.
        + apply in_or_app; now left.
        + intros j Hj Hcj. apply in_app_or in Hj as [Hj | [<- | []]]; [auto | congruence].
      - intros j Hj. apply in_app_or in Hj as [Hj | [<- | []]]; auto. }
  unfold describesHeld in Hd.
  destruct (smallestUniqueIndex acc) as [[p cur]|] eqn:E.
  - destruct Hd as [Hl Hn]. destruct Hinv as (H2 & H3 & H4).
    rewrite Hl, Hn.
    destruct (keyUsesNonInlinedMemory cur && negb (keyUsesNonInlinedMemory index)) eqn:Hpref;
      simpl.
    { (* an inlined key displaces a non-inlined one *)
      apply andb_true_iff in Hpref as [Hcu Hiu]. apply negb_true_iff in Hiu.
      assert (Hle : ~ shorterOrSmallerName cur index)
        by (apply Hfirst; auto).
      repeat split; auto.
      - apply in_or_app; right; now left.
      - intros j Hj Hcj. apply in_app_or in Hj as [Hj | [<- | []]].
        + eapply shorterOrSmallerName_neg_trans; eauto.
        + apply shorterOrSmallerName_irrefl. }
    destruct ((keyTupleLength index <? keyTupleLength cur)
              || (keyTupleLength index =? keyTupleLength cur)
                 && String.ltb (getName index) (getName cur)) eqn:Hrep; simpl.
    + assert (Hb : shorterOrSmallerName index cur).
      { apply orb_true_iff in Hrep as [H | H].
        - left. now apply Z.ltb_lt.
        - apply andb_true_iff in H as [Ha Hb]. right. split; [now apply Z.eqb_eq | exact Hb]. }
      repeat split; auto.
      * apply in_or_app; right; now left.
      * intros j Hj Hcj Hlt. apply in_app_or in Hj as [Hj | [<- | []]].
        -- apply (H4 j Hj Hcj). eapply shorterOrSmallerName_trans; eauto.
        -- now apply (shorterOrSmallerName_irrefl index).
    + rewrite E. repeat split; auto.
      * apply in_or_app; now left.
      * intros j Hj Hcj Hlt. apply in_app_or in Hj as [Hj | [<- | []]].
        -- now apply (H4 j Hj Hcj).
        -- apply orb_false_iff in Hrep as [Ha Hb].
           apply Z.ltb_ge in Ha. destruct Hlt as [Hlt | [Hlt Hnm]]; [lia|].
           rewrite Hnm, andb_true_r in Hb. apply Z.eqb_neq in Hb. lia.
  - simpl. repeat split; auto.
    + apply in_or_app; right; now left.
    + intros j Hj Hcj Hlt. apply in_app_or in Hj as [Hj | [<- | []]].
      * rewrite (Hinv j Hj) in Hcj. discriminate.
      * now apply (shorterOrSmallerName_irrefl index).
Qed.

Lemma considerIndex_position acc index (seen : list TableIndex) :
  (forall p cur, smallestUniqueIndex acc = Some (p, cur) -> seen !! p = Some cur) ->
  forall p cur,
    smallestUniqueIndex (considerIndex acc (length seen) index) = Some (p, cur) ->
    (seen ++ [index]) !! p = Some cur.
Proof.
  intros Hpos p cur. unfold considerIndex.
  assert (Hnew : (seen ++ [index]) !! length seen = Some index).
  { rewrite lookup_app_r by lia. now rewrite Nat.sub_diag. }
  assert (Hold : smallestUniqueIndex acc = Some (p, cur) ->
                 (seen ++ [index]) !! p = Some cur).
  { intros H. apply lookup_app_l_Some. now apply Hpos. }
  destruct (isUniqueIndex index && negb (isPartialIndex index)); [|exact Hold].
  destruct (smallestUniqueIndex acc) as [[q c]|] eqn:E.
  - match goal with |- smallestUniqueIndex (if ?c then _ else _) = _ -> _ =>
      destruct c end; simpl.
    + intros [= <- <-]. exact Hnew.
    + rewrite E. exact Hold.
  - simpl. intros [= <- <-]. exact Hnew.
Qed.

Lemma scanIndexes_minimal (all : list TableIndex) indexes : forall seen acc,
  inlinedKeysComeFirst all ->
  (forall j, In j (seen ++ indexes) -> In j all) ->
  describesHeld acc ->
  heldIsMinimal acc seen ->
  (forall p cur, smallestUniqueIndex acc = Some (p, cur) -> seen !! p = Some cur) ->
  let r := scanIndexes (length seen) indexes acc in
  heldIsMinimal r (seen ++ indexes) /\
  (forall p cur, smallestUniqueIndex r = Some (p, cur) ->
                 (seen ++ indexes) !! p = Some cur).
Proof.
  induction indexes as [|index rest IH]; intros seen acc Hfirst Hsub Hd Hmin Hpos; simpl.
  - rewrite app_nil_r. now split.
  - replace (seen ++ index :: rest) with ((seen ++ [index]) ++ rest) in *
      by now rewrite <- app_assoc.
    replace (S (length seen)) with (length (seen ++ [index]))
      by (rewrite length_app; simpl; lia).
    apply IH; auto.
    + now apply considerIndex_describesHeld.
    + apply (considerIndex_minimal all); auto.
      * intros j Hj. apply Hsub. apply in_or_app. left. apply in_or_app. now left.
      * apply Hsub. apply in_or_app. left. apply in_or_app. right. now left.
    + now apply considerIndex_position.
Qed.

Section UniqueIndexForDR.

(** [crc/crc32c.h] is not part of these sources: the three functions of
    [vdbcrc] are parameters.  [crc32c crc array len] reads [len] bytes
    of the [int] array [array]. *)
Variable crc32cInit : Z.
Variable crc32c : Z -> list nat -> Z -> Z.
Variable crc32cFinish : Z -> Z.

Definition columnIndicesCrc (index : TableIndex) : Z :=
  crc32cFinish
    (crc32c crc32cInit (getColumnIndices index)
            (Z.of_nat (length (getColumnIndices index)) * sizeof_int)).

Definition computeSmallestUniqueIndex (t : PersistentTable) : PersistentTable :=
  let acc := scanIndexes 0 (m_indexes t) (mkSmallest UINT32_MAX None "") in
  match smallestUniqueIndex acc with
  | Some (pos, index) => setSmallestUniqueIndex false (Some pos) (columnIndicesCrc index) t
  | None => setSmallestUniqueIndex true None 0 t
  end.

(** [isActiveActive] is what the engine answers to
    [getIsActiveActiveDREnabled()]. *)
Definition getUniqueIndexForDR (isActiveActive : bool) (t : PersistentTable)
  : (option nat * Z) * PersistentTable :=
  if isActiveActive then ((None, 0), t)
  else
    let t' := if negb (bool_decide (is_Some (m_smallestUniqueIndex t)))
                 && negb (m_noAvailableUniqueIndex t)
              then computeSmallestUniqueIndex t else t in
    ((m_smallestUniqueIndex t', m_smallestUniqueIndexCrc t'), t').

Lemma getUniqueIndexForDR_no_candidate t :
  cacheInvalidated t ->
  (forall j, In j (m_indexes t) -> isDRCandidate j = false) ->
  fst (getUniqueIndexForDR false t) = (None, 0).
Proof.
  intros [Hc1 Hc2] Hno. unfold getUniqueIndexForDR. rewrite Hc1, Hc2. simpl.
  unfold computeSmallestUniqueIndex.
  rewrite scanIndexes_no_candidate by exact Hno. reflexivity.
Qed.

Lemma getUniqueIndexForDR_smallest t :
  cacheInvalidated t ->
  inlinedKeysComeFirst (m_indexes t) ->
  (exists j, In j (m_indexes t) /\ isDRCandidate j = true) ->
  exists pos r,
    fst (getUniqueIndexForDR false t) = (Some pos, columnIndicesCrc r) /\
    m_indexes t !! pos = Some r /\
    smallestByLengthThenName (m_indexes t) r.
Proof.
  intros [Hc1 Hc2] Hu [j0 [Hj0 Hcand0]].
  unfold getUniqueIndexForDR. rewrite Hc1, Hc2. simpl.
  unfold computeSmallestUniqueIndex.
  pose proof (scanIndexes_minimal (m_indexes t) (m_indexes t) []
                (mkSmallest UINT32_MAX None "")) as H.
  simpl in H. destruct H as [Hmin Hpos]; try easy.
  unfold heldIsMinimal in Hmin.
  destruct (smallestUniqueIndex
              (scanIndexes 0 (m_indexes t) (mkSmallest UINT32_MAX None ""))) as [[p r]|] eqn:E.
  - destruct Hmin as (H2 & H3 & H4). exists p, r. simpl.
    split; [reflexivity|]. split; [now apply Hpos|]. now split.
  - rewrite (Hmin j0 Hj0) in Hcand0. discriminate.
Qed.

(** C7 (amended). With active-active DR the call returns (none, 0)
    whatever the indexes.  Otherwise, on a table whose cache was
    invalidated: without a unique non-partial index it returns (none, 0);
    with one, and as long as no such index with a non-inlined key is
    smaller than one with an inlined key, it returns the position of the
    unique non-partial index with the smallest key tuple length, ties
    broken by the smallest name, and the CRC32C of that index's
    column-indices array. *)
Theorem getUniqueIndexForDR_selects t :
  cacheInvalidated t ->
  getUniqueIndexForDR true t = ((None, 0), t) /\
  ((forall j, In j (m_indexes t) -> isDRCandidate j = false) ->
   fst (getUniqueIndexForDR false t) = (None, 0)) /\
  (inlinedKeysComeFirst (m_indexes t) ->
   (exists j, In j (m_indexes t) /\ isDRCandidate j = true) ->
   exists pos r,
     fst (getUniqueIndexForDR false t) = (Some pos, columnIndicesCrc r) /\
     m_indexes t !! pos = Some r /\
     smallestByLengthThenName (m_indexes t) r).
Proof.
  intros Hc. split; [reflexivity|]. split.
  - now apply getUniqueIndexForDR_no_candidate.
  - now apply getUniqueIndexForDR_smallest.
Qed.

End UniqueIndexForDR.

(** *** Tables for the examples *)

(** The constructor of [PersistentTable] followed by
    [initializeWithColumns]: no tuple, no index, an invalidated cache,
    and the DR timestamp in the first hidden column when there is one. *)
Definition newPersistentTable (name : string) (signature : Z) (schema : TupleSchema)
    (allowNulls : list bool) (partitionColumn : Z) (isMaterialized : bool)
    (tupleLimit : Z) (drEnabled : bool) : PersistentTable :=
  mkTable name signature schema allowNulls [] 0 0 0 tupleLimit [] None [] None
          partitionColumn isMaterialized drEnabled false None 0
          (if (hiddenColumnCount schema =? 1)%nat then 0 else -1).

(** Modelled from the spec: [addIndex] and [setPrimaryKeyIndex]
    ([storage/persistenttable.h] is not part of these sources); the
    "[smallestUniqueIndex] cache is invalidated on catalog change". *)
Definition addIndex (index : TableIndex) (t : PersistentTable) : PersistentTable :=
  setSmallestUniqueIndex false None 0 (setIndexes (m_indexes t ++ [index]) t).

Definition setPrimaryKeyIndex (pos : nat) (t : PersistentTable) : PersistentTable :=
  mkTable (m_name t) (m_signature t) (m_schema t) (m_allowNulls t) (m_tuples t)
    (m_tupleCount t) (m_tuplesPinnedByUndo t) (m_invisibleTuplesPendingDeleteCount t)
    (m_tupleLimit t) (m_indexes t) (Some pos) (m_views t) (m_tableStreamer t)
    (m_partitionColumn t) (m_isMaterialized t) (m_drEnabled t)
    (m_noAvailableUniqueIndex t) (m_smallestUniqueIndex t)
    (m_smallestUniqueIndexCrc t) (m_drTimestampColumnIndex t).

(** The schema of the tables of [DRBinaryLog_test.cpp]: TINYINT, BIGINT,
    DECIMAL, VARCHAR(15), VARCHAR(300), TIMESTAMP, VARBINARY(300), and
    one hidden BIGINT; the two 300-byte columns are not inlined. *)
Definition testSchema : TupleSchema := mkSchema 7 1 2.

Definition testTable : PersistentTable :=
  newPersistentTable "P_TABLE" 42 testSchema
    [false; true; true; true; true; true; true] 0 false 2147483647 true.

(** The indexes of [createIndexes()] in the test: a unique index on
    (BIGINT, TINYINT), a unique index on (TINYINT, BIGINT, VARCHAR(300))
    whose key holds a pointer, and a non-unique index. *)
Definition first_unique_index : TableIndex :=
  mkIndex "first_unique_index" true false [1; 0]%nat 9 false [].
Definition second_unique_index : TableIndex :=
  mkIndex "second_unique_index" true false [0; 1; 4]%nat 17 true [].
Definition third_index : TableIndex :=
  mkIndex "third_index" false false [0; 1; 4]%nat 17 true [].

Definition testTableWithIndexes : PersistentTable :=
  addIndex third_index (addIndex second_unique_index (addIndex first_unique_index testTable)).

(** A unique index on the VARCHAR(300) column alone, whose 8-byte key is
    a pointer, declared before the 9-byte index on (BIGINT, TINYINT). *)
Definition text_index : TableIndex :=
  mkIndex "a_text_index" true false [4]%nat 8 true [].

Definition testTableTextIndexFirst : PersistentTable :=
  addIndex first_unique_index (addIndex text_index testTable).

(** C7 (counterexample). With the 8-byte unique index on the non-inlined
    column declared first, [getUniqueIndexForDR] returns the 9-byte index
    on (BIGINT, TINYINT): the index returned is not the one with the
    smallest key tuple length. *)
Lemma getUniqueIndexForDR_prefers_inlined_key :
  fst (fst (getUniqueIndexForDR 0 (fun _ _ _ => 0) (fun c => c) false
              testTableTextIndexFirst)) = Some 1%nat /\
  m_indexes testTableTextIndexFirst !! 1%nat = Some first_unique_index /\
  In text_index (m_indexes testTableTextIndexFirst) /\
  isDRCandidate text_index = true /\
  keyTupleLength text_index < keyTupleLength first_unique_index /\
  ~ smallestByLengthThenName (m_indexes testTableTextIndexFirst) first_unique_index.
Proof.
  assert (Hin : In text_index (m_indexes testTableTextIndexFirst)) by (simpl; auto).
  assert (Hlt : keyTupleLength text_index < keyTupleLength first_unique_index)
    by (simpl; lia).
  repeat split; try reflexivity; try assumption.
  intros (_ & _ & Hmin). apply (Hmin text_index Hin eq_refl). now left.
Qed.

Lemma inlinedKeysComeFirst_test : inlinedKeysComeFirst (m_indexes testTableWithIndexes).
Proof.
  intros a b Ha Hb Hca Hcb Hua Hub.
  simpl in Ha, Hb.
  destruct Ha as [<- | [<- | [<- | []]]]; try discriminate;
    destruct Hb as [<- | [<- | [<- | []]]]; try discriminate.
  intros [H | [H _]]; simpl in H; lia.
Qed.

(** C7 (witness): on the table of the test, the call returns the first
    unique index, the shorter of the two unique indexes. *)
Lemma getUniqueIndexForDR_selects_witness :
  cacheInvalidated testTableWithIndexes /\
  exists pos r,
    fst (getUniqueIndexForDR 0 (fun _ _ _ => 0) (fun c => c) false testTableWithIndexes)
      = (Some pos, columnIndicesCrc 0 (fun _ _ _ => 0) (fun c => c) r) /\
    m_indexes testTableWithIndexes !! pos = Some r /\
    smallestByLengthThenName (m_indexes testTableWithIndexes) r.
Proof.
  split; [split; reflexivity|].
  apply (getUniqueIndexForDR_selects 0 (fun _ _ _ => 0) (fun c => c) testTableWithIndexes).
  - split; reflexivity.
  - exact inlinedKeysComeFirst_test.
  - exists first_unique_index. split; [simpl; auto | reflexivity].
Defined.

(** ** [PersistentTable::lookupTuple] *)

Inductive LookupType : Type :=
| LOOKUP_BY_VALUES
| LOOKUP_FOR_DR
| LOOKUP_FOR_UNDO.

#[global] Instance LookupType_eq_dec : EqDecision LookupType.
Proof. solve_decision. Defined.

(** Modelled from the spec: the loop [while (ti.hasNext()) { ti.next(tableTuple);
    if (...) return tableTuple; }] over a [TableIterator]
    ([storage/tableiterator.h] is not part of these sources): the
    address of the first tuple, in address order, that a scan returns
    and that passes the test. *)
Fixpoint findTuple (test : TupleStorage -> bool) (address : nat)
    (tuples : list TupleStorage) : option nat :=
  match tuples with
  | [] => None
  | tableTuple :: rest =>
      if isVisible tableTuple && test tableTuple then Some address
      else findTuple test (S address) rest
  end.

(** The result is the address of the tuple found; [None] is the null
    tuple. *)
Definition lookupTuple (t : PersistentTable) (tuple : TupleStorage)
    (lookupType : LookupType) : option nat :=
  match primaryKeyIndex t with
  | None =>
      (* Do a table scan. *)
      if bool_decide (lookupType = LOOKUP_FOR_UNDO)
         || (getUninlinedObjectColumnCount (m_schema t) =? 0)%nat
      then
        let tuple_length :=
          if bool_decide (lookupType = LOOKUP_BY_VALUES)
             && (0 <? hiddenColumnCount (m_schema t))%nat
          then offsetOfHiddenColumns (m_schema t)
          else tupleLength (m_schema t) in
        (* Do an inline tuple byte comparison *)
        findTuple (fun tableTuple => memcmp_eq tableTuple tuple tuple_length)
                  0 (m_tuples t)
      else
        let includeHiddenColumns := bool_decide (lookupType = LOOKUP_FOR_DR) in
        findTuple (fun tableTuple =>
                     equalsNoSchemaCheck tableTuple tuple includeHiddenColumns)
                  0 (m_tuples t)
  | Some pkeyIndex => uniqueMatchingTuple pkeyIndex tuple
  end.

Definition lookupTupleByValues (t : PersistentTable) (tuple : TupleStorage) :=
  lookupTuple t tuple LOOKUP_BY_VALUES.
Definition lookupTupleForDR (t : PersistentTable) (tuple : TupleStorage) :=
  lookupTuple t tuple LOOKUP_FOR_DR.
Definition lookupTupleForUndo (t : PersistentTable) (tuple : TupleStorage) :=
  lookupTuple t tuple LOOKUP_FOR_UNDO.

(** A tuple laid out by the schema. *)
Definition conformsTo (s : TupleSchema) (t : TupleStorage) : Prop :=
  length (m_columns t) = columnCount s /\
  length (m_hiddenColumns t) = hiddenColumnCount s.

(** The comparison of cells the scan uses outside undo: bytes when no
    column is out of line, values otherwise. *)
Definition scanComparison (s : TupleSchema) : NValue -> NValue -> bool :=
  if (getUninlinedObjectColumnCount s =? 0)%nat then sameBytes else sameValue.

Lemma forall2b_app {A} (f : A -> A -> bool) (l1 l1' l2 l2' : list A) :
  length l1 = length l1' ->
  forall2b f (l1 ++ l2) (l1' ++ l2') = forall2b f l1 l1' && forall2b f l2 l2'.
Proof.
  revert l1'. induction l1 as [|x l1 IH]; intros [|y l1'] H; simpl in *;
    try discriminate; [reflexivity|].
  rewrite IH by lia. now rewrite andb_assoc.
Qed.

Lemma forall2b_length {A} (f : A -> A -> bool) (l1 l2 : list A) :
  forall2b f l1 l2 = true -> length l1 = length l2.
Proof.
  revert l2. induction l1 as [|x l1 IH]; intros [|y l2]; simpl; try discriminate; auto.
  intros H. apply andb_true_iff in H as [_ H]. f_equal. auto.
Qed.

Lemma memcmp_eq_visible s a b :
  conformsTo s a -> conformsTo s b ->
  memcmp_eq a b (offsetOfHiddenColumns s) = forall2b sameBytes (m_columns a) (m_columns b).
Proof.
  intros [Ha _] [Hb _]. unfold memcmp_eq, tupleData, offsetOfHiddenColumns.
  rewrite <- Ha at 1. rewrite <- Hb.
  now rewrite !firstn_app, !Nat.sub_diag, !firstn_all, !firstn_O, !app_nil_r.
Qed.

Lemma memcmp_eq_whole s a b :
  conformsTo s a -> conformsTo s b ->
  memcmp_eq a b (tupleLength s) = forall2b sameBytes (tupleData a) (tupleData b).
Proof.
  intros [Ha Ha'] [Hb Hb']. unfold memcmp_eq, tupleLength.
  rewrite !firstn_all2; [reflexivity | |]; unfold tupleData; rewrite length_app; lia.
Qed.

Lemma findTuple_ext test1 test2 tuples : forall address,
  (forall t, In t tuples -> test1 t = test2 t) ->
  findTuple test1 address tuples = findTuple test2 address tuples.
Proof.
  induction tuples as [|t rest IH]; intros address H; simpl; [reflexivity|].
  rewrite (H t) by now left. destruct (isVisible t && test2 t); [reflexivity|].
  apply IH. intros t' Ht'. apply H. now right.
Qed.

Lemma findTuple_Some test tuples : forall address found,
  findTuple test address tuples = Some found ->
  (address <= found)%nat /\
  exists t, tuples !! (found - address)%nat = Some t /\
    isVisible t = true /\ test t = true /\
    forall b t', (b < found - address)%nat -> tuples !! b = Some t' ->
                 isVisible t' && test t' = false.
Proof.
  induction tuples as [|t rest IH]; intros address found; simpl; [discriminate|].
  destruct (isVisible t && test t) eqn:E.
  - intros [= <-]. split; [lia|]. rewrite Nat.sub_diag. exists t.
    apply andb_true_iff in E as [E1 E2]. repeat split; auto. intros; lia.
  - intros H. apply IH in H as (Hle & t0 & Hl & Hv & Ht & Hfirst).
    split; [lia|]. exists t0.
    replace (found - address)%nat with (S (found - S address)) by lia.
    repeat split; auto.
    intros [|b] t' Hb Hl'; simpl in Hl'.
    + now inversion Hl'; subst.
    + apply (Hfirst b); [lia | exact Hl'].
Qed.

Lemma findTuple_None test tuples : forall address,
  findTuple test address tuples = None ->
  forall t, In t tuples -> isVisible t && test t = false.
Proof.
  induction tuples as [|t rest IH]; intros address H t' Ht'; simpl in *; [tauto|].
  destruct (isVisible t && test t) eqn:E; [discriminate|].
  destruct Ht' as [<- | Ht']; [exact E | eauto].
Qed.

(** C6. With a primary key index, every mode returns what the index
    holds for the key of the search tuple; without one the table is
    scanned for the first tuple that matches: by-values compares the
    visible columns only, for-DR compares the visible and the hidden
    columns, and for-undo compares the raw bytes of the whole tuple. *)
Theorem lookupTuple_modes (t : PersistentTable) (tuple : TupleStorage) :
  conformsTo (m_schema t) tuple ->
  (forall tableTuple, In tableTuple (m_tuples t) -> conformsTo (m_schema t) tableTuple) ->
  (forall pkeyIndex lookupType,
      primaryKeyIndex t = Some pkeyIndex ->
      lookupTuple t tuple lookupType = uniqueMatchingTuple pkeyIndex tuple) /\
  (primaryKeyIndex t = None ->
   let same := scanComparison (m_schema t) in
   lookupTuple t tuple LOOKUP_BY_VALUES =
     findTuple (fun tableTuple =>
                  forall2b same (m_columns tableTuple) (m_columns tuple))
               0 (m_tuples t) /\
   lookupTuple t tuple LOOKUP_FOR_DR =
     findTuple (fun tableTuple =>
                  forall2b same (m_columns tableTuple) (m_columns tuple)
                  && forall2b same (m_hiddenColumns tableTuple) (m_hiddenColumns tuple))
               0 (m_tuples t) /\
   lookupTuple t tuple LOOKUP_FOR_UNDO =
     findTuple (fun tableTuple =>
                  forall2b sameBytes (tupleData tableTuple) (tupleData tuple))
               0 (m_tuples t)).
Proof.
  intros Hc Hall. split.
  - intros pkeyIndex lookupType Hpk. unfold lookupTuple. now rewrite Hpk.
  - intros Hpk same. unfold lookupTuple. rewrite Hpk. subst same.
    unfold scanComparison. simpl.
    destruct (getUninlinedObjectColumnCount (m_schema t) =? 0)%nat eqn:Hu; simpl.
    + repeat split.
      * apply findTuple_ext. intros tt Htt.
        destruct (0 <? hiddenColumnCount (m_schema t))%nat eqn:Hh.
        -- apply memcmp_eq_visible; auto.
        -- apply Nat.ltb_ge in Hh. rewrite (memcmp_eq_whole (m_schema t)) by auto.
           destruct Hc as [Hc1 Hc2], (Hall tt Htt) as [Ht1 Ht2].
           unfold tupleData.
           assert (E1 : m_hiddenColumns tt = []) by (apply length_zero_iff_nil; lia).
           assert (E2 : m_hiddenColumns tuple = []) by (apply length_zero_iff_nil; lia).
           now rewrite E1, E2, !app_nil_r.
      * apply findTuple_ext. intros tt Htt.
        rewrite (memcmp_eq_whole (m_schema t)) by auto.
        unfold tupleData. apply forall2b_app.
        destruct Hc as [Hc1 _], (Hall tt Htt) as [Ht1 _]. lia.
      * apply findTuple_ext. intros tt Htt.
        now rewrite (memcmp_eq_whole (m_schema t)) by auto.
    + repeat split.
      * apply findTuple_ext. intros tt Htt. unfold equalsNoSchemaCheck.
        now rewrite andb_true_r.
      * apply findTuple_ext. intros tt Htt.
        now rewrite (memcmp_eq_whole (m_schema t)) by auto.
Qed.

(** A row of the test table: the two long columns point at objects. *)
Definition testRow (tinyint bigint : Z) (object : Z) (text : list Z)
    (drTimestamp : NValue) : TupleStorage :=
  mkTuple true false false false
    [InlineValue tinyint; InlineValue bigint; InlineValue 34950834534583;
     InlineValue 97; ObjectValue object text; InlineValue 5433;
     ObjectValue (object + 1) [116; 104; 105; 115]]
    [drTimestamp].

(** The table of the test [VerifyHiddenColumnLookup]: the same row
    written by three transactions, hence three DR timestamps. *)
Definition hiddenColumnLookupTable : PersistentTable :=
  setTuples [testRow 42 55555 1000 [97; 32; 116] (InlineValue 69);
             testRow 42 55555 2000 [97; 32; 116] (InlineValue 70);
             testRow 42 55555 3000 [97; 32; 116] (InlineValue 71)]
            (setTupleCount 3 testTable).

(** The search tuple of the test: a temp tuple with its own objects and
    the timestamp of the second transaction. *)
Definition hiddenColumnLookupTuple : TupleStorage :=
  testRow 42 55555 9000 [97; 32; 116] (InlineValue 70).

(** C6 (witness): on the table of [VerifyHiddenColumnLookup] the lookup
    for DR finds the tuple with the timestamp searched for, the lookup
    by values the first tuple with the visible values, and the lookup
    for undo nothing, since no tuple holds the search tuple's pointers. *)
Lemma lookupTuple_modes_witness :
  conformsTo (m_schema hiddenColumnLookupTable) hiddenColumnLookupTuple /\
  lookupTupleByValues hiddenColumnLookupTable hiddenColumnLookupTuple = Some 0%nat /\
  lookupTupleForDR hiddenColumnLookupTable hiddenColumnLookupTuple = Some 1%nat /\
  lookupTupleForUndo hiddenColumnLookupTable hiddenColumnLookupTuple = None.
Proof.
  assert (Hc : conformsTo (m_schema hiddenColumnLookupTable) hiddenColumnLookupTuple)
    by (split; reflexivity).
  assert (Hall : forall tableTuple, In tableTuple (m_tuples hiddenColumnLookupTable) ->
                   conformsTo (m_schema hiddenColumnLookupTable) tableTuple).
  { intros tt [<- | [<- | [<- | []]]]; split; reflexivity. }
  destruct (lookupTuple_modes hiddenColumnLookupTable hiddenColumnLookupTuple Hc Hall)
    as [_ H].
  destruct (H eq_refl) as (H1 & H2 & H3).
  unfold lookupTupleByValues, lookupTupleForDR, lookupTupleForUndo.
  split; [exact Hc|]. rewrite H1, H2, H3. repeat split.
Defined.

(** ** The DR tuple stream *)

(** The record types the table and the stream exchange
    ([common/types.h] is not part of these sources). *)
Inductive DRRecordType : Type :=
| DR_RECORD_INSERT
| DR_RECORD_DELETE
| DR_RECORD_UPDATE
| DR_RECORD_BEGIN_TXN
| DR_RECORD_END_TXN
| DR_RECORD_HASH_DELIMITER.

#[global] Instance DRRecordType_eq_dec : EqDecision DRRecordType.
Proof. solve_decision. Defined.

(** [SQLException.cpp] *)
Definition integrity_constraint_violation : string := "23000".
Definition volt_output_buffer_overflow : string := "V0001".
Definition volt_temp_table_memory_overflow : string := "V0002".
Definition nonspecific_error_code_for_error_forced_by_user : string := "99999".

(** Modelled from the spec: the state of a DR stream.  The members
    declared by [AbstractDRTupleStream.h] and [DRTupleStream.h] keep
    their names; [TupleStreamBase] ([storage/TupleStreamBase.h] is not
    part of these sources) contributes the bytes written so far
    ([m_uso] is their number), the committed offset and sequence
    numbers, and the offset up to which buffers were pushed. *)
Record DRTupleStream : Type := mkStream {
  m_enabled : bool;
  m_partitionId : Z;
  m_secondaryCapacity : Z;
  m_rowTarget : Z;
  m_opened : bool;
  m_txnRowCount : Z;
  m_hashFlag : Z;                   (* 1 replicated 2 single 4 multi 8 special *)
  m_firstParHash : Z;
  m_lastParHash : Z;
  m_beginTxnUso : Z;
  m_lastCommittedSpUniqueId : Z;
  m_lastCommittedMpUniqueId : Z;
  m_defaultCapacity : Z;
  m_openSequenceNumber : Z;
  m_committedSequenceNumber : Z;
  m_committedUso : Z;
  m_flushedUso : Z;
  m_bytes : list Z
}.

Definition m_uso (s : DRTupleStream) : Z := Z.of_nat (length (m_bytes s)).

Record DRCommittedInfo : Type := mkCommittedInfo {
  seqNum : Z;
  spUniqueId : Z;
  mpUniqueId : Z
}.

Definition getLastCommittedSequenceNumberAndUniqueIds (s : DRTupleStream) : DRCommittedInfo :=
  mkCommittedInfo (m_committedSequenceNumber s) (m_lastCommittedSpUniqueId s)
                  (m_lastCommittedMpUniqueId s).

(** A stream as its constructor and [configure(partitionId)] leave it. *)
Definition newDRTupleStream (partitionId defaultCapacity secondaryCapacity rowTarget : Z)
  : DRTupleStream :=
  mkStream true partitionId secondaryCapacity rowTarget false 0
           (if partitionId =? 16383 then 1 else 0) 0 0 0 0 0
           defaultCapacity (-1) (-1) 0 0 [].

(** What an append gives back: the mark and the new stream, or the
    failure that the table sees as a [TupleStreamException]. *)
Inductive Appended : Type :=
| AppendedAt (mark : Z) (s : DRTupleStream)
| BufferOverflow.

Section ExecutionEngine.

(** What the stream and the table need from code that is not part of
    these sources: the code of a record type, the row cost of a record,
    the image of a row on the wire (it depends on the index that keys
    the record), the engine's hashinator, the CRC of a byte sequence and
    of an [int] array, and the test that tells a multi-partition unique
    id. *)
Variable crc32cInit : Z.
Variable crc32c : Z -> list nat -> Z -> Z.
Variable crc32cFinish : Z -> Z.
Variable recordTypeCode : DRRecordType -> Z.
Variable rowCostForDRRecord : DRRecordType -> Z.
Variable rowImage : DRRecordType -> option nat * Z -> list TupleStorage -> list Z.
Variable hashinate : NValue -> Z.
Variable crc32cOf : list Z -> Z.
Variable isMpUniqueId : Z -> bool.

Definition setBytes (b : list Z) (s : DRTupleStream) : DRTupleStream :=
  mkStream (m_enabled s) (m_partitionId s) (m_secondaryCapacity s) (m_rowTarget s)
    (m_opened s) (m_txnRowCount s) (m_hashFlag s) (m_firstParHash s) (m_lastParHash s)
    (m_beginTxnUso s) (m_lastCommittedSpUniqueId s) (m_lastCommittedMpUniqueId s)
    (m_defaultCapacity s) (m_openSequenceNumber s) (m_committedSequenceNumber s)
    (m_committedUso s) (m_flushedUso s) b.

Definition setTxnRowCount (n : Z) (s : DRTupleStream) : DRTupleStream :=
  mkStream (m_enabled s) (m_partitionId s) (m_secondaryCapacity s) (m_rowTarget s)
    (m_opened s) n (m_hashFlag s) (m_firstParHash s) (m_lastParHash s)
    (m_beginTxnUso s) (m_lastCommittedSpUniqueId s) (m_lastCommittedMpUniqueId s)
    (m_defaultCapacity s) (m_openSequenceNumber s) (m_committedSequenceNumber s)
    (m_committedUso s) (m_flushedUso s) (m_bytes s).

Definition setOpened (b : bool) (s : DRTupleStream) : DRTupleStream :=
  mkStream (m_enabled s) (m_partitionId s) (m_secondaryCapacity s) (m_rowTarget s)
    b (m_txnRowCount s) (m_hashFlag s) (m_firstParHash s) (m_lastParHash s)
    (m_beginTxnUso s) (m_lastCommittedSpUniqueId s) (m_lastCommittedMpUniqueId s)
    (m_defaultCapacity s) (m_openSequenceNumber s) (m_committedSequenceNumber s)
    (m_committedUso s) (m_flushedUso s) (m_bytes s).

Definition setParHash (flag first last : Z) (s : DRTupleStream) : DRTupleStream :=
  mkStream (m_enabled s) (m_partitionId s) (m_secondaryCapacity s) (m_rowTarget s)
    (m_opened s) (m_txnRowCount s) flag first last
    (m_beginTxnUso s) (m_lastCommittedSpUniqueId s) (m_lastCommittedMpUniqueId s)
    (m_defaultCapacity s) (m_openSequenceNumber s) (m_committedSequenceNumber s)
    (m_committedUso s) (m_flushedUso s) (m_bytes s).

(** Modelled from the spec: [beginTransaction(sequenceNumber, uniqueId)]
    opens the frame: it notes the offset of the begin record, writes the
    record (its hash flag, length and hash are known at the end) and
    tags the transaction anew, as [configure] does. *)
Definition beginTransaction (sequenceNumber uniqueId : Z) (s : DRTupleStream)
  : DRTupleStream :=
  let flag := if m_partitionId s =? 16383 then 1 else 0 in
  mkStream (m_enabled s) (m_partitionId s) (m_secondaryCapacity s) (m_rowTarget s)
    true 0 flag 0 0 (m_uso s)
    (m_lastCommittedSpUniqueId s) (m_lastCommittedMpUniqueId s)
    (m_defaultCapacity s) sequenceNumber (m_committedSequenceNumber s)
    (m_committedUso s) (m_flushedUso s)
    (m_bytes s ++ DRTupleStreamFormat.beginRecord (recordTypeCode DR_RECORD_BEGIN_TXN)
                    sequenceNumber uniqueId flag 0 0).

(** Modelled from the spec: the stream "computes the partition hash from
    the row's partition column and, on transition from one distinct hash
    to two, inserts a hash delimiter"; a replicated stream keeps its
    tag.  The result is the stream and the delimiter to write, if any. *)
Definition updateParHash (parHash : Z) (s : DRTupleStream) : DRTupleStream * list Z :=
  if m_hashFlag s =? 1 then (s, [])
  else if m_hashFlag s =? 0 then (setParHash 2 parHash parHash s, [])
  else if parHash =? m_lastParHash s then (s, [])
  else (setParHash 4 (m_firstParHash s) parHash s,
        DRTupleStreamFormat.hashDelimiter (recordTypeCode DR_RECORD_HASH_DELIMITER) parHash).

(** The bytes of the open transaction once [record] is added, with the
    headroom a begin record reserves. *)
Definition openTransactionLength (s : DRTupleStream) (record : list Z) : Z :=
  (if m_opened s then m_uso s - m_beginTxnUso s
   else DRTupleStreamFormat.BEGIN_RECORD_SIZE)
  + Z.of_nat (length record) + DRTupleStreamFormat.MAGIC_DR_TRANSACTION_PADDING.

(** Modelled from the spec: the common part of [appendTuple] and
    [appendUpdateRecord] ([DRTupleStream.cpp] is not part of these
    sources).  A disabled stream writes nothing and returns the invalid
    mark.  "A per-txn [m_rowTarget] caps the number of rows a single
    transaction may emit; exceeding it fails the transaction with
    buffer-overflow"; so does a transaction that overflows the primary
    block and the secondary one.  Otherwise the mark is the "pre-append
    byte offset"; the first append of a transaction begins it with the
    next sequence number. *)
Definition appendRecord (signature : Z) (partitionValue : NValue) (uniqueId : Z)
    (type : DRRecordType) (tuples : list TupleStorage) (indexPair : option nat * Z)
    (s : DRTupleStream) : Appended :=
  if negb (m_enabled s) then AppendedAt DRTupleStreamFormat.INVALID_DR_MARK s
  else
    let startingUso := m_uso s in
    let record :=
      DRTupleStreamFormat.rowRecordHeader (recordTypeCode type) signature
        ++ rowImage type indexPair tuples in
    if m_rowTarget s <? (if m_opened s then m_txnRowCount s else 0) + rowCostForDRRecord type
    then BufferOverflow
    else if (m_defaultCapacity s <? openTransactionLength s record)
            && (m_secondaryCapacity s <? openTransactionLength s record)
    then BufferOverflow
    else
      let s1 := if m_opened s then s
                else beginTransaction (m_committedSequenceNumber s + 1) uniqueId s in
      let (s2, delimiter) := updateParHash (hashinate partitionValue) s1 in
      AppendedAt startingUso
        (setTxnRowCount (m_txnRowCount s2 + rowCostForDRRecord type)
           (setBytes (m_bytes s2 ++ delimiter ++ record) s2)).

Definition appendTuple (signature : Z) (partitionValue : NValue) (uniqueId : Z)
    (tuple : TupleStorage) (type : DRRecordType) (indexPair : option nat * Z)
    (s : DRTupleStream) : Appended :=
  appendRecord signature partitionValue uniqueId type [tuple] indexPair s.

Definition appendUpdateRecord (signature : Z) (partitionValue : NValue) (uniqueId : Z)
    (oldTuple newTuple : TupleStorage) (indexPair : option nat * Z)
    (s : DRTupleStream) : Appended :=
  appendRecord signature partitionValue uniqueId DR_RECORD_UPDATE [oldTuple; newTuple]
               indexPair s.

(** Modelled from the spec: "[rollbackTo(mark, rowCost)] truncates the
    open buffer to that offset and decrements the per-txn row counter by
    [rowCost]"; the invalid mark of a disabled stream rolls nothing
    back, and a truncation that removes the begin record leaves no
    transaction open, so that the next append begins one. *)
Definition rollbackTo (mark drRowCost : Z) (s : DRTupleStream) : DRTupleStream :=
  if mark =? DRTupleStreamFormat.INVALID_DR_MARK then s
  else
    let truncated :=
      setTxnRowCount (if drRowCost <=? m_txnRowCount s
                      then m_txnRowCount s - drRowCost else 0)
        (setBytes (firstn (Z.to_nat mark) (m_bytes s)) s) in
    if m_opened s && (mark <=? m_beginTxnUso s) then setOpened false truncated
    else truncated.

(** Modelled from the spec: "[endTransaction(uniqueId)] writes the end
    record, appends a CRC32C computed over the txn body, updates
    [lastCommittedSequenceNumber], [lastCommittedSpUniqueId] or
    [lastCommittedMpUniqueId], and closes the open-flag"; "calling this
    would be a no-op" when no transaction was begun.  The begin record
    receives the hash flag, the length of the body and the first hash. *)
Definition endTransaction (uniqueId : Z) (s : DRTupleStream) : DRTupleStream :=
  if negb (m_opened s) then s
  else
    let before := firstn (Z.to_nat (m_beginTxnUso s)) (m_bytes s) in
    let body := skipn (Z.to_nat (m_beginTxnUso s + DRTupleStreamFormat.BEGIN_RECORD_SIZE))
                      (m_bytes s) in
    let bytes :=
      before
      ++ DRTupleStreamFormat.beginRecord (recordTypeCode DR_RECORD_BEGIN_TXN)
           (m_openSequenceNumber s) uniqueId (m_hashFlag s)
           (Z.of_nat (length body)) (m_firstParHash s)
      ++ body
      ++ DRTupleStreamFormat.endRecord (recordTypeCode DR_RECORD_END_TXN)
           (m_openSequenceNumber s) (crc32cOf body) in
    mkStream (m_enabled s) (m_partitionId s) (m_secondaryCapacity s) (m_rowTarget s)
      false 0 (m_hashFlag s) (m_firstParHash s) (m_lastParHash s) (m_beginTxnUso s)
      (if isMpUniqueId uniqueId then m_lastCommittedSpUniqueId s else uniqueId)
      (if isMpUniqueId uniqueId then uniqueId else m_lastCommittedMpUniqueId s)
      (m_defaultCapacity s) (m_openSequenceNumber s) (m_openSequenceNumber s)
      (Z.of_nat (length bytes)) (m_flushedUso s) bytes.

(** Modelled from the spec: "On buffer flush, the stream pushes a
    [StreamBlock] and its backing bytes to a topend callback": the bytes
    committed since the last push, if there are any.  The result is the
    buffer pushed, if any, and the stream. *)
Definition periodicFlush (s : DRTupleStream) : option (list Z) * DRTupleStream :=
  if m_flushedUso s <? m_committedUso s then
    (Some (firstn (Z.to_nat (m_committedUso s - m_flushedUso s))
                  (skipn (Z.to_nat (m_flushedUso s)) (m_bytes s))),
     mkStream (m_enabled s) (m_partitionId s) (m_secondaryCapacity s) (m_rowTarget s)
       (m_opened s) (m_txnRowCount s) (m_hashFlag s) (m_firstParHash s) (m_lastParHash s)
       (m_beginTxnUso s) (m_lastCommittedSpUniqueId s) (m_lastCommittedMpUniqueId s)
       (m_defaultCapacity s) (m_openSequenceNumber s) (m_committedSequenceNumber s)
       (m_committedUso s) (m_committedUso s) (m_bytes s))
  else (None, s).

(** ** The engine around a table *)

Inductive ConstraintType : Type :=
| CONSTRAINT_TYPE_NOT_NULL
| CONSTRAINT_TYPE_UNIQUE
| CONSTRAINT_TYPE_ROW_LIMIT.

(** What the table throws to its caller.  A constraint failure carries
    the tuple refused and, for a unique constraint, the address of the
    tuple it conflicts with. *)
Inductive Exception : Type :=
| ConstraintFailureException (type : ConstraintType) (tuple : TupleStorage)
    (otherTuple : option nat)
| TupleStreamException (sqlState : string).

(** Modelled from the spec: the undo actions ([storage/PersistentTableUndo*Action.h]
    are not part of these sources).  "Insert undo: pointer to pooled copy
    of the inserted tuple + a DR mark.  Delete undo: pointer to the
    in-table tuple marked pending-delete-on-undo-release + DR mark.
    Update undo: before-image + after-image pooled copies, old-object
    and new-object reference vectors, a flag indicating whether indexes
    were touched, + DR mark." *)
Inductive UndoAction : Type :=
| PersistentTableUndoInsertAction (tupleData : TupleStorage) (drMark : Z)
| PersistentTableUndoDeleteAction (tuple : nat) (drMark : Z)
| PersistentTableUndoUpdateAction (oldTuple newTuple : TupleStorage)
    (oldObjects newObjects : list Z) (revertIndexes : bool) (drMark : Z).

(** The steps of an operation that the order of its effects is about. *)
Inductive Event : Type :=
| EvAllocateSlot (address : nat)
| EvWriteTuple (address : nat)
| EvSetFlags (address : nat)
| EvFreeSlot (address : nat)
| EvIndexAdd (index address : nat)
| EvIndexDelete (index address : nat)
| EvIndexReplace (index original destination : nat)
| EvDRAppend (type : DRRecordType) (mark : Z)
| EvDRRollback (mark cost : Z)
| EvViewInsert (view address : nat)
| EvViewDelete (view address : nat)
| EvRegisterUndo (action : UndoAction).

(** What a table reads of the [ExecutorContext] and of its engine. *)
Record ExecutorContext : Type := mkContext {
  currentTxnId : Z;
  currentSpHandle : Z;
  lastCommittedSpHandle : Z;
  currentUniqueId : Z;
  currentDRTimestamp : Z;
  getIsActiveActiveDREnabled : bool
}.

(** The table, the stream [getDRTupleStream(ec)] gives for it, the undo
    quantum of the running transaction (newest action first), the
    buffers the topend received, the next object the pool hands out, and
    the steps taken so far. *)
Record Engine : Type := mkEngine {
  table : PersistentTable;
  drStream : option DRTupleStream;
  currentUndoQuantum : option (list UndoAction);
  executorContext : ExecutorContext;
  topend : list (list Z);
  nextObject : Z;
  trace : list Event
}.

Definition setTable (t : PersistentTable) (e : Engine) : Engine :=
  mkEngine t (drStream e) (currentUndoQuantum e) (executorContext e) (topend e)
           (nextObject e) (trace e).
Definition setDRStream (s : option DRTupleStream) (e : Engine) : Engine :=
  mkEngine (table e) s (currentUndoQuantum e) (executorContext e) (topend e)
           (nextObject e) (trace e).
Definition setUndoQuantum (u : option (list UndoAction)) (e : Engine) : Engine :=
  mkEngine (table e) (drStream e) u (executorContext e) (topend e)
           (nextObject e) (trace e).
Definition setTopend (b : list (list Z)) (e : Engine) : Engine :=
  mkEngine (table e) (drStream e) (currentUndoQuantum e) (executorContext e) b
           (nextObject e) (trace e).
Definition setNextObject (n : Z) (e : Engine) : Engine :=
  mkEngine (table e) (drStream e) (currentUndoQuantum e) (executorContext e) (topend e)
           n (trace e).
Definition setTrace (l : list Event) (e : Engine) : Engine :=
  mkEngine (table e) (drStream e) (currentUndoQuantum e) (executorContext e) (topend e)
           (nextObject e) l.

(** How a call ends: it returns, it throws an exception that the caller
    may catch, it throws a fatal exception, or an [assert] fails (the
    model checks assertions, as a debug build does). *)
Inductive Outcome (A : Type) : Type :=
| Returns (a : A) (e : Engine)
| Throws (x : Exception) (e : Engine)
| FatalException (message : string)
| AssertionFailed.
Arguments Returns {A} a e.
Arguments Throws {A} x e.
Arguments FatalException {A} message.
Arguments AssertionFailed {A}.

Definition Op (A : Type) : Type := Engine -> Outcome A.

#[global] Instance Op_ret : MRet Op := fun A a e => Returns a e.
#[global] Instance Op_bind : MBind Op := fun A B f m e =>
  match m e with
  | Returns a e' => f a e'
  | Throws x e' => Throws x e'
  | FatalException s => FatalException s
  | AssertionFailed => AssertionFailed
  end.

Definition getEngine : Op Engine := fun e => Returns e e.
Definition modifyEngine (f : Engine -> Engine) : Op unit := fun e => Returns tt (f e).
Definition modifyTable (f : PersistentTable -> PersistentTable) : Op unit :=
  modifyEngine (fun e => setTable (f (table e)) e).
Definition throw {A} (x : Exception) : Op A := fun e => Throws x e.
Definition throwFatalException {A} (message : string) : Op A :=
  fun _ => FatalException message.
Definition assert (b : bool) : Op unit :=
  fun e => if b then Returns tt e else AssertionFailed.
Definition emit (ev : Event) : Op unit :=
  modifyEngine (fun e => setTrace (trace e ++ [ev]) e).

(** [try { body } catch (...) { handler; }] *)
Definition tryCatch {A} (body : Op A) (handler : Exception -> Op A) : Op A :=
  fun e =>
    match body e with
    | Throws x e' => handler x e'
    | other => other
    end.

(** Reading and writing the tuple a [TableTuple] points at. *)
Definition readTuple (address : nat) : Op TupleStorage :=
  fun e =>
    match m_tuples (table e) !! address with
    | Some t => Returns t e
    | None => AssertionFailed
    end.

Definition writeTuple (address : nat) (t : TupleStorage) : Op unit :=
  modifyTable (fun tb => setTuples (<[address := t]> (m_tuples tb)) tb).

(** *** Slots *)

Fixpoint firstFreeSlot (address : nat) (tuples : list TupleStorage) : nat :=
  match tuples with
  | [] => address
  | t :: rest => if isActive t then firstFreeSlot (S address) rest else address
  end.

(** [nextFreeTuple]: a slot of a block with space, or the first slot of
    a new block; either way [++m_tupleCount].  The blocks, their free
    lists and their buckets ([storage/TupleBlock.h] is not part of these
    sources) are not represented: a slot is free when it is not active. *)
Definition nextFreeTuple : Op nat :=
  e ← getEngine;
  let tuples := m_tuples (table e) in
  let address := firstFreeSlot 0 tuples in
  (if (address <? length tuples)%nat then mret tt
   else modifyTable (setTuples (tuples ++ [freeSlot])));;
  modifyTable (fun t => setTupleCount (m_tupleCount t + 1) t);;
  emit (EvAllocateSlot address);;
  mret address.

(** Modelled from the spec: the "deep copy of out-of-line values": every
    object of the source is copied into a new object of the pool. *)
Fixpoint copyObjects (next : Z) (cells : list NValue) : list NValue * Z :=
  match cells with
  | [] => ([], next)
  | ObjectValue _ data :: rest =>
      let (rest', n) := copyObjects (next + 1) rest in
      (ObjectValue next data :: rest', n)
  | cell :: rest =>
      let (rest', n) := copyObjects next rest in (cell :: rest', n)
  end.

(** Modelled from the spec: [target.copyForPersistentInsert(source)],
    "copy source into slot (including deep copy of out-of-line values)";
    the header of the source comes with its data. *)
Definition copyForPersistentInsert (target : nat) (source : TupleStorage) : Op unit :=
  e ← getEngine;
  let (columns, n1) := copyObjects (nextObject e) (m_columns source) in
  let (hidden, n2) := copyObjects n1 (m_hiddenColumns source) in
  modifyEngine (setNextObject n2);;
  writeTuple target (mkTuple (isActive source) (isDirty source) (isPendingDelete source)
                             (isPendingDeleteOnUndoRelease source) columns hidden);;
  emit (EvWriteTuple target).

(** Modelled from the spec: [deleteTupleStorage] ([storage/persistenttable.h]
    is not part of these sources): "free the slot: deactivate, free
    out-of-line objects, push to block freelist"; the pending flags
    "must be cleared before the slot is returned to the freelist". *)
Definition deleteTupleStorage (target : nat) : Op unit :=
  tuple ← readTuple target;
  writeTuple target (setPendingDeleteOnUndoRelease false
                       (setPendingDelete false (setActive false tuple)));;
  modifyTable (fun t => setTupleCount (m_tupleCount t - 1) t);;
  (if isPendingDelete tuple
   then modifyTable (fun t => setInvisibleTuplesPendingDeleteCount
                                (m_invisibleTuplesPendingDeleteCount t - 1) t)
   else mret tt);;
  emit (EvFreeSlot target).

(** *** Indexes of the table *)

(** [tryInsertOnAllIndexes]: the indexes after the call, the conflicting
    tuple if an index refused the tuple, and the steps taken.  [done]
    are the indexes that took the tuple, in order. *)
Fixpoint tryInsertOnIndexes (tuple : TupleStorage) (address : nat)
    (done todo : list TableIndex) : list TableIndex * option nat * list Event :=
  match todo with
  | [] => (done, None, [])
  | index :: rest =>
      match addEntry index tuple address with
      | (index', None) =>
          let '(indexes, conflict, events) :=
            tryInsertOnIndexes tuple address (done ++ [index']) rest in
          (indexes, conflict, EvIndexAdd (length done) address :: events)
      | (_, Some conflict) =>
          (* for (int j = 0; j < i; ++j) m_indexes[j]->deleteEntry(tuple); *)
          (map (fun j => fst (deleteEntry j tuple address)) done ++ index :: rest,
           Some conflict,
           imap (fun j _ => EvIndexDelete j address) done)
      end
  end.

Definition emitAll (events : list Event) : Op unit :=
  modifyEngine (fun e => setTrace (trace e ++ events) e).

Definition tryInsertOnAllIndexes (tuple : nat) : Op (option nat) :=
  data ← readTuple tuple;
  e ← getEngine;
  let '(indexes, conflict, events) :=
    tryInsertOnIndexes data tuple [] (m_indexes (table e)) in
  modifyTable (setIndexes indexes);;
  emitAll events;;
  mret conflict.

(** The loop of [deleteFromAllIndexes]; [None] when an index has no
    entry for the tuple. *)
Fixpoint deleteFromIndexes (tuple : TupleStorage) (address : nat)
    (indexes : list TableIndex) : option (list TableIndex) :=
  match indexes with
  | [] => Some []
  | index :: rest =>
      match deleteEntry index tuple address with
      | (index', true) => cons index' <$> deleteFromIndexes tuple address rest
      | (_, false) => None
      end
  end.

Definition deleteFromAllIndexes (tuple : nat) : Op unit :=
  data ← readTuple tuple;
  e ← getEngine;
  match deleteFromIndexes data tuple (m_indexes (table e)) with
  | Some indexes =>
      modifyTable (setIndexes indexes);;
      emitAll (imap (fun j _ => EvIndexDelete j tuple) indexes)
  | None => throwFatalException "Failed to delete tuple in Table"
  end.

(** The loop of [insertIntoAllIndexes]; [None] when an index reports a
    conflict. *)
Fixpoint insertIntoIndexes (tuple : TupleStorage) (address : nat)
    (indexes : list TableIndex) : option (list TableIndex) :=
  match indexes with
  | [] => Some []
  | index :: rest =>
      match addEntry index tuple address with
      | (index', None) => cons index' <$> insertIntoIndexes tuple address rest
      | (_, Some _) => None
      end
  end.

Definition insertIntoAllIndexes (tuple : nat) : Op unit :=
  data ← readTuple tuple;
  e ← getEngine;
  match insertIntoIndexes data tuple (m_indexes (table e)) with
  | Some indexes =>
      modifyTable (setIndexes indexes);;
      emitAll (imap (fun j _ => EvIndexAdd j tuple) indexes)
  | None => throwFatalException "Failed to insert tuple in Table"
  end.

Definition checkNulls (t : PersistentTable) (tuple : TupleStorage) : bool :=
  forallb (fun i => nth i (m_allowNulls t) true
                    || negb (isNull (nth i (m_columns tuple) NullValue)))
          (rev (seq 0 (columnCount (m_schema t)))).

(** *** DR emission from the table *)

Definition getUniqueIndexForDROp : Op (option nat * Z) :=
  e ← getEngine;
  let (result, t) :=
    getUniqueIndexForDR crc32cInit crc32c crc32cFinish
      (getIsActiveActiveDREnabled (executorContext e)) (table e) in
  modifyTable (fun _ => t);;
  mret result.

Definition partitionValue (t : PersistentTable) (tuple : TupleStorage) : NValue :=
  if m_partitionColumn t <? 0 then NullValue
  else nth (Z.to_nat (m_partitionColumn t)) (m_columns tuple) NullValue.

(** The block [if (drStream && !m_isMaterialized && m_drEnabled) { ...
    drMark = drStream->appendTuple(...); }] of insert and delete:
    [records] are the images to write, one for an insert or a delete,
    two for an update.  The result is the mark, [INVALID_DR_MARK] when
    nothing was appended. *)
Definition appendToDRStream (type : DRRecordType) (images : list TupleStorage)
    (partitionTuple : TupleStorage) (shouldDRStream : bool) : Op Z :=
  e ← getEngine;
  match drStream e with
  | Some _ =>
      if negb (m_isMaterialized (table e)) && m_drEnabled (table e) && shouldDRStream
      then
        uniqueIndex ← getUniqueIndexForDROp;
        e ← getEngine;
        match drStream e with
        | Some stream =>
            match appendRecord (m_signature (table e))
                    (partitionValue (table e) partitionTuple)
                    (currentUniqueId (executorContext e)) type images uniqueIndex stream with
            | AppendedAt mark stream' =>
                modifyEngine (setDRStream (Some stream'));;
                emit (EvDRAppend type mark);;
                mret mark
            | BufferOverflow =>
                throw (TupleStreamException volt_output_buffer_overflow)
            end
        | None => mret DRTupleStreamFormat.INVALID_DR_MARK
        end
      else mret DRTupleStreamFormat.INVALID_DR_MARK
  | None => mret DRTupleStreamFormat.INVALID_DR_MARK
  end.

(** Modelled from the spec: [PersistentTableSurgeon::DRRollback]
    ([storage/persistenttable.h] is not part of these sources): the
    undo path "calls [rollbackTo(mark)] on the DR stream" of a table
    that streams to DR. *)
Definition DRRollback (drMark drRowCost : Z) : Op unit :=
  e ← getEngine;
  if negb (m_isMaterialized (table e)) && m_drEnabled (table e) then
    match drStream e with
    | Some stream =>
        modifyEngine (setDRStream (Some (rollbackTo drMark drRowCost stream)));;
        emit (EvDRRollback drMark drRowCost)
    | None => mret tt
    end
  else mret tt.

(** [uq->registerUndoAction(...)] *)
Definition registerUndoAction (action : UndoAction) : Op unit :=
  modifyEngine (fun e =>
    setUndoQuantum (cons action <$> currentUndoQuantum e) e);;
  emit (EvRegisterUndo action).

(** The value [setDRTimestampForTuple] leaves in a tuple. *)
Definition withDRTimestamp (t : PersistentTable) (drTimestamp : Z) (update : bool)
    (tuple : TupleStorage) : TupleStorage :=
  let column := Z.to_nat (m_drTimestampColumnIndex t) in
  if update || isNull (nth column (m_hiddenColumns tuple) NullValue)
  then setHiddenNValue column (InlineValue drTimestamp) tuple
  else tuple.

Definition setDRTimestampForTuple (tuple : nat) (update : bool) : Op unit :=
  e ← getEngine;
  assert (hasDRTimestampColumn (table e));;
  data ← readTuple tuple;
  writeTuple tuple (withDRTimestamp (table e) (currentDRTimestamp (executorContext e))
                                    update data);;
  emit (EvWriteTuple tuple).

(** [for (int i = 0; i < m_views.size(); i++) m_views[i]->processTupleInsert(...)]:
    the views are observers; the model records that they were told. *)
Definition notifyViewsOfInsert (tuple : nat) : Op unit :=
  e ← getEngine;
  emitAll (imap (fun i _ => EvViewInsert i tuple) (m_views (table e))).

Definition notifyViewsOfDelete (tuple : nat) : Op unit :=
  e ← getEngine;
  emitAll (imap (fun i _ => EvViewDelete i tuple) (m_views (table e))).

(** The scope of a [SetAndRestorePendingDeleteFlag]. *)
Definition withPendingDeleteFlag (target : nat) (body : Op unit) : Op unit :=
  tuple ← readTuple target;
  assert (negb (isPendingDelete tuple));;
  writeTuple target (setPendingDelete true tuple);;
  body;;
  tuple' ← readTuple target;
  writeTuple target (setPendingDelete false tuple').

(** *** Insert *)

Definition insertTupleCommon (source : TupleStorage) (target : nat)
    (fallible shouldDRStream : bool) : Op unit :=
  e ← getEngine;
  data ← readTuple target;
  (if fallible && negb (checkNulls (table e) data)
   then throw (ConstraintFailureException CONSTRAINT_TYPE_NOT_NULL source None)
   else mret tt);;
  (* Write to DR stream before everything else to ensure nothing gets
     left in the index if the append fails. *)
  (if hasDRTimestampColumn (table e) then setDRTimestampForTuple target false
   else mret tt);;
  data ← readTuple target;
  drMark ← appendToDRStream DR_RECORD_INSERT [data] data shouldDRStream;
  writeTuple target (setPendingDeleteOnUndoRelease false
                       (setPendingDelete false (setActive true data)));;
  emit (EvSetFlags target);;
  data ← readTuple target;
  (match m_tableStreamer (table e) with
   | Some streamer =>
       if notifyTupleInsert streamer data then mret tt
       else writeTuple target (setDirty false data)
   | None => writeTuple target (setDirty false data)
   end);;
  conflict ← tryInsertOnAllIndexes target;
  match conflict with
  | Some conflictTuple =>
      (* Roll the DR stream back because the undo action is not registered *)
      DRRollback drMark (rowCostForDRRecord DR_RECORD_INSERT);;
      throw (ConstraintFailureException CONSTRAINT_TYPE_UNIQUE source (Some conflictTuple))
  | None =>
      (if fallible then
         e ← getEngine;
         match currentUndoQuantum e with
         | Some _ =>
             tupleData ← readTuple target;
             registerUndoAction (PersistentTableUndoInsertAction tupleData drMark)
         | None => mret tt
         end
       else mret tt);;
      notifyViewsOfInsert target
  end.

Definition insertPersistentTuple (source : TupleStorage) (fallible : bool) : Op unit :=
  e ← getEngine;
  (if fallible && (m_tupleLimit (table e) <=? visibleTupleCount (table e))
   then throw (ConstraintFailureException CONSTRAINT_TYPE_ROW_LIMIT source None)
   else mret tt);;
  target ← nextFreeTuple;
  copyForPersistentInsert target source;;
  tryCatch (insertTupleCommon source target fallible true)
           (fun x => deleteTupleStorage target;; throw x).

Definition insertTuple (source : TupleStorage) : Op bool :=
  insertPersistentTuple source true;;
  mret true.

(** [insertTupleForUndo]: the tuple was never moved, just marked as
    deleted; it goes back into the indexes. *)
Definition insertTupleForUndo (tuple : nat) : Op unit :=
  data ← readTuple tuple;
  writeTuple tuple (setPendingDeleteOnUndoRelease false data);;
  emit (EvSetFlags tuple);;
  modifyTable (fun t => setTuplesPinnedByUndo (m_tuplesPinnedByUndo t - 1) t);;
  modifyTable (fun t => setInvisibleTuplesPendingDeleteCount
                          (m_invisibleTuplesPendingDeleteCount t - 1) t);;
  conflict ← tryInsertOnAllIndexes tuple;
  match conflict with
  | Some _ =>
      throwFatalException
        "Failed to insert tuple into table for undo: unique constraint violation"
  | None => mret tt
  end.

(** *** Update *)

Definition checkUpdateOnUniqueIndexes (t : PersistentTable)
    (targetTupleToUpdate sourceTupleWithNewValues : TupleStorage)
    (indexesToUpdate : list nat) : bool :=
  forallb (fun i =>
             match m_indexes t !! i with
             | Some index =>
                 if isUniqueIndex index then
                   if negb (checkForIndexChange index targetTupleToUpdate
                                                sourceTupleWithNewValues)
                   then true  (* no update is needed for this index *)
                   else negb (indexExists index sourceTupleWithNewValues)
                 else true
             | None => true
             end)
          indexesToUpdate.

(** The first loop over [indexesToUpdate]: the indexes after the
    removals and [indexRequiresUpdate]; [None] when [deleteEntry] fails. *)
Fixpoint removeFromIndexesToUpdate (target source : TupleStorage) (address : nat)
    (indexesToUpdate : list nat) (indexes : list TableIndex)
  : option (list TableIndex * list bool) :=
  match indexesToUpdate with
  | [] => Some (indexes, [])
  | i :: rest =>
      match indexes !! i with
      | Some index =>
          if negb (keyUsesNonInlinedMemory index)
             && negb (checkForIndexChange index target source)
          then
            '(indexes', flags) ← removeFromIndexesToUpdate target source address rest indexes;
            Some (indexes', false :: flags)
          else
            match deleteEntry index target address with
            | (index', true) =>
                '(indexes', flags) ← removeFromIndexesToUpdate target source address rest
                                       (<[i := index']> indexes);
                Some (indexes', true :: flags)
            | (_, false) => None
            end
      | None => None
      end
  end.

(** The second loop: the updated tuple goes back into the indexes it
    was removed from; [None] when [addEntry] reports a conflict. *)
Fixpoint addToIndexesToUpdate (updated : TupleStorage) (address : nat)
    (indexesToUpdate : list nat) (indexRequiresUpdate : list bool)
    (indexes : list TableIndex) : option (list TableIndex) :=
  match indexesToUpdate, indexRequiresUpdate with
  | i :: rest, required :: flags =>
      if required then
        match indexes !! i with
        | Some index =>
            match addEntry index updated address with
            | (index', None) =>
                addToIndexesToUpdate updated address rest flags (<[i := index']> indexes)
            | (_, Some _) => None
            end
        | None => None
        end
      else addToIndexesToUpdate updated address rest flags indexes
  | _, _ => Some indexes
  end.

Definition updateEvents (make : nat -> Event) (indexesToUpdate : list nat)
    (indexRequiresUpdate : list bool) : list Event :=
  map make (map fst (List.filter (fun p : nat * bool => snd p)
                                 (zip indexesToUpdate indexRequiresUpdate))).

(** Modelled from the spec: the cells [copyForPersistentUpdate] leaves
    in the slot, "update out-of-line object bookkeeping (free old,
    record new); copy new values into the in-place slot": a cell of the
    source that points at the object the target already holds keeps that
    object; any other object of the source is copied into a new object,
    and the object the target held, if any, is noted as old. *)
Fixpoint copyChangedObjects (next : Z) (old new : list NValue)
  : list NValue * list Z * list Z * Z :=
  match new with
  | [] => ([], [], [], next)
  | cell :: new' =>
      let held := match head old with
                  | Some (ObjectValue q _) => Some q
                  | _ => None
                  end in
      match cell with
      | ObjectValue p data =>
          if bool_decide (held = Some p) then
            let '(cells, oldObjects, newObjects, n) :=
              copyChangedObjects next (tail old) new' in
            (nth 0 old cell :: cells, oldObjects, newObjects, n)
          else
            let '(cells, oldObjects, newObjects, n) :=
              copyChangedObjects (next + 1) (tail old) new' in
            (ObjectValue next data :: cells,
             match held with Some q => q :: oldObjects | None => oldObjects end,
             next :: newObjects, n)
      | _ =>
          let '(cells, oldObjects, newObjects, n) :=
            copyChangedObjects next (tail old) new' in
          (cell :: cells,
           match held with Some q => q :: oldObjects | None => oldObjects end,
           newObjects, n)
      end
  end.

(** [targetTupleToUpdate.copyForPersistentUpdate(source, oldObjects,
    newObjects)]: the header of the source comes with its data. *)
Definition copyForPersistentUpdate (target : nat) (source : TupleStorage)
  : Op (list Z * list Z) :=
  e ← getEngine;
  held ← readTuple target;
  let '(columns, old1, new1, n1) :=
    copyChangedObjects (nextObject e) (m_columns held) (m_columns source) in
  let '(hidden, old2, new2, n2) :=
    copyChangedObjects n1 (m_hiddenColumns held) (m_hiddenColumns source) in
  modifyEngine (setNextObject n2);;
  writeTuple target (mkTuple (isActive source) (isDirty source) (isPendingDelete source)
                             (isPendingDeleteOnUndoRelease source) columns hidden);;
  emit (EvWriteTuple target);;
  mret (old1 ++ old2, new1 ++ new2).

Definition updateTupleWithSpecificIndexes (targetTupleToUpdate : nat)
    (sourceTupleWithNewValues : TupleStorage) (indexesToUpdate : list nat)
    (fallible updateDRTimestamp : bool) : Op bool :=
  e ← getEngine;
  assert (forallb (fun i => (i <? length (m_indexes (table e)))%nat) indexesToUpdate);;
  target ← readTuple targetTupleToUpdate;
  (* Check for index constraint violations; save the tuple for undo. *)
  oldTupleData ←
    (if fallible then
       if negb (checkUpdateOnUniqueIndexes (table e) target sourceTupleWithNewValues
                                           indexesToUpdate)
       then throw (ConstraintFailureException CONSTRAINT_TYPE_UNIQUE
                     sourceTupleWithNewValues (Some targetTupleToUpdate))
       else if negb (checkNulls (table e) sourceTupleWithNewValues)
       then throw (ConstraintFailureException CONSTRAINT_TYPE_NOT_NULL
                     sourceTupleWithNewValues (Some targetTupleToUpdate))
       else mret (match currentUndoQuantum e with
                  | Some _ => Some target
                  | None => None
                  end)
     else mret None);
  (* Write to the DR stream before doing anything else to ensure we don't
     leave a half updated tuple behind in case this throws. *)
  let source :=
    if hasDRTimestampColumn (table e) && updateDRTimestamp
    then withDRTimestamp (table e) (currentDRTimestamp (executorContext e)) true
                         sourceTupleWithNewValues
    else sourceTupleWithNewValues in
  drMark ← appendToDRStream DR_RECORD_UPDATE [target; source] target true;
  (* Remove the current tuple from any indexes. *)
  let someIndexGotUpdated := negb (bool_decide (indexesToUpdate = [])) in
  e ← getEngine;
  indexRequiresUpdate ←
    match removeFromIndexesToUpdate target source targetTupleToUpdate indexesToUpdate
            (m_indexes (table e)) with
    | Some (indexes, flags) =>
        modifyTable (setIndexes indexes);;
        emitAll (updateEvents (fun i => EvIndexDelete i targetTupleToUpdate)
                              indexesToUpdate flags);;
        mret flags
    | None => throwFatalException "Failed to remove tuple from index (during update)"
    end;
  (* handle any materialized views, hide the tuple from the scan temporarily. *)
  withPendingDeleteFlag targetTupleToUpdate (notifyViewsOfDelete targetTupleToUpdate);;
  target' ← readTuple targetTupleToUpdate;
  let source := setDirty (isDirty target') (setActive true source) in
  (* this is the actual write of the new values *)
  '(oldObjects, newObjects) ← copyForPersistentUpdate targetTupleToUpdate source;
  (match oldTupleData with
   | Some old =>
       newTupleData ← readTuple targetTupleToUpdate;
       registerUndoAction (PersistentTableUndoUpdateAction old newTupleData
                             oldObjects newObjects someIndexGotUpdated drMark)
   | None => mret tt
   end);;
  (* Insert the updated tuple back into the indexes. *)
  e ← getEngine;
  updated ← readTuple targetTupleToUpdate;
  match addToIndexesToUpdate updated targetTupleToUpdate indexesToUpdate
          indexRequiresUpdate (m_indexes (table e)) with
  | Some indexes =>
      modifyTable (setIndexes indexes);;
      emitAll (updateEvents (fun i => EvIndexAdd i targetTupleToUpdate)
                            indexesToUpdate indexRequiresUpdate);;
      notifyViewsOfInsert targetTupleToUpdate;;
      mret true
  | None => throwFatalException "Failed to insert updated tuple into index"
  end.

(** Modelled from the spec: [updateTuple(target, source)]
    ([storage/persistenttable.h] is not part of these sources): the
    update that hands every index of the table to
    [updateTupleWithSpecificIndexes]. *)
Definition updateTuple (targetTupleToUpdate : nat) (sourceTupleWithNewValues : TupleStorage)
  : Op bool :=
  e ← getEngine;
  updateTupleWithSpecificIndexes targetTupleToUpdate sourceTupleWithNewValues
    (seq 0 (length (m_indexes (table e)))) true true.

(** *** Delete *)

(** [deleteTupleFinalize]: a snapshot in progress may ask that the tuple
    be kept, flagged, until its scan has passed. *)
Definition deleteTupleFinalize (target : nat) : Op unit :=
  e ← getEngine;
  tuple ← readTuple target;
  match m_tableStreamer (table e) with
  | Some streamer =>
      if negb (notifyTupleDelete streamer tuple) then
        (* Mark it pending delete and let the snapshot land the finishing blow. *)
        if isPendingDelete tuple then mret tt
        else
          modifyTable (fun t => setInvisibleTuplesPendingDeleteCount
                                  (m_invisibleTuplesPendingDeleteCount t + 1) t);;
          writeTuple target (setPendingDelete true tuple);;
          emit (EvSetFlags target)
      else deleteTupleStorage target
  | None =>
      (* No snapshot in progress cares, just whack it. *)
      deleteTupleStorage target
  end.

Definition deleteTuple (target : nat) (fallible : bool) : Op bool :=
  tuple ← readTuple target;
  (* May not delete an already deleted tuple. *)
  assert (isActive tuple);;
  (* Write to the DR stream before doing anything else to ensure nothing
     will be left forgotten in case this throws. *)
  drMark ← appendToDRStream DR_RECORD_DELETE [tuple] tuple true;
  (* Just like insert, we want to remove this tuple from all of our indexes *)
  deleteFromAllIndexes target;;
  (* handle any materialized views, hide the tuple from the scan temporarily. *)
  withPendingDeleteFlag target (notifyViewsOfDelete target);;
  e ← getEngine;
  match (if fallible then currentUndoQuantum e else None) with
  | Some _ =>
      tuple ← readTuple target;
      writeTuple target (setPendingDeleteOnUndoRelease true tuple);;
      emit (EvSetFlags target);;
      modifyTable (fun t => setTuplesPinnedByUndo (m_tuplesPinnedByUndo t + 1) t);;
      modifyTable (fun t => setInvisibleTuplesPendingDeleteCount
                              (m_invisibleTuplesPendingDeleteCount t + 1) t);;
      (* Create and register an undo action. *)
      registerUndoAction (PersistentTableUndoDeleteAction target drMark);;
      mret true
  | None =>
      (* Here, for reasons of infallibility or no active UndoLog, there
         is no undo, there is only DO. *)
      deleteTupleFinalize target;;
      mret true
  end.

(** [deleteTupleRelease]: triggered by the successful release of an
    undo-delete action. *)
Definition deleteTupleRelease (tupleData : nat) : Op unit :=
  tuple ← readTuple tupleData;
  writeTuple tupleData (setPendingDeleteOnUndoRelease false tuple);;
  emit (EvSetFlags tupleData);;
  modifyTable (fun t => setTuplesPinnedByUndo (m_tuplesPinnedByUndo t - 1) t);;
  modifyTable (fun t => setInvisibleTuplesPendingDeleteCount
                          (m_invisibleTuplesPendingDeleteCount t - 1) t);;
  deleteTupleFinalize tupleData.

(** What a [char*] handed to the undo entry points designates: a tuple
    of the table, or a copy in the undo pool. *)
Inductive TuplePointer : Type :=
| InTable (address : nat)
| InPool (data : TupleStorage).

Definition lookupTupleForUndoOp (matchable : TupleStorage) : Op (option nat) :=
  e ← getEngine;
  mret (lookupTupleForUndo (table e) matchable).

(** [deleteTupleForUndo(tupleData, skipLookup)] *)
Definition deleteTupleForUndo (tupleData : TuplePointer) (skipLookup : bool) : Op unit :=
  target ←
    match tupleData with
    | InTable address =>
        if skipLookup then mret (Some address)
        else matchable ← readTuple address; lookupTupleForUndoOp matchable
    | InPool matchable =>
        if skipLookup then (fun _ => AssertionFailed)
        else lookupTupleForUndoOp matchable
    end;
  match target with
  | None => throwFatalException "Failed to delete tuple from table: tuple does not exist"
  | Some target =>
      (* Make sure that they are not trying to delete the same tuple twice *)
      tuple ← readTuple target;
      assert (isActive tuple);;
      deleteFromAllIndexes target;;
      deleteTupleFinalize target
  end.

(** The loops of [updateTupleForUndo] over all the indexes. *)
Definition revertIndexEvents (make : nat -> Event) (indexes : list TableIndex)
  : list Event :=
  imap (fun i _ => make i) indexes.

(** [updateTupleForUndo(tupleWithUnwantedValues,
    sourceTupleDataWithNewValues, revertIndexes)] *)
Definition updateTupleForUndo (tupleWithUnwantedValues
    sourceTupleDataWithNewValues : TupleStorage) (revertIndexes : bool) : Op unit :=
  e ← getEngine;
  let matchable :=
    if revertIndexes || negb (bool_decide (is_Some (primaryKeyIndex (table e))))
    then tupleWithUnwantedValues
    else sourceTupleDataWithNewValues in
  found ← lookupTupleForUndoOp matchable;
  match found with
  | None => fun _ => AssertionFailed   (* the null tuple is dereferenced *)
  | Some targetTupleToUpdate =>
      target ← readTuple targetTupleToUpdate;
      (* If the indexes were never updated there is no need to revert them. *)
      (if revertIndexes then
         match deleteFromIndexes target targetTupleToUpdate (m_indexes (table e)) with
         | Some indexes =>
             modifyTable (setIndexes indexes);;
             emitAll (revertIndexEvents (fun i => EvIndexDelete i targetTupleToUpdate)
                                        indexes)
         | None => throwFatalException "Failed to update tuple in Table"
         end
       else mret tt);;
      let dirty := isDirty target in
      (* this is the actual in-place revert to the old version *)
      writeTuple targetTupleToUpdate (setDirty dirty sourceTupleDataWithNewValues);;
      emit (EvWriteTuple targetTupleToUpdate);;
      (if revertIndexes then
         e ← getEngine;
         reverted ← readTuple targetTupleToUpdate;
         match insertIntoIndexes reverted targetTupleToUpdate (m_indexes (table e)) with
         | Some indexes =>
             modifyTable (setIndexes indexes);;
             emitAll (revertIndexEvents (fun i => EvIndexAdd i targetTupleToUpdate)
                                        indexes)
         | None => throwFatalException "Failed to update tuple in Table"
         end
       else mret tt)
  end.

(** *** Compaction moves *)

(** The loop of [swapTuples] over the indexes; [None] when
    [replaceEntryNoKeyChange] fails. *)
Fixpoint replaceInIndexes (original : TupleStorage)
    (originalAddress destinationAddress : nat) (indexes : list TableIndex)
  : option (list TableIndex) :=
  match indexes with
  | [] => Some []
  | index :: rest =>
      match replaceEntryNoKeyChange index original originalAddress destinationAddress with
      | (index', true) =>
          cons index' <$> replaceInIndexes original originalAddress destinationAddress rest
      | (_, false) => None
      end
  end.

Definition swapTuples (originalTuple destinationTuple : nat) : Op unit :=
  original ← readTuple originalTuple;
  _ ← readTuple destinationTuple;
  (* ::memcpy(destinationTuple.address(), originalTuple.address(), m_tupleLength); *)
  writeTuple destinationTuple original;;
  emit (EvWriteTuple destinationTuple);;
  original ← readTuple originalTuple;
  writeTuple originalTuple (setActive false original);;
  emit (EvSetFlags originalTuple);;
  original ← readTuple originalTuple;
  assert (negb (isPendingDeleteOnUndoRelease original));;
  (* If the tuple is pending deletion then it isn't in any of the indexes. *)
  if negb (isPendingDelete original) then
    e ← getEngine;
    match replaceInIndexes original originalTuple destinationTuple
            (m_indexes (table e)) with
    | Some indexes =>
        modifyTable (setIndexes indexes);;
        emitAll (imap (fun i _ => EvIndexReplace i originalTuple destinationTuple)
                      indexes)
    | None => throwFatalException "Failed to update tuple in Table"
    end
  else mret tt.

(** *** The undo log and the flush *)

(** Modelled from the spec: what an undo action does when it is undone:
    "the undo action reverses storage and indexes and calls
    [rollbackTo(mark)] on the DR stream, truncating unpublished bytes". *)
Definition undoAction (action : UndoAction) : Op unit :=
  match action with
  | PersistentTableUndoInsertAction tupleData drMark =>
      deleteTupleForUndo (InPool tupleData) false;;
      DRRollback drMark (rowCostForDRRecord DR_RECORD_INSERT)
  | PersistentTableUndoDeleteAction tuple drMark =>
      insertTupleForUndo tuple;;
      DRRollback drMark (rowCostForDRRecord DR_RECORD_DELETE)
  | PersistentTableUndoUpdateAction oldTuple newTuple _ _ revertIndexes drMark =>
      updateTupleForUndo newTuple oldTuple revertIndexes;;
      DRRollback drMark (rowCostForDRRecord DR_RECORD_UPDATE)
  end.

Fixpoint undoActions (actions : list UndoAction) : Op unit :=
  match actions with
  | [] => mret tt
  | action :: older => undoAction action;; undoActions older
  end.

(** Modelled from the spec: the abort of a transaction, "the caller
    undoes the undo quantum (running undo actions in reverse)"; the
    quantum is then empty. *)
Definition undoUndoQuantum : Op unit :=
  e ← getEngine;
  match currentUndoQuantum e with
  | Some actions =>
      modifyEngine (setUndoQuantum (Some []));;
      undoActions actions
  | None => mret tt
  end.

(** The tick of the test harness: the stream flushes, and the topend
    keeps the buffer it is handed (what the test calls
    [receivedDRBuffer]). *)
Definition flushDRStream : Op bool :=
  e ← getEngine;
  match drStream e with
  | Some stream =>
      match periodicFlush stream with
      | (Some buffer, stream') =>
          modifyEngine (fun e => setTopend (topend e ++ [buffer])
                                   (setDRStream (Some stream') e));;
          mret true
      | (None, _) => mret false
      end
  | None => mret false
  end.

(** The commit of a transaction by the test harness: the quantum is
    released and the stream closes its frame. *)
Definition endTransactionOp : Op unit :=
  e ← getEngine;
  match drStream e with
  | Some stream =>
      modifyEngine (setDRStream
                      (Some (endTransaction (currentUniqueId (executorContext e)) stream)))
  | None => mret tt
  end.

(** ** Facts about the model *)

Ltac op_unfold :=
  unfold mbind, Op_bind, mret, Op_ret, readTuple, writeTuple, emit, emitAll,
    modifyTable, modifyEngine, assert, getEngine, throw, throwFatalException,
    tryCatch in *.

Lemma replaceInIndexes_each original o d indexes : forall indexes',
  replaceInIndexes original o d indexes = Some indexes' ->
  Forall2 (fun index index' =>
             replaceEntryNoKeyChange index original o d = (index', true))
          indexes indexes'.
Proof.
  induction indexes as [|index rest IH]; intros indexes'; simpl.
  - intros [= <-]. constructor.
  - destruct (replaceEntryNoKeyChange index original o d) as [index' [|]] eqn:E;
      [|discriminate].
    destruct (replaceInIndexes original o d rest) as [rest'|] eqn:Er; [|discriminate].
    simpl. intros [= <-]. constructor; auto.
Qed.

Lemma replaceInIndexes_None original o d indexes :
  replaceInIndexes original o d indexes = None ->
  Exists (fun index => snd (replaceEntryNoKeyChange index original o d) = false) indexes.
Proof.
  induction indexes as [|index rest IH]; simpl; [discriminate|].
  destruct (replaceEntryNoKeyChange index original o d) as [index' [|]] eqn:E.
  - destruct (replaceInIndexes original o d rest); [discriminate|].
    intros _. apply Exists_cons_tl. now apply IH.
  - intros _. apply Exists_cons_hd. now rewrite E.
Qed.

(** An event that tells of an index being changed. *)
Definition isIndexEvent (ev : Event) : bool :=
  match ev with
  | EvIndexAdd _ _ | EvIndexDelete _ _ | EvIndexReplace _ _ _ => true
  | _ => false
  end.

(** C10. A compaction move of [originalTuple] to another slot: when the
    tuple is flagged pending-delete-on-undo-release the assertion of
    [swapTuples] fails and nothing is moved.  Otherwise the destination
    slot receives the bytes of the tuple, header included, and the
    original slot is deactivated; when the tuple is flagged
    pending-delete no index is touched, and when it is not, the call
    rewrites the entry of the tuple in every index with
    [replaceEntryNoKeyChange] (and is fatal if an index has none). *)
Theorem swapTuples_moves (e : Engine) (originalTuple destinationTuple : nat)
    (original destination : TupleStorage) :
  originalTuple <> destinationTuple ->
  m_tuples (table e) !! originalTuple = Some original ->
  m_tuples (table e) !! destinationTuple = Some destination ->
  let moved := <[originalTuple := setActive false original]>
                 (<[destinationTuple := original]> (m_tuples (table e))) in
  (isPendingDeleteOnUndoRelease original = true ->
   swapTuples originalTuple destinationTuple e = AssertionFailed) /\
  (isPendingDeleteOnUndoRelease original = false ->
   isPendingDelete original = true ->
   exists e',
     swapTuples originalTuple destinationTuple e = Returns tt e' /\
     m_tuples (table e') = moved /\
     m_indexes (table e') = m_indexes (table e) /\
     trace e' = trace e ++ [EvWriteTuple destinationTuple; EvSetFlags originalTuple]) /\
  (isPendingDeleteOnUndoRelease original = false ->
   isPendingDelete original = false ->
   match replaceInIndexes (setActive false original) originalTuple destinationTuple
           (m_indexes (table e)) with
   | Some indexes =>
       exists e',
         swapTuples originalTuple destinationTuple e = Returns tt e' /\
         m_tuples (table e') = moved /\
         m_indexes (table e') = indexes /\
         Forall2 (fun index index' =>
                    replaceEntryNoKeyChange index (setActive false original)
                      originalTuple destinationTuple = (index', true))
                 (m_indexes (table e)) indexes
   | None =>
       exists message,
         swapTuples originalTuple destinationTuple e = FatalException message
   end).
Proof.
  intros Hne Ho Hd moved.
  assert (Hlen : (originalTuple < length (m_tuples (table e)))%nat)
    by (eapply lookup_lt_Some; eauto).
  assert (Ho' : <[destinationTuple := original]> (m_tuples (table e)) !! originalTuple
                = Some original)
    by (rewrite list_lookup_insert_ne by auto; exact Ho).
  assert (Ho'' : moved !! originalTuple = Some (setActive false original)).
  { unfold moved. apply list_lookup_insert_eq. now rewrite length_insert. }
  unfold swapTuples. op_unfold. rewrite Ho, Hd. simpl. rewrite Ho'. simpl.
  fold moved. rewrite Ho''. simpl.
  repeat split.
  - intros Hp. now rewrite Hp.
  - intros Hp Hpd. rewrite Hp, Hpd. simpl. eexists. repeat split.
    simpl. now rewrite <- app_assoc.
  - intros Hp Hpd. rewrite Hp, Hpd. simpl.
    destruct (replaceInIndexes (setActive false original) originalTuple destinationTuple
                (m_indexes (table e))) as [indexes|] eqn:E.
    + eexists. repeat split. now apply replaceInIndexes_each.
    + eexists. reflexivity.
Qed.

(** The second table of [DRBinaryLog_test.cpp]: TINYINT and BIGINT, with
    the unique index on (BIGINT, TINYINT). *)
Definition otherSchema : TupleSchema := mkSchema 2 0 0.

Definition the_index : TableIndex :=
  mkIndex "the_index" true false [1; 0]%nat 9 false [].

Definition otherTableWithIndex : PersistentTable :=
  addIndex the_index
    (newPersistentTable "OTHER_TABLE_1" 43 otherSchema [false; true] 0 false
                        2147483647 true).

Definition otherRow (tinyint bigint : Z) : TupleStorage :=
  mkTuple true false false false [InlineValue tinyint; InlineValue bigint] [].

(** A block of two slots: the row (42, 55555) in the first, indexed; the
    second is free. *)
Definition tableBeforeMove : PersistentTable :=
  setIndexes [setEntries [([KeyInline 55555; KeyInline 42], 0%nat)] the_index]
    (setTupleCount 1 (setTuples [otherRow 42 55555; freeSlot] otherTableWithIndex)).

Definition testContext : ExecutorContext := mkContext 99 99 98 70 70 false.

Definition engineBeforeMove : Engine :=
  mkEngine tableBeforeMove None None testContext [] 0 [].

(** C10 (witness): the row moves to the free slot, its old slot is
    deactivated and the entry of the index points at the new slot. *)
Lemma swapTuples_moves_witness :
  exists e',
    swapTuples 0 1 engineBeforeMove = Returns tt e' /\
    m_tuples (table e') = [setActive false (otherRow 42 55555); otherRow 42 55555] /\
    m_indexes (table e')
      = [setEntries [([KeyInline 55555; KeyInline 42], 1%nat)] the_index].
Proof.
  destruct (swapTuples_moves engineBeforeMove 0 1 (otherRow 42 55555) freeSlot)
    as (_ & _ & H); [discriminate | reflexivity | reflexivity |].
  specialize (H eq_refl eq_refl). simpl in H.
  destruct H as (e' & H1 & H2 & H3 & _). exists e'. split; [exact H1|].
  split; [exact H2 | exact H3].
Defined.

(** *** Slots and the tuples a scan returns *)

Lemma filter_insert_split {A} (P : A -> bool) (l : list A) (a : nat) (y : A) :
  l !! a = Some y ->
  exists rest,
    forall x, Permutation (List.filter P (<[a := x]> l))
                          ((if P x then [x] else []) ++ rest).
Proof.
  intros Hl. exists (List.filter P (take a l) ++ List.filter P (drop (S a) l)).
  intros x.
  assert (Ha : (a < length l)%nat) by (eapply lookup_lt_Some; eauto).
  rewrite insert_take_drop by exact Ha.
  rewrite List.filter_app. simpl.
  destruct (P x); simpl.
  - symmetry. apply Permutation_middle.
  - reflexivity.
Qed.

Lemma filter_insert_same {A} (P : A -> bool) (l : list A) (a : nat) (x y : A) :
  l !! a = Some y -> P y = false -> P x = false ->
  List.filter P (<[a := x]> l) = List.filter P l.
Proof.
  intros Hl Hy Hx.
  assert (Ha : (a < length l)%nat) by (eapply lookup_lt_Some; eauto).
  rewrite insert_take_drop by exact Ha.
  rewrite <- (take_drop_middle l a y Hl) at 3.
  rewrite !List.filter_app. simpl. now rewrite Hx, Hy.
Qed.

Lemma filter_insert_kept {A B} (P : A -> bool) (f : A -> B) (l : list A) (a : nat)
    (x y : A) :
  l !! a = Some y -> P y = P x -> f y = f x ->
  map f (List.filter P (<[a := x]> l)) = map f (List.filter P l).
Proof.
  intros Hl HP Hf.
  assert (Ha : (a < length l)%nat) by (eapply lookup_lt_Some; eauto).
  rewrite insert_take_drop by exact Ha.
  rewrite <- (take_drop_middle l a y Hl) at 3.
  rewrite !List.filter_app, !map_app. simpl. rewrite HP.
  destruct (P x); simpl; now rewrite ?Hf.
Qed.

(** Two tuples at different addresses are two elements of the list of
    the tuples that pass a test. *)
Lemma nodup_filter_lookup {A B} (f : A -> B) (P : A -> bool) (l : list A) :
  forall b c x y,
    NoDup (map f (List.filter P l)) ->
    l !! b = Some x -> l !! c = Some y -> b <> c ->
    P x = true -> P y = true -> f x <> f y.
Proof.
  assert (H : forall b c x y,
             NoDup (map f (List.filter P l)) ->
             l !! b = Some x -> l !! c = Some y -> (b < c)%nat ->
             P x = true -> P y = true -> f x <> f y).
  { intros b c x y Hnd Hb Hc Hlt Hx Hy Heq.
    rewrite <- (take_drop_middle l b x Hb) in Hnd.
    rewrite List.filter_app, map_app in Hnd. simpl in Hnd. rewrite Hx in Hnd. simpl in Hnd.
    apply NoDup_app in Hnd as (_ & _ & Hnd).
    apply NoDup_cons in Hnd as [Hnot _]. apply Hnot.
    rewrite Heq. apply list_elem_of_In, in_map, filter_In. split; [|exact Hy].
    apply list_elem_of_In, list_elem_of_lookup. exists (c - S b)%nat.
    rewrite lookup_drop. rewrite <- Hc. f_equal. lia. }
  intros b c x y Hnd Hb Hc Hne Hx Hy.
  destruct (Nat.lt_total b c) as [Hlt | [-> | Hlt]]; [eauto | congruence |].
  intros Heq. symmetry in Heq. exact (H c b y x Hnd Hc Hb Hlt Hy Hx Heq).
Qed.

Lemma nodup_filter_of_lookup {A B} (f : A -> B) (P : A -> bool) (l : list A) :
  (forall b c x y, l !! b = Some x -> l !! c = Some y ->
                   P x = true -> P y = true -> f x = f y -> b = c) ->
  NoDup (map f (List.filter P l)).
Proof.
  induction l as [|x l IH]; intros H; simpl; [constructor|].
  assert (Hrest : NoDup (map f (List.filter P l))).
  { apply IH. intros b c x' y' Hb Hc Hx Hy Heq.
    assert (S b = S c) by (eapply H; eauto). lia. }
  destruct (P x) eqn:Hx; [|exact Hrest]. simpl. apply NoDup_cons. split; [|exact Hrest].
  intros Hin. apply list_elem_of_In, in_map_iff in Hin as (y & Heq & Hin).
  apply filter_In in Hin as [Hin Hy].
  apply list_elem_of_In, list_elem_of_lookup in Hin as [c Hc].
  assert (O = S c) by (eapply (H O (S c) x y); eauto). discriminate.
Qed.

Lemma firstFreeSlot_spec tuples : forall address,
  (address <= firstFreeSlot address tuples <= address + length tuples)%nat /\
  forall t, tuples !! (firstFreeSlot address tuples - address)%nat = Some t ->
            isActive t = false.
Proof.
  induction tuples as [|x rest IH]; intros address; simpl.
  - split; [lia|]. intros t. now rewrite lookup_nil.
  - destruct (isActive x) eqn:Hx.
    + destruct (IH (S address)) as [Hb Hf]. split; [lia|]. intros t.
      replace (firstFreeSlot (S address) rest - address)%nat
        with (S (firstFreeSlot (S address) rest - S address)) by lia.
      simpl. apply Hf.
    + split; [lia|]. rewrite Nat.sub_diag. simpl. now intros t [= <-].
Qed.

Lemma isVisible_inactive t : isActive t = false -> isVisible t = false.
Proof. unfold isVisible. now intros ->. Qed.

(** *** Index entries *)

(** An index is in step with the tuples: it holds each visible tuple
    once, under the tuple's key, and nothing else. *)
Definition IndexOk (tuples : list TupleStorage) (index : TableIndex) : Prop :=
  NoDup (m_entries index) /\
  forall k a, In (k, a) (m_entries index) <->
              exists t, tuples !! a = Some t /\ isVisible t = true /\ keyOf index t = k.

Lemma keyOf_columns index t t' : m_columns t = m_columns t' -> keyOf index t = keyOf index t'.
Proof. unfold keyOf. now intros ->. Qed.

Lemma findKey_Some k e a : findKey k e = Some a -> In (k, a) e.
Proof.
  unfold findKey. destruct (find _ e) as [[k' a']|] eqn:E; [|discriminate].
  simpl. intros [= <-]. apply find_some in E as [Hin Hk].
  apply bool_decide_eq_true in Hk. simpl in Hk. now subst.
Qed.

Lemma findKey_None k e : findKey k e = None -> forall a, ~ In (k, a) e.
Proof.
  unfold findKey. destruct (find _ e) as [p|] eqn:E; [discriminate|].
  intros _ a Hin. pose proof (find_none _ _ E _ Hin) as H. simpl in H.
  apply bool_decide_eq_false in H. now apply H.
Qed.

Lemma findKey_is_Some k e a : In (k, a) e -> is_Some (findKey k e).
Proof.
  intros Hin. destruct (findKey k e) eqn:E; [eauto|].
  exfalso. eapply findKey_None; eauto.
Qed.

Lemma removeEntry_head k a e : removeEntry k a ((k, a) :: e) = Some e.
Proof. simpl. now rewrite bool_decide_eq_true_2. Qed.

Lemma removeEntry_Some k a e : forall e',
  removeEntry k a e = Some e' ->
  In (k, a) e /\
  (NoDup e -> NoDup e' /\ forall p, In p e' <-> In p e /\ p <> (k, a)).
Proof.
  induction e as [|p e IH]; intros e'; simpl; [discriminate|].
  destruct (bool_decide (p = (k, a))) eqn:E.
  - apply bool_decide_eq_true in E. subst p. intros [= <-]. split; [now left|].
    intros Hnd. apply NoDup_cons in Hnd as [Hnot Hnd]. split; [exact Hnd|].
    intros q. split.
    + intros Hq. split; [now right|]. intros ->. apply Hnot. now apply list_elem_of_In.
    + intros [[<- | Hq] Hne]; [congruence | exact Hq].
  - apply bool_decide_eq_false in E.
    destruct (removeEntry k a e) as [e1|] eqn:Er; [|discriminate].
    simpl. intros [= <-]. destruct (IH e1 eq_refl) as [Hin Hrest].
    split; [now right|]. intros Hnd. apply NoDup_cons in Hnd as [Hnot Hnd].
    destruct (Hrest Hnd) as [Hnd1 Hiff]. split.
    + apply NoDup_cons. split; [|exact Hnd1]. intros Hp. apply Hnot.
      apply list_elem_of_In. apply list_elem_of_In in Hp. now apply Hiff in Hp.
    + intros q. simpl. rewrite Hiff. split.
      * intros [<- | [Hq Hne]]; [split; [now left | congruence] | split; [now right | exact Hne]].
      * intros [[<- | Hq] Hne]; [now left | right; now split].
Qed.

Lemma removeEntry_In k a e : In (k, a) e -> is_Some (removeEntry k a e).
Proof.
  induction e as [|p e IH]; simpl; [intros []|].
  intros [-> | Hin].
  - rewrite bool_decide_eq_true_2 by reflexivity. eauto.
  - destruct (bool_decide (p = (k, a))); [eauto|].
    destruct (IH Hin) as [e' ->]. simpl. eauto.
Qed.

Lemma IndexOk_ext tuples tuples' index :
  (forall a k, (exists t, tuples !! a = Some t /\ isVisible t = true /\ keyOf index t = k)
               <-> (exists t, tuples' !! a = Some t /\ isVisible t = true /\ keyOf index t = k)) ->
  IndexOk tuples index -> IndexOk tuples' index.
Proof.
  intros Hext [Hnd Hiff]. split; [exact Hnd|]. intros k a. now rewrite Hiff, Hext.
Qed.

Lemma IndexOk_insert_same tuples index a old new :
  tuples !! a = Some old -> isVisible new = isVisible old ->
  m_columns new = m_columns old ->
  IndexOk tuples index -> IndexOk (<[a := new]> tuples) index.
Proof.
  intros Hold Hv Hc. apply IndexOk_ext. intros b k.
  assert (Ha : (a < length tuples)%nat) by (eapply lookup_lt_Some; eauto).
  destruct (decide (a = b)) as [<- | Hne].
  - rewrite list_lookup_insert_eq by exact Ha. rewrite Hold. split.
    + intros (t & [= <-] & Ht & Hk). exists new. rewrite Hv. split; [reflexivity|].
      split; [exact Ht|]. rewrite <- Hk. now apply keyOf_columns.
    + intros (t & [= <-] & Ht & Hk). exists old. rewrite <- Hv. split; [reflexivity|].
      split; [exact Ht|]. rewrite <- Hk. symmetry. now apply keyOf_columns.
  - now rewrite list_lookup_insert_ne by exact Hne.
Qed.

Lemma IndexOk_invisible tuples index a old new :
  tuples !! a = Some old -> isVisible new = false -> isVisible old = false ->
  IndexOk tuples index -> IndexOk (<[a := new]> tuples) index.
Proof.
  intros Hold Hn Ho. apply IndexOk_ext. intros b k.
  assert (Ha : (a < length tuples)%nat) by (eapply lookup_lt_Some; eauto).
  destruct (decide (a = b)) as [<- | Hne].
  - rewrite list_lookup_insert_eq by exact Ha. rewrite Hold. split.
    + intros (t & [= <-] & Ht & _). congruence.
    + intros (t & [= <-] & Ht & _). congruence.
  - now rewrite list_lookup_insert_ne by exact Hne.
Qed.

Lemma IndexOk_new_slot tuples index :
  IndexOk tuples index -> IndexOk (tuples ++ [freeSlot]) index.
Proof.
  apply IndexOk_ext. intros a k. split.
  - intros (t & Hl & Ht & Hk). exists t. split; [|now split].
    now apply lookup_app_l_Some.
  - intros (t & Hl & Ht & Hk). exists t. split; [|now split].
    apply lookup_app_Some in Hl as [Hl | [_ Hl]]; [exact Hl|].
    apply list_lookup_singleton_Some in Hl as [_ <-]. discriminate.
Qed.

(** Adding the entry of a tuple that becomes visible. *)
Lemma addEntry_IndexOk tuples index data a old new index' :
  IndexOk tuples index ->
  tuples !! a = Some old -> isVisible old = false -> isVisible new = true ->
  keyOf index new = keyOf index data ->
  addEntry index data a = (index', None) ->
  IndexOk (<[a := new]> tuples) index'.
Proof.
  intros [Hnd Hiff] Hold Ho Hn Hk. unfold addEntry.
  assert (Ha : (a < length tuples)%nat) by (eapply lookup_lt_Some; eauto).
  destruct (if isUniqueIndex index then findKey (keyOf index data) (m_entries index)
            else None) eqn:E; [discriminate|].
  intros [= <-]. split; simpl.
  - apply NoDup_cons. split; [|exact Hnd]. intros Hin. apply list_elem_of_In in Hin.
    apply Hiff in Hin as (t & Hl & Ht & _). congruence.
  - intros k b. rewrite Hiff.
    destruct (decide (a = b)) as [<- | Hne].
    + rewrite list_lookup_insert_eq by exact Ha. rewrite Hold. split.
      * intros [[= <-] | (t & [= <-] & Ht & _)]; [|congruence].
        exists new. now repeat split.
      * intros (t & [= <-] & Ht & Hkt). left. f_equal. rewrite <- Hkt.
        now rewrite <- Hk.
    + rewrite list_lookup_insert_ne by exact Hne. split.
      * intros [[= _ Hab] | H]; [congruence | exact H].
      * intros H. now right.
Qed.

(** Removing the entry of a tuple that stops being visible. *)
Lemma deleteEntry_IndexOk tuples index data a old new :
  IndexOk tuples index ->
  tuples !! a = Some old -> isVisible old = true -> isVisible new = false ->
  keyOf index old = keyOf index data ->
  exists index',
    deleteEntry index data a = (index', true) /\
    IndexOk (<[a := new]> tuples) index'.
Proof.
  intros [Hnd Hiff] Hold Ho Hn Hk. unfold deleteEntry.
  assert (Ha : (a < length tuples)%nat) by (eapply lookup_lt_Some; eauto).
  assert (Hin : In (keyOf index data, a) (m_entries index)).
  { apply Hiff. exists old. now repeat split. }
  destruct (removeEntry_In _ _ _ Hin) as [e' He']. rewrite He'.
  eexists. split; [reflexivity|].
  destruct (removeEntry_Some _ _ _ _ He') as [_ Hrest].
  destruct (Hrest Hnd) as [Hnd' Hiff']. split; simpl; [exact Hnd'|].
  intros k b. rewrite Hiff', Hiff.
  destruct (decide (a = b)) as [<- | Hne].
  - rewrite list_lookup_insert_eq by exact Ha. rewrite Hold. split.
    + intros [(t & [= <-] & Ht & Hkt) Hneq]. exfalso. apply Hneq. f_equal.
      now rewrite <- Hkt.
    + intros (t & [= <-] & Ht & _). congruence.
  - rewrite list_lookup_insert_ne by exact Hne. split.
    + now intros [H _].
    + intros H. split; [exact H|]. intros [= _ Hab]. congruence.
Qed.

Lemma addEntry_conflict index data a index' c :
  addEntry index data a = (index', Some c) ->
  index' = index /\ isUniqueIndex index = true /\
  findKey (keyOf index data) (m_entries index) = Some c.
Proof.
  unfold addEntry. destruct (isUniqueIndex index).
  - destruct (findKey (keyOf index data) (m_entries index)) eqn:E.
    + now intros [= <- <-].
    + discriminate.
  - discriminate.
Qed.

Lemma addEntry_added index data a index' :
  addEntry index data a = (index', None) ->
  index' = setEntries ((keyOf index data, a) :: m_entries index) index /\
  (isUniqueIndex index = true -> findKey (keyOf index data) (m_entries index) = None).
Proof.
  unfold addEntry. destruct (isUniqueIndex index).
  - destruct (findKey (keyOf index data) (m_entries index)) eqn:E; [discriminate|].
    now intros [= <-].
  - now intros [= <-].
Qed.

Lemma deleteEntry_after_addEntry index data a index' :
  addEntry index data a = (index', None) ->
  fst (deleteEntry index' data a) = index.
Proof.
  intros H. apply addEntry_added in H as [-> _]. unfold deleteEntry.
  set (added := setEntries _ index).
  assert (E : removeEntry (keyOf added data) a (m_entries added) = Some (m_entries index))
    by apply removeEntry_head.
  rewrite E. subst added. now destruct index.
Qed.

(** *** The stream under append and rollback *)

(** What a rollback gives back of the stream: all of it but the
    partition hash tags ([m_hashFlag], [m_firstParHash],
    [m_lastParHash]), which an append sets and [rollbackTo] leaves as
    they are.  The row count, the offset of the begin record and the
    open sequence number mean something while a transaction is open. *)
Definition streamContents (s : DRTupleStream) :=
  (m_enabled s, m_partitionId s, m_secondaryCapacity s, m_rowTarget s, m_defaultCapacity s,
   m_opened s,
   if m_opened s then (m_txnRowCount s, m_beginTxnUso s, m_openSequenceNumber s)
   else (0, 0, 0),
   (m_lastCommittedSpUniqueId s, m_lastCommittedMpUniqueId s, m_committedSequenceNumber s,
    m_committedUso s, m_flushedUso s),
   m_bytes s).

(** An open transaction has its begin record in the stream and fits the
    larger of the two blocks; the stream is far from the offset that
    stands for the invalid mark. *)
Definition streamCapacity (s : DRTupleStream) : Z :=
  Z.max (m_defaultCapacity s) (m_secondaryCapacity s).

Definition StreamOk (s : DRTupleStream) : Prop :=
  (m_opened s = true ->
   m_beginTxnUso s < m_uso s /\ m_uso s <= m_beginTxnUso s + streamCapacity s
   /\ 0 <= m_txnRowCount s) /\
  (if m_opened s then m_beginTxnUso s else m_uso s) + streamCapacity s
  < DRTupleStreamFormat.SIZE_MAX.

Definition RowCostsOk : Prop := forall type, 0 <= rowCostForDRRecord type.

Lemma streamContents_committed s s' :
  streamContents s = streamContents s' ->
  getLastCommittedSequenceNumberAndUniqueIds s = getLastCommittedSequenceNumberAndUniqueIds s'
  /\ m_bytes s = m_bytes s' /\ m_committedUso s = m_committedUso s'
  /\ m_flushedUso s = m_flushedUso s' /\ m_opened s = m_opened s'.
Proof.
  unfold streamContents, getLastCommittedSequenceNumberAndUniqueIds.
  intros [= ? ? ? ? ? ? ? ? ? ? ? ? ?]. repeat split; congruence.
Qed.

Lemma streamContents_opened s s' :
  streamContents s = streamContents s' -> m_opened s' = true ->
  m_opened s = true /\ m_txnRowCount s = m_txnRowCount s'
  /\ m_beginTxnUso s = m_beginTxnUso s' /\ m_bytes s = m_bytes s'.
Proof.
  unfold streamContents. intros [= ? ? ? ? ? Ho Hif ? ? ? ? ? ?] Ho'.
  rewrite Ho' in *. rewrite Ho in Hif. injection Hif as ? ? ?. auto.
Qed.

Lemma updateParHash_frame h s s2 d :
  updateParHash h s = (s2, d) ->
  streamContents s2 = streamContents s /\ m_txnRowCount s2 = m_txnRowCount s
  /\ m_beginTxnUso s2 = m_beginTxnUso s /\ m_openSequenceNumber s2 = m_openSequenceNumber s
  /\ Z.of_nat (length d) <= 5.
Proof.
  unfold updateParHash.
  destruct (m_hashFlag s =? 1); [intros [= <- <-]; simpl; repeat split; lia|].
  destruct (m_hashFlag s =? 0); [intros [= <- <-]; simpl; repeat split; lia|].
  destruct (h =? m_lastParHash s); intros [= <- <-]; simpl; repeat split; lia.
Qed.

Lemma firstn_length_app {A} (l l' : list A) : firstn (length l) (l ++ l') = l.
Proof. induction l; simpl; [now destruct l' | now f_equal]. Qed.

(** A record appended and rolled back to its mark leaves the stream as
    it was. *)
Lemma appendRecord_rollbackTo signature pv uniqueId type tuples indexPair s mark s1 :
  RowCostsOk -> StreamOk s ->
  appendRecord signature pv uniqueId type tuples indexPair s = AppendedAt mark s1 ->
  StreamOk s1 /\ m_uso s <= m_uso s1 /\
  forall s', streamContents s' = streamContents s1 ->
             streamContents (rollbackTo mark (rowCostForDRRecord type) s') = streamContents s.
Proof.
  intros Hcost [Hok Hlimit]. unfold appendRecord.
  destruct (m_enabled s) eqn:Hen; cbn [negb]; cbv zeta.
  2:{ intros [= <- <-]. split; [split; assumption|]. split; [lia|]. intros s' Hs'.
      unfold rollbackTo. now rewrite Z.eqb_refl. }
  destruct (m_rowTarget s <? _); [discriminate|].
  set (record := DRTupleStreamFormat.rowRecordHeader _ _ ++ _). clearbody record.
  destruct (_ && _) eqn:Hfits; [discriminate|].
  assert (Hcap : openTransactionLength s record <= streamCapacity s).
  { unfold streamCapacity. apply andb_false_iff in Hfits as [H | H];
      apply Z.ltb_ge in H; lia. }
  unfold openTransactionLength, DRTupleStreamFormat.BEGIN_RECORD_SIZE,
    DRTupleStreamFormat.MAGIC_DR_TRANSACTION_PADDING in Hcap.
  set (s0 := if m_opened s then s else beginTransaction _ uniqueId s).
  destruct (updateParHash (hashinate pv) s0) as [s2 d] eqn:Eu.
  apply updateParHash_frame in Eu as (Hc & Hrc & Hbu & Hos & Hd).
  intros [= <- <-].
  pose proof (Hcost type) as Hc0.
  assert (Hmax : m_uso s < DRTupleStreamFormat.SIZE_MAX).
  { destruct (m_opened s) eqn:Hop; [destruct (Hok eq_refl)|]; lia. }
  assert (Hs0 : m_opened s0 = true /\ m_beginTxnUso s0 < m_uso s0
                /\ m_uso s <= m_uso s0 /\ 0 <= m_txnRowCount s0
                /\ m_uso s0 + Z.of_nat (length record) + 78
                   <= m_beginTxnUso s0 + streamCapacity s
                /\ m_beginTxnUso s0 + streamCapacity s < DRTupleStreamFormat.SIZE_MAX
                /\ streamCapacity s0 = streamCapacity s
                /\ exists tail, m_bytes s0 = m_bytes s ++ tail).
  { subst s0. destruct (m_opened s) eqn:Hop.
    - destruct (Hok eq_refl) as (? & ? & ?). split; [exact Hop|]. repeat split; try lia.
      exists (@nil Z). now rewrite app_nil_r.
    - unfold beginTransaction, m_uso, streamCapacity in *; simpl.
      rewrite length_app, Nat2Z.inj_add.
      rewrite DRTupleStreamFormat.beginRecord_length.
      unfold DRTupleStreamFormat.BEGIN_RECORD_SIZE.
      split; [reflexivity|]. repeat split; try lia. eexists. reflexivity. }
  destruct Hs0 as (Hop0 & Hb0 & Hu0 & Hn0 & Hfit0 & Hlim0 & Hcap0 & tail & Ht0).
  assert (Hb2 : m_bytes s2 = m_bytes s0) by (unfold streamContents in Hc; congruence).
  assert (Ho2 : m_opened s2 = true) by (unfold streamContents in Hc; congruence).
  assert (Hcap2 : streamCapacity s2 = streamCapacity s).
  { rewrite <- Hcap0. unfold streamContents in Hc. unfold streamCapacity. congruence. }
  split; [|split].
  - unfold StreamOk, streamCapacity in *. unfold m_uso in *; simpl.
    rewrite Hb2, !length_app, !Nat2Z.inj_add, Hrc, Hbu, Ho2.
    split; [intros _|]; lia.
  - unfold m_uso in *; simpl. rewrite Hb2, length_app. lia.
  - intros s' Hs'. unfold rollbackTo.
    assert (Hne : (m_uso s =? DRTupleStreamFormat.INVALID_DR_MARK) = false).
    { apply Z.eqb_neq. unfold DRTupleStreamFormat.INVALID_DR_MARK. lia. }
    rewrite Hne.
    destruct (streamContents_opened _ _ Hs' Ho2) as (Hop' & Hcnt & Hbeg & Hby).
    simpl in Hcnt, Hbeg, Hby.
    unfold streamContents in Hs'. simpl in Hs'. rewrite Ho2, Hop' in Hs'.
    injection Hs' as He Hp Hsc Hrt Hdc Hseq Hsp Hmp Hcs Hcu Hfu.
    rewrite Hop'. simpl.
    rewrite Hcnt, Hbeg, Hrc, Hbu.
    replace (rowCostForDRRecord type <=? m_txnRowCount s0 + rowCostForDRRecord type)
      with true by (symmetry; apply Z.leb_le; lia).
    replace (m_txnRowCount s0 + rowCostForDRRecord type - rowCostForDRRecord type)
      with (m_txnRowCount s0) by lia.
    assert (Hfirst : firstn (Z.to_nat (m_uso s)) (m_bytes s') = m_bytes s).
    { rewrite Hby, Hb2, Ht0, <- app_assoc. unfold m_uso. rewrite Nat2Z.id.
      apply firstn_length_app. }
    unfold streamContents in Hc. rewrite Ho2, Hop0 in Hc.
    injection Hc as ? ? ? ? ? ? ? ? ? ? ? ? ? ?.
    subst s0. destruct (m_opened s) eqn:Hop.
    + replace (m_uso s <=? m_beginTxnUso s) with false by (symmetry; apply Z.leb_gt; lia).
      unfold streamContents; simpl. rewrite Hop', Hfirst, Hop.
      congruence.
    + replace (m_uso s <=? m_beginTxnUso (beginTransaction (m_committedSequenceNumber s + 1)
                                            uniqueId s))
        with true by (symmetry; apply Z.leb_le; simpl; lia).
      unfold streamContents; simpl. rewrite Hfirst, Hop.
      simpl in *. congruence.
Qed.

(** *** Stepping through an operation *)

Lemma imap_const_seq {A B} (f : nat -> B) (l : list A) :
  imap (fun j _ => f j) l = map f (seq 0 (length l)).
Proof.
  revert f. induction l as [|x l IH]; intros f; simpl; [reflexivity|].
  f_equal. rewrite <- seq_shift, map_map. apply (IH (fun j => f (S j))).
Qed.

Lemma getUniqueIndexForDR_frame isActiveActive t :
  let t' := snd (getUniqueIndexForDR crc32cInit crc32c crc32cFinish isActiveActive t) in
  t' = setSmallestUniqueIndex (m_noAvailableUniqueIndex t') (m_smallestUniqueIndex t')
         (m_smallestUniqueIndexCrc t') t.
Proof.
  unfold getUniqueIndexForDR, computeSmallestUniqueIndex.
  destruct isActiveActive; simpl; [now destruct t|].
  destruct (_ && _); simpl; [|now destruct t].
  destruct (smallestUniqueIndex _) as [[pos index]|]; reflexivity.
Qed.

Lemma nextFreeTuple_run e :
  let tuples := m_tuples (table e) in
  let address := firstFreeSlot 0 tuples in
  nextFreeTuple e
  = Returns address
      (setTrace (trace e ++ [EvAllocateSlot address])
         (setTable
            (setTupleCount (m_tupleCount (table e) + 1)
               (setTuples (if (address <? length tuples)%nat then tuples
                           else tuples ++ [freeSlot]) (table e))) e)).
Proof.
  intros tuples address. unfold nextFreeTuple. op_unfold. fold tuples. fold address.
  destruct (address <? length tuples)%nat eqn:E; simpl; [|reflexivity].
  now destruct e as [[] ? ? ? ? ? ?].
Qed.

Lemma copyForPersistentInsert_run target source e :
  let columns := copyObjects (nextObject e) (m_columns source) in
  let hidden := copyObjects (snd columns) (m_hiddenColumns source) in
  copyForPersistentInsert target source e
  = Returns tt
      (setTrace (trace e ++ [EvWriteTuple target])
         (setTable
            (setTuples
               (<[target := mkTuple (isActive source) (isDirty source)
                              (isPendingDelete source)
                              (isPendingDeleteOnUndoRelease source)
                              (fst columns) (fst hidden)]> (m_tuples (table e)))
               (table e))
            (setNextObject (snd hidden) e))).
Proof.
  intros columns hidden. unfold copyForPersistentInsert. op_unfold.
  subst hidden columns.
  destruct (copyObjects (nextObject e) (m_columns source)) as [columns n1]. simpl.
  destruct (copyObjects n1 (m_hiddenColumns source)) as [hidden n2]. reflexivity.
Qed.

Lemma setDRTimestampForTuple_run tuple update e data :
  hasDRTimestampColumn (table e) = true ->
  m_tuples (table e) !! tuple = Some data ->
  setDRTimestampForTuple tuple update e
  = Returns tt
      (setTrace (trace e ++ [EvWriteTuple tuple])
         (setTable
            (setTuples
               (<[tuple := withDRTimestamp (table e)
                             (currentDRTimestamp (executorContext e)) update data]>
                  (m_tuples (table e)))
               (table e)) e)).
Proof.
  intros Hh Hl. unfold setDRTimestampForTuple. op_unfold. now rewrite Hh, Hl.
Qed.

Lemma appendToDRStream_run type images partitionTuple shouldDRStream e :
  appendToDRStream type images partitionTuple shouldDRStream e
  = match drStream e with
    | Some stream =>
        if negb (m_isMaterialized (table e)) && m_drEnabled (table e) && shouldDRStream
        then
          let found := getUniqueIndexForDR crc32cInit crc32c crc32cFinish
                         (getIsActiveActiveDREnabled (executorContext e)) (table e) in
          match appendRecord (m_signature (table e))
                  (partitionValue (table e) partitionTuple)
                  (currentUniqueId (executorContext e)) type images (fst found) stream with
          | AppendedAt mark stream' =>
              Returns mark
                (setTrace (trace e ++ [EvDRAppend type mark])
                   (setDRStream (Some stream') (setTable (snd found) e)))
          | BufferOverflow =>
              Throws (TupleStreamException volt_output_buffer_overflow)
                     (setTable (snd found) e)
          end
        else Returns DRTupleStreamFormat.INVALID_DR_MARK e
    | None => Returns DRTupleStreamFormat.INVALID_DR_MARK e
    end.
Proof.
  unfold appendToDRStream, getUniqueIndexForDROp. op_unfold.
  destruct (drStream e) as [stream|] eqn:Es; [|reflexivity].
  destruct (_ && _ && _); [|reflexivity].
  pose proof (getUniqueIndexForDR_frame (getIsActiveActiveDREnabled (executorContext e))
                (table e)) as Hf.
  destruct (getUniqueIndexForDR _ _ _ _ (table e)) as [found t'] eqn:Ef. simpl in *.
  rewrite Es.
  assert (Hsig : m_signature t' = m_signature (table e)) by (now rewrite Hf).
  assert (Hpv : partitionValue t' partitionTuple = partitionValue (table e) partitionTuple)
    by (unfold partitionValue; now rewrite Hf).
  rewrite Hsig, Hpv.
  destruct (appendRecord _ _ _ _ _ _ _); reflexivity.
Qed.

Lemma DRRollback_run drMark drRowCost e :
  DRRollback drMark drRowCost e
  = if negb (m_isMaterialized (table e)) && m_drEnabled (table e) then
      match drStream e with
      | Some stream =>
          Returns tt (setTrace (trace e ++ [EvDRRollback drMark drRowCost])
                        (setDRStream (Some (rollbackTo drMark drRowCost stream)) e))
      | None => Returns tt e
      end
    else Returns tt e.
Proof.
  unfold DRRollback. op_unfold. destruct (_ && _); [|reflexivity].
  now destruct (drStream e).
Qed.

Lemma tryInsertOnAllIndexes_run tuple e data :
  m_tuples (table e) !! tuple = Some data ->
  tryInsertOnAllIndexes tuple e
  = let result := tryInsertOnIndexes data tuple [] (m_indexes (table e)) in
    Returns (snd (fst result))
      (setTrace (trace e ++ snd result)
         (setTable (setIndexes (fst (fst result)) (table e)) e)).
Proof.
  intros Hl. unfold tryInsertOnAllIndexes. op_unfold. rewrite Hl.
  now destruct (tryInsertOnIndexes _ _ _ _) as [[indexes conflict] events].
Qed.

Lemma deleteTupleStorage_run target e tuple :
  m_tuples (table e) !! target = Some tuple ->
  deleteTupleStorage target e
  = Returns tt
      (setTrace (trace e ++ [EvFreeSlot target])
         (setTable
            (setInvisibleTuplesPendingDeleteCount
               (if isPendingDelete tuple
                then m_invisibleTuplesPendingDeleteCount (table e) - 1
                else m_invisibleTuplesPendingDeleteCount (table e))
               (setTupleCount (m_tupleCount (table e) - 1)
                  (setTuples
                     (<[target := setPendingDeleteOnUndoRelease false
                                    (setPendingDelete false (setActive false tuple))]>
                        (m_tuples (table e)))
                     (table e)))) e)).
Proof.
  intros Hl. unfold deleteTupleStorage. op_unfold. rewrite Hl.
  destruct (isPendingDelete tuple); reflexivity.
Qed.

(** *** Copies of a tuple and the keys they give *)

Lemma copyObjects_keys cells : forall next,
  map keyValueOf (fst (copyObjects next cells)) = map keyValueOf cells.
Proof.
  induction cells as [|cell cells IH]; intros next; simpl; [reflexivity|].
  destruct cell as [| v | p d].
  - specialize (IH next). destruct (copyObjects next cells). simpl in *. now f_equal.
  - specialize (IH next). destruct (copyObjects next cells). simpl in *. now f_equal.
  - specialize (IH (next + 1)). destruct (copyObjects (next + 1) cells).
    simpl in *. now f_equal.
Qed.

Lemma copyObjects_length cells next :
  length (fst (copyObjects next cells)) = length cells.
Proof.
  rewrite <- (length_map keyValueOf), copyObjects_keys. apply length_map.
Qed.

Lemma keyValueOf_nth cells c :
  keyValueOf (nth c cells NullValue) = nth c (map keyValueOf cells) KeyNull.
Proof. symmetry. apply (map_nth keyValueOf cells NullValue c). Qed.

Lemma keyOf_keys index t t' :
  map keyValueOf (m_columns t) = map keyValueOf (m_columns t') ->
  keyOf index t = keyOf index t'.
Proof.
  intros H. unfold keyOf. apply map_ext. intros c. now rewrite !keyValueOf_nth, H.
Qed.

Lemma isNull_keyValueOf v : isNull v = bool_decide (keyValueOf v = KeyNull).
Proof. now destruct v. Qed.

Lemma forallb_pointwise {A} (f g : A -> bool) (l : list A) :
  (forall x, f x = g x) -> forallb f l = forallb g l.
Proof. intros H. induction l as [|x l IH]; simpl; [reflexivity|]. now rewrite H, IH. Qed.

Lemma checkNulls_keys t t' tuple tuple' :
  m_allowNulls t = m_allowNulls t' -> m_schema t = m_schema t' ->
  map keyValueOf (m_columns tuple) = map keyValueOf (m_columns tuple') ->
  checkNulls t tuple = checkNulls t' tuple'.
Proof.
  intros Ha Hs Hk. unfold checkNulls. rewrite Ha, Hs. apply forallb_pointwise. intros i.
  now rewrite !isNull_keyValueOf, !keyValueOf_nth, Hk.
Qed.

(** *** The loop of [tryInsertOnAllIndexes] *)

(** The steps of an insert that stops at index [i]: the entries added to
    the indexes before it, then the same entries deleted. *)
Definition addedThenRemoved (i address : nat) : list Event :=
  map (fun j => EvIndexAdd j address) (seq 0 i)
  ++ map (fun j => EvIndexDelete j address) (seq 0 i).

Lemma tryInsertOnIndexes_conflict tuple address : forall todo done0 done indexes c events,
  Forall2 (fun index index' => addEntry index tuple address = (index', None)) done0 done ->
  tryInsertOnIndexes tuple address done todo = (indexes, Some c, events) ->
  exists before index rest,
    todo = before ++ index :: rest /\
    Forall (fun j => snd (addEntry j tuple address) = None) before /\
    snd (addEntry index tuple address) = Some c /\
    indexes = done0 ++ todo /\
    events = map (fun j => EvIndexAdd j address) (seq (length done) (length before))
             ++ map (fun j => EvIndexDelete j address)
                    (seq 0 (length done + length before)).
Proof.
  induction todo as [|index rest IH]; intros done0 done indexes c events Hdone; simpl.
  - discriminate.
  - destruct (addEntry index tuple address) as [index' [conflict|]] eqn:Ea.
    + intros [= <- <- <-]. exists [], index, rest. simpl.
      rewrite Ea, Nat.add_0_r, imap_const_seq. repeat split; auto.
      f_equal. clear -Hdone. induction Hdone as [|x y l l' Hxy _ IHl]; simpl; [reflexivity|].
      f_equal; [|exact IHl]. now apply deleteEntry_after_addEntry.
    + destruct (tryInsertOnIndexes tuple address (done ++ [index']) rest)
        as [[indexes' conflict] events'] eqn:Et.
      intros [= <- -> <-].
      destruct (IH (done0 ++ [index]) (done ++ [index']) indexes' c events')
        as (before & index1 & rest1 & -> & Hb & Hc & -> & ->).
      * apply Forall2_app; [exact Hdone|]. now constructor.
      * exact Et.
      * exists (index :: before), index1, rest1. simpl.
        rewrite length_app. simpl. repeat split.
        -- constructor; [now rewrite Ea | exact Hb].
        -- exact Hc.
        -- now rewrite <- app_assoc.
        -- replace (length done + 1)%nat with (S (length done)) by lia.
           replace (length done + S (length before))%nat
             with (S (length done) + length before)%nat by lia.
           reflexivity.
Qed.

Lemma tryInsertOnIndexes_added tuple address : forall todo done indexes events,
  tryInsertOnIndexes tuple address done todo = (indexes, None, events) ->
  exists added,
    indexes = done ++ added /\
    Forall2 (fun index index' => addEntry index tuple address = (index', None)) todo added /\
    events = map (fun j => EvIndexAdd j address) (seq (length done) (length todo)).
Proof.
  induction todo as [|index rest IH]; intros done indexes events; simpl.
  - intros [= <- <-]. exists []. rewrite app_nil_r. repeat split. constructor.
  - destruct (addEntry index tuple address) as [index' [conflict|]] eqn:Ea;
      [discriminate|].
    destruct (tryInsertOnIndexes tuple address (done ++ [index']) rest)
      as [[indexes' conflict] events'] eqn:Et.
    intros [= <- -> <-].
    destruct (IH _ _ _ Et) as (added & -> & Hadded & ->).
    exists (index' :: added). rewrite <- app_assoc. simpl. repeat split.
    + now constructor.
    + rewrite length_app. simpl.
      now replace (length done + 1)%nat with (S (length done)) by lia.
Qed.

(** *** An insert refused by a unique index *)

Lemma nextFreeTuple_slot tuples :
  let address := firstFreeSlot 0 tuples in
  let tuples' := if (address <? length tuples)%nat then tuples else tuples ++ [freeSlot] in
  exists old, tuples' !! address = Some old /\ isActive old = false
              /\ (address < length tuples')%nat.
Proof.
  intros address tuples'. subst tuples'.
  destruct (firstFreeSlot_spec tuples 0) as [[_ Hle] Hfree]. fold address in Hle, Hfree.
  rewrite Nat.sub_0_r in Hfree. simpl in Hle.
  destruct (address <? length tuples)%nat eqn:E.
  - apply Nat.ltb_lt in E. destruct (lookup_lt_is_Some_2 tuples address E) as [old Hold].
    exists old. auto.
  - apply Nat.ltb_ge in E. assert (address = length tuples) as -> by lia.
    exists freeSlot. rewrite length_app. simpl. split; [|split; [reflexivity | lia]].
    rewrite lookup_app_r by lia. now rewrite Nat.sub_diag.
Qed.

(** *** What an operation leaves alone, and what it tells the stream *)

(** The part of a table that no operation changes. *)
Definition tableConfig (t : PersistentTable) :=
  (m_name t, m_signature t, m_schema t, m_allowNulls t, m_tupleLimit t, m_pkeyIndex t,
   m_views t, m_tableStreamer t, m_partitionColumn t, m_isMaterialized t, m_drEnabled t,
   m_drTimestampColumnIndex t).

Definition Frame (e e1 : Engine) : Prop :=
  tableConfig (table e1) = tableConfig (table e) /\
  executorContext e1 = executorContext e /\
  topend e1 = topend e /\
  nextObject e <= nextObject e1.

(** The table streams its changes to [stream]. *)
Definition streamsToDR (t : PersistentTable) : bool :=
  negb (m_isMaterialized t) && m_drEnabled t.

(** What an operation did to the stream: nothing, with the invalid mark
    as its result, when the table does not stream to DR; or the append
    of one record at [mark]. *)
Definition Streamed (type : DRRecordType) (t : PersistentTable)
    (o o1 : option DRTupleStream) (mark : Z) (events : list Event) : Prop :=
  match o with
  | Some s =>
      (streamsToDR t = false /\ mark = DRTupleStreamFormat.INVALID_DR_MARK
       /\ o1 = Some s /\ events = [])
      \/
      (streamsToDR t = true /\ events = [EvDRAppend type mark] /\
       exists signature pv uniqueId images indexPair s1,
         appendRecord signature pv uniqueId type images indexPair s = AppendedAt mark s1 /\
         o1 = Some s1)
  | None => mark = DRTupleStreamFormat.INVALID_DR_MARK /\ o1 = None /\ events = []
  end.

(** What [DRRollback] leaves of the stream of a table. *)
Definition rolledBack (t : PersistentTable) (mark drRowCost : Z)
    (o : option DRTupleStream) : option DRTupleStream :=
  if streamsToDR t then rollbackTo mark drRowCost <$> o else o.

Definition streamsAgree (o o' : option DRTupleStream) : Prop :=
  match o, o' with
  | Some s, Some s' => streamContents s = streamContents s'
  | None, None => True
  | _, _ => False
  end.

Definition StreamsOk (e : Engine) : Prop :=
  forall s, drStream e = Some s -> StreamOk s.

(** The cells of a copy are new objects of the pool. *)
Definition objectsOf (cells : list NValue) : list Z :=
  omap (fun cell => match cell with ObjectValue p _ => Some p | _ => None end) cells.

Definition StoredFrom (next next' : Z) (source stored : TupleStorage) : Prop :=
  map keyValueOf (m_columns stored) = map keyValueOf (m_columns source) /\
  length (m_hiddenColumns stored) = length (m_hiddenColumns source) /\
  NoDup (objectsOf (tupleData stored)) /\
  (forall p, In p (objectsOf (tupleData stored)) -> next <= p < next').

Lemma objectsOf_app l1 l2 : objectsOf (l1 ++ l2) = objectsOf l1 ++ objectsOf l2.
Proof. apply omap_app. Qed.

Lemma copyObjects_objects cells : forall next,
  next <= snd (copyObjects next cells) /\
  NoDup (objectsOf (fst (copyObjects next cells))) /\
  (forall p, In p (objectsOf (fst (copyObjects next cells))) ->
             next <= p < snd (copyObjects next cells)).
Proof.
  induction cells as [|cell cells IH]; intros next; simpl.
  - split; [lia|]. split; [constructor|]. intros p [].
  - destruct cell as [| v | q d].
    + specialize (IH next). destruct (copyObjects next cells). exact IH.
    + specialize (IH next). destruct (copyObjects next cells). exact IH.
    + specialize (IH (next + 1)). destruct (copyObjects (next + 1) cells) as [cells' n].
      simpl in *. destruct IH as (Hle & Hnd & Hin). split; [lia|]. split.
      * apply NoDup_cons. split; [|exact Hnd]. intros Hp. apply list_elem_of_In in Hp.
        apply Hin in Hp. lia.
      * intros p [<- | Hp]; [lia|]. apply Hin in Hp. lia.
Qed.

Lemma objectsOf_insert_inline cells i v :
  objectsOf (<[i := InlineValue v]> cells) `sublist_of` objectsOf cells.
Proof.
  destruct (cells !! i) as [x|] eqn:E.
  - assert (Hi : (i < length cells)%nat) by (eapply lookup_lt_Some; eauto).
    rewrite insert_take_drop by exact Hi.
    rewrite <- (take_drop_middle cells i x E) at 3.
    rewrite !objectsOf_app. apply sublist_app; [reflexivity|].
    simpl. destruct x; simpl; try reflexivity. now apply sublist_cons.
  - rewrite list_insert_ge; [reflexivity|]. now apply lookup_ge_None.
Qed.

Lemma objectsOf_withDRTimestamp t ts update tuple :
  m_columns (withDRTimestamp t ts update tuple) = m_columns tuple /\
  length (m_hiddenColumns (withDRTimestamp t ts update tuple))
  = length (m_hiddenColumns tuple) /\
  objectsOf (tupleData (withDRTimestamp t ts update tuple))
    `sublist_of` objectsOf (tupleData tuple).
Proof.
  unfold withDRTimestamp. destruct (_ || _); [|auto].
  unfold tupleData. simpl. rewrite length_insert. split; [reflexivity|].
  split; [reflexivity|]. rewrite !objectsOf_app.
  apply sublist_app; [reflexivity|]. apply objectsOf_insert_inline.
Qed.

(** *** [insertPersistentTuple], outcome by outcome *)

(** The slot an insert takes, and the slots of the table once it has it. *)
Definition insertSlot (e : Engine) : nat := firstFreeSlot 0 (m_tuples (table e)).

Definition withSlot (e : Engine) : list TupleStorage :=
  if (insertSlot e <? length (m_tuples (table e)))%nat then m_tuples (table e)
  else m_tuples (table e) ++ [freeSlot].

Definition undoQuantumAfter (fallible : bool) (action : UndoAction) (e : Engine)
  : option (list UndoAction) :=
  if fallible then cons action <$> currentUndoQuantum e else currentUndoQuantum e.

Definition rowLimitReached (fallible : bool) (e : Engine) : bool :=
  fallible && (m_tupleLimit (table e) <=? visibleTupleCount (table e)).

Definition nullRefused (fallible : bool) (e : Engine) (source : TupleStorage) : bool :=
  fallible && negb (checkNulls (table e) source).

Definition InsertReturned (source : TupleStorage) (fallible : bool) (e e1 : Engine)
  : Prop :=
  exists stored mark appended writes after,
    Frame e e1 /\
    m_tuples (table e1) = <[insertSlot e := stored]> (withSlot e) /\
    isVisible stored = true /\
    StoredFrom (nextObject e) (nextObject e1) source stored /\
    Forall2 (fun index index' => addEntry index stored (insertSlot e) = (index', None))
            (m_indexes (table e)) (m_indexes (table e1)) /\
    Streamed DR_RECORD_INSERT (table e) (drStream e) (drStream e1) mark appended /\
    currentUndoQuantum e1
    = undoQuantumAfter fallible (PersistentTableUndoInsertAction stored mark) e /\
    visibleTupleCount (table e1) = visibleTupleCount (table e) + 1 /\
    trace e1 = trace e ++ EvAllocateSlot (insertSlot e) :: writes ++ appended
                       ++ EvSetFlags (insertSlot e) :: after /\
    Forall (eq (EvWriteTuple (insertSlot e))) writes /\
    List.filter isIndexEvent after
    = map (fun j => EvIndexAdd j (insertSlot e)) (seq 0 (length (m_indexes (table e)))).

(** How an insert fails: the row limit, a null in a column that allows
    none, a stream that refuses the record, or a unique index that holds
    the key. *)
Inductive InsertFailure (source : TupleStorage) (fallible : bool) (e : Engine)
  : Exception -> list Event -> Prop :=
| InsertFailure_limit :
    rowLimitReached fallible e = true ->
    InsertFailure source fallible e
      (ConstraintFailureException CONSTRAINT_TYPE_ROW_LIMIT source None) []
| InsertFailure_null writes :
    rowLimitReached fallible e = false ->
    nullRefused fallible e source = true ->
    Forall (eq (EvWriteTuple (insertSlot e))) writes ->
    InsertFailure source fallible e
      (ConstraintFailureException CONSTRAINT_TYPE_NOT_NULL source None)
      (EvAllocateSlot (insertSlot e) :: writes ++ [EvFreeSlot (insertSlot e)])
| InsertFailure_overflow writes :
    rowLimitReached fallible e = false ->
    nullRefused fallible e source = false ->
    Forall (eq (EvWriteTuple (insertSlot e))) writes ->
    InsertFailure source fallible e
      (TupleStreamException volt_output_buffer_overflow)
      (EvAllocateSlot (insertSlot e) :: writes ++ [EvFreeSlot (insertSlot e)])
| InsertFailure_unique writes stored mark appended rolledBack before index rest c stream' :
    rowLimitReached fallible e = false ->
    nullRefused fallible e source = false ->
    Forall (eq (EvWriteTuple (insertSlot e))) writes ->
    map keyValueOf (m_columns stored) = map keyValueOf (m_columns source) ->
    m_indexes (table e) = before ++ index :: rest ->
    Forall (fun j => snd (addEntry j stored (insertSlot e)) = None) before ->
    snd (addEntry index stored (insertSlot e)) = Some c ->
    (appended = [] /\ rolledBack = [] \/
     appended = [EvDRAppend DR_RECORD_INSERT mark] /\
     rolledBack = [EvDRRollback mark (rowCostForDRRecord DR_RECORD_INSERT)]) ->
    Streamed DR_RECORD_INSERT (table e) (drStream e) stream' mark appended ->
    InsertFailure source fallible e
      (ConstraintFailureException CONSTRAINT_TYPE_UNIQUE source (Some c))
      (EvAllocateSlot (insertSlot e) :: writes ++ appended
       ++ EvSetFlags (insertSlot e) :: addedThenRemoved (length before) (insertSlot e)
       ++ rolledBack ++ [EvFreeSlot (insertSlot e)]).

Definition InsertThrew (source : TupleStorage) (fallible : bool) (e : Engine)
    (x : Exception) (e1 : Engine) : Prop :=
  Frame e e1 /\
  m_indexes (table e1) = m_indexes (table e) /\
  currentUndoQuantum e1 = currentUndoQuantum e /\
  streamsAgree (drStream e1) (drStream e) /\
  (isPendingDelete source = false ->
   visibleTupleCount (table e1) = visibleTupleCount (table e)) /\
  (m_tuples (table e1) = m_tuples (table e) \/
   exists junk, isActive junk = false /\
                m_tuples (table e1) = <[insertSlot e := junk]> (withSlot e)) /\
  exists events, trace e1 = trace e ++ events /\ InsertFailure source fallible e x events.

Ltac trace_norm := repeat first [rewrite <- app_assoc | rewrite <- app_comm_cons].

Ltac state_simpl :=
  cbn [table drStream currentUndoQuantum executorContext topend nextObject trace
       setTable setDRStream setUndoQuantum setTopend setNextObject setTrace
       m_name m_signature m_schema m_allowNulls m_tuples m_tupleCount
       m_tuplesPinnedByUndo m_invisibleTuplesPendingDeleteCount m_tupleLimit
       m_indexes m_pkeyIndex m_views m_tableStreamer m_partitionColumn
       m_isMaterialized m_drEnabled m_noAvailableUniqueIndex m_smallestUniqueIndex
       m_smallestUniqueIndexCrc m_drTimestampColumnIndex
       setTuples setTupleCount setTuplesPinnedByUndo
       setInvisibleTuplesPendingDeleteCount setIndexes setSmallestUniqueIndex
       fst snd] in *.

Lemma table_eta t :
  setSmallestUniqueIndex (m_noAvailableUniqueIndex t) (m_smallestUniqueIndex t)
    (m_smallestUniqueIndexCrc t) t = t.
Proof. now destruct t. Qed.

Lemma engine_eta e :
  mkEngine (table e) (drStream e) (currentUndoQuantum e) (executorContext e) (topend e)
           (nextObject e) (trace e) = e.
Proof. now destruct e. Qed.

(** [appendToDRStream] returns the mark of the record, or the stream
    refuses the record; either way the table may have cached its
    smallest unique index. *)
Lemma appendToDRStream_cases type images partitionTuple e :
  (exists mark appended stream' none index crc,
     appendToDRStream type images partitionTuple true e
     = Returns mark
         (mkEngine (setSmallestUniqueIndex none index crc (table e)) stream'
            (currentUndoQuantum e) (executorContext e) (topend e) (nextObject e)
            (trace e ++ appended)) /\
     Streamed type (table e) (drStream e) stream' mark appended)
  \/
  (exists none index crc,
     appendToDRStream type images partitionTuple true e
     = Throws (TupleStreamException volt_output_buffer_overflow)
         (mkEngine (setSmallestUniqueIndex none index crc (table e)) (drStream e)
            (currentUndoQuantum e) (executorContext e) (topend e) (nextObject e)
            (trace e))).
Proof.
  rewrite appendToDRStream_run. unfold Streamed, streamsToDR.
  destruct (drStream e) as [stream|] eqn:Es.
  2:{ left. exists DRTupleStreamFormat.INVALID_DR_MARK, [], None. do 3 eexists.
      rewrite table_eta, app_nil_r, <- Es, engine_eta. auto. }
  rewrite andb_true_r.
  destruct (negb (m_isMaterialized (table e)) && m_drEnabled (table e)) eqn:Hdr.
  2:{ left. exists DRTupleStreamFormat.INVALID_DR_MARK, [], (Some stream). do 3 eexists.
      rewrite table_eta, app_nil_r, <- Es, engine_eta. split; [reflexivity|]. left. auto. }
  pose proof (getUniqueIndexForDR_frame (getIsActiveActiveDREnabled (executorContext e))
                (table e)) as Hf. simpl in Hf.
  destruct (getUniqueIndexForDR _ _ _ _ (table e)) as [found t'] eqn:Ef. simpl in *.
  set (none := m_noAvailableUniqueIndex t') in Hf.
  set (index := m_smallestUniqueIndex t') in Hf.
  set (crc := m_smallestUniqueIndexCrc t') in Hf.
  clearbody none index crc. subst t'.
  destruct (appendRecord _ _ _ _ _ _ _) as [mark stream'|] eqn:Ea.
  - left. exists mark, [EvDRAppend type mark], (Some stream'), none, index, crc.
    split; [reflexivity|]. right. split; [reflexivity|].
    split; [reflexivity|]. eauto 10.
  - right. exists none, index, crc. rewrite <- Es. reflexivity.
Qed.

Lemma DRRollback_eq drMark drRowCost e :
  exists events,
    DRRollback drMark drRowCost e
    = Returns tt
        (mkEngine (table e) (rolledBack (table e) drMark drRowCost (drStream e))
           (currentUndoQuantum e) (executorContext e) (topend e) (nextObject e)
           (trace e ++ events)) /\
    (events = [] /\ (streamsToDR (table e) = false \/ drStream e = None) \/
     events = [EvDRRollback drMark drRowCost] /\ streamsToDR (table e) = true
     /\ is_Some (drStream e)).
Proof.
  rewrite DRRollback_run. unfold rolledBack, streamsToDR.
  destruct e as [t o u c tp n tr]. simpl.
  destruct (negb (m_isMaterialized t) && m_drEnabled t).
  - destruct o as [stream|].
    + eexists. split; [reflexivity|]. right. eauto.
    + exists []. rewrite app_nil_r. auto.
  - exists []. rewrite app_nil_r. auto.
Qed.

Lemma streamsAgree_refl o : streamsAgree o o.
Proof. now destruct o. Qed.

Lemma streamsAgree_trans o1 o2 o3 :
  streamsAgree o1 o2 -> streamsAgree o2 o3 -> streamsAgree o1 o3.
Proof.
  destruct o1, o2, o3; simpl; try easy. intros H1 H2. now rewrite H1.
Qed.

(** Rolling back to the mark of a record undoes its append, whatever
    was appended and rolled back in between. *)
Lemma Streamed_rolledBack type t o o1 mark events o' :
  RowCostsOk ->
  (forall s, o = Some s -> StreamOk s) ->
  Streamed type t o o1 mark events ->
  streamsAgree o' o1 ->
  streamsAgree (rolledBack t mark (rowCostForDRRecord type) o') o.
Proof.
  intros Hcost Hok Hs Ho'. unfold Streamed, rolledBack in *.
  destruct o as [s|].
  - pose proof (Hok s eq_refl) as Hs1.
    destruct Hs as [(Hdr & -> & -> & _) | (Hdr & _ & sig & pv & u & im & ip & s1 & Ha & ->)].
    + rewrite Hdr. exact Ho'.
    + rewrite Hdr. destruct o' as [s'|]; [|easy]. simpl in *.
      now apply (appendRecord_rollbackTo _ _ _ _ _ _ _ _ _ Hcost Hs1 Ha).
  - destruct Hs as (_ & -> & _). destruct o'; [easy|]. now destruct (streamsToDR t).
Qed.

Lemma Streamed_StreamOk type t o o1 mark events :
  RowCostsOk ->
  (forall s, o = Some s -> StreamOk s) ->
  Streamed type t o o1 mark events ->
  forall s1, o1 = Some s1 -> StreamOk s1.
Proof.
  intros Hcost Hok Hs. unfold Streamed in Hs. destruct o as [s|].
  - pose proof (Hok s eq_refl) as Hs1.
    destruct Hs as [(Hdr & -> & -> & _) | (Hdr & _ & sig & pv & u & im & ip & s1 & Ha & ->)].
    + now intros ? [= <-].
    + destruct (appendRecord_rollbackTo _ _ _ _ _ _ _ _ _ Hcost Hs1 Ha) as (? & ? & _).
      now intros ? [= <-].
  - destruct Hs as (_ & -> & _). discriminate.
Qed.

Lemma filter_isIndexEvent_adds a l :
  List.filter isIndexEvent (map (fun j => EvIndexAdd j a) l)
  = map (fun j => EvIndexAdd j a) l.
Proof. induction l as [|j l IH]; simpl; [reflexivity | now rewrite IH]. Qed.

Lemma filter_isIndexEvent_deletes a l :
  List.filter isIndexEvent (map (fun j => EvIndexDelete j a) l)
  = map (fun j => EvIndexDelete j a) l.
Proof. induction l as [|j l IH]; simpl; [reflexivity | now rewrite IH]. Qed.

Lemma filter_isIndexEvent_none (l : list Event) :
  Forall (fun ev => isIndexEvent ev = false) l -> List.filter isIndexEvent l = [].
Proof. induction 1 as [|ev l Hev _ IH]; simpl; [reflexivity | now rewrite Hev]. Qed.

Lemma viewEvents_not_index {A} (make : nat -> Event) (l : list A) :
  (forall i, isIndexEvent (make i) = false) ->
  Forall (fun ev => isIndexEvent ev = false) (imap (fun i _ => make i) l).
Proof.
  intros H. rewrite imap_const_seq. apply Forall_forall. intros ev Hev.
  apply list_elem_of_In, in_map_iff in Hev as (i & <- & _). apply H.
Qed.

Lemma isVisible_flags t :
  isVisible t = true ->
  isActive t = true /\ isPendingDelete t = false /\ isPendingDeleteOnUndoRelease t = false.
Proof.
  unfold isVisible. destruct (isActive t), (isPendingDelete t),
    (isPendingDeleteOnUndoRelease t); simpl; auto; discriminate.
Qed.

Lemma insertPersistentTuple_outcome source fallible e :
  RowCostsOk -> StreamsOk e ->
  match insertPersistentTuple source fallible e with
  | Returns _ e1 => InsertReturned source fallible e e1
  | Throws x e1 => InsertThrew source fallible e x e1
  | FatalException _ | AssertionFailed => False
  end.
Proof.
  intros Hcost Hstream.
  unfold insertPersistentTuple. op_unfold.
  fold (rowLimitReached fallible e).
  destruct (rowLimitReached fallible e) eqn:Hlimit.
  { repeat split; auto; try reflexivity; try lia.
    - apply streamsAgree_refl.
    - exists []. rewrite app_nil_r. split; [reflexivity|]. now constructor. }
  rewrite nextFreeTuple_run. state_simpl.
  rewrite copyForPersistentInsert_run.
  destruct (nextFreeTuple_slot (m_tuples (table e))) as (old & Hold & Hfree & Hlen).
  fold (insertSlot e) in *. fold (withSlot e) in *.
  set (target := insertSlot e) in *.
  state_simpl.
  set (columns := copyObjects (nextObject e) (m_columns source)).
  set (hidden := copyObjects (snd columns) (m_hiddenColumns source)).
  set (copy := mkTuple _ _ _ _ _ _).
  pose proof (copyObjects_objects (m_columns source) (nextObject e)) as (Hc1 & Hc2 & Hc3).
  pose proof (copyObjects_objects (m_hiddenColumns source) (snd columns))
    as (Hh1 & Hh2 & Hh3).
  fold columns in Hc1, Hc2, Hc3. fold hidden in Hh1, Hh2, Hh3.
  unfold insertTupleCommon. op_unfold. state_simpl.
  rewrite list_lookup_insert_eq by exact Hlen.
  assert (Hkeys : map keyValueOf (m_columns copy) = map keyValueOf (m_columns source))
    by apply copyObjects_keys.
  match goal with
  | |- context [checkNulls ?t copy] =>
      rewrite (checkNulls_keys t (table e) copy source eq_refl eq_refl Hkeys)
  end.
  fold (nullRefused fallible e source).
  destruct (nullRefused fallible e source) eqn:Hnull.
  { erewrite deleteTupleStorage_run
      by (state_simpl; apply list_lookup_insert_eq; exact Hlen).
    unfold InsertThrew, Frame, tableConfig, visibleTupleCount. state_simpl.
    rewrite list_insert_insert_eq.
    repeat split; auto; try reflexivity.
    - lia.
    - apply streamsAgree_refl.
    - simpl. intros ->. lia.
    - right. eexists. split; [|reflexivity]. reflexivity.
    - eexists. rewrite <- !app_assoc. split; [reflexivity|].
      apply (InsertFailure_null _ _ _ [EvWriteTuple target]); auto. }
  (* the DR timestamp *)
  match goal with
  | |- context [(if hasDRTimestampColumn ?T then ?a else ?b) ?E] =>
      assert (Hts : exists stamped writes,
        (if hasDRTimestampColumn T then a else b) E
        = Returns tt
            (mkEngine
               (setTuples (<[target := stamped]> (withSlot e))
                  (setTupleCount (m_tupleCount (table e) + 1) (table e)))
               (drStream e) (currentUndoQuantum e) (executorContext e) (topend e)
               (snd hidden) (trace e ++ EvAllocateSlot target :: writes)) /\
        Forall (eq (EvWriteTuple target)) writes /\
        m_columns stamped = fst columns /\
        length (m_hiddenColumns stamped) = length (m_hiddenColumns source) /\
        objectsOf (tupleData stamped) `sublist_of` objectsOf (tupleData copy) /\
        isPendingDelete stamped = isPendingDelete source)
  end.
  { destruct (hasDRTimestampColumn _) eqn:Hh.
    - erewrite setDRTimestampForTuple_run;
        [| exact Hh | state_simpl; apply list_lookup_insert_eq; exact Hlen].
      state_simpl. rewrite list_insert_insert_eq.
      match goal with
      | |- context [withDRTimestamp ?t ?ts false copy] =>
          destruct (objectsOf_withDRTimestamp t ts false copy) as (Hs1 & Hs2 & Hs3)
      end.
      eexists _, [_; _]. rewrite <- !app_assoc. split; [reflexivity|].
      split; [repeat constructor|]. split; [exact Hs1|].
      split; [rewrite Hs2; apply copyObjects_length|]. split; [exact Hs3|].
      unfold withDRTimestamp. now destruct (_ || _).
    - exists copy, [EvWriteTuple target]. rewrite <- !app_assoc.
      split; [reflexivity|]. split; [repeat constructor|]. split; [reflexivity|].
      split; [apply copyObjects_length|]. split; reflexivity. }
  destruct Hts as (stamped & writes & -> & Hwrites & Hst1 & Hst2 & Hst3 & Hst4).
  assert (Hle : nextObject e <= snd hidden) by lia.
  assert (Hobjects : NoDup (objectsOf (tupleData stamped)) /\
                     forall p, In p (objectsOf (tupleData stamped)) ->
                               nextObject e <= p < snd hidden).
  { assert (Hcopy : NoDup (objectsOf (tupleData copy)) /\
                    forall p, In p (objectsOf (tupleData copy)) ->
                              nextObject e <= p < snd hidden).
    { unfold tupleData. simpl. rewrite objectsOf_app. split.
      - apply NoDup_app. split; [exact Hc2|]. split; [|exact Hh2].
        intros p Hp Hp'. apply list_elem_of_In in Hp, Hp'.
        apply Hc3 in Hp. apply Hh3 in Hp'. lia.
      - intros p Hp. apply in_app_iff in Hp as [Hp | Hp];
          [apply Hc3 in Hp | apply Hh3 in Hp]; lia. }
    destruct Hcopy as [Hn Hr]. split.
    - eapply sublist_NoDup; eauto.
    - intros p Hp. apply Hr. apply list_elem_of_In.
      eapply elem_of_sublist; [|exact Hst3]. now apply list_elem_of_In. }
  state_simpl. rewrite list_lookup_insert_eq by exact Hlen.
  (* the DR record *)
  match goal with
  | |- context [appendToDRStream ?ty ?im ?pt true ?E] =>
      destruct (appendToDRStream_cases ty im pt E)
        as [(mark & appended & stream' & none & index & crc & -> & Hstreamed)
           | (none & index & crc & ->)]
  end; state_simpl.
  2:{ erewrite deleteTupleStorage_run
        by (state_simpl; apply list_lookup_insert_eq; exact Hlen).
      unfold InsertThrew, Frame, tableConfig, visibleTupleCount. state_simpl.
      rewrite list_insert_insert_eq.
      repeat split; auto; try reflexivity; try apply streamsAgree_refl.
      - rewrite Hst4. intros ->. lia.
      - right. eexists. split; [|reflexivity]. reflexivity.
      - eexists. rewrite <- !app_assoc. split; [reflexivity|].
        apply (InsertFailure_overflow _ _ _ writes); auto. }
  rewrite list_lookup_insert_eq by (rewrite length_insert; exact Hlen).
  rewrite list_insert_insert_eq.
  set (active := setPendingDeleteOnUndoRelease false _).
  (* the snapshot in progress, if any *)
  match goal with
  | |- context [match m_tableStreamer (table e) with
                | Some streamer => @?a streamer
                | None => ?b
                end ?E] =>
      assert (Hdirty : exists stored,
        match m_tableStreamer (table e) with
        | Some streamer => a streamer
        | None => b
        end E
        = Returns tt
            (mkEngine
               (setSmallestUniqueIndex none index crc
                  (setTuples (<[target := stored]> (withSlot e))
                     (setTupleCount (m_tupleCount (table e) + 1) (table e))))
               stream' (currentUndoQuantum e) (executorContext e) (topend e)
               (snd hidden)
               (((trace e ++ EvAllocateSlot target :: writes) ++ appended)
                ++ [EvSetFlags target])) /\
        isVisible stored = true /\
        m_columns stored = m_columns stamped /\
        m_hiddenColumns stored = m_hiddenColumns stamped)
  end.
  { destruct (m_tableStreamer (table e)) as [streamer|].
    - destruct (notifyTupleInsert streamer active).
      + exists active. repeat split; reflexivity.
      + exists (setDirty false active). state_simpl. rewrite list_insert_insert_eq.
        repeat split; reflexivity.
    - exists (setDirty false active). state_simpl. rewrite list_insert_insert_eq.
      repeat split; reflexivity. }
  destruct Hdirty as (stored & -> & Hvis & Hsc & Hsh).
  erewrite tryInsertOnAllIndexes_run
    by (state_simpl; apply list_lookup_insert_eq; exact Hlen).
  state_simpl.
  destruct (tryInsertOnIndexes stored target [] (m_indexes (table e)))
    as [[indexes' conflict] events] eqn:Et.
  state_simpl.
  destruct (isVisible_flags _ Hvis) as (Hv1 & Hv2 & Hv3).
  assert (Hskeys : map keyValueOf (m_columns stored) = map keyValueOf (m_columns source))
    by (rewrite Hsc, Hst1; apply copyObjects_keys).
  destruct conflict as [c|].
  - (* a unique index holds the key *)
    destruct (tryInsertOnIndexes_conflict _ _ _ [] [] _ _ _ ltac:(constructor) Et)
      as (before & refusing & rest & Hsplit & Hbefore & Hrefuse & -> & ->).
    match goal with
    | |- context [DRRollback ?m ?c ?E] =>
        destruct (DRRollback_eq m c E) as (rolled & -> & Hrolled)
    end.
    state_simpl.
    erewrite deleteTupleStorage_run
      by (state_simpl; apply list_lookup_insert_eq; exact Hlen).
    unfold InsertThrew, Frame, tableConfig, visibleTupleCount. state_simpl.
    rewrite list_insert_insert_eq, Hv2.
    repeat split; auto; try reflexivity.
    + exact (Streamed_rolledBack DR_RECORD_INSERT (table e) (drStream e) stream' mark
               appended stream' Hcost Hstream Hstreamed (streamsAgree_refl _)).
    + intros _. lia.
    + right. eexists. split; [|reflexivity]. reflexivity.
    + change (map (fun j => EvIndexAdd j target) (seq (length []) (length before))
              ++ map (fun j => EvIndexDelete j target)
                     (seq 0 (length (@nil TableIndex) + length before)))
        with (addedThenRemoved (length before) target).
      assert (Hfail : InsertFailure source fallible e
                (ConstraintFailureException CONSTRAINT_TYPE_UNIQUE source (Some c))
                (EvAllocateSlot target :: writes ++ appended
                 ++ EvSetFlags target :: addedThenRemoved (length before) target
                 ++ rolled ++ [EvFreeSlot target])).
      2:{ revert Hfail. generalize (addedThenRemoved (length before) target).
          intros l Hfail. eexists. split; [|exact Hfail]. trace_norm. reflexivity. }
      eapply (InsertFailure_unique _ _ _ writes stored mark appended rolled _ _ _ _ stream');
        eauto.
      unfold Streamed, streamsToDR in *. state_simpl.
      destruct (drStream e) as [s|].
      * destruct Hstreamed
          as [(Hdr & _ & _ & ->) | (Hdr & -> & _ & _ & _ & _ & _ & s1 & _ & ->)].
        -- destruct Hrolled as [(-> & _) | (_ & Hdr' & _)]; [auto | congruence].
        -- destruct Hrolled as [(_ & [Hdr' | Hnone]) | (-> & _)];
             [congruence | discriminate | auto].
      * destruct Hstreamed as (_ & -> & ->).
        destruct Hrolled as [(-> & _) | (_ & _ & [? Hsome])]; [auto | discriminate].
  - (* every index took the tuple *)
    destruct (tryInsertOnIndexes_added _ _ _ _ _ _ Et) as (added & -> & Hadded & ->).
    unfold registerUndoAction, notifyViewsOfInsert. op_unfold. state_simpl.
    assert (Hfilter : forall (others : list Event),
               Forall (fun ev => isIndexEvent ev = false) others ->
               List.filter isIndexEvent
                 (map (fun j => EvIndexAdd j target) (seq 0 (length (m_indexes (table e))))
                  ++ others)
               = map (fun j => EvIndexAdd j target)
                     (seq 0 (length (m_indexes (table e))))).
    { intros others Ho. rewrite List.filter_app, filter_isIndexEvent_adds.
      rewrite (filter_isIndexEvent_none others Ho). apply app_nil_r. }
    assert (Hviews : Forall (fun ev => isIndexEvent ev = false)
                       (imap (fun i _ => EvViewInsert i target) (m_views (table e))))
      by (apply viewEvents_not_index; reflexivity).
    assert (Htd : tupleData stored = tupleData stamped)
      by (unfold tupleData; now rewrite Hsc, Hsh).
    unfold InsertReturned, undoQuantumAfter.
    destruct fallible; [destruct (currentUndoQuantum e) as [actions|] eqn:Euq|];
      state_simpl; try rewrite list_lookup_insert_eq by exact Hlen; state_simpl;
      exists stored, mark, appended, writes; eexists;
      unfold Frame, tableConfig, visibleTupleCount, StoredFrom; state_simpl;
      trace_norm;
      (repeat split; auto; try reflexivity; try lia);
      try (rewrite Hsh; exact Hst2);
      try (rewrite Htd; apply Hobjects);
      try match goal with
          | H : In _ _ |- _ => rewrite Htd in H; apply Hobjects in H; lia
          end;
      try (simpl; apply Hfilter; repeat constructor; exact Hviews).
Qed.

Lemma freed_slot_visible e junk :
  isActive junk = false ->
  List.filter isVisible (<[insertSlot e := junk]> (withSlot e))
  = List.filter isVisible (m_tuples (table e)).
Proof.
  intros Hjunk.
  destruct (nextFreeTuple_slot (m_tuples (table e))) as (old & Hold & Hfree & Hlen).
  fold (insertSlot e) in *. fold (withSlot e) in *.
  rewrite (filter_insert_same isVisible _ _ junk old Hold)
    by (now apply isVisible_inactive).
  unfold withSlot. destruct (_ <? _)%nat; [reflexivity|].
  rewrite List.filter_app. simpl. apply app_nil_r.
Qed.




Lemma addedThenRemoved_index_events i a ev :
  In ev (addedThenRemoved i a) -> isIndexEvent ev = true.
Proof.
  unfold addedThenRemoved. rewrite in_app_iff, !in_map_iff.
  intros [(j & <- & _) | (j & <- & _)]; reflexivity.
Qed.

Lemma in_insert_events ev target writes appended i rolled :
  Forall (eq (EvWriteTuple target)) writes ->
  In ev (EvAllocateSlot target :: writes ++ appended
         ++ EvSetFlags target :: addedThenRemoved i target
         ++ rolled ++ [EvFreeSlot target]) ->
  ev = EvAllocateSlot target \/ ev = EvWriteTuple target \/ In ev appended \/
  ev = EvSetFlags target \/ isIndexEvent ev = true \/ In ev rolled \/
  ev = EvFreeSlot target.
Proof.
  intros Hw. simpl. rewrite !in_app_iff. simpl. rewrite !in_app_iff. simpl.
  rewrite Forall_forall in Hw.
  intros [H | [H | [H | [H | [H | [H | [H | []]]]]]]]; auto.
  - right. left. symmetry. apply Hw. now apply list_elem_of_In.
  - apply addedThenRemoved_index_events in H. auto 10.
  - auto 10.
  - auto 10.
Qed.


(** *** [deleteTuple], outcome by outcome *)

Lemma setPendingDelete_restored tuple :
  isPendingDelete tuple = false ->
  setPendingDelete false (setPendingDelete true tuple) = tuple.
Proof. destruct tuple; simpl. now intros ->. Qed.

Lemma setPendingDeleteOnUndoRelease_restored tuple :
  isPendingDeleteOnUndoRelease tuple = false ->
  setPendingDeleteOnUndoRelease false (setPendingDeleteOnUndoRelease true tuple) = tuple.
Proof. destruct tuple; simpl. now intros ->. Qed.

(** [deleteTupleFinalize] hides the tuple for good: the slot is freed,
    or the tuple is left to the snapshot, flagged pending-delete. *)
Lemma deleteTupleFinalize_cases target e tuple :
  m_tuples (table e) !! target = Some tuple ->
  exists tuple' count invisible events,
    deleteTupleFinalize target e
    = Returns tt
        (mkEngine
           (setInvisibleTuplesPendingDeleteCount invisible
              (setTupleCount count
                 (setTuples (<[target := tuple']> (m_tuples (table e))) (table e))))
           (drStream e) (currentUndoQuantum e) (executorContext e) (topend e)
           (nextObject e) (trace e ++ events)) /\
    isVisible tuple' = false /\
    (isPendingDelete tuple = false ->
     count - invisible = visibleTupleCount (table e) - 1) /\
    Forall (fun ev => isIndexEvent ev = false) events.
Proof.
  intros Hl. unfold deleteTupleFinalize. op_unfold. rewrite Hl.
  assert (Hstorage : exists tuple' count invisible events,
    deleteTupleStorage target e
    = Returns tt
        (mkEngine
           (setInvisibleTuplesPendingDeleteCount invisible
              (setTupleCount count
                 (setTuples (<[target := tuple']> (m_tuples (table e))) (table e))))
           (drStream e) (currentUndoQuantum e) (executorContext e) (topend e)
           (nextObject e) (trace e ++ events)) /\
    isVisible tuple' = false /\
    (isPendingDelete tuple = false ->
     count - invisible = visibleTupleCount (table e) - 1) /\
    Forall (fun ev => isIndexEvent ev = false) events).
  { rewrite (deleteTupleStorage_run _ _ _ Hl).
    exists (setPendingDeleteOnUndoRelease false
              (setPendingDelete false (setActive false tuple))),
      (m_tupleCount (table e) - 1),
      (if isPendingDelete tuple then m_invisibleTuplesPendingDeleteCount (table e) - 1
       else m_invisibleTuplesPendingDeleteCount (table e)),
      [EvFreeSlot target].
    split; [now destruct e as [[] ? ? ? ? ? ?]|].
    split; [reflexivity|]. split; [|repeat constructor].
    intros ->. unfold visibleTupleCount. lia. }
  destruct (m_tableStreamer (table e)) as [streamer|]; [|exact Hstorage].
  destruct (notifyTupleDelete streamer tuple); [exact Hstorage|]. simpl.
  destruct (isPendingDelete tuple) eqn:Hpd.
  - exists tuple, (m_tupleCount (table e)), (m_invisibleTuplesPendingDeleteCount (table e)), [].
    split; [|split; [|split]].
    + rewrite list_insert_id by exact Hl. rewrite app_nil_r.
      now destruct e as [[] ? ? ? ? ? ?].
    + unfold isVisible. rewrite Hpd. destruct (isActive tuple); reflexivity.
    + discriminate.
    + constructor.
  - exists (setPendingDelete true tuple), (m_tupleCount (table e)),
      (m_invisibleTuplesPendingDeleteCount (table e) + 1), [EvSetFlags target].
    split; [now destruct e as [[] ? ? ? ? ? ?]|]. split; [|split].
    + unfold isVisible. simpl. destruct (isActive tuple); reflexivity.
    + intros _. unfold visibleTupleCount. simpl. lia.
    + repeat constructor.
Qed.

Definition DeleteReturned (target : nat) (fallible : bool) (e e1 : Engine) : Prop :=
  exists tuple mark appended after,
    m_tuples (table e) !! target = Some tuple /\
    isActive tuple = true /\ isPendingDelete tuple = false /\
    Frame e e1 /\
    Streamed DR_RECORD_DELETE (table e) (drStream e) (drStream e1) mark appended /\
    deleteFromIndexes tuple target (m_indexes (table e)) = Some (m_indexes (table e1)) /\
    trace e1 = trace e ++ appended ++ after /\
    List.filter isIndexEvent after
    = map (fun j => EvIndexDelete j target) (seq 0 (length (m_indexes (table e)))) /\
    match (if fallible then currentUndoQuantum e else None) with
    | Some actions =>
        m_tuples (table e1)
        = <[target := setPendingDeleteOnUndoRelease true tuple]> (m_tuples (table e)) /\
        currentUndoQuantum e1
        = Some (PersistentTableUndoDeleteAction target mark :: actions) /\
        visibleTupleCount (table e1) = visibleTupleCount (table e) - 1
    | None =>
        currentUndoQuantum e1 = currentUndoQuantum e /\
        exists tuple', isVisible tuple' = false /\
                       m_tuples (table e1) = <[target := tuple']> (m_tuples (table e))
    end.

(** An operation refused before it changed anything. *)
Definition Unchanged (e e1 : Engine) : Prop :=
  Frame e e1 /\
  m_tuples (table e1) = m_tuples (table e) /\
  m_indexes (table e1) = m_indexes (table e) /\
  visibleTupleCount (table e1) = visibleTupleCount (table e) /\
  drStream e1 = drStream e /\
  currentUndoQuantum e1 = currentUndoQuantum e /\
  trace e1 = trace e.

Lemma deleteFromIndexes_length tuple target indexes : forall indexes',
  deleteFromIndexes tuple target indexes = Some indexes' ->
  length indexes' = length indexes.
Proof.
  induction indexes as [|index rest IH]; intros indexes'; simpl.
  - now intros [= <-].
  - destruct (deleteEntry index tuple target) as [index' [|]]; [|discriminate].
    destruct (deleteFromIndexes tuple target rest) as [rest'|]; [|discriminate].
    simpl. intros [= <-]. simpl. f_equal. now apply IH.
Qed.

Lemma deleteTuple_outcome target fallible e :
  match deleteTuple target fallible e with
  | Returns b e1 => b = true /\ DeleteReturned target fallible e e1
  | Throws x e1 =>
      x = TupleStreamException volt_output_buffer_overflow /\ Unchanged e e1
  | FatalException _ | AssertionFailed => True
  end.
Proof.
  unfold deleteTuple. op_unfold.
  destruct (m_tuples (table e) !! target) as [tuple|] eqn:Hl; [|exact I].
  assert (Hlen : (target < length (m_tuples (table e)))%nat)
    by (eapply lookup_lt_Some; eauto).
  destruct (isActive tuple) eqn:Hactive; [|exact I].
  destruct (appendToDRStream_cases DR_RECORD_DELETE [tuple] tuple e)
    as [(mark & appended & stream' & none & index & crc & -> & Hstreamed)
       | (none & index & crc & ->)]; state_simpl.
  2:{ unfold Unchanged, Frame, tableConfig, visibleTupleCount. state_simpl.
      repeat split; auto; try reflexivity; lia. }
  unfold deleteFromAllIndexes. op_unfold. state_simpl. rewrite Hl. state_simpl.
  destruct (deleteFromIndexes tuple target (m_indexes (table e))) as [indexes'|] eqn:Ed;
    [|exact I].
  state_simpl.
  unfold withPendingDeleteFlag, notifyViewsOfDelete. op_unfold. state_simpl. rewrite Hl.
  state_simpl.
  destruct (isPendingDelete tuple) eqn:Hpd; [exact I|]. cbn [negb]. state_simpl.
  rewrite list_lookup_insert_eq by exact Hlen. state_simpl.
  rewrite list_insert_insert_eq, (setPendingDelete_restored tuple Hpd).
  rewrite (list_insert_id _ _ _ Hl).
  assert (Hevents : forall others,
             Forall (fun ev => isIndexEvent ev = false) others ->
             List.filter isIndexEvent
               (imap (fun j _ => EvIndexDelete j target) indexes' ++ others)
             = map (fun j => EvIndexDelete j target)
                   (seq 0 (length (m_indexes (table e))))).
  { intros others Ho. rewrite imap_const_seq, List.filter_app, filter_isIndexEvent_deletes.
    rewrite (filter_isIndexEvent_none others Ho), app_nil_r.
    now rewrite (deleteFromIndexes_length _ _ _ _ Ed). }
  assert (Hviews : Forall (fun ev => isIndexEvent ev = false)
                     (imap (fun i _ => EvViewDelete i target) (m_views (table e))))
    by (apply viewEvents_not_index; reflexivity).
  unfold DeleteReturned.
  destruct (if fallible then currentUndoQuantum e else None) as [actions|] eqn:Euq.
  - assert (Huq : currentUndoQuantum e = Some actions).
    { destruct fallible; [exact Euq | discriminate]. }
    unfold registerUndoAction. op_unfold. state_simpl. rewrite Hl. state_simpl.
    split; [reflexivity|]. exists tuple, mark, appended. eexists.
    unfold Frame, tableConfig, visibleTupleCount. state_simpl. rewrite Huq. simpl.
    trace_norm.
    repeat split; auto; try reflexivity; try lia.
    apply Hevents. apply Forall_app. split; [exact Hviews|]. repeat constructor.
  - match goal with
    | |- context [deleteTupleFinalize target ?E] =>
        destruct (deleteTupleFinalize_cases target E tuple Hl)
          as (tuple' & count & invisible & events & -> & Hvis & _ & Hev)
    end.
    state_simpl.
    split; [reflexivity|]. exists tuple, mark, appended. eexists.
    unfold Frame, tableConfig, visibleTupleCount. state_simpl.
    trace_norm.
    repeat split; auto; try reflexivity; try lia;
      try (apply Hevents; apply Forall_app; split; [exact Hviews | exact Hev]);
      try (destruct fallible; [exact Euq | reflexivity]);
      eauto.
Qed.

(** *** The loops of an update over every index *)

(** What the first loop of an update does to one index: it leaves an
    index whose key is inlined and unchanged, and deletes the entry of
    the tuple from any other. *)
Definition removedForUpdate (old source : TupleStorage) (address : nat)
    (index : TableIndex) (result : TableIndex * bool) : Prop :=
  if snd result
  then deleteEntry index old address = (fst result, true)
  else fst result = index /\ keyOf index old = keyOf index source.

Lemma removeFromIndexesToUpdate_seq old source address :
  forall todo done indexes1 flags,
    removeFromIndexesToUpdate old source address (seq (length done) (length todo))
      (done ++ todo) = Some (indexes1, flags) ->
    exists todo1,
      indexes1 = done ++ todo1 /\ length todo1 = length todo /\
      length flags = length todo /\
      Forall2 (removedForUpdate old source address) todo (zip todo1 flags).
Proof.
  induction todo as [|index rest IH]; intros done indexes1 flags; simpl.
  - intros [= <- <-]. exists []. repeat split. constructor.
  - rewrite list_lookup_middle by reflexivity.
    destruct (negb (keyUsesNonInlinedMemory index)
              && negb (checkForIndexChange index old source)) eqn:Hsame.
    + replace (done ++ index :: rest) with ((done ++ [index]) ++ rest)
        by (now rewrite <- app_assoc).
      replace (S (length done)) with (length (done ++ [index]))
        by (rewrite length_app; simpl; lia).
      destruct (removeFromIndexesToUpdate _ _ _ _ _) as [[indexes' flags']|] eqn:Er;
        [|discriminate].
      simpl. intros [= <- <-].
      destruct (IH _ _ _ Er) as (todo1 & -> & Hlen & Hflags & Hall).
      exists (index :: todo1). rewrite <- app_assoc. simpl.
      repeat split; try congruence.
      constructor; [|exact Hall]. unfold removedForUpdate. simpl. split; [reflexivity|].
      apply andb_true_iff in Hsame as [_ Hsame]. unfold checkForIndexChange in Hsame.
      apply negb_true_iff, negb_false_iff, bool_decide_eq_true in Hsame. exact Hsame.
    + destruct (deleteEntry index old address) as [index' [|]] eqn:Ed; [|discriminate].
      replace (<[length done := index']> (done ++ index :: rest))
        with ((done ++ [index']) ++ rest).
      2:{ rewrite insert_app_r_alt by lia. rewrite Nat.sub_diag. simpl.
          now rewrite <- app_assoc. }
      replace (S (length done)) with (length (done ++ [index']))
        by (rewrite length_app; simpl; lia).
      destruct (removeFromIndexesToUpdate _ _ _ _ _) as [[indexes' flags']|] eqn:Er;
        [|discriminate].
      simpl. intros [= <- <-].
      destruct (IH _ _ _ Er) as (todo1 & -> & Hlen & Hflags & Hall).
      exists (index' :: todo1). rewrite <- app_assoc. simpl.
      repeat split; try congruence.
      constructor; [|exact Hall]. exact Ed.
Qed.

Lemma addToIndexesToUpdate_seq stored address :
  forall todo1 flags done indexes2,
    length flags = length todo1 ->
    addToIndexesToUpdate stored address (seq (length done) (length todo1)) flags
      (done ++ todo1) = Some indexes2 ->
    exists todo2,
      indexes2 = done ++ todo2 /\
      Forall2 (fun (before : TableIndex * bool) index2 =>
                 if snd before
                 then addEntry (fst before) stored address = (index2, None)
                 else index2 = fst before)
              (zip todo1 flags) todo2.
Proof.
  induction todo1 as [|index rest IH]; intros flags done indexes2 Hlen; simpl.
  - intros [= <-]. exists []. split; [reflexivity|]. destruct flags; constructor.
  - destruct flags as [|flag flags]; [discriminate|]. simpl in Hlen.
    destruct flag.
    + rewrite list_lookup_middle by reflexivity.
      destruct (addEntry index stored address) as [index' [conflict|]] eqn:Ea;
        [discriminate|].
      replace (<[length done := index']> (done ++ index :: rest))
        with ((done ++ [index']) ++ rest).
      2:{ rewrite insert_app_r_alt by lia. rewrite Nat.sub_diag. simpl.
          now rewrite <- app_assoc. }
      replace (S (length done)) with (length (done ++ [index']))
        by (rewrite length_app; simpl; lia).
      intros Ha. destruct (IH flags _ _ ltac:(lia) Ha) as (todo2 & -> & Hall).
      exists (index' :: todo2). rewrite <- app_assoc. split; [reflexivity|].
      constructor; [exact Ea | exact Hall].
    + replace (done ++ index :: rest) with ((done ++ [index]) ++ rest)
        by (now rewrite <- app_assoc).
      replace (S (length done)) with (length (done ++ [index]))
        by (rewrite length_app; simpl; lia).
      intros Ha. destruct (IH flags _ _ ltac:(lia) Ha) as (todo2 & -> & Hall).
      exists (index :: todo2). rewrite <- app_assoc. split; [reflexivity|].
      constructor; [reflexivity | exact Hall].
Qed.

(** What an update of the tuple at [address] does to an index: nothing
    when the key is the same, or the entry of the old tuple is deleted
    and the entry of the updated tuple added. *)
Definition UpdatedIndex (old source stored : TupleStorage) (address : nat)
    (index index2 : TableIndex) : Prop :=
  (index2 = index /\ keyOf index old = keyOf index source) \/
  (exists removed, deleteEntry index old address = (removed, true) /\
                   addEntry removed stored address = (index2, None)).

Lemma Forall2_compose {A B C} (P : A -> B -> Prop) (Q : B -> C -> Prop) l k m :
  Forall2 P l k -> Forall2 Q k m ->
  Forall2 (fun x z => exists y, P x y /\ Q y z) l m.
Proof.
  intros H. revert m. induction H as [|x y l k Hxy _ IH]; intros m Hq.
  - inversion Hq. constructor.
  - inversion Hq as [|? z ? m' Hyz Hrest]; subst. constructor; eauto.
Qed.

Lemma update_all_indexes old source stored address indexes indexes1 flags indexes2 :
  removeFromIndexesToUpdate old source address (seq 0 (length indexes)) indexes
  = Some (indexes1, flags) ->
  addToIndexesToUpdate stored address (seq 0 (length indexes)) flags indexes1
  = Some indexes2 ->
  Forall2 (UpdatedIndex old source stored address) indexes indexes2.
Proof.
  intros Hr Ha.
  destruct (removeFromIndexesToUpdate_seq old source address indexes [] _ _ Hr)
    as (todo1 & -> & Hlen & Hflags & Hall).
  simpl in Ha. rewrite <- Hlen in Ha.
  destruct (addToIndexesToUpdate_seq stored address todo1 flags [] _ ltac:(lia) Ha)
    as (todo2 & -> & Hall2).
  simpl. eapply Forall2_impl; [exact (Forall2_compose _ _ _ _ _ Hall Hall2)|].
  intros index index2 ([removed flag] & Hrem & Hadd). unfold removedForUpdate in Hrem.
  simpl in *. destruct flag.
  - right. eauto.
  - left. destruct Hrem as [-> Hk]. now subst.
Qed.

(** *** The copy of an update *)

(** The tuple [copyForPersistentUpdate] leaves in the slot of [held],
    the objects it notes as old and as new, and the next object of the
    pool. *)
Definition updatedTuple (next : Z) (held source : TupleStorage)
  : TupleStorage * (list Z * list Z) * Z :=
  let '(columns, old1, new1, n1) :=
    copyChangedObjects next (m_columns held) (m_columns source) in
  let '(hidden, old2, new2, n2) :=
    copyChangedObjects n1 (m_hiddenColumns held) (m_hiddenColumns source) in
  (mkTuple (isActive source) (isDirty source) (isPendingDelete source)
           (isPendingDeleteOnUndoRelease source) columns hidden,
   (old1 ++ old2, new1 ++ new2), n2).

Lemma copyForPersistentUpdate_run target source e held :
  m_tuples (table e) !! target = Some held ->
  copyForPersistentUpdate target source e
  = let result := updatedTuple (nextObject e) held source in
    Returns (snd (fst result))
      (setTrace (trace e ++ [EvWriteTuple target])
         (setTable
            (setTuples (<[target := fst (fst result)]> (m_tuples (table e))) (table e))
            (setNextObject (snd result) e))).
Proof.
  intros Hl. unfold copyForPersistentUpdate, updatedTuple. op_unfold. rewrite Hl.
  destruct (copyChangedObjects (nextObject e) _ _) as [[[columns old1] new1] n1].
  destruct (copyChangedObjects n1 _ _) as [[[hidden old2] new2] n2]. reflexivity.
Qed.

(** A cell of the source that points at the object the target holds
    carries the bytes of that object. *)
Fixpoint pointersAgree (old new : list NValue) : bool :=
  match old, new with
  | ObjectValue q held :: old', ObjectValue p data :: new' =>
      (if p =? q then bool_decide (data = held) else true) && pointersAgree old' new'
  | _ :: old', _ :: new' => pointersAgree old' new'
  | _, _ => true
  end.

Definition cellsOf (l : list NValue * list Z * list Z * Z) : list NValue :=
  fst (fst (fst l)).
Definition nextOf (l : list NValue * list Z * list Z * Z) : Z := snd l.

Lemma In_objectsOf p cells :
  In p (objectsOf cells) <-> exists d, In (ObjectValue p d) cells.
Proof.
  unfold objectsOf. rewrite <- list_elem_of_In, list_elem_of_omap. split.
  - intros (cell & Hin & Hcell). destruct cell; try discriminate.
    injection Hcell as ->. eexists. apply list_elem_of_In. exact Hin.
  - intros (d & Hin). exists (ObjectValue p d). split; [|reflexivity].
    now apply list_elem_of_In.
Qed.

Lemma copyChangedObjects_cells new : forall next old,
  let result := copyChangedObjects next old new in
  length (cellsOf result) = length new /\
  next <= nextOf result /\
  (pointersAgree old new = true ->
   map keyValueOf (cellsOf result) = map keyValueOf new) /\
  ((forall p, In p (objectsOf old) -> p < next) ->
   forall p d, In (ObjectValue p d) (cellsOf result) ->
               In (ObjectValue p d) old \/
               (next <= p < nextOf result /\
                forall d', In (ObjectValue p d') (cellsOf result) -> d' = d)).
Proof.
  unfold cellsOf, nextOf.
  induction new as [|cell new IH]; intros next old; simpl.
  - repeat split; try lia; intros; try contradiction.
  - assert (Hold : forall p, (forall q, In q (objectsOf old) -> q < p) ->
                             forall q, In q (objectsOf (tail old)) -> q < p).
    { intros p H q Hq. apply H. destruct old as [|[| |] old]; simpl in *; auto. }
    assert (Htail : forall p d, In (ObjectValue p d) (tail old) -> In (ObjectValue p d) old).
    { intros p d H. destruct old; simpl in *; auto. }
    assert (Hagree : pointersAgree old (cell :: new) = true ->
                     pointersAgree (tail old) new = true).
    { destruct old as [|o old]; simpl; [now destruct new|].
      destruct o, cell; try easy. intros H. apply andb_true_iff in H. apply H. }
    destruct cell as [| v | p data].
    + specialize (IH next (tail old)).
      destruct (copyChangedObjects next (tail old) new) as [[[cells olds] news] n].
      simpl in *. destruct IH as (Hl & Hn & Hk & Hf).
      repeat split; [lia | lia | |].
      * intros Ha. f_equal. auto.
      * intros Hb q d [Hq | Hq]; [discriminate|].
        destruct (Hf (Hold _ Hb) q d Hq) as [Hin | [Hr Hd]]; [left; auto|].
        right. split; [exact Hr|]. intros d' [Hd' | Hd']; [discriminate | auto].
    + specialize (IH next (tail old)).
      destruct (copyChangedObjects next (tail old) new) as [[[cells olds] news] n].
      simpl in *. destruct IH as (Hl & Hn & Hk & Hf).
      repeat split; [lia | lia | |].
      * intros Ha. f_equal. auto.
      * intros Hb q d [Hq | Hq]; [discriminate|].
        destruct (Hf (Hold _ Hb) q d Hq) as [Hin | [Hr Hd]]; [left; auto|].
        right. split; [exact Hr|]. intros d' [Hd' | Hd']; [discriminate | auto].
    + destruct (bool_decide (match head old with
                             | Some (ObjectValue q _) => Some q
                             | _ => None
                             end = Some p)) eqn:Hheld.
      * apply bool_decide_eq_true in Hheld.
        destruct old as [|[| w | q held] old]; simpl in Hheld; try discriminate.
        injection Hheld as ->. cbn [tail head nth].
        specialize (IH next old).
        destruct (copyChangedObjects next old new) as [[[cells olds] news] n].
        simpl in *. destruct IH as (Hl & Hn & Hk & Hf).
        repeat split; [lia | lia | |].
        -- rewrite Z.eqb_refl. intros Ha. apply andb_true_iff in Ha as [Hd Ha].
           apply bool_decide_eq_true in Hd. subst. f_equal. auto.
        -- intros Hb q d [Hq | Hq]; [left; left; exact Hq|].
           destruct (Hf (fun r Hr => Hb r (or_intror Hr)) q d Hq) as [Hin | [Hr Hd]];
             [left; right; exact Hin|].
           right. split; [exact Hr|]. intros d' [Hd' | Hd']; [|auto].
           injection Hd' as -> ->. specialize (Hb q (or_introl eq_refl)). lia.
      * specialize (IH (next + 1) (tail old)).
        destruct (copyChangedObjects (next + 1) (tail old) new) as [[[cells olds] news] n].
        simpl in *. destruct IH as (Hl & Hn & Hk & Hf).
        repeat split; [lia | lia | |].
        -- intros Ha. f_equal. auto.
        -- intros Hb q d [Hq | Hq].
           ++ injection Hq as <- <-. right. split; [lia|].
              intros d' [Hd' | Hd']; [congruence|].
              assert (Hb' : forall r, In r (objectsOf (tail old)) -> r < next + 1).
              { intros r Hr. specialize (Hold _ Hb r Hr). lia. }
              destruct (Hf Hb' next d' Hd') as [Hin | [Hr _]]; [|lia].
              exfalso. apply Htail in Hin.
              assert (H : In next (objectsOf old)) by (apply In_objectsOf; eauto).
              specialize (Hb next H). lia.
           ++ assert (Hb' : forall r, In r (objectsOf (tail old)) -> r < next + 1).
              { intros r Hr. specialize (Hold _ Hb r Hr). lia. }
              destruct (Hf Hb' q d Hq) as [Hin | [Hr Hd]]; [left; auto|].
              right. split; [lia|]. intros d' [Hd' | Hd']; [|auto].
              injection Hd' as -> ->. lia.
Qed.

(** *** [updateTupleWithSpecificIndexes], outcome by outcome *)

(** The new values as the update writes them: with the DR timestamp of
    the transaction when the table has the hidden column. *)
Definition sourceForUpdate (e : Engine) (source : TupleStorage) (updateDRTimestamp : bool)
  : TupleStorage :=
  if hasDRTimestampColumn (table e) && updateDRTimestamp
  then withDRTimestamp (table e) (currentDRTimestamp (executorContext e)) true source
  else source.

Definition UpdateReturned (target : nat) (source : TupleStorage)
    (indexesToUpdate : list nat) (fallible updateDRTimestamp : bool) (e e1 : Engine)
  : Prop :=
  exists old mark appended after indexes1 flags,
    let stamped := sourceForUpdate e source updateDRTimestamp in
    let result := updatedTuple (nextObject e) old
                    (setDirty (isDirty old) (setActive true stamped)) in
    let stored := fst (fst result) in
    m_tuples (table e) !! target = Some old /\
    isPendingDelete old = false /\
    Frame e e1 /\ nextObject e1 = snd result /\
    Streamed DR_RECORD_UPDATE (table e) (drStream e) (drStream e1) mark appended /\
    removeFromIndexesToUpdate old stamped target indexesToUpdate (m_indexes (table e))
    = Some (indexes1, flags) /\
    addToIndexesToUpdate stored target indexesToUpdate flags indexes1
    = Some (m_indexes (table e1)) /\
    m_tuples (table e1) = <[target := stored]> (m_tuples (table e)) /\
    visibleTupleCount (table e1) = visibleTupleCount (table e) /\
    currentUndoQuantum e1
    = undoQuantumAfter fallible
        (PersistentTableUndoUpdateAction old stored (fst (snd (fst result)))
           (snd (snd (fst result))) (negb (bool_decide (indexesToUpdate = []))) mark) e /\
    trace e1 = trace e ++ appended ++ after.

Lemma updateTupleWithSpecificIndexes_outcome target source indexesToUpdate fallible
    updateDRTimestamp e :
  match updateTupleWithSpecificIndexes target source indexesToUpdate fallible
          updateDRTimestamp e with
  | Returns b e1 =>
      b = true /\
      UpdateReturned target source indexesToUpdate fallible updateDRTimestamp e e1
  | Throws x e1 => Unchanged e e1
  | FatalException _ | AssertionFailed => True
  end.
Proof.
  unfold updateTupleWithSpecificIndexes. op_unfold.
  destruct (forallb _ indexesToUpdate); [|exact I].
  destruct (m_tuples (table e) !! target) as [old|] eqn:Hl; [|exact I].
  assert (Hlen : (target < length (m_tuples (table e)))%nat)
    by (eapply lookup_lt_Some; eauto).
  assert (Hsame : Unchanged e e).
  { unfold Unchanged, Frame. repeat split; auto; lia. }
  fold (sourceForUpdate e source updateDRTimestamp).
  set (stamped := sourceForUpdate e source updateDRTimestamp).
  match goal with
  | |- context [(if fallible then ?a else ?b) e] =>
      assert (Hcheck :
        (exists x, (if fallible then a else b) e = Throws x e) \/
        (if fallible then a else b) e
        = Returns (if fallible then
                     match currentUndoQuantum e with
                     | Some _ => Some old
                     | None => None
                     end
                   else None) e)
  end.
  { destruct fallible; [|now right].
    destruct (checkUpdateOnUniqueIndexes _ _ _ _); [|left; eexists; reflexivity].
    destruct (checkNulls _ _); [|left; eexists; reflexivity].
    now right. }
  destruct Hcheck as [[x ->] | ->]; [exact Hsame|].
  destruct (appendToDRStream_cases DR_RECORD_UPDATE [old; stamped] old e)
    as [(mark & appended & stream' & none & index & crc & -> & Hstreamed)
       | (none & index & crc & ->)]; state_simpl.
  2:{ unfold Unchanged, Frame, tableConfig, visibleTupleCount. state_simpl.
      repeat split; auto; try reflexivity; lia. }
  destruct (removeFromIndexesToUpdate old stamped target indexesToUpdate
              (m_indexes (table e))) as [[indexes1 flags]|] eqn:Er; [|exact I].
  state_simpl.
  unfold withPendingDeleteFlag, notifyViewsOfDelete. op_unfold. state_simpl. rewrite Hl.
  state_simpl.
  destruct (isPendingDelete old) eqn:Hpd; [exact I|]. cbn [negb]. state_simpl.
  rewrite list_lookup_insert_eq by exact Hlen. state_simpl.
  rewrite list_insert_insert_eq, (setPendingDelete_restored old Hpd).
  rewrite (list_insert_id _ _ _ Hl). rewrite Hl. state_simpl.
  erewrite copyForPersistentUpdate_run by (state_simpl; exact Hl).
  state_simpl.
  destruct (updatedTuple (nextObject e) old
              (setDirty (isDirty old) (setActive true stamped)))
    as [[stored [oldObjects newObjects]] next'] eqn:Eresult.
  state_simpl.
  assert (Hnext : nextObject e <= next').
  { unfold updatedTuple in Eresult.
    pose proof (copyChangedObjects_cells
                  (m_columns (setDirty (isDirty old) (setActive true stamped)))
                  (nextObject e) (m_columns old)) as (_ & H1 & _).
    destruct (copyChangedObjects (nextObject e) _ _) as [[[columns old1] new1] n1].
    pose proof (copyChangedObjects_cells
                  (m_hiddenColumns (setDirty (isDirty old) (setActive true stamped)))
                  n1 (m_hiddenColumns old)) as (_ & H2 & _).
    destruct (copyChangedObjects n1 _ _) as [[[hidden old2] new2] n2].
    injection Eresult as _ _ _ <-. unfold nextOf in *. simpl in *. lia. }
  destruct fallible; [destruct (currentUndoQuantum e) as [actions|] eqn:Euq|];
    state_simpl; rewrite ?list_lookup_insert_eq by exact Hlen; state_simpl;
    unfold registerUndoAction, notifyViewsOfInsert; op_unfold; state_simpl;
    rewrite ?list_lookup_insert_eq by exact Hlen; state_simpl;
    (destruct (addToIndexesToUpdate stored target indexesToUpdate flags indexes1)
       as [indexes2|] eqn:Ea; [|exact I]);
    state_simpl; (split; [reflexivity|]);
    unfold UpdateReturned, undoQuantumAfter; cbv zeta; fold stamped;
    exists old, mark, appended; eexists; exists indexes1, flags;
    rewrite Eresult; state_simpl;
    unfold Frame, tableConfig, visibleTupleCount; state_simpl;
    rewrite ?list_insert_insert_eq; trace_norm;
    repeat split; auto; try reflexivity; try lia;
    rewrite Euq; reflexivity.
Qed.

(** *** The order of the DR record and the changes to the table *)

(** C2 (as amended). On a table that streams to DR the record is
    appended before the operation activates, overwrites or deactivates a
    tuple or changes an index: [updateTuple...] and [deleteTuple] append
    it before any other step, an insert once it has taken its slot and
    written the source (and its DR timestamp) into it.  A mutation that
    fails after the append is the unique conflict of an insert: the
    entries added are removed again, the stream is rolled back to the
    mark of the record and the slot is freed, so that the indexes, the
    visible tuples and the bytes, the row count and the open
    transaction of the stream are as before the call (the partition
    hash tags of the stream are not among what the rollback restores).
    What [updateTuple...] and [deleteTuple] throw leaves table and
    stream unchanged. *)
Theorem dr_record_before_visible_change (e : Engine) (s : DRTupleStream)
    (source : TupleStorage) (target : nat) (indexesToUpdate : list nat)
    (fallible updateDRTimestamp : bool) :
  RowCostsOk -> StreamsOk e ->
  drStream e = Some s -> streamsToDR (table e) = true ->
  match insertPersistentTuple source fallible e with
  | Returns _ e1 =>
      exists mark writes after,
        trace e1 = trace e ++ (EvAllocateSlot (insertSlot e) :: writes)
                           ++ EvDRAppend DR_RECORD_INSERT mark
                           :: EvSetFlags (insertSlot e) :: after /\
        Forall (eq (EvWriteTuple (insertSlot e))) writes /\
        List.filter isIndexEvent after
        = map (fun j => EvIndexAdd j (insertSlot e)) (seq 0 (length (m_indexes (table e))))
  | Throws x e1 =>
      streamsAgree (drStream e1) (drStream e) /\
      m_indexes (table e1) = m_indexes (table e) /\
      (forall t, m_tuples (table e1) !! insertSlot e = Some t -> isActive t = false) /\
      List.filter isVisible (m_tuples (table e1))
      = List.filter isVisible (m_tuples (table e)) /\
      (isPendingDelete source = false ->
       visibleTupleCount (table e1) = visibleTupleCount (table e)) /\
      exists events,
        trace e1 = trace e ++ events /\
        (forall mark, In (EvDRAppend DR_RECORD_INSERT mark) events ->
                      In (EvDRRollback mark (rowCostForDRRecord DR_RECORD_INSERT)) events) /\
        (events = [] \/
         exists steps, events = EvAllocateSlot (insertSlot e)
                                  :: steps ++ [EvFreeSlot (insertSlot e)])
  | FatalException _ | AssertionFailed => False
  end /\
  match updateTupleWithSpecificIndexes target source indexesToUpdate fallible
          updateDRTimestamp e with
  | Returns _ e1 =>
      exists mark after,
        trace e1 = trace e ++ EvDRAppend DR_RECORD_UPDATE mark :: after
  | Throws x e1 => Unchanged e e1
  | FatalException _ | AssertionFailed => True
  end /\
  match deleteTuple target fallible e with
  | Returns _ e1 =>
      exists mark after,
        trace e1 = trace e ++ EvDRAppend DR_RECORD_DELETE mark :: after
  | Throws x e1 => Unchanged e e1
  | FatalException _ | AssertionFailed => True
  end.
Proof.
  intros Hcost Hstream Hs Hdr.
  assert (Happended : forall type o1 mark appended,
             Streamed type (table e) (drStream e) o1 mark appended ->
             appended = [EvDRAppend type mark]).
  { intros type o1 mark appended H. unfold Streamed in H. rewrite Hs in H.
    destruct H as [(Hno & _) | (_ & -> & _)]; [congruence | reflexivity]. }
  split; [|split].
  - pose proof (insertPersistentTuple_outcome source fallible e Hcost Hstream) as H.
    destruct (insertPersistentTuple source fallible e) as [[] e1 | x e1 | |];
      try contradiction.
    + destruct H as (stored & mark & appended & writes & after & _ & _ & _ & _ & _
                     & Hstreamed & _ & _ & Htrace & Hwrites & Hafter).
      rewrite (Happended _ _ _ _ Hstreamed) in Htrace.
      exists mark, writes, after. split; [|split; assumption].
      rewrite Htrace. simpl. trace_norm. reflexivity.
    + destruct H as (_ & Hindexes & _ & Hagree & Hcount & Htuples & events & Htrace & Hfail).
      split; [exact Hagree|]. split; [exact Hindexes|].
      split.
      { intros t Ht. destruct Htuples as [Hsame | (junk & Hjunk & Hsame)];
          rewrite Hsame in Ht.
        - destruct (firstFreeSlot_spec (m_tuples (table e)) 0) as [_ Hfree].
          rewrite Nat.sub_0_r in Hfree. exact (Hfree t Ht).
        - destruct (nextFreeTuple_slot (m_tuples (table e))) as (old & _ & _ & Hlen).
          fold (insertSlot e) in Hlen. fold (withSlot e) in Hlen.
          rewrite list_lookup_insert_eq in Ht by exact Hlen.
          injection Ht as <-. exact Hjunk. }
      split.
      { destruct Htuples as [-> | (junk & Hjunk & ->)]; [reflexivity|].
        now apply freed_slot_visible. }
      split; [exact Hcount|].
      exists events. split; [exact Htrace|].
      split.
      2:{ clear Htrace.
          destruct Hfail as [Hl | writes Hl Hn Hw | writes Hl Hn Hw
                            | writes stored mark appended rolled before refusing rest c
                                stream' Hl Hn Hw Hkeys Hsplit Hbefore Hrefuse Hevents _];
            [left; reflexivity | right; eexists; reflexivity
             | right; eexists; reflexivity |].
          right.
          exists (writes ++ appended
                  ++ EvSetFlags (insertSlot e)
                     :: addedThenRemoved (length before) (insertSlot e) ++ rolled).
          trace_norm. reflexivity. }
      intros m Hin.
      destruct Hfail as [Hl | writes Hl Hn Hw | writes Hl Hn Hw
                        | writes stored mark appended rolled before refusing rest c stream'
                            Hl Hn Hw Hkeys Hsplit Hbefore Hrefuse Hevents _].
      * destruct Hin.
      * exfalso. simpl in Hin. destruct Hin as [Hin | Hin]; [discriminate|].
        apply in_app_iff in Hin as [Hin | [Hin | []]]; [|discriminate].
        rewrite Forall_forall in Hw. apply list_elem_of_In, Hw in Hin. discriminate.
      * exfalso. simpl in Hin. destruct Hin as [Hin | Hin]; [discriminate|].
        apply in_app_iff in Hin as [Hin | [Hin | []]]; [|discriminate].
        rewrite Forall_forall in Hw. apply list_elem_of_In, Hw in Hin. discriminate.
      * pose proof (in_insert_events _ _ _ _ _ _ Hw Hin) as Hcases.
        assert (Hm : In (EvDRAppend DR_RECORD_INSERT m) appended).
        { destruct Hcases as [H | [H | [H | [H | [H | [H | H]]]]]];
            try discriminate; [exact H|].
          destruct Hevents as [[_ ->] | [_ ->]]; [destruct H|].
          destruct H as [H | []]. discriminate. }
        destruct Hevents as [[-> ->] | [-> ->]]; [destruct Hm|].
        destruct Hm as [[= ->] | []].
        simpl. right. rewrite !in_app_iff. simpl. rewrite !in_app_iff. simpl. auto 10.
  - pose proof (updateTupleWithSpecificIndexes_outcome target source indexesToUpdate
                  fallible updateDRTimestamp e) as H.
    destruct (updateTupleWithSpecificIndexes _ _ _ _ _ e) as [b e1 | x e1 | |]; auto.
    destruct H as (_ & old & mark & appended & after & indexes1 & flags & H).
    cbv zeta in H.
    destruct H as (_ & _ & _ & _ & Hstreamed & _ & _ & _ & _ & _ & Htrace).
    rewrite (Happended _ _ _ _ Hstreamed) in Htrace. eauto.
  - pose proof (deleteTuple_outcome target fallible e) as H.
    destruct (deleteTuple target fallible e) as [b e1 | x e1 | |]; auto.
    + destruct H as (_ & tuple & mark & appended & after & _ & _ & _ & _ & Hstreamed
                     & _ & Htrace & _).
      rewrite (Happended _ _ _ _ Hstreamed) in Htrace. eauto.
    + apply H.
Qed.

(** *** The rows of a table *)

(** The rows a scan of the table returns. *)
Definition rowsOf (tuples : list TupleStorage) : list Row :=
  map rowOf (List.filter isVisible tuples).

Definition rowKey (index : TableIndex) (r : Row) : IndexKey :=
  map (fun c => keyValueOf (nth c (fst r) NullValue)) (getColumnIndices index).

Definition rowCells (r : Row) : list NValue := fst r ++ snd r.

Definition cellsOfRows (rows : list Row) : list NValue := flat_map rowCells rows.

(** A pointer of the pool leads to one object. *)
Definition PointersDetermine (cells : list NValue) : Prop :=
  forall p d1 d2, In (ObjectValue p d1) cells -> In (ObjectValue p d2) cells -> d1 = d2.

Lemma keyOf_rowKey index t : keyOf index t = rowKey index (rowOf t).
Proof. reflexivity. Qed.

Lemma In_rowsOf tuples r :
  In r (rowsOf tuples) <->
  exists a t, tuples !! a = Some t /\ isVisible t = true /\ rowOf t = r.
Proof.
  unfold rowsOf. rewrite in_map_iff. split.
  - intros (t & Hr & Hin). apply List.filter_In in Hin as [Hin Hv].
    apply list_elem_of_In, list_elem_of_lookup in Hin as [a Ha]. eauto.
  - intros (a & t & Ha & Hv & Hr). exists t. split; [exact Hr|].
    apply List.filter_In. split; [|exact Hv].
    apply list_elem_of_In. eapply list_elem_of_lookup_2; eauto.
Qed.

(** The rows of a table but for the slot [a]. *)
Lemma rowsOf_but_slot tuples a y :
  tuples !! a = Some y ->
  exists rest,
    (forall x, Permutation (rowsOf (<[a := x]> tuples))
                           ((if isVisible x then [rowOf x] else []) ++ rest)) /\
    (forall r, In r rest ->
               exists b t, b <> a /\ tuples !! b = Some t /\ isVisible t = true
                           /\ rowOf t = r).
Proof.
  intros Hl.
  assert (Ha : (a < length tuples)%nat) by (eapply lookup_lt_Some; eauto).
  exists (rowsOf (take a tuples) ++ rowsOf (drop (S a) tuples)). split.
  - intros x. unfold rowsOf. rewrite insert_take_drop by exact Ha.
    rewrite List.filter_app. simpl. rewrite map_app.
    destruct (isVisible x); simpl.
    + symmetry. apply Permutation_middle.
    + reflexivity.
  - intros r Hr. apply in_app_iff in Hr as [Hr | Hr];
      apply In_rowsOf in Hr as (b & t & Hb & Hv & Ht).
    + apply lookup_take_Some in Hb as [Hb Hlt]. exists b, t. repeat split; auto. lia.
    + rewrite lookup_drop in Hb. exists (S a + b)%nat, t. repeat split; auto. lia.
Qed.

Lemma rowsOf_slot tuples a y :
  tuples !! a = Some y ->
  exists rest,
    Permutation (rowsOf tuples) ((if isVisible y then [rowOf y] else []) ++ rest) /\
    (forall x, Permutation (rowsOf (<[a := x]> tuples))
                           ((if isVisible x then [rowOf x] else []) ++ rest)) /\
    (forall r, In r rest ->
               exists b t, b <> a /\ tuples !! b = Some t /\ isVisible t = true
                           /\ rowOf t = r).
Proof.
  intros Hl. destruct (rowsOf_but_slot tuples a y Hl) as (rest & Hperm & Hrest).
  exists rest. split; [|split; assumption].
  specialize (Hperm y). now rewrite (list_insert_id _ _ _ Hl) in Hperm.
Qed.

Lemma rowsOf_withSlot e : rowsOf (withSlot e) = rowsOf (m_tuples (table e)).
Proof.
  unfold withSlot, rowsOf. destruct (_ <? _)%nat; [reflexivity|].
  rewrite List.filter_app. simpl. now rewrite app_nil_r.
Qed.

Lemma withSlot_lookup e a x :
  m_tuples (table e) !! a = Some x -> withSlot e !! a = Some x.
Proof.
  intros H. unfold withSlot. destruct (_ <? _)%nat; [exact H|].
  now apply lookup_app_l_Some.
Qed.

Lemma withSlot_active e a x :
  withSlot e !! a = Some x -> isActive x = true -> m_tuples (table e) !! a = Some x.
Proof.
  unfold withSlot. destruct (_ <? _)%nat; [auto|].
  intros H Hx. apply lookup_app_Some in H as [H | [_ H]]; [exact H|].
  apply list_lookup_singleton_Some in H as [_ <-]. discriminate.
Qed.

(** *** What holds of a table between two operations *)

Definition indexShape (index : TableIndex) : TableIndex := setEntries [] index.

Lemma rowKey_shape index index' r :
  indexShape index = indexShape index' -> rowKey index r = rowKey index' r.
Proof. unfold indexShape, rowKey. intros [= _ _ _ -> _ _]. reflexivity. Qed.

Definition UniqueRows (shapes : list TableIndex) (rows : list Row) : Prop :=
  forall shape, In shape shapes -> isUniqueIndex shape = true ->
                NoDup (map (rowKey shape) rows).

Definition RowsConform (schema : TupleSchema) (rows : list Row) : Prop :=
  forall r, In r rows ->
            length (fst r) = columnCount schema /\
            length (snd r) = hiddenColumnCount schema.

(** The rows of a table: no two rows share the key of a unique index,
    the primary key index is unique, the rows are laid out by the
    schema, and a pointer leads to one object. *)
Definition RowsOkOf (schema : TupleSchema) (pkey : option nat) (shapes : list TableIndex)
    (rows : list Row) : Prop :=
  UniqueRows shapes rows /\
  (forall i shape, pkey = Some i -> shapes !! i = Some shape ->
                   isUniqueIndex shape = true) /\
  RowsConform schema rows /\
  PointersDetermine (cellsOfRows rows).

Definition RowsOk (t : PersistentTable) : Prop :=
  RowsOkOf (m_schema t) (m_pkeyIndex t) (map indexShape (m_indexes t))
           (rowsOf (m_tuples t)).

Definition IndexesOk (t : PersistentTable) : Prop :=
  Forall (IndexOk (m_tuples t)) (m_indexes t).

(** The objects of the rows are objects the pool has handed out. *)
Definition RowsBelow (next : Z) (rows : list Row) : Prop :=
  forall p, In p (objectsOf (cellsOfRows rows)) -> p < next.

(** What holds of an engine between two operations: the indexes of the
    table are in step with its tuples, its rows are in order, their
    objects come from the pool, and the stream is in order. *)
Definition TableOk (e : Engine) : Prop :=
  IndexesOk (table e) /\
  RowsOk (table e) /\
  RowsBelow (nextObject e) (rowsOf (m_tuples (table e))) /\
  StreamsOk e.

(** The state [t] shows what [e] shows: the same rows, the same tuples
    pinned by the undo log, the same stream contents. *)
Definition SameState (t e : Engine) : Prop :=
  tableConfig (table t) = tableConfig (table e) /\
  map indexShape (m_indexes (table t)) = map indexShape (m_indexes (table e)) /\
  Permutation (rowsOf (m_tuples (table t))) (rowsOf (m_tuples (table e))) /\
  (forall a x, m_tuples (table e) !! a = Some x -> isActive x = true ->
               isPendingDeleteOnUndoRelease x = true ->
               m_tuples (table t) !! a = Some x) /\
  streamsAgree (drStream t) (drStream e) /\
  visibleTupleCount (table t) = visibleTupleCount (table e) /\
  executorContext t = executorContext e /\
  topend t = topend e.

Definition Restores (t e : Engine) : Prop :=
  IndexesOk (table t) /\ SameState t e.

Lemma SameState_refl e : SameState e e.
Proof.
  unfold SameState. repeat split; auto. apply streamsAgree_refl.
Qed.

Lemma SameState_trans t e' e : SameState t e' -> SameState e' e -> SameState t e.
Proof.
  intros (H1 & H2 & H3 & H4 & H5 & H6 & H7 & H8) (G1 & G2 & G3 & G4 & G5 & G6 & G7 & G8).
  unfold SameState. repeat split; try congruence.
  - now rewrite H3.
  - intros a x Hx Ha Hp. apply H4; auto.
  - eapply streamsAgree_trans; eauto.
Qed.

(** *** Finding a row again for undo *)

Lemma sameBytes_refl cells : forall2b sameBytes cells cells = true.
Proof.
  induction cells as [|cell cells IH]; simpl; [reflexivity|]. rewrite IH, andb_true_r.
  destruct cell; simpl; auto; apply Z.eqb_refl.
Qed.

Lemma sameBytes_eq cells1 : forall cells2,
  forall2b sameBytes cells1 cells2 = true ->
  PointersDetermine (cells1 ++ cells2) ->
  cells1 = cells2.
Proof.
  induction cells1 as [|c1 cells1 IH]; intros [|c2 cells2]; simpl; try discriminate;
    [reflexivity|].
  intros H Hp. apply andb_true_iff in H as [Hc H]. f_equal.
  - destruct c1 as [| v | p d], c2 as [| w | q d']; simpl in Hc; try discriminate.
    + reflexivity.
    + apply Z.eqb_eq in Hc. now subst.
    + apply Z.eqb_eq in Hc. subst q. f_equal. apply (Hp p d d').
      * now left.
      * right. apply in_app_iff. right. now left.
  - apply IH; [exact H|]. intros p d1 d2 H1 H2. apply (Hp p d1 d2).
    + right. apply in_app_iff in H1 as [H1 | H1]; apply in_app_iff; auto.
      right. now right.
    + right. apply in_app_iff in H2 as [H2 | H2]; apply in_app_iff; auto.
      right. now right.
Qed.

Lemma In_cellsOfRows cell rows :
  In cell (cellsOfRows rows) <-> exists r, In r rows /\ In cell (rowCells r).
Proof. unfold cellsOfRows. rewrite in_flat_map. reflexivity. Qed.

Lemma lookupTupleForUndo_finds (t : PersistentTable) (matchable : TupleStorage) :
  IndexesOk t -> RowsOk t ->
  In (rowOf matchable) (rowsOf (m_tuples t)) ->
  exists a x,
    lookupTupleForUndo t matchable = Some a /\
    m_tuples t !! a = Some x /\ isVisible x = true /\ rowOf x = rowOf matchable.
Proof.
  intros Hindexes (Hunique & Hpkey & Hconform & Hpointers) Hin.
  pose proof Hin as Hpresent.
  apply In_rowsOf in Hpresent as (b & xb & Hb & Hvb & Hrb).
  unfold lookupTupleForUndo, lookupTuple.
  destruct (primaryKeyIndex t) as [pk|] eqn:Epk.
  - (* the primary key index holds the tuple *)
    unfold primaryKeyIndex in Epk. destruct (m_pkeyIndex t) as [i|] eqn:Ei; [|discriminate].
    simpl in Epk.
    assert (Hpk : In pk (m_indexes t))
      by (apply list_elem_of_In; eapply list_elem_of_lookup_2; eauto).
    assert (Hshape : map indexShape (m_indexes t) !! i = Some (indexShape pk))
      by (now rewrite list_lookup_fmap, Epk).
    unfold IndexesOk in Hindexes. rewrite Forall_forall in Hindexes.
    destruct (Hindexes pk ltac:(now apply list_elem_of_In)) as [_ Hentries].
    unfold uniqueMatchingTuple.
    assert (Hkey : keyOf pk xb = keyOf pk matchable) by (now rewrite !keyOf_rowKey, Hrb).
    assert (Hheld : In (keyOf pk matchable, b) (m_entries pk)).
    { apply Hentries. exists xb. auto. }
    destruct (findKey_is_Some _ _ _ Hheld) as [a Ha]. rewrite Ha.
    apply findKey_Some, Hentries in Ha as (xa & Hla & Hva & Hka).
    assert (a = b) as ->.
    { destruct (decide (a = b)) as [|Hne]; [assumption|]. exfalso.
      specialize (Hunique (indexShape pk) ltac:(now apply in_map)
                          (Hpkey i _ eq_refl Hshape)).
      unfold rowsOf in Hunique. rewrite map_map in Hunique.
      apply (nodup_filter_lookup _ _ _ a b xa xb Hunique Hla Hb Hne Hva Hvb).
      change (rowKey (indexShape pk)) with (rowKey pk).
      rewrite <- !keyOf_rowKey. congruence. }
    exists b, xb. auto.
  - (* the scan compares the bytes of the whole tuple *)
    simpl.
    set (test := fun tableTuple => memcmp_eq tableTuple matchable (tupleLength (m_schema t))).
    assert (Hcm : conformsTo (m_schema t) matchable) by (apply (Hconform _ Hin)).
    assert (Htest : forall x, isVisible x = true -> In x (m_tuples t) ->
                              test x = forall2b sameBytes (tupleData x) (tupleData matchable)).
    { intros x Hv Hx. apply memcmp_eq_whole; [|exact Hcm].
      apply (Hconform (rowOf x)). apply list_elem_of_In, list_elem_of_lookup in Hx as [a Ha].
      apply In_rowsOf. eauto. }
    destruct (findTuple test 0 (m_tuples t)) as [a|] eqn:Ef.
    + apply findTuple_Some in Ef as (_ & x & Hl & Hv & Ht & _).
      rewrite Nat.sub_0_r in Hl. exists a, x. repeat split; auto.
      assert (Hx : In x (m_tuples t))
        by (apply list_elem_of_In; eapply list_elem_of_lookup_2; eauto).
      rewrite (Htest x Hv Hx) in Ht.
      assert (Hrx : In (rowOf x) (rowsOf (m_tuples t))) by (apply In_rowsOf; eauto).
      assert (Hdata : tupleData x = tupleData matchable).
      { apply sameBytes_eq; [exact Ht|]. intros p d1 d2 H1 H2.
        apply (Hpointers p d1 d2); apply In_cellsOfRows.
        - apply in_app_iff in H1 as [H1 | H1]; [exists (rowOf x) | exists (rowOf matchable)];
            auto.
        - apply in_app_iff in H2 as [H2 | H2]; [exists (rowOf x) | exists (rowOf matchable)];
            auto. }
      destruct (Hconform _ Hrx) as [Hx1 Hx2]. destruct Hcm as [Hm1 Hm2].
      unfold tupleData in Hdata. unfold rowOf. simpl in *.
      apply app_inj_1 in Hdata as [-> ->]; [reflexivity | congruence].
    + exfalso. pose proof (findTuple_None _ _ _ Ef xb) as Hnone.
      assert (Hxb : In xb (m_tuples t))
        by (apply list_elem_of_In; eapply list_elem_of_lookup_2; eauto).
      specialize (Hnone Hxb). rewrite Hvb, (Htest xb Hvb Hxb) in Hnone. simpl in Hnone.
      assert (Hd : tupleData xb = tupleData matchable).
      { unfold tupleData. unfold rowOf in Hrb. now injection Hrb as -> ->. }
      rewrite Hd, sameBytes_refl in Hnone. discriminate.
Qed.

(** *** The indexes of a table when one slot changes *)

Lemma addEntry_shape index data a index' c :
  addEntry index data a = (index', c) -> indexShape index' = indexShape index.
Proof.
  unfold addEntry. destruct (isUniqueIndex index); [destruct (findKey _ _)|];
    now intros [= <- _].
Qed.

Lemma deleteEntry_shape index data a index' b :
  deleteEntry index data a = (index', b) -> indexShape index' = indexShape index.
Proof. unfold deleteEntry. destruct (removeEntry _ _ _); now intros [= <- _]. Qed.

Lemma Forall2_shapes (P : TableIndex -> TableIndex -> Prop) indexes indexes' :
  (forall i i', P i i' -> indexShape i' = indexShape i) ->
  Forall2 P indexes indexes' -> map indexShape indexes' = map indexShape indexes.
Proof.
  intros HP H. induction H as [|i i' l l' Hi _ IH]; simpl; [reflexivity|].
  now rewrite IH, (HP _ _ Hi).
Qed.

Lemma deleteFromIndexes_each tuple a indexes : forall indexes',
  deleteFromIndexes tuple a indexes = Some indexes' <->
  Forall2 (fun index index' => deleteEntry index tuple a = (index', true)) indexes indexes'.
Proof.
  induction indexes as [|index rest IH]; intros indexes'; simpl.
  - split; [intros [= <-]; constructor | intros H; now inversion H].
  - split.
    + destruct (deleteEntry index tuple a) as [index' [|]] eqn:Ed; [|discriminate].
      destruct (deleteFromIndexes tuple a rest) as [rest'|]; [|discriminate].
      simpl. intros [= <-]. constructor; [exact Ed|]. now apply IH.
    + intros H. inversion H as [|? index' ? rest' Hd Hrest]; subst. rewrite Hd.
      apply IH in Hrest. now rewrite Hrest.
Qed.

Lemma insertIntoIndexes_each tuple a indexes : forall indexes',
  insertIntoIndexes tuple a indexes = Some indexes' <->
  Forall2 (fun index index' => addEntry index tuple a = (index', None)) indexes indexes'.
Proof.
  induction indexes as [|index rest IH]; intros indexes'; simpl.
  - split; [intros [= <-]; constructor | intros H; now inversion H].
  - split.
    + destruct (addEntry index tuple a) as [index' [c|]] eqn:Ea; [discriminate|].
      destruct (insertIntoIndexes tuple a rest) as [rest'|]; [|discriminate].
      simpl. intros [= <-]. constructor; [exact Ea|]. now apply IH.
    + intros H. inversion H as [|? index' ? rest' Hd Hrest]; subst. rewrite Hd.
      apply IH in Hrest. now rewrite Hrest.
Qed.

Lemma tryInsertOnIndexes_each tuple a todo : forall done added,
  Forall2 (fun index index' => addEntry index tuple a = (index', None)) todo added ->
  tryInsertOnIndexes tuple a done todo
  = (done ++ added, None, map (fun j => EvIndexAdd j a) (seq (length done) (length todo))).
Proof.
  induction todo as [|index rest IH]; intros done added H; inversion H as [|? index' ? rest' Ha Hrest];
    subst; simpl.
  - now rewrite app_nil_r.
  - rewrite Ha, (IH _ _ Hrest), <- app_assoc, length_app. simpl.
    now replace (length done + 1)%nat with (S (length done)) by lia.
Qed.

(** No row of the table has the key [data] would have in a unique
    index. *)
Definition keyFree (tuples : list TupleStorage) (index : TableIndex) (data : TupleStorage)
  : Prop :=
  isUniqueIndex index = true ->
  ~ In (keyOf index data) (map (rowKey index) (rowsOf tuples)).

Lemma In_rowKeys index k tuples :
  In k (map (rowKey index) (rowsOf tuples)) <->
  exists a t, tuples !! a = Some t /\ isVisible t = true /\ keyOf index t = k.
Proof.
  rewrite in_map_iff. split.
  - intros (r & Hk & Hr). apply In_rowsOf in Hr as (a & t & Ha & Hv & <-). eauto.
  - intros (a & t & Ha & Hv & Hk). exists (rowOf t). split; [exact Hk|].
    apply In_rowsOf. eauto.
Qed.

Lemma addEntry_accepts tuples index data a :
  IndexOk tuples index -> keyFree tuples index data ->
  exists index', addEntry index data a = (index', None).
Proof.
  intros [_ Hiff] Hfree. unfold addEntry.
  destruct (isUniqueIndex index) eqn:Hu; [|eauto].
  destruct (findKey (keyOf index data) (m_entries index)) as [c|] eqn:E; [|eauto].
  exfalso. apply (Hfree Hu). apply In_rowKeys.
  apply findKey_Some, Hiff in E as (t & Hl & Hv & Hk). eauto.
Qed.

Lemma addEntry_keyFree tuples index data a index' :
  IndexOk tuples index -> addEntry index data a = (index', None) ->
  keyFree tuples index data.
Proof.
  intros [_ Hiff] Ha Hu Hin. apply addEntry_added in Ha as [_ Hnone].
  apply In_rowKeys in Hin as (b & t & Hb & Hv & Hk).
  apply (findKey_None _ _ (Hnone Hu) b). apply Hiff. eauto.
Qed.

Lemma removes_IndexesOk tuples indexes a old new :
  Forall (IndexOk tuples) indexes ->
  tuples !! a = Some old -> isVisible old = true -> isVisible new = false ->
  exists indexes',
    deleteFromIndexes old a indexes = Some indexes' /\
    Forall (IndexOk (<[a := new]> tuples)) indexes' /\
    map indexShape indexes' = map indexShape indexes.
Proof.
  intros Hall Hl Ho Hn. induction Hall as [|index rest Hi _ IH]; simpl.
  - exists []. repeat split. constructor.
  - destruct (deleteEntry_IndexOk tuples index old a old new Hi Hl Ho Hn eq_refl)
      as (index' & Hd & Hok).
    destruct IH as (rest' & -> & Hrest & Hshape). rewrite Hd. simpl.
    exists (index' :: rest'). split; [reflexivity|]. split; [now constructor|].
    simpl. now rewrite Hshape, (deleteEntry_shape _ _ _ _ _ Hd).
Qed.

Lemma adds_IndexesOk tuples indexes indexes' a old new :
  Forall (IndexOk tuples) indexes ->
  tuples !! a = Some old -> isVisible old = false -> isVisible new = true ->
  Forall2 (fun index index' => addEntry index new a = (index', None)) indexes indexes' ->
  Forall (IndexOk (<[a := new]> tuples)) indexes' /\
  map indexShape indexes' = map indexShape indexes /\
  forall index, In index indexes -> keyFree tuples index new.
Proof.
  intros Hall Hl Ho Hn H. induction H as [|index index' rest rest' Ha _ IH]; simpl.
  - repeat split; [constructor | intros ? []].
  - apply Forall_cons in Hall as [Hi Hall]. destruct (IH Hall) as (Hrest & Hshape & Hfree).
    split; [|split].
    + constructor; [|exact Hrest].
      now apply (addEntry_IndexOk tuples index new a old new index').
    + now rewrite Hshape, (addEntry_shape _ _ _ _ _ Ha).
    + intros j [<- | Hj]; [|auto]. eapply addEntry_keyFree; eauto.
Qed.

Lemma adds_accepted tuples indexes a new :
  Forall (IndexOk tuples) indexes ->
  (forall index, In index indexes -> keyFree tuples index new) ->
  exists indexes',
    Forall2 (fun index index' => addEntry index new a = (index', None)) indexes indexes'.
Proof.
  intros Hall Hfree. induction Hall as [|index rest Hi _ IH].
  - exists []. constructor.
  - destruct IH as [rest' Hrest]; [intros j Hj; apply Hfree; now right|].
    destruct (addEntry_accepts tuples index new a Hi (Hfree _ (or_introl eq_refl)))
      as [index' Ha].
    exists (index' :: rest'). now constructor.
Qed.

(** *** The rows of a table when one row comes or goes *)

Lemma RowsOkOf_perm schema pkey shapes rows rows' :
  Permutation rows rows' ->
  RowsOkOf schema pkey shapes rows -> RowsOkOf schema pkey shapes rows'.
Proof.
  intros Hp (Hu & Hk & Hc & Hd). repeat split.
  - intros shape Hs Hq. rewrite <- Hp. auto.
  - exact Hk.
  - apply Hc. now rewrite Hp.
  - apply Hc. now rewrite Hp.
  - intros p d1 d2 H1 H2. apply (Hd p d1 d2).
    + apply In_cellsOfRows in H1 as (r & Hr & H1). apply In_cellsOfRows. exists r.
      split; [now rewrite Hp | exact H1].
    + apply In_cellsOfRows in H2 as (r & Hr & H2). apply In_cellsOfRows. exists r.
      split; [now rewrite Hp | exact H2].
Qed.

Lemma RowsOkOf_remove schema pkey shapes r rows :
  RowsOkOf schema pkey shapes (r :: rows) -> RowsOkOf schema pkey shapes rows.
Proof.
  intros (Hu & Hk & Hc & Hd). repeat split.
  - intros shape Hs Hq. specialize (Hu shape Hs Hq). simpl in Hu.
    now apply NoDup_cons in Hu as [_ Hu].
  - exact Hk.
  - apply Hc. now right.
  - apply Hc. now right.
  - intros p d1 d2 H1 H2. apply (Hd p d1 d2); simpl; apply in_app_iff; now right.
Qed.

Lemma RowsOkOf_add schema pkey shapes r rows :
  RowsOkOf schema pkey shapes rows ->
  (forall shape, In shape shapes -> isUniqueIndex shape = true ->
                 ~ In (rowKey shape r) (map (rowKey shape) rows)) ->
  length (fst r) = columnCount schema -> length (snd r) = hiddenColumnCount schema ->
  PointersDetermine (rowCells r ++ cellsOfRows rows) ->
  RowsOkOf schema pkey shapes (r :: rows).
Proof.
  intros (Hu & Hk & Hc & Hd) Hfree H1 H2 Hp. repeat split.
  - intros shape Hs Hq. simpl. apply NoDup_cons. split; [|auto].
    intros Hin. apply list_elem_of_In in Hin. exact (Hfree shape Hs Hq Hin).
  - exact Hk.
  - destruct H as [<- | H]; [exact H1 | now apply Hc].
  - destruct H as [<- | H]; [exact H2 | now apply Hc].
  - exact Hp.
Qed.

(** *** The objects of the rows when a row comes *)

Lemma NoDup_objectsOf_determine cells :
  NoDup (objectsOf cells) -> PointersDetermine cells.
Proof.
  induction cells as [|cell cells IH]; intros Hnd p d1 d2; simpl; [intros []|].
  assert (Hrest : NoDup (objectsOf cells)).
  { destruct cell; simpl in Hnd; auto. now apply NoDup_cons in Hnd as [_ Hnd]. }
  assert (Hhead : forall q d d', cell = ObjectValue q d -> In (ObjectValue q d') cells -> False).
  { intros q d d' -> Hin. simpl in Hnd. apply NoDup_cons in Hnd as [Hnot _]. apply Hnot.
    apply list_elem_of_In, In_objectsOf. eauto. }
  intros [H1 | H1] [H2 | H2].
  - congruence.
  - exfalso. eauto.
  - exfalso. eauto.
  - now apply (IH Hrest p).
Qed.

(** Cells that are cells of the table or new objects of the pool. *)
Definition HeldOrNew (next next' : Z) (cells new : list NValue) : Prop :=
  forall p d, In (ObjectValue p d) new ->
              In (ObjectValue p d) cells \/
              (next <= p < next' /\ forall d', In (ObjectValue p d') new -> d' = d).

Lemma cells_add next next' cells new :
  PointersDetermine cells ->
  (forall p, In p (objectsOf cells) -> p < next) ->
  next <= next' ->
  HeldOrNew next next' cells new ->
  PointersDetermine (new ++ cells) /\
  (forall p, In p (objectsOf (new ++ cells)) -> p < next').
Proof.
  intros Hd Hb Hle Hnew.
  assert (Hold : forall p d, In (ObjectValue p d) cells -> p < next).
  { intros p d H. apply Hb, In_objectsOf. eauto. }
  split.
  - intros p d1 d2 H1 H2. apply in_app_iff in H1, H2.
    destruct H1 as [H1 | H1], H2 as [H2 | H2].
    + destruct (Hnew p d1 H1) as [Hc1 | [_ Hu]]; [|symmetry; auto].
      destruct (Hnew p d2 H2) as [Hc2 | [Hr _]]; [now apply (Hd p)|].
      specialize (Hold p d1 Hc1). lia.
    + destruct (Hnew p d1 H1) as [Hc1 | [Hr _]]; [now apply (Hd p)|].
      specialize (Hold p d2 H2). lia.
    + destruct (Hnew p d2 H2) as [Hc2 | [Hr _]]; [now apply (Hd p)|].
      specialize (Hold p d1 H1). lia.
    + now apply (Hd p).
  - intros p Hp. apply In_objectsOf in Hp as [d Hp]. apply in_app_iff in Hp as [Hp | Hp].
    + destruct (Hnew p d Hp) as [Hc | [Hr _]]; [|lia]. specialize (Hold p d Hc). lia.
    + specialize (Hold p d Hp). lia.
Qed.

Lemma StoredFrom_new next next' source stored cells :
  StoredFrom next next' source stored -> HeldOrNew next next' cells (tupleData stored).
Proof.
  intros (_ & _ & Hnd & Hr) p d Hin. right. split.
  - apply Hr, In_objectsOf. eauto.
  - intros d' Hin'. now apply (NoDup_objectsOf_determine _ Hnd p).
Qed.

Lemma cellsOfRows_cons r rows : cellsOfRows (r :: rows) = rowCells r ++ cellsOfRows rows.
Proof. reflexivity. Qed.

Lemma cellsOfRows_perm rows rows' cell :
  Permutation rows rows' -> In cell (cellsOfRows rows) -> In cell (cellsOfRows rows').
Proof.
  intros Hp H. apply In_cellsOfRows in H as (r & Hr & H). apply In_cellsOfRows.
  exists r. split; [now rewrite <- Hp | exact H].
Qed.

Lemma RowsBelow_perm next rows rows' :
  Permutation rows rows' -> RowsBelow next rows -> RowsBelow next rows'.
Proof.
  intros Hp Hb p H. apply Hb. apply In_objectsOf in H as [d H]. apply In_objectsOf.
  exists d. eapply cellsOfRows_perm; [symmetry|]; eauto.
Qed.

Lemma RowsBelow_remove next r rows : RowsBelow next (r :: rows) -> RowsBelow next rows.
Proof.
  intros Hb p H. apply Hb. rewrite cellsOfRows_cons, objectsOf_app. apply in_app_iff.
  now right.
Qed.

Lemma RowsBelow_le next next' rows : next <= next' -> RowsBelow next rows -> RowsBelow next' rows.
Proof. intros Hle Hb p H. specialize (Hb p H). lia. Qed.

(** A row that comes to the rows of a table, with cells of its own or
    cells of the row it replaces. *)
Lemma rows_add schema pkey shapes next next' replaced r rows :
  RowsOkOf schema pkey shapes (replaced ++ rows) ->
  RowsBelow next (replaced ++ rows) ->
  next <= next' ->
  (forall shape, In shape shapes -> isUniqueIndex shape = true ->
                 ~ In (rowKey shape r) (map (rowKey shape) rows)) ->
  length (fst r) = columnCount schema -> length (snd r) = hiddenColumnCount schema ->
  HeldOrNew next next' (cellsOfRows (replaced ++ rows)) (rowCells r) ->
  RowsOkOf schema pkey shapes (r :: rows) /\ RowsBelow next' (r :: rows).
Proof.
  intros Hok Hb Hle Hfree H1 H2 Hnew.
  destruct (cells_add next next' _ _ (proj2 (proj2 (proj2 Hok))) Hb Hle Hnew) as [Hd Hb'].
  assert (Hsub : forall cell, In cell (cellsOfRows (r :: rows)) ->
                              In cell (rowCells r ++ cellsOfRows (replaced ++ rows))).
  { intros cell H. rewrite cellsOfRows_cons in H. apply in_app_iff in H as [H | H];
      apply in_app_iff; [now left | right].
    apply In_cellsOfRows in H as (r' & Hr & H). apply In_cellsOfRows. exists r'.
    split; [|exact H]. apply in_app_iff. now right. }
  assert (Hrows : RowsOkOf schema pkey shapes rows).
  { clear -Hok. induction replaced as [|x replaced IH]; [exact Hok|].
    apply IH. now apply RowsOkOf_remove in Hok. }
  split.
  - apply RowsOkOf_add; auto.
    intros p d1 d2 G1 G2. apply (Hd p d1 d2); apply Hsub; rewrite cellsOfRows_cons; assumption.
  - intros p H. apply Hb'. apply In_objectsOf in H as [d H]. apply In_objectsOf. exists d.
    now apply Hsub.
Qed.

(** *** The table after an insert *)

Lemma tableConfig_parts t t' :
  tableConfig t = tableConfig t' ->
  m_schema t = m_schema t' /\ m_pkeyIndex t = m_pkeyIndex t' /\
  streamsToDR t = streamsToDR t' /\ m_tableStreamer t = m_tableStreamer t'.
Proof.
  unfold tableConfig, streamsToDR. intros [= _ _ Hs _ _ Hp _ Hts _ Hm Hd _].
  now rewrite Hs, Hp, Hm, Hd, Hts.
Qed.

Lemma keyFree_shapes tuples indexes data :
  (forall index, In index indexes -> keyFree tuples index data) ->
  forall shape, In shape (map indexShape indexes) -> isUniqueIndex shape = true ->
                ~ In (rowKey shape (rowOf data)) (map (rowKey shape) (rowsOf tuples)).
Proof.
  intros Hfree shape Hs Hu. apply in_map_iff in Hs as (index & <- & Hin).
  exact (Hfree index Hin Hu).
Qed.

Lemma withSlot_IndexesOk e :
  IndexesOk (table e) -> Forall (IndexOk (withSlot e)) (m_indexes (table e)).
Proof.
  unfold IndexesOk, withSlot. intros H. destruct (_ <? _)%nat; [exact H|].
  eapply Forall_impl; [exact H|]. intros index. apply IndexOk_new_slot.
Qed.

Lemma withSlot_free e :
  exists free, withSlot e !! insertSlot e = Some free /\ isActive free = false.
Proof.
  destruct (nextFreeTuple_slot (m_tuples (table e))) as (free & Hl & Hf & _).
  exists free. split; [exact Hl | exact Hf].
Qed.

Lemma InsertReturned_TableOk source fallible e e1 :
  RowCostsOk -> TableOk e -> conformsTo (m_schema (table e)) source ->
  InsertReturned source fallible e e1 -> TableOk e1.
Proof.
  intros Hcost (Hix & Hrows & Hbelow & Hstreams) [Hc1 Hc2]
    (stored & mark & appended & writes & after & Hframe & Htuples & Hvis & Hstored & Hadds
     & Hstreamed & _).
  destruct (withSlot_free e) as (free & Hfree & Hinactive).
  destruct (adds_IndexesOk _ _ _ _ free stored (withSlot_IndexesOk e Hix) Hfree
              (isVisible_inactive _ Hinactive) Hvis Hadds) as (Hix1 & Hshapes & Hkeys).
  destruct (rowsOf_slot (withSlot e) (insertSlot e) free Hfree) as (rest & Hp0 & Hp1 & _).
  rewrite (isVisible_inactive _ Hinactive), rowsOf_withSlot in Hp0. simpl in Hp0.
  specialize (Hp1 stored). rewrite Hvis, <- Htuples in Hp1. simpl in Hp1.
  destruct Hframe as (Hconfig & _ & _ & Hnext).
  destruct (tableConfig_parts _ _ Hconfig) as (Hschema & Hpkey & _).
  destruct Hstored as (Hkv & Hhidden & Hnd & Hrange).
  assert (Hadd : RowsOkOf (m_schema (table e)) (m_pkeyIndex (table e))
                   (map indexShape (m_indexes (table e))) (rowOf stored :: rest) /\
                 RowsBelow (nextObject e1) (rowOf stored :: rest)).
  { apply (rows_add _ _ _ (nextObject e) (nextObject e1) []); simpl.
    - now apply (RowsOkOf_perm _ _ _ _ _ Hp0).
    - now apply (RowsBelow_perm _ _ _ Hp0).
    - exact Hnext.
    - intros shape Hs Hu Hin.
      apply (keyFree_shapes _ _ _ Hkeys shape Hs Hu). rewrite rowsOf_withSlot.
      eapply Permutation_in; [|exact Hin]. symmetry. now apply Permutation_map.
    - rewrite <- Hc1, <- (length_map keyValueOf), Hkv. apply length_map.
    - congruence.
    - apply (StoredFrom_new (nextObject e) (nextObject e1) source).
      exact (conj Hkv (conj Hhidden (conj Hnd Hrange))). }
  destruct Hadd as [Hok1 Hbelow1].
  split; [|split; [|split]].
  - unfold IndexesOk. rewrite Htuples. exact Hix1.
  - unfold RowsOk. rewrite Hschema, Hpkey, Hshapes.
    apply (RowsOkOf_perm _ _ _ (rowOf stored :: rest)); [now symmetry | exact Hok1].
  - apply (RowsBelow_perm _ (rowOf stored :: rest)); [now symmetry | exact Hbelow1].
  - intros s1. apply (Streamed_StreamOk _ _ _ _ _ _ Hcost Hstreams Hstreamed).
Qed.

(** *** The operations of a transaction *)

(** Modelled from the spec: the calls a transaction makes on the table,
    as the test harness makes them: [insertTuple(source)],
    [updateTuple(target, source)] and [deleteTuple(target, true)]. *)
Inductive Operation : Type :=
| OpInsert (source : TupleStorage)
| OpUpdate (target : nat) (source : TupleStorage)
| OpDelete (target : nat).

Definition perform (op : Operation) : Op bool :=
  match op with
  | OpInsert source => insertTuple source
  | OpUpdate target source => updateTuple target source
  | OpDelete target => deleteTuple target true
  end.

Definition conformsToSchema (s : TupleSchema) (t : TupleStorage) : bool :=
  (length (m_columns t) =? columnCount s)%nat
  && (length (m_hiddenColumns t) =? hiddenColumnCount s)%nat.

(** What the table expects of its caller: a source tuple laid out by
    the schema of the table and free of deletion flags, a target that a
    scan of the table returned, and for an update a source whose
    pointers into the target lead to the objects of the target. *)
Definition admissible (op : Operation) (e : Engine) : bool :=
  match op with
  | OpInsert source =>
      conformsToSchema (m_schema (table e)) source && negb (isPendingDelete source)
  | OpUpdate target source =>
      match m_tuples (table e) !! target with
      | Some old =>
          isVisible old && conformsToSchema (m_schema (table e)) source
          && negb (isPendingDelete source) && negb (isPendingDeleteOnUndoRelease source)
          && pointersAgree (m_columns old) (m_columns source)
      | None => false
      end
  | OpDelete target =>
      match m_tuples (table e) !! target with
      | Some old => isVisible old
      | None => false
      end
  end.

Lemma conformsToSchema_spec s t : conformsToSchema s t = true <-> conformsTo s t.
Proof.
  unfold conformsToSchema, conformsTo. rewrite andb_true_iff, !Nat.eqb_eq. reflexivity.
Qed.

(** *** The table after a delete *)

Lemma DeleteReturned_TableOk target e e1 actions :
  RowCostsOk -> TableOk e -> currentUndoQuantum e = Some actions ->
  admissible (OpDelete target) e = true ->
  DeleteReturned target true e e1 -> TableOk e1.
Proof.
  intros Hcost (Hix & Hrows & Hbelow & Hstreams) Huq Hadm
    (tuple & mark & appended & after & Hl & Hactive & Hpd & Hframe & Hstreamed & Hdel & _ & _
     & Hcase).
  simpl in Hadm. rewrite Hl in Hadm. rename Hadm into Hv.
  rewrite Huq in Hcase. destruct Hcase as (Htuples & _ & _).
  destruct Hframe as (Hconfig & _ & _ & Hnext).
  destruct (tableConfig_parts _ _ Hconfig) as (Hschema & Hpkey & _).
  destruct (rowsOf_slot _ _ _ Hl) as (rest & Hp0 & Hp1 & _).
  specialize (Hp1 (setPendingDeleteOnUndoRelease true tuple)). rewrite <- Htuples in Hp1.
  assert (Hhidden : isVisible (setPendingDeleteOnUndoRelease true tuple) = false).
  { unfold isVisible. simpl. now rewrite andb_false_r. }
  rewrite Hhidden in Hp1. rewrite Hv in Hp0. simpl in Hp0, Hp1.
  destruct (removes_IndexesOk _ _ target tuple (setPendingDeleteOnUndoRelease true tuple)
              Hix Hl Hv Hhidden) as (indexes' & Hd & Hix1 & Hshapes).
  rewrite Hdel in Hd. injection Hd as <-. rewrite <- Htuples in Hix1.
  split; [exact Hix1|]. split; [|split].
  - unfold RowsOk. rewrite Hschema, Hpkey, Hshapes.
    apply (RowsOkOf_perm _ _ _ rest); [now symmetry|].
    apply (RowsOkOf_remove _ _ _ (rowOf tuple)). now apply (RowsOkOf_perm _ _ _ _ _ Hp0).
  - apply (RowsBelow_perm _ rest); [now symmetry|].
    apply (RowsBelow_le (nextObject e)); [exact Hnext|].
    apply (RowsBelow_remove _ (rowOf tuple)). now apply (RowsBelow_perm _ _ _ Hp0).
  - intros s1. apply (Streamed_StreamOk _ _ _ _ _ _ Hcost Hstreams Hstreamed).
Qed.

(** *** The table after an update *)

Lemma shape_unique i j : indexShape i = indexShape j -> isUniqueIndex i = isUniqueIndex j.
Proof. unfold indexShape. now intros [= _ -> _ _ _ _]. Qed.

Lemma IndexOk_insert_key tuples index a old new :
  tuples !! a = Some old -> isVisible new = isVisible old ->
  keyOf index new = keyOf index old ->
  IndexOk tuples index -> IndexOk (<[a := new]> tuples) index.
Proof.
  intros Hold Hv Hc. apply IndexOk_ext. intros b k.
  assert (Ha : (a < length tuples)%nat) by (eapply lookup_lt_Some; eauto).
  destruct (decide (a = b)) as [<- | Hne].
  - rewrite list_lookup_insert_eq by exact Ha. rewrite Hold. split.
    + intros (t & [= <-] & Ht & Hk). exists new. rewrite Hv. split; [reflexivity|].
      split; [exact Ht|]. now rewrite <- Hk.
    + intros (t & [= <-] & Ht & Hk). exists old. rewrite <- Hv. split; [reflexivity|].
      split; [exact Ht|]. now rewrite <- Hk.
  - now rewrite list_lookup_insert_ne by exact Hne.
Qed.

Lemma sourceForUpdate_parts e source update :
  let stamped := sourceForUpdate e source update in
  m_columns stamped = m_columns source /\
  length (m_hiddenColumns stamped) = length (m_hiddenColumns source) /\
  isPendingDelete stamped = isPendingDelete source /\
  isPendingDeleteOnUndoRelease stamped = isPendingDeleteOnUndoRelease source.
Proof.
  unfold sourceForUpdate, withDRTimestamp. destruct (_ && _); [|auto].
  simpl. now rewrite length_insert.
Qed.

Lemma updatedTuple_cells next held source :
  let result := updatedTuple next held source in
  let stored := fst (fst result) in
  isActive stored = isActive source /\
  isPendingDelete stored = isPendingDelete source /\
  isPendingDeleteOnUndoRelease stored = isPendingDeleteOnUndoRelease source /\
  length (m_columns stored) = length (m_columns source) /\
  length (m_hiddenColumns stored) = length (m_hiddenColumns source) /\
  next <= snd result /\
  (pointersAgree (m_columns held) (m_columns source) = true ->
   map keyValueOf (m_columns stored) = map keyValueOf (m_columns source)) /\
  ((forall p, In p (objectsOf (tupleData held)) -> p < next) ->
   HeldOrNew next (snd result) (tupleData held) (tupleData stored)).
Proof.
  unfold updatedTuple.
  pose proof (copyChangedObjects_cells (m_columns source) next (m_columns held)) as H1.
  destruct (copyChangedObjects next (m_columns held) (m_columns source))
    as [[[columns old1] new1] n1].
  pose proof (copyChangedObjects_cells (m_hiddenColumns source) n1 (m_hiddenColumns held))
    as H2.
  destruct (copyChangedObjects n1 (m_hiddenColumns held) (m_hiddenColumns source))
    as [[[hidden old2] new2] n2].
  unfold cellsOf, nextOf in *. simpl in *.
  destruct H1 as (Hl1 & Hn1 & Hk1 & Hf1). destruct H2 as (Hl2 & Hn2 & _ & Hf2).
  do 5 (split; [auto|]). split; [lia|]. split; [exact Hk1|].
  intros Hb. unfold tupleData in *. simpl.
  assert (Hb1 : forall p, In p (objectsOf (m_columns held)) -> p < next).
  { intros p Hp. apply Hb. rewrite objectsOf_app. apply in_app_iff. now left. }
  assert (Hb2 : forall p, In p (objectsOf (m_hiddenColumns held)) -> p < n1).
  { intros p Hp. assert (p < next); [|lia].
    apply Hb. rewrite objectsOf_app. apply in_app_iff. now right. }
  assert (Hheld : forall p d, In (ObjectValue p d) (m_columns held ++ m_hiddenColumns held) ->
                              p < next).
  { intros p d Hin. apply Hb, In_objectsOf. eauto. }
  specialize (Hf1 Hb1). specialize (Hf2 Hb2).
  intros p d Hin. apply in_app_iff in Hin as [Hin | Hin].
  - destruct (Hf1 p d Hin) as [Hold | [Hr Hu]].
    + left. apply in_app_iff. now left.
    + right. split; [lia|]. intros d' Hin'. apply in_app_iff in Hin' as [Hin' | Hin'];
        [auto|].
      destruct (Hf2 p d' Hin') as [Hold | [Hr' _]]; [|lia].
      assert (p < next) by (apply (Hheld p d'), in_app_iff; now right). lia.
  - destruct (Hf2 p d Hin) as [Hold | [Hr Hu]].
    + left. apply in_app_iff. now right.
    + right. split; [lia|]. intros d' Hin'. apply in_app_iff in Hin' as [Hin' | Hin'];
        [|auto].
      destruct (Hf1 p d' Hin') as [Hold | [Hr' _]]; [|lia].
      assert (p < next) by (apply (Hheld p d'), in_app_iff; now left). lia.
Qed.

Lemma UpdatedIndex_IndexOk tuples index index2 old stamped stored a rest :
  IndexOk tuples index -> tuples !! a = Some old ->
  isVisible old = true -> isVisible stored = true ->
  keyOf index stored = keyOf index stamped ->
  (forall x, Permutation (rowsOf (<[a := x]> tuples))
                         ((if isVisible x then [rowOf x] else []) ++ rest)) ->
  UpdatedIndex old stamped stored a index index2 ->
  IndexOk (<[a := stored]> tuples) index2 /\
  indexShape index2 = indexShape index /\
  (isUniqueIndex index = true ->
   NoDup (map (rowKey index) (rowOf old :: rest)) ->
   ~ In (rowKey index (rowOf stored)) (map (rowKey index) rest)).
Proof.
  intros Hok Hl Ho Hs Hk Hrest [[-> Hsame] | (removed & Hd & Ha)].
  - split; [|split; [reflexivity|]].
    + apply (IndexOk_insert_key _ _ _ old); auto; congruence.
    + intros _ Hnd Hin. simpl in Hnd. apply NoDup_cons in Hnd as [Hnot _]. apply Hnot.
      apply list_elem_of_In. rewrite <- !keyOf_rowKey in *. congruence.
  - destruct (deleteEntry_IndexOk tuples index old a old freeSlot Hok Hl Ho eq_refl eq_refl)
      as (removed' & Hd' & Hmid).
    rewrite Hd in Hd'. injection Hd' as <-.
    assert (Hlt : (a < length tuples)%nat) by (eapply lookup_lt_Some; eauto).
    assert (Hmidl : <[a := freeSlot]> tuples !! a = Some freeSlot)
      by (now apply list_lookup_insert_eq).
    pose proof (addEntry_IndexOk _ removed stored a freeSlot stored index2 Hmid Hmidl
                  eq_refl Hs eq_refl Ha) as Hok2.
    rewrite list_insert_insert_eq in Hok2.
    pose proof (addEntry_keyFree _ _ _ _ _ Hmid Ha) as Hfree.
    pose proof (deleteEntry_shape _ _ _ _ _ Hd) as Hshape.
    split; [exact Hok2|]. split.
    + rewrite (addEntry_shape _ _ _ _ _ Ha). exact Hshape.
    + intros Hu _ Hin. apply Hfree; [now rewrite (shape_unique _ _ Hshape)|].
      rewrite keyOf_rowKey, (rowKey_shape _ _ _ Hshape).
      erewrite map_ext; [|intros r; apply (rowKey_shape _ _ r Hshape)].
      eapply Permutation_in; [|exact Hin]. symmetry.
      exact (Permutation_map _ (Hrest freeSlot)).
Qed.

Lemma UpdatedIndex_IndexesOk tuples indexes indexes2 old stamped stored a rest :
  Forall (IndexOk tuples) indexes -> tuples !! a = Some old ->
  isVisible old = true -> isVisible stored = true ->
  map keyValueOf (m_columns stored) = map keyValueOf (m_columns stamped) ->
  (forall x, Permutation (rowsOf (<[a := x]> tuples))
                         ((if isVisible x then [rowOf x] else []) ++ rest)) ->
  Forall2 (UpdatedIndex old stamped stored a) indexes indexes2 ->
  Forall (IndexOk (<[a := stored]> tuples)) indexes2 /\
  map indexShape indexes2 = map indexShape indexes /\
  (forall shape, In shape (map indexShape indexes) -> isUniqueIndex shape = true ->
     NoDup (map (rowKey shape) (rowOf old :: rest)) ->
     ~ In (rowKey shape (rowOf stored)) (map (rowKey shape) rest)).
Proof.
  intros Hall Hl Ho Hs Hk Hrest H.
  induction H as [|index index2 indexes indexes2 Hi _ IH]; simpl.
  - split; [constructor|]. split; [reflexivity|]. intros ? [].
  - apply Forall_cons in Hall as [Hok Hall].
    destruct (IH Hall) as (Hrest2 & Hshapes & Hfree).
    destruct (UpdatedIndex_IndexOk tuples index index2 old stamped stored a rest Hok Hl Ho Hs
                (keyOf_keys _ _ _ Hk) Hrest Hi) as (Hok2 & Hshape & Hfree1).
    split; [now constructor|]. split; [now rewrite Hshape, Hshapes|].
    intros shape [<- | Hin] Hu Hnd; [|now apply Hfree].
    apply Hfree1; assumption.
Qed.

Lemma HeldOrNew_more next next' cells cells' new :
  (forall cell, In cell cells -> In cell cells') ->
  HeldOrNew next next' cells new -> HeldOrNew next next' cells' new.
Proof.
  intros Hsub H p d Hin. destruct (H p d Hin) as [Hc | Hn]; [left; auto | right; exact Hn].
Qed.

Lemma UpdateReturned_TableOk target source e e1 :
  RowCostsOk -> TableOk e -> admissible (OpUpdate target source) e = true ->
  UpdateReturned target source (seq 0 (length (m_indexes (table e)))) true true e e1 ->
  TableOk e1.
Proof.
  intros Hcost (Hix & Hrows & Hbelow & Hstreams) Hadm
    (old & mark & appended & after & indexes1 & flags & H). cbv zeta in H.
  destruct H as (Hl & Hpd & Hframe & Hnext1 & Hstreamed & Hrem & Hadd & Htuples & _).
  simpl in Hadm. rewrite Hl in Hadm.
  apply andb_true_iff in Hadm as [Hadm Hagree].
  apply andb_true_iff in Hadm as [Hadm Hspdour]. apply negb_true_iff in Hspdour.
  apply andb_true_iff in Hadm as [Hadm Hspd]. apply negb_true_iff in Hspd.
  apply andb_true_iff in Hadm as [Hv Hconf]. apply conformsToSchema_spec in Hconf.
  destruct Hconf as [Hc1 Hc2].
  destruct (sourceForUpdate_parts e source true) as (Hsc & Hsh & Hpds & Hpdours).
  set (stamped := sourceForUpdate e source true) in *.
  set (given := setDirty (isDirty old) (setActive true stamped)) in *.
  pose proof (updatedTuple_cells (nextObject e) old given) as Hcells. cbv zeta in Hcells.
  set (result := updatedTuple (nextObject e) old given) in *.
  set (stored := fst (fst result)) in *.
  destruct Hcells as (Hact & Hpd1 & Hpdour1 & Hlc & Hlh & Hle & Hkeys & Hnew).
  assert (Hvs : isVisible stored = true).
  { unfold isVisible. rewrite Hact, Hpd1, Hpdour1. simpl. now rewrite Hpds, Hpdours, Hspd, Hspdour. }
  destruct Hframe as (Hconfig & _ & _ & Hnext).
  destruct (tableConfig_parts _ _ Hconfig) as (Hschema & Hpkey & _).
  destruct (rowsOf_slot _ _ _ Hl) as (rest & Hp0 & Hp1 & _).
  rewrite Hv in Hp0. simpl in Hp0.
  pose proof (update_all_indexes _ _ _ _ _ _ _ _ Hrem Hadd) as Hall.
  assert (Hk : map keyValueOf (m_columns stored) = map keyValueOf (m_columns stamped)).
  { apply Hkeys. simpl. now rewrite Hsc. }
  destruct (UpdatedIndex_IndexesOk _ _ _ _ _ _ _ rest Hix Hl Hv Hvs Hk Hp1 Hall)
    as (Hix1 & Hshapes & Hfree).
  specialize (Hp1 stored). rewrite Hvs, <- Htuples in Hp1. simpl in Hp1.
  assert (Hok0 : RowsOkOf (m_schema (table e)) (m_pkeyIndex (table e))
                   (map indexShape (m_indexes (table e))) ([rowOf old] ++ rest))
    by (now apply (RowsOkOf_perm _ _ _ _ _ Hp0)).
  assert (Hbelow0 : RowsBelow (nextObject e) ([rowOf old] ++ rest))
    by (now apply (RowsBelow_perm _ _ _ Hp0)).
  destruct (rows_add _ _ _ (nextObject e) (nextObject e1) [rowOf old] (rowOf stored) rest
              Hok0 Hbelow0 Hnext) as [Hok1 Hbelow1].
  - intros shape Hs Hu. apply (Hfree shape Hs Hu). apply (proj1 Hok0 shape Hs Hu).
  - simpl. rewrite Hlc. simpl. now rewrite Hsc.
  - simpl. rewrite Hlh. simpl. congruence.
  - rewrite Hnext1. apply (HeldOrNew_more _ _ (tupleData old)).
    + intros cell Hin. simpl. apply in_app_iff. now left.
    + apply Hnew. intros p Hp. apply Hbelow0. simpl. rewrite objectsOf_app.
      apply in_app_iff. now left.
  - split; [|split; [|split]].
    + unfold IndexesOk. rewrite Htuples. exact Hix1.
    + unfold RowsOk. rewrite Hschema, Hpkey, Hshapes.
      apply (RowsOkOf_perm _ _ _ (rowOf stored :: rest)); [now symmetry | exact Hok1].
    + apply (RowsBelow_perm _ (rowOf stored :: rest)); [now symmetry | exact Hbelow1].
    + intros s1. apply (Streamed_StreamOk _ _ _ _ _ _ Hcost Hstreams Hstreamed).
Qed.

(** *** An operation that threw *)

Lemma Unchanged_SameState e e1 : Unchanged e e1 -> SameState e1 e.
Proof.
  intros ((Hconfig & Hctx & Htop & _) & Htuples & Hindexes & Hcount & Hstream & _).
  unfold SameState. rewrite Htuples, Hindexes, Hstream.
  repeat split; auto. apply streamsAgree_refl.
Qed.

Lemma InsertThrew_SameState source fallible e x e1 :
  isPendingDelete source = false ->
  InsertThrew source fallible e x e1 -> SameState e1 e.
Proof.
  intros Hpd ((Hconfig & Hctx & Htop & _) & Hindexes & _ & Hstream & Hcount & Htuples & _).
  unfold SameState. rewrite Hindexes.
  destruct Htuples as [-> | (junk & Hjunk & ->)].
  - repeat split; auto.
  - destruct (withSlot_free e) as (free & Hfree & Hinactive).
    destruct (rowsOf_slot _ _ _ Hfree) as (rest & Hp0 & Hp1 & _).
    rewrite (isVisible_inactive _ Hinactive), rowsOf_withSlot in Hp0.
    specialize (Hp1 junk). rewrite (isVisible_inactive _ Hjunk) in Hp1.
    repeat split; auto.
    + now rewrite Hp0, Hp1.
    + intros a y Ha Hy _. apply withSlot_lookup in Ha.
      rewrite list_lookup_insert_ne; [exact Ha|]. intros <-. congruence.
Qed.

Lemma InsertThrew_IndexesOk source fallible e x e1 :
  IndexesOk (table e) -> InsertThrew source fallible e x e1 -> IndexesOk (table e1).
Proof.
  intros Hix (_ & Hindexes & _ & _ & _ & Htuples & _). unfold IndexesOk.
  rewrite Hindexes. destruct Htuples as [-> | (junk & Hjunk & ->)]; [exact Hix|].
  destruct (withSlot_free e) as (free & Hfree & Hinactive).
  eapply Forall_impl; [exact (withSlot_IndexesOk e Hix)|]. intros index.
  apply (IndexOk_invisible _ _ _ free); auto using isVisible_inactive.
Qed.

Lemma Unchanged_IndexesOk e e1 :
  IndexesOk (table e) -> Unchanged e e1 -> IndexesOk (table e1).
Proof.
  intros Hix (_ & Htuples & Hindexes & _). unfold IndexesOk. now rewrite Htuples, Hindexes.
Qed.

(** *** The undo of an insert *)

Lemma visibleTupleCount_setIndexes indexes t :
  visibleTupleCount (setIndexes indexes t) = visibleTupleCount t.
Proof. reflexivity. Qed.

Lemma removes_IndexesOk_any tuples indexes indexes' a old :
  Forall (IndexOk tuples) indexes ->
  tuples !! a = Some old -> isVisible old = true ->
  deleteFromIndexes old a indexes = Some indexes' ->
  forall new, isVisible new = false -> Forall (IndexOk (<[a := new]> tuples)) indexes'.
Proof.
  intros Hall Hl Ho Hd new Hn.
  destruct (removes_IndexesOk _ _ a old new Hall Hl Ho Hn) as (indexes'' & Hd' & Hok & _).
  rewrite Hd in Hd'. now injection Hd' as <-.
Qed.

Lemma deleteTupleForUndo_run matchable t a x :
  lookupTupleForUndo (table t) matchable = Some a ->
  m_tuples (table t) !! a = Some x -> isVisible x = true ->
  IndexesOk (table t) ->
  exists indexes' tuple' count invisible events,
    deleteTupleForUndo (InPool matchable) false t
    = Returns tt
        (mkEngine
           (setInvisibleTuplesPendingDeleteCount invisible
              (setTupleCount count
                 (setTuples (<[a := tuple']> (m_tuples (table t)))
                    (setIndexes indexes' (table t)))))
           (drStream t) (currentUndoQuantum t) (executorContext t) (topend t)
           (nextObject t) (trace t ++ events)) /\
    isVisible tuple' = false /\
    count - invisible = visibleTupleCount (table t) - 1 /\
    Forall (IndexOk (<[a := tuple']> (m_tuples (table t)))) indexes' /\
    map indexShape indexes' = map indexShape (m_indexes (table t)).
Proof.
  intros Hfound Hl Hv Hix.
  destruct (isVisible_flags _ Hv) as (Hactive & Hpd & _).
  destruct (removes_IndexesOk _ _ a x freeSlot Hix Hl Hv eq_refl)
    as (indexes' & Hd & _ & Hshapes).
  unfold deleteTupleForUndo, lookupTupleForUndoOp, deleteFromAllIndexes. op_unfold.
  rewrite Hfound, Hl, Hactive. state_simpl. rewrite Hl, Hd. state_simpl.
  match goal with
  | |- context [deleteTupleFinalize a ?e'] =>
      destruct (deleteTupleFinalize_cases a e' x Hl)
        as (tuple' & count & invisible & events & -> & Hhidden & Hcount & _)
  end.
  state_simpl.
  exists indexes', tuple', count, invisible,
    (imap (fun j _ => EvIndexDelete j a) indexes' ++ events).
  split; [now rewrite <- app_assoc|]. split; [exact Hhidden|].
  split; [now apply Hcount|]. split; [|exact Hshapes].
  now apply (removes_IndexesOk_any _ _ _ _ x Hix Hl Hv Hd).
Qed.

(** An undo action takes a state that shows what the table showed
    after the operation to one that shows what it showed before. *)
Definition Undoes (action : UndoAction) (e e1 : Engine) : Prop :=
  forall t, Restores t e1 ->
            exists t', undoAction action t = Returns tt t' /\ Restores t' e /\
                       currentUndoQuantum t' = currentUndoQuantum t.

Lemma RowsOk_SameState t e : SameState t e -> RowsOk (table e) -> RowsOk (table t).
Proof.
  intros (Hc & Hsh & Hperm & _) Hok. unfold RowsOk in *.
  destruct (tableConfig_parts _ _ Hc) as (-> & -> & _). rewrite Hsh.
  apply (RowsOkOf_perm _ _ _ _ _ (Permutation_sym Hperm) Hok).
Qed.

Lemma rolledBack_config t t' mark cost o :
  tableConfig t = tableConfig t' -> rolledBack t mark cost o = rolledBack t' mark cost o.
Proof.
  intros H. unfold rolledBack. now destruct (tableConfig_parts _ _ H) as (_ & _ & -> & _).
Qed.

Lemma isVisible_pinned y : isPendingDeleteOnUndoRelease y = true -> isVisible y = false.
Proof. unfold isVisible. intros ->. now rewrite andb_false_r. Qed.

Lemma insert_undoes source e e1 actions :
  RowCostsOk -> TableOk e -> TableOk e1 -> currentUndoQuantum e = Some actions ->
  InsertReturned source true e e1 ->
  exists action, currentUndoQuantum e1 = Some (action :: actions) /\ Undoes action e e1.
Proof.
  intros Hcost (_ & _ & _ & Hstreams) (_ & Hrows1 & _) Huq
    (stored & mark & appended & writes & after & Hframe & Htuples & Hvis & _ & Hadds
     & Hstreamed & Huq1 & Hcount1 & _).
  exists (PersistentTableUndoInsertAction stored mark).
  split; [now rewrite Huq1; unfold undoQuantumAfter; rewrite Huq|].
  destruct Hframe as (Hconfig & Hctx1 & Htop1 & _).
  destruct (withSlot_free e) as (free & Hfree & Hinactive).
  destruct (rowsOf_slot _ _ _ Hfree) as (rest & Hp0 & Hp1 & _).
  rewrite (isVisible_inactive _ Hinactive), rowsOf_withSlot in Hp0. simpl in Hp0.
  specialize (Hp1 stored). rewrite Hvis, <- Htuples in Hp1. simpl in Hp1.
  intros t (Hixt & Hsame).
  pose proof (RowsOk_SameState _ _ Hsame Hrows1) as Hrowst.
  destruct Hsame as (Hc & Hsh & Hperm & Hpin & Hstr & Hcnt & Hctx & Htop).
  assert (Hin : In (rowOf stored) (rowsOf (m_tuples (table t)))).
  { eapply Permutation_in; [symmetry; exact Hperm|].
    eapply Permutation_in; [symmetry; exact Hp1|]. now left. }
  destruct (lookupTupleForUndo_finds _ _ Hixt Hrowst Hin) as (a & x & Hfound & Hl & Hv & Hrow).
  destruct (deleteTupleForUndo_run _ _ _ _ Hfound Hl Hv Hixt)
    as (indexes' & tuple' & count & invisible & events & Hrun & Hhidden & Hcount & Hix'
        & Hshapes).
  simpl. unfold mbind, Op_bind. rewrite Hrun.
  match goal with
  | |- context [DRRollback ?m ?c ?e'] =>
      destruct (DRRollback_eq m c e') as (events' & -> & _)
  end.
  eexists. split; [reflexivity|]. state_simpl. split; [|reflexivity].
  split; [exact Hix'|]. unfold SameState. state_simpl.
  assert (Hconfig' : forall n c l i,
             tableConfig (setInvisibleTuplesPendingDeleteCount n
                            (setTupleCount c (setTuples l (setIndexes i (table t)))))
             = tableConfig (table e)).
  { intros. transitivity (tableConfig (table t)); [reflexivity | congruence]. }
  split; [apply Hconfig'|]. split; [|split; [|split; [|split; [|split; [|split]]]]].
  - rewrite Hshapes, Hsh.
    apply (Forall2_shapes _ _ _ (fun i i' H => addEntry_shape _ _ _ _ _ H) Hadds).
  - destruct (rowsOf_slot _ _ _ Hl) as (rest' & Hq0 & Hq1 & _).
    rewrite Hv in Hq0. specialize (Hq1 tuple'). rewrite Hhidden in Hq1. simpl in Hq0, Hq1.
    rewrite Hq1, Hp0. apply (Permutation_cons_inv (a := rowOf stored)).
    rewrite <- Hp1, <- Hperm, Hq0, Hrow. reflexivity.
  - intros b y Hb Hy Hyp. apply withSlot_lookup in Hb.
    assert (Hb1 : m_tuples (table e1) !! b = Some y).
    { rewrite Htuples, list_lookup_insert_ne; [exact Hb|]. intros <-. congruence. }
    rewrite list_lookup_insert_ne; [now apply Hpin|].
    intros <-. specialize (Hpin _ _ Hb1 Hy Hyp). rewrite Hl in Hpin. injection Hpin as ->.
    rewrite (isVisible_pinned _ Hyp) in Hv. discriminate.
  - rewrite (rolledBack_config _ (table e)) by apply Hconfig'.
    now apply (Streamed_rolledBack _ _ _ _ _ _ _ Hcost Hstreams Hstreamed).
  - unfold visibleTupleCount in *. state_simpl. lia.
  - congruence.
  - congruence.
Qed.

(** *** The undo of a delete *)

Lemma insertTupleForUndo_run target t pinned added :
  m_tuples (table t) !! target = Some pinned ->
  Forall2 (fun index index' =>
             addEntry index (setPendingDeleteOnUndoRelease false pinned) target
             = (index', None))
          (m_indexes (table t)) added ->
  exists t',
    insertTupleForUndo target t = Returns tt t' /\
    m_tuples (table t')
    = <[target := setPendingDeleteOnUndoRelease false pinned]> (m_tuples (table t)) /\
    m_indexes (table t') = added /\
    tableConfig (table t') = tableConfig (table t) /\
    visibleTupleCount (table t') = visibleTupleCount (table t) + 1 /\
    drStream t' = drStream t /\
    currentUndoQuantum t' = currentUndoQuantum t /\
    executorContext t' = executorContext t /\
    topend t' = topend t.
Proof.
  intros Hl Hadds.
  assert (Hlt : (target < length (m_tuples (table t)))%nat) by (eapply lookup_lt_Some; eauto).
  unfold insertTupleForUndo, tryInsertOnAllIndexes. op_unfold. rewrite Hl. state_simpl.
  rewrite list_lookup_insert_eq by exact Hlt. state_simpl.
  rewrite (tryInsertOnIndexes_each _ _ _ [] _ Hadds). state_simpl.
  eexists. split; [reflexivity|]. state_simpl. repeat split.
  unfold visibleTupleCount. state_simpl. lia.
Qed.

Lemma delete_undoes target e e1 actions :
  RowCostsOk -> TableOk e -> currentUndoQuantum e = Some actions ->
  admissible (OpDelete target) e = true ->
  DeleteReturned target true e e1 ->
  exists action, currentUndoQuantum e1 = Some (action :: actions) /\ Undoes action e e1.
Proof.
  intros Hcost (_ & Hrows & _ & Hstreams) Huq Hadm
    (tuple & mark & appended & after & Hl & Hactive & Hpd & Hframe & Hstreamed & Hdel & _ & _
     & Hcase).
  simpl in Hadm. rewrite Hl in Hadm. rename Hadm into Hv.
  rewrite Huq in Hcase. destruct Hcase as (Htuples & Huq1 & Hcount1).
  exists (PersistentTableUndoDeleteAction target mark). split; [exact Huq1|].
  destruct Hframe as (Hconfig & Hctx1 & Htop1 & _).
  destruct (isVisible_flags _ Hv) as (_ & _ & Hpdour).
  assert (Hlt : (target < length (m_tuples (table e)))%nat) by (eapply lookup_lt_Some; eauto).
  destruct (rowsOf_slot _ _ _ Hl) as (rest & Hp0 & Hp1 & _).
  specialize (Hp1 (setPendingDeleteOnUndoRelease true tuple)). rewrite <- Htuples in Hp1.
  assert (Hhidden : isVisible (setPendingDeleteOnUndoRelease true tuple) = false)
    by (now apply isVisible_pinned).
  rewrite Hhidden in Hp1. rewrite Hv in Hp0. simpl in Hp0, Hp1.
  apply deleteFromIndexes_each in Hdel.
  pose proof (Forall2_shapes _ _ _ (fun i i' H => deleteEntry_shape _ _ _ _ _ H) Hdel)
    as Hshapes1.
  intros t (Hixt & Hsame).
  destruct Hsame as (Hc & Hsh & Hperm & Hpin & Hstr & Hcnt & Hctx & Htop).
  assert (Hpinned : m_tuples (table t) !! target
                    = Some (setPendingDeleteOnUndoRelease true tuple)).
  { apply Hpin; [|exact Hactive | reflexivity].
    rewrite Htuples. now apply list_lookup_insert_eq. }
  assert (Hback : setPendingDeleteOnUndoRelease false
                    (setPendingDeleteOnUndoRelease true tuple) = tuple)
    by (now apply setPendingDeleteOnUndoRelease_restored).
  assert (Hfree : forall index, In index (m_indexes (table t)) ->
                                keyFree (m_tuples (table t)) index tuple).
  { intros index Hin Hu Hk.
    assert (Hs : In (indexShape index) (map indexShape (m_indexes (table e)))).
    { rewrite <- Hshapes1, <- Hsh. now apply in_map. }
    pose proof (proj1 Hrows (indexShape index) Hs Hu) as Hnd.
    rewrite Hp0 in Hnd. simpl in Hnd. apply NoDup_cons in Hnd as [Hnot _]. apply Hnot.
    apply list_elem_of_In. eapply Permutation_in; [|exact Hk].
    apply Permutation_map. now rewrite Hperm. }
  destruct (adds_accepted _ _ target tuple Hixt Hfree) as (added & Hadds).
  destruct (adds_IndexesOk _ _ _ target _ tuple Hixt Hpinned Hhidden Hv Hadds)
    as (Hix' & Hshapes & _).
  assert (Hadds' : Forall2 (fun index index' =>
                              addEntry index
                                (setPendingDeleteOnUndoRelease false
                                   (setPendingDeleteOnUndoRelease true tuple)) target
                              = (index', None))
                           (m_indexes (table t)) added) by (now rewrite Hback).
  destruct (insertTupleForUndo_run _ _ _ _ Hpinned Hadds')
    as (t1 & Hrun & Ht1 & Hi1 & Hc1 & Hn1 & Hs1 & Hu1 & Hx1 & Htp1).
  rewrite Hback in Ht1.
  simpl. unfold mbind, Op_bind. rewrite Hrun.
  destruct (DRRollback_eq mark (rowCostForDRRecord DR_RECORD_DELETE) t1)
    as (events' & -> & _).
  eexists. split; [reflexivity|]. state_simpl. split; [|exact Hu1].
  split; [unfold IndexesOk; state_simpl; now rewrite Ht1, Hi1|].
  unfold SameState. state_simpl.
  split; [congruence|]. split; [|split; [|split; [|split; [|split; [|split]]]]].
  - rewrite Hi1, Hshapes, Hsh. exact Hshapes1.
  - destruct (rowsOf_slot _ _ _ Hpinned) as (rest' & Hq0 & Hq1 & _).
    rewrite Hhidden in Hq0. specialize (Hq1 tuple). rewrite Hv in Hq1. simpl in Hq0, Hq1.
    rewrite Ht1, Hq1, Hp0, <- Hq0, Hperm, Hp1. reflexivity.
  - intros b y Hb Hy Hyp. rewrite Ht1.
    assert (Hne : target <> b).
    { intros <-. rewrite Hl in Hb. injection Hb as <-. congruence. }
    rewrite list_lookup_insert_ne by exact Hne. apply Hpin; auto.
    rewrite Htuples. now rewrite list_lookup_insert_ne.
  - rewrite Hs1, (rolledBack_config _ (table e)) by congruence.
    now apply (Streamed_rolledBack _ _ _ _ _ _ _ Hcost Hstreams Hstreamed).
  - lia.
  - congruence.
  - congruence.
Qed.

(** *** The undo of an update *)

Lemma updateTupleForUndo_run unwanted wanted revert t a x indexes' indexes2 :
  lookupTupleForUndo (table t) unwanted = Some a ->
  m_tuples (table t) !! a = Some x ->
  deleteFromIndexes x a (m_indexes (table t)) = Some indexes' ->
  insertIntoIndexes (setDirty (isDirty x) wanted) a indexes' = Some indexes2 ->
  (revert = false -> m_indexes (table t) = []) ->
  exists t',
    updateTupleForUndo unwanted wanted revert t = Returns tt t' /\
    m_tuples (table t') = <[a := setDirty (isDirty x) wanted]> (m_tuples (table t)) /\
    m_indexes (table t') = indexes2 /\
    tableConfig (table t') = tableConfig (table t) /\
    visibleTupleCount (table t') = visibleTupleCount (table t) /\
    drStream t' = drStream t /\
    currentUndoQuantum t' = currentUndoQuantum t /\
    executorContext t' = executorContext t /\
    topend t' = topend t.
Proof.
  intros Hfound Hl Hd Ha Hnone.
  assert (Hlt : (a < length (m_tuples (table t)))%nat) by (eapply lookup_lt_Some; eauto).
  unfold updateTupleForUndo, lookupTupleForUndoOp. op_unfold.
  assert (Hm : (if revert || negb (bool_decide (is_Some (primaryKeyIndex (table t))))
                then unwanted else wanted) = unwanted).
  { destruct revert; [reflexivity|]. unfold primaryKeyIndex. rewrite (Hnone eq_refl).
    destruct (m_pkeyIndex (table t)); reflexivity. }
  rewrite Hm, Hfound, Hl. destruct revert.
  - rewrite Hd. state_simpl. rewrite list_lookup_insert_eq by exact Hlt. state_simpl.
    rewrite Ha. state_simpl. eexists. split; [reflexivity|]. state_simpl. repeat split.
  - rewrite (Hnone eq_refl) in Hd. simpl in Hd. injection Hd as <-.
    simpl in Ha. injection Ha as <-. state_simpl.
    eexists. split; [reflexivity|]. state_simpl. repeat split. now apply Hnone.
Qed.

Lemma update_undoes target source e e1 actions :
  RowCostsOk -> TableOk e -> TableOk e1 -> currentUndoQuantum e = Some actions ->
  admissible (OpUpdate target source) e = true ->
  UpdateReturned target source (seq 0 (length (m_indexes (table e)))) true true e e1 ->
  exists action, currentUndoQuantum e1 = Some (action :: actions) /\ Undoes action e e1.
Proof.
  intros Hcost (Hix & Hrows & Hbelow & Hstreams) (_ & Hrows1 & _) Huq Hadm
    (old & mark & appended & after & indexes1 & flags & H). cbv zeta in H.
  destruct H as (Hl & Hpd & Hframe & Hnext1 & Hstreamed & Hrem & Hadd & Htuples & Hcount1
                 & Huq1 & _).
  simpl in Hadm. rewrite Hl in Hadm.
  apply andb_true_iff in Hadm as [Hadm Hagree].
  apply andb_true_iff in Hadm as [Hadm Hspdour]. apply negb_true_iff in Hspdour.
  apply andb_true_iff in Hadm as [Hadm Hspd]. apply negb_true_iff in Hspd.
  apply andb_true_iff in Hadm as [Hv _].
  destruct (sourceForUpdate_parts e source true) as (Hsc & _ & Hpds & Hpdours).
  set (stamped := sourceForUpdate e source true) in *.
  set (given := setDirty (isDirty old) (setActive true stamped)) in *.
  pose proof (updatedTuple_cells (nextObject e) old given) as Hcells. cbv zeta in Hcells.
  set (result := updatedTuple (nextObject e) old given) in *.
  set (stored := fst (fst result)) in *.
  destruct Hcells as (Hact & Hpd1 & Hpdour1 & _ & _ & _ & Hkeys & _).
  assert (Hvs : isVisible stored = true).
  { unfold isVisible. rewrite Hact, Hpd1, Hpdour1. simpl. now rewrite Hpds, Hpdours, Hspd, Hspdour. }
  destruct Hframe as (Hconfig & Hctx1 & Htop1 & _).
  destruct (rowsOf_slot _ _ _ Hl) as (rest & Hp0 & Hp1 & _).
  rewrite Hv in Hp0. simpl in Hp0.
  pose proof (update_all_indexes _ _ _ _ _ _ _ _ Hrem Hadd) as Hall.
  assert (Hk : map keyValueOf (m_columns stored) = map keyValueOf (m_columns stamped)).
  { apply Hkeys. simpl. now rewrite Hsc. }
  destruct (UpdatedIndex_IndexesOk _ _ _ _ _ _ _ rest Hix Hl Hv Hvs Hk Hp1 Hall)
    as (_ & Hshapes1 & _).
  specialize (Hp1 stored). rewrite Hvs, <- Htuples in Hp1. simpl in Hp1.
  eexists. split; [now rewrite Huq1; unfold undoQuantumAfter; rewrite Huq|].
  intros t (Hixt & Hsame).
  pose proof (RowsOk_SameState _ _ Hsame Hrows1) as Hrowst.
  destruct Hsame as (Hc & Hsh & Hperm & Hpin & Hstr & Hcnt & Hctx & Htop).
  assert (Hin : In (rowOf stored) (rowsOf (m_tuples (table t)))).
  { eapply Permutation_in; [symmetry; exact Hperm|].
    eapply Permutation_in; [symmetry; exact Hp1|]. now left. }
  destruct (lookupTupleForUndo_finds _ _ Hixt Hrowst Hin) as (a & x & Hfound & Hlt & Hvx & Hrow).
  assert (Ha : (a < length (m_tuples (table t)))%nat) by (eapply lookup_lt_Some; eauto).
  destruct (rowsOf_slot _ _ _ Hlt) as (rest' & Hq0 & Hq1 & _).
  rewrite Hvx in Hq0. simpl in Hq0.
  assert (Hrest : Permutation rest' rest).
  { apply (Permutation_cons_inv (a := rowOf stored)).
    rewrite <- Hp1, <- Hperm, Hq0, Hrow. reflexivity. }
  destruct (removes_IndexesOk _ _ a x freeSlot Hixt Hlt Hvx eq_refl)
    as (indexes' & Hd & Hmid & Hshapes').
  set (reverted := setDirty (isDirty x) old).
  assert (Hvr : isVisible reverted = true) by exact Hv.
  assert (Hfree : forall index, In index indexes' ->
                                keyFree (<[a := freeSlot]> (m_tuples (table t))) index reverted).
  { intros index Hi Hu Hkey.
    assert (Hs : In (indexShape index) (map indexShape (m_indexes (table e)))).
    { rewrite <- Hshapes1, <- Hsh, <- Hshapes'. now apply in_map. }
    pose proof (proj1 Hrows (indexShape index) Hs Hu) as Hnd.
    rewrite Hp0 in Hnd. simpl in Hnd. apply NoDup_cons in Hnd as [Hnot _]. apply Hnot.
    apply list_elem_of_In. eapply Permutation_in; [|exact Hkey].
    apply Permutation_map. rewrite (Hq1 freeSlot). simpl. exact Hrest. }
  destruct (adds_accepted _ _ a reverted Hmid Hfree) as (indexes2 & Hadds).
  assert (Hmidl : <[a := freeSlot]> (m_tuples (table t)) !! a = Some freeSlot)
    by (now apply list_lookup_insert_eq).
  destruct (adds_IndexesOk _ _ _ a _ reverted Hmid Hmidl eq_refl Hvr Hadds)
    as (Hix2 & Hshapes2 & _).
  rewrite list_insert_insert_eq in Hix2.
  apply insertIntoIndexes_each in Hadds.
  assert (Hnone : negb (bool_decide (seq 0 (length (m_indexes (table e))) = [])) = false ->
                  m_indexes (table t) = []).
  { intros Hb. apply negb_false_iff, bool_decide_eq_true in Hb.
    apply (f_equal length) in Hb. rewrite length_seq in Hb. simpl in Hb.
    apply (f_equal length) in Hshapes1, Hsh. rewrite !length_map in Hshapes1, Hsh.
    destruct (m_indexes (table t)); [reflexivity | simpl in *; lia]. }
  destruct (updateTupleForUndo_run stored old _ t a x _ _ Hfound Hlt Hd Hadds Hnone)
    as (t1 & Hrun & Ht1 & Hi1 & Hc1 & Hn1 & Hs1 & Hu1 & Hx1 & Htp1).
  fold reverted in Ht1.
  simpl. unfold mbind, Op_bind. rewrite Hrun.
  destruct (DRRollback_eq mark (rowCostForDRRecord DR_RECORD_UPDATE) t1)
    as (events' & -> & _).
  eexists. split; [reflexivity|]. state_simpl. split; [|exact Hu1].
  split; [unfold IndexesOk; state_simpl; now rewrite Ht1, Hi1|].
  unfold SameState. state_simpl.
  split; [congruence|]. split; [|split; [|split; [|split; [|split; [|split]]]]].
  - rewrite Hi1, Hshapes2, Hshapes', Hsh. exact Hshapes1.
  - rewrite Ht1, (Hq1 reverted), Hvr, Hp0. simpl. now rewrite Hrest.
  - intros b y Hb Hy Hyp. rewrite Ht1.
    assert (Hne : target <> b).
    { intros <-. rewrite Hl in Hb. injection Hb as <-.
      rewrite (isVisible_pinned _ Hyp) in Hv. discriminate. }
    assert (Hb1 : m_tuples (table t) !! b = Some y).
    { apply Hpin; auto. rewrite Htuples. now rewrite list_lookup_insert_ne. }
    rewrite list_lookup_insert_ne; [exact Hb1|].
    intros <-. rewrite Hlt in Hb1. injection Hb1 as ->.
    rewrite (isVisible_pinned _ Hyp) in Hvx. discriminate.
  - rewrite Hs1, (rolledBack_config _ (table e)) by congruence.
    now apply (Streamed_rolledBack _ _ _ _ _ _ _ Hcost Hstreams Hstreamed).
  - lia.
  - congruence.
  - congruence.
Qed.

(** *** A transaction and its abort *)

(** Modelled from the spec: a transaction makes its calls in order, and
    ends at the first exception a call throws. *)
Fixpoint runOperations (ops : list Operation) : Op unit :=
  match ops with
  | [] => mret tt
  | op :: rest => perform op;; runOperations rest
  end.

(** Every call of the transaction is one the table expects, in the
    state the calls before it left. *)
Fixpoint callerObeys (ops : list Operation) (e : Engine) : bool :=
  match ops with
  | [] => true
  | op :: rest =>
      admissible op e
      && match perform op e with
         | Returns _ e1 => callerObeys rest e1
         | _ => true
         end
  end.

Lemma perform_step op e actions :
  RowCostsOk -> TableOk e -> currentUndoQuantum e = Some actions ->
  admissible op e = true ->
  match perform op e with
  | Returns _ e1 =>
      TableOk e1 /\
      exists action, currentUndoQuantum e1 = Some (action :: actions) /\ Undoes action e e1
  | Throws _ e1 =>
      SameState e1 e /\ currentUndoQuantum e1 = Some actions /\ IndexesOk (table e1)
  | FatalException _ | AssertionFailed => True
  end.
Proof.
  intros Hcost Hok Huq Hadm. destruct op as [source | target source | target]; simpl.
  - unfold insertTuple. op_unfold.
    pose proof (insertPersistentTuple_outcome source true e Hcost (proj2 (proj2 (proj2 Hok))))
      as Hout.
    simpl in Hadm. apply andb_true_iff in Hadm as [Hconf Hpd].
    apply conformsToSchema_spec in Hconf. apply negb_true_iff in Hpd.
    destruct (insertPersistentTuple source true e) as [[] e1 | x e1 | |]; try exact I.
    + assert (Hok1 : TableOk e1) by (eapply InsertReturned_TableOk; eauto).
      split; [exact Hok1|]. eapply insert_undoes; eauto.
    + split; [eapply InsertThrew_SameState; eauto|].
      split; [|eapply InsertThrew_IndexesOk; eauto; apply Hok].
      destruct Hout as (_ & _ & -> & _). exact Huq.
  - unfold updateTuple. op_unfold.
    pose proof (updateTupleWithSpecificIndexes_outcome target source
                  (seq 0 (length (m_indexes (table e)))) true true e) as Hout.
    destruct (updateTupleWithSpecificIndexes _ _ _ _ _ e) as [b e1 | x e1 | |]; try exact I.
    + destruct Hout as [_ Hout].
      assert (Hok1 : TableOk e1) by (eapply UpdateReturned_TableOk; eauto).
      split; [exact Hok1|]. eapply update_undoes; eauto.
    + split; [now apply Unchanged_SameState|].
      split; [|eapply Unchanged_IndexesOk; eauto; apply Hok].
      destruct Hout as (_ & _ & _ & _ & _ & -> & _). exact Huq.
  - pose proof (deleteTuple_outcome target true e) as Hout.
    destruct (deleteTuple target true e) as [b e1 | x e1 | |]; try exact I.
    + destruct Hout as [_ Hout].
      split; [eapply DeleteReturned_TableOk; eauto|]. eapply delete_undoes; eauto.
    + destruct Hout as [_ Hout]. split; [now apply Unchanged_SameState|].
      split; [|eapply Unchanged_IndexesOk; eauto; apply Hok].
      destruct Hout as (_ & _ & _ & _ & _ & -> & _). exact Huq.
Qed.

Lemma undoActions_app newer older t :
  undoActions (newer ++ older) t
  = match undoActions newer t with
    | Returns _ t' => undoActions older t'
    | Throws x t' => Throws x t'
    | FatalException s => FatalException s
    | AssertionFailed => AssertionFailed
    end.
Proof.
  revert t. induction newer as [|action newer IH]; intros t; simpl; [reflexivity|].
  unfold mbind, Op_bind. destruct (undoAction action t) as [[] t1 | | |]; auto.
Qed.

(** The actions a run of operations registers undo the run, newest
    first. *)
Lemma runOperations_undone ops : forall e actions,
  RowCostsOk -> TableOk e -> currentUndoQuantum e = Some actions ->
  callerObeys ops e = true ->
  match runOperations ops e with
  | Returns _ e1 | Throws _ e1 =>
      exists newer,
        currentUndoQuantum e1 = Some (newer ++ actions) /\
        IndexesOk (table e1) /\
        forall t, Restores t e1 ->
                  exists t', undoActions newer t = Returns tt t' /\ Restores t' e /\
                             currentUndoQuantum t' = currentUndoQuantum t
  | FatalException _ | AssertionFailed => True
  end.
Proof.
  induction ops as [|op rest IH]; intros e actions Hcost Hok Huq Hobeys; simpl.
  - exists []. split; [exact Huq|]. split; [apply Hok|]. intros t Ht. exists t. auto.
  - simpl in Hobeys. apply andb_true_iff in Hobeys as [Hadm Hobeys].
    pose proof (perform_step op e actions Hcost Hok Huq Hadm) as Hstep.
    unfold mbind, Op_bind. destruct (perform op e) as [b e1 | x e1 | |]; try exact I.
    + destruct Hstep as (Hok1 & action & Huq1 & Hundo).
      specialize (IH e1 (action :: actions) Hcost Hok1 Huq1 Hobeys).
      destruct (runOperations rest e1) as [[] e2 | x e2 | |]; try exact I.
      * destruct IH as (newer & Huq2 & Hix2 & Hnewer). exists (newer ++ [action]).
        split; [now rewrite <- app_assoc|]. split; [exact Hix2|]. intros t Ht.
        destruct (Hnewer t Ht) as (t1 & Hrun1 & Ht1 & Hu1).
        destruct (Hundo t1 Ht1) as (t2 & Hrun2 & Ht2 & Hu2).
        exists t2. rewrite undoActions_app, Hrun1. simpl. unfold mbind, Op_bind.
        rewrite Hrun2. split; [reflexivity|]. split; [exact Ht2 | congruence].
      * destruct IH as (newer & Huq2 & Hix2 & Hnewer). exists (newer ++ [action]).
        split; [now rewrite <- app_assoc|]. split; [exact Hix2|]. intros t Ht.
        destruct (Hnewer t Ht) as (t1 & Hrun1 & Ht1 & Hu1).
        destruct (Hundo t1 Ht1) as (t2 & Hrun2 & Ht2 & Hu2).
        exists t2. rewrite undoActions_app, Hrun1. simpl. unfold mbind, Op_bind.
        rewrite Hrun2. split; [reflexivity|]. split; [exact Ht2 | congruence].
    + destruct Hstep as (Hsame & Huq1 & Hix1). exists []. split; [exact Huq1|].
      split; [exact Hix1|]. intros t [Hixt Ht]. exists t. split; [reflexivity|]. split; [|reflexivity].
      split; [exact Hixt|]. eapply SameState_trans; eauto.
Qed.

(** Modelled from the spec: a transaction is aborted before
    [endTransaction] when one of its calls threw, or when its caller
    gives it up after the calls returned. *)
Definition abortedIn (ops : list Operation) (e0 e1 : Engine) : Prop :=
  runOperations ops e0 = Returns tt e1 \/ exists x, runOperations ops e0 = Throws x e1.

Lemma undoUndoQuantum_run e actions :
  currentUndoQuantum e = Some actions ->
  undoUndoQuantum e = undoActions actions (setUndoQuantum (Some []) e).
Proof. unfold undoUndoQuantum. op_unfold. now intros ->. Qed.

Lemma undoUndoQuantum_restores ops e0 e1 :
  RowCostsOk -> TableOk e0 -> currentUndoQuantum e0 = Some [] ->
  callerObeys ops e0 = true -> abortedIn ops e0 e1 ->
  exists e2,
    undoUndoQuantum e1 = Returns tt e2 /\ Restores e2 e0 /\
    currentUndoQuantum e2 = Some [].
Proof.
  intros Hcost Hok Huq Hobeys Hab.
  pose proof (runOperations_undone ops e0 [] Hcost Hok Huq Hobeys) as H.
  assert (Hnewer : exists newer,
             currentUndoQuantum e1 = Some (newer ++ []) /\ IndexesOk (table e1) /\
             forall t, Restores t e1 ->
                       exists t', undoActions newer t = Returns tt t' /\ Restores t' e0 /\
                                  currentUndoQuantum t' = currentUndoQuantum t).
  { destruct Hab as [E | [x E]]; rewrite E in H; exact H. }
  destruct Hnewer as (newer & Huq1 & Hix1 & Hundo). rewrite app_nil_r in Huq1.
  rewrite (undoUndoQuantum_run _ _ Huq1).
  destruct (Hundo (setUndoQuantum (Some []) e1)) as (e2 & Hrun & Hres & Hu).
  - split; [exact Hix1 | exact (SameState_refl e1)].
  - exists e2. auto.
Qed.

(** What the topend holds once the stream has flushed. *)
Definition topendAfterFlush (e : Engine) : list (list Z) :=
  match flushDRStream e with
  | Returns _ e' => topend e'
  | _ => topend e
  end.

Lemma streamsAgree_published o o' :
  streamsAgree o o' ->
  (m_bytes <$> o) = (m_bytes <$> o') /\
  (getLastCommittedSequenceNumberAndUniqueIds <$> o)
  = (getLastCommittedSequenceNumberAndUniqueIds <$> o').
Proof.
  destruct o as [s|], o' as [s'|]; simpl; try easy.
  intros H. apply streamContents_committed in H as (-> & -> & _). auto.
Qed.

Lemma topendAfterFlush_agree e e' :
  streamsAgree (drStream e) (drStream e') -> topend e = topend e' ->
  topendAfterFlush e = topendAfterFlush e'.
Proof.
  unfold topendAfterFlush, flushDRStream. op_unfold.
  destruct (drStream e) as [s|], (drStream e') as [s'|]; simpl; try easy.
  intros H Ht. apply streamContents_committed in H as (_ & Hb & Hc & Hf & _).
  unfold periodicFlush. rewrite Hb, Hc, Hf.
  destruct (m_flushedUso s' <? m_committedUso s'); simpl; congruence.
Qed.

Lemma Restores_visible e2 e0 :
  Restores e2 e0 ->
  Permutation (rowsOf (m_tuples (table e2))) (rowsOf (m_tuples (table e0))) /\
  visibleTupleCount (table e2) = visibleTupleCount (table e0) /\
  IndexesOk (table e2) /\
  (m_bytes <$> drStream e2) = (m_bytes <$> drStream e0) /\
  (getLastCommittedSequenceNumberAndUniqueIds <$> drStream e2)
  = (getLastCommittedSequenceNumberAndUniqueIds <$> drStream e0) /\
  topend e2 = topend e0 /\
  topendAfterFlush e2 = topendAfterFlush e0.
Proof.
  intros (Hix & _ & _ & Hperm & _ & Hstr & Hcnt & _ & Htop).
  destruct (streamsAgree_published _ _ Hstr) as [Hb Hc].
  repeat split; auto. now apply topendAfterFlush_agree.
Qed.

(** C1.  A transaction that is aborted before [endTransaction], because
    one of its calls threw or because its caller gives it up, is undone
    by its undo quantum: the undo returns, and then a scan of the table
    returns, up to their order, the rows it returned before the
    transaction began, the table counts as many visible tuples, every
    index holds exactly the visible tuples, the DR stream holds the
    bytes it held and reports the committed sequence number and unique
    ids it reported, the topend has received no buffer, and the next
    flush hands it what a flush before the transaction would have
    handed it. *)
Theorem aborted_transaction_is_undone (ops : list Operation) (e0 e1 : Engine) :
  RowCostsOk -> TableOk e0 -> currentUndoQuantum e0 = Some [] ->
  callerObeys ops e0 = true -> abortedIn ops e0 e1 ->
  exists e2,
    undoUndoQuantum e1 = Returns tt e2 /\
    Permutation (rowsOf (m_tuples (table e2))) (rowsOf (m_tuples (table e0))) /\
    visibleTupleCount (table e2) = visibleTupleCount (table e0) /\
    IndexesOk (table e2) /\
    (m_bytes <$> drStream e2) = (m_bytes <$> drStream e0) /\
    (getLastCommittedSequenceNumberAndUniqueIds <$> drStream e2)
    = (getLastCommittedSequenceNumberAndUniqueIds <$> drStream e0) /\
    topend e2 = topend e0 /\
    topendAfterFlush e2 = topendAfterFlush e0.
Proof.
  intros Hcost Hok Huq Hobeys Hab.
  destruct (undoUndoQuantum_restores ops e0 e1 Hcost Hok Huq Hobeys Hab)
    as (e2 & Hrun & Hres & _).
  exists e2. split; [exact Hrun|]. now apply Restores_visible.
Qed.

(** *** A stream that refuses a record *)

Definition recordTypeOf (op : Operation) : DRRecordType :=
  match op with
  | OpInsert _ => DR_RECORD_INSERT
  | OpUpdate _ _ => DR_RECORD_UPDATE
  | OpDelete _ => DR_RECORD_DELETE
  end.

(** The tuple that an insert hands to the stream: the copy of the source
    in its slot, with its DR timestamp. *)
Definition insertedImage (source : TupleStorage) (e : Engine) : TupleStorage :=
  let columns := copyObjects (nextObject e) (m_columns source) in
  let hidden := copyObjects (snd columns) (m_hiddenColumns source) in
  let copy := mkTuple (isActive source) (isDirty source) (isPendingDelete source)
                      (isPendingDeleteOnUndoRelease source) (fst columns) (fst hidden) in
  if hasDRTimestampColumn (table e)
  then withDRTimestamp (table e) (currentDRTimestamp (executorContext e)) false copy
  else copy.

(** The images that a call hands to the stream: the inserted tuple; the
    tuple to update and its new values, with their DR timestamp; the
    tuple to delete. *)
Definition recordImages (op : Operation) (e : Engine) : list TupleStorage :=
  match op with
  | OpInsert source => [insertedImage source e]
  | OpUpdate target source =>
      match m_tuples (table e) !! target with
      | Some old =>
          [old;
           if hasDRTimestampColumn (table e)
           then withDRTimestamp (table e) (currentDRTimestamp (executorContext e)) true
                                source
           else source]
      | None => []
      end
  | OpDelete target =>
      match m_tuples (table e) !! target with
      | Some old => [old]
      | None => []
      end
  end.

(** The index that keys the records of the table. *)
Definition uniqueIndexForDR (e : Engine) : option nat * Z :=
  fst (getUniqueIndexForDR crc32cInit crc32c crc32cFinish
         (getIsActiveActiveDREnabled (executorContext e)) (table e)).

(** The record of a call as [appendRecord] lays it out: the header and
    the image of the rows. *)
Definition recordOf (op : Operation) (e : Engine) : list Z :=
  DRTupleStreamFormat.rowRecordHeader (recordTypeCode (recordTypeOf op))
                                      (m_signature (table e))
  ++ rowImage (recordTypeOf op) (uniqueIndexForDR e) (recordImages op e).

(** The rows of the record of the call exceed what is left of the row
    budget of the transaction, or the bytes of the transaction with the
    record overflow the primary block and the secondary one. *)
Definition streamRefuses (op : Operation) (e : Engine) (s : DRTupleStream) : bool :=
  m_enabled s
  && ((m_rowTarget s
       <? (if m_opened s then m_txnRowCount s else 0)
          + rowCostForDRRecord (recordTypeOf op))
      || ((m_defaultCapacity s <? openTransactionLength s (recordOf op e))
          && (m_secondaryCapacity s <? openTransactionLength s (recordOf op e)))).

Lemma appendRecord_refuses op e s partitionValue uniqueId :
  streamRefuses op e s = true ->
  appendRecord (m_signature (table e)) partitionValue uniqueId (recordTypeOf op)
               (recordImages op e) (uniqueIndexForDR e) s
  = BufferOverflow.
Proof.
  unfold streamRefuses, appendRecord, recordOf. intros H.
  apply andb_true_iff in H as [-> H]. cbn [negb]. cbv zeta.
  destruct (_ <? _ + rowCostForDRRecord _); [reflexivity|].
  cbn [orb] in H. now rewrite H.
Qed.

Lemma appendToDRStream_refused type images partitionTuple e s :
  streamsToDR (table e) = true -> drStream e = Some s ->
  appendRecord (m_signature (table e)) (partitionValue (table e) partitionTuple)
               (currentUniqueId (executorContext e)) type images (uniqueIndexForDR e) s
  = BufferOverflow ->
  exists none index crc,
    appendToDRStream type images partitionTuple true e
    = Throws (TupleStreamException volt_output_buffer_overflow)
             (setTable (setSmallestUniqueIndex none index crc (table e)) e).
Proof.
  intros Hdr Hs Ha. rewrite appendToDRStream_run, Hs. unfold streamsToDR in Hdr.
  rewrite andb_true_r, Hdr. cbv zeta. unfold uniqueIndexForDR in Ha. rewrite Ha.
  rewrite (getUniqueIndexForDR_frame (getIsActiveActiveDREnabled (executorContext e))
             (table e)).
  eauto.
Qed.

Lemma getUniqueIndexForDR_tuples isActiveActive tuples count t :
  fst (getUniqueIndexForDR crc32cInit crc32c crc32cFinish isActiveActive
         (setTuples tuples (setTupleCount count t)))
  = fst (getUniqueIndexForDR crc32cInit crc32c crc32cFinish isActiveActive t).
Proof.
  unfold getUniqueIndexForDR, computeSmallestUniqueIndex.
  destruct isActiveActive; [reflexivity|]. state_simpl.
  destruct (_ && _); [|reflexivity].
  destruct (smallestUniqueIndex _) as [[pos index]|]; reflexivity.
Qed.

(** The call passes the checks that come before the stream. *)
Definition reachesStream (op : Operation) (e : Engine) : bool :=
  match op with
  | OpInsert source => negb (rowLimitReached true e) && negb (nullRefused true e source)
  | OpUpdate target source =>
      match m_tuples (table e) !! target with
      | Some old =>
          checkUpdateOnUniqueIndexes (table e) old source
            (seq 0 (length (m_indexes (table e))))
          && checkNulls (table e) source
      | None => false
      end
  | OpDelete _ => true
  end.

Lemma forallb_seq_below n :
  forallb (fun i => (i <? n)%nat) (seq 0 n) = true.
Proof.
  apply forallb_forall. intros i Hi. apply in_seq in Hi. apply Nat.ltb_lt. lia.
Qed.

Lemma perform_refused op e s :
  admissible op e = true -> reachesStream op e = true ->
  streamsToDR (table e) = true -> drStream e = Some s ->
  streamRefuses op e s = true ->
  exists e1, perform op e = Throws (TupleStreamException volt_output_buffer_overflow) e1.
Proof.
  intros Hadm Hreach Hdr Hs Hr.
  pose proof (fun pv u => appendRecord_refuses op e s pv u Hr) as Ha. clear Hr.
  destruct op as [source | target source | target];
    cbn [reachesStream recordTypeOf recordImages perform admissible] in *.
  - apply andb_true_iff in Hreach as [Hlimit Hnull].
    apply negb_true_iff in Hlimit, Hnull.
    unfold insertTuple, insertPersistentTuple. op_unfold.
    fold (rowLimitReached true e). rewrite Hlimit.
    rewrite nextFreeTuple_run. state_simpl.
    rewrite copyForPersistentInsert_run.
    destruct (nextFreeTuple_slot (m_tuples (table e))) as (old & Hold & Hfree & Hlen).
    fold (insertSlot e) in *. fold (withSlot e) in *.
    set (target := insertSlot e) in *.
    state_simpl.
    unfold insertedImage in Ha. cbv zeta in Ha.
    set (columns := copyObjects (nextObject e) (m_columns source)) in *.
    set (hidden := copyObjects (snd columns) (m_hiddenColumns source)) in *.
    set (copy := mkTuple _ _ _ _ _ _) in *.
    unfold insertTupleCommon. op_unfold. state_simpl.
    rewrite list_lookup_insert_eq by exact Hlen.
    assert (Hkeys : map keyValueOf (m_columns copy) = map keyValueOf (m_columns source))
      by apply copyObjects_keys.
    match goal with
    | |- context [checkNulls ?t copy] =>
        rewrite (checkNulls_keys t (table e) copy source eq_refl eq_refl Hkeys)
    end.
    fold (nullRefused true e source). rewrite Hnull.
    set (image := if hasDRTimestampColumn (table e) then _ else copy) in Ha.
    match goal with
    | |- context [(if hasDRTimestampColumn ?T then ?a else ?b) ?E] =>
        assert (Hts : exists writes,
          (if hasDRTimestampColumn T then a else b) E
          = Returns tt
              (mkEngine
                 (setTuples (<[target := image]> (withSlot e))
                    (setTupleCount (m_tupleCount (table e) + 1) (table e)))
                 (drStream e) (currentUndoQuantum e) (executorContext e) (topend e)
                 (snd hidden) (trace e ++ EvAllocateSlot target :: writes)))
    end.
    { subst image.
      match goal with
      | |- context [hasDRTimestampColumn (setTuples ?x ?y)] =>
          change (hasDRTimestampColumn (setTuples x y))
            with (hasDRTimestampColumn (table e))
      end.
      destruct (hasDRTimestampColumn (table e)) eqn:Hh.
      - erewrite setDRTimestampForTuple_run;
          [| exact Hh | state_simpl; apply list_lookup_insert_eq; exact Hlen].
        state_simpl. rewrite list_insert_insert_eq.
        eexists [_; _]. rewrite <- !app_assoc. reflexivity.
      - exists [EvWriteTuple target]. rewrite <- !app_assoc. reflexivity. }
    destruct Hts as (writes & ->).
    state_simpl. rewrite list_lookup_insert_eq by exact Hlen.
    match goal with
    | |- context [appendToDRStream ?ty ?im ?pt true ?E] =>
        destruct (appendToDRStream_refused ty im pt E s) as (none & index & crc & ->)
    end.
    + exact Hdr.
    + exact Hs.
    + unfold uniqueIndexForDR. state_simpl. rewrite getUniqueIndexForDR_tuples. apply Ha.
    + erewrite deleteTupleStorage_run
        by (state_simpl; apply list_lookup_insert_eq; exact Hlen).
      eauto.
  - destruct (m_tuples (table e) !! target) as [old|] eqn:Hl; [|discriminate].
    apply andb_true_iff in Hreach as [Hunique Hnulls].
    unfold updateTuple, updateTupleWithSpecificIndexes. op_unfold.
    rewrite forallb_seq_below, Hl, Hunique, Hnulls. cbn [negb].
    rewrite andb_true_r.
    match goal with
    | |- context [appendToDRStream ?ty ?im ?pt true ?E] =>
        destruct (appendToDRStream_refused ty im pt E s Hdr Hs (Ha _ _))
          as (none & index & crc & ->)
    end.
    eauto.
  - destruct (m_tuples (table e) !! target) as [old|] eqn:Hl; [|discriminate].
    destruct (isVisible_flags _ Hadm) as (Hactive & _).
    unfold deleteTuple. op_unfold. rewrite Hl, Hactive.
    match goal with
    | |- context [appendToDRStream ?ty ?im ?pt true ?E] =>
        destruct (appendToDRStream_refused ty im pt E s Hdr Hs (Ha _ _))
          as (none & index & crc & ->)
    end.
    eauto.
Qed.

Lemma runOperations_TableOk ops : forall e actions e1,
  RowCostsOk -> TableOk e -> currentUndoQuantum e = Some actions ->
  callerObeys ops e = true ->
  runOperations ops e = Returns tt e1 -> TableOk e1.
Proof.
  induction ops as [|op rest IH]; intros e actions e1 Hcost Hok Huq Hobeys; simpl.
  - now intros [= <-].
  - simpl in Hobeys. apply andb_true_iff in Hobeys as [Hadm Hobeys].
    pose proof (perform_step op e actions Hcost Hok Huq Hadm) as Hstep.
    unfold mbind, Op_bind. destruct (perform op e) as [b e' | x e' | |]; try discriminate.
    destruct Hstep as (Hok1 & action & Huq1 & _). eauto.
Qed.

Lemma callerObeys_last ops op : forall e e1,
  callerObeys (ops ++ [op]) e = true ->
  runOperations ops e = Returns tt e1 -> admissible op e1 = true.
Proof.
  induction ops as [|o rest IH]; intros e e1; simpl.
  - intros H [= <-]. now apply andb_true_iff in H as [H _].
  - intros H. apply andb_true_iff in H as [_ H]. unfold mbind, Op_bind.
    destruct (perform o e) as [b e' | x e' | |]; try discriminate. eauto.
Qed.

Lemma runOperations_last ops op x : forall e e1 e2,
  runOperations ops e = Returns tt e1 -> perform op e1 = Throws x e2 ->
  runOperations (ops ++ [op]) e = Throws x e2.
Proof.
  induction ops as [|o rest IH]; intros e e1 e2; simpl.
  - intros [= <-] Hp. unfold mbind, Op_bind. now rewrite Hp.
  - unfold mbind, Op_bind. destruct (perform o e) as [b e' | y e' | |]; try discriminate.
    eauto.
Qed.

(** C9.  When the rows of the record of a call exceed what is left of
    the row budget of the transaction, or the bytes of the transaction
    with the record (its header and its row images) overflow the
    primary and the secondary block, the append is refused and the
    call that reached the stream throws the buffer-overflow exception,
    which ends the transaction.  Once the caller has undone the undo
    quantum, a scan of the table returns, up to their order, the rows it
    returned before the transaction began (every original row, none of
    the new values),
    every index holds exactly the visible tuples, and the stream holds
    the bytes it held: the topend, and so the replica, has received no
    buffer, and the next flush hands it what a flush before the
    transaction would have handed it. *)
Theorem refused_record_aborts_transaction (ops : list Operation) (op : Operation)
    (e0 e1 : Engine) (s : DRTupleStream) :
  RowCostsOk -> TableOk e0 -> currentUndoQuantum e0 = Some [] ->
  callerObeys (ops ++ [op]) e0 = true ->
  runOperations ops e0 = Returns tt e1 ->
  streamsToDR (table e1) = true -> drStream e1 = Some s ->
  streamRefuses op e1 s = true ->
  reachesStream op e1 = true ->
  (forall partitionValue uniqueId,
     appendRecord (m_signature (table e1)) partitionValue uniqueId (recordTypeOf op)
                  (recordImages op e1) (uniqueIndexForDR e1) s
     = BufferOverflow) /\
  exists e2 e3,
    runOperations (ops ++ [op]) e0
    = Throws (TupleStreamException volt_output_buffer_overflow) e2 /\
    undoUndoQuantum e2 = Returns tt e3 /\
    Permutation (rowsOf (m_tuples (table e3))) (rowsOf (m_tuples (table e0))) /\
    visibleTupleCount (table e3) = visibleTupleCount (table e0) /\
    IndexesOk (table e3) /\
    (m_bytes <$> drStream e3) = (m_bytes <$> drStream e0) /\
    (getLastCommittedSequenceNumberAndUniqueIds <$> drStream e3)
    = (getLastCommittedSequenceNumberAndUniqueIds <$> drStream e0) /\
    topend e3 = topend e0 /\
    topendAfterFlush e3 = topendAfterFlush e0.
Proof.
  intros Hcost Hok Huq Hobeys Hrun Hdr Hs Hr Hreach.
  split; [intros; now apply appendRecord_refuses|].
  assert (Hprefix : callerObeys ops e0 = true).
  { clear -Hobeys. revert e0 Hobeys. induction ops as [|o rest IH]; intros e; simpl;
      [reflexivity|].
    intros H. apply andb_true_iff in H as [-> H]. simpl.
    destruct (perform o e); auto. }
  pose proof (runOperations_TableOk ops e0 [] e1 Hcost Hok Huq Hprefix Hrun) as Hok1.
  pose proof (callerObeys_last ops op e0 e1 Hobeys Hrun) as Hadm.
  destruct (perform_refused op e1 s Hadm Hreach Hdr Hs Hr) as (e2 & Hthrow).
  pose proof (runOperations_last ops op _ e0 e1 e2 Hrun Hthrow) as Hall.
  destruct (undoUndoQuantum_restores (ops ++ [op]) e0 e2 Hcost Hok Huq Hobeys)
    as (e3 & Hundo & Hres & _); [right; eauto|].
  exists e2, e3. split; [exact Hall|]. split; [exact Hundo|]. now apply Restores_visible.
Qed.

(** ** Finding a row by its primary key after an operation *)

Lemma lookupTuple_by_primary_key (t : PersistentTable) pk tuple lookupType a x :
  IndexesOk t -> RowsOk t -> primaryKeyIndex t = Some pk ->
  m_tuples t !! a = Some x -> isVisible x = true ->
  keyOf pk x = keyOf pk tuple ->
  lookupTuple t tuple lookupType = Some a.
Proof.
  intros Hindexes (Hunique & Hpkey & _ & _) Epk Hb Hvb Hkey.
  unfold lookupTuple. rewrite Epk.
  unfold primaryKeyIndex in Epk. destruct (m_pkeyIndex t) as [i|] eqn:Ei; [|discriminate].
  simpl in Epk.
  assert (Hpk : In pk (m_indexes t))
    by (apply list_elem_of_In; eapply list_elem_of_lookup_2; eauto).
  assert (Hshape : map indexShape (m_indexes t) !! i = Some (indexShape pk))
    by (now rewrite list_lookup_fmap, Epk).
  unfold IndexesOk in Hindexes. rewrite Forall_forall in Hindexes.
  destruct (Hindexes pk ltac:(now apply list_elem_of_In)) as [_ Hentries].
  unfold uniqueMatchingTuple.
  assert (Hheld : In (keyOf pk tuple, a) (m_entries pk)).
  { apply Hentries. exists x. auto. }
  destruct (findKey_is_Some _ _ _ Hheld) as [c Hc]. rewrite Hc.
  apply findKey_Some, Hentries in Hc as (xc & Hlc & Hvc & Hkc).
  f_equal. destruct (decide (c = a)) as [|Hne]; [assumption|]. exfalso.
  specialize (Hunique (indexShape pk) ltac:(now apply in_map)
                      (Hpkey i _ eq_refl Hshape)).
  unfold rowsOf in Hunique. rewrite map_map in Hunique.
  apply (nodup_filter_lookup _ _ _ c a xc x Hunique Hlc Hb Hne Hvc Hvb).
  change (rowKey (indexShape pk)) with (rowKey pk).
  rewrite <- !keyOf_rowKey. congruence.
Qed.

Lemma lookupTuple_absent (t : PersistentTable) pk tuple lookupType :
  IndexesOk t -> primaryKeyIndex t = Some pk ->
  (forall a x, m_tuples t !! a = Some x -> isVisible x = true ->
               keyOf pk x <> keyOf pk tuple) ->
  lookupTuple t tuple lookupType = None.
Proof.
  intros Hindexes Epk Hnone. unfold lookupTuple. rewrite Epk.
  unfold primaryKeyIndex in Epk. destruct (m_pkeyIndex t) as [i|] eqn:Ei; [|discriminate].
  simpl in Epk.
  unfold IndexesOk in Hindexes. rewrite Forall_forall in Hindexes.
  destruct (Hindexes pk ltac:(eapply list_elem_of_lookup_2; eauto)) as [_ Hentries].
  unfold uniqueMatchingTuple.
  destruct (findKey (keyOf pk tuple) (m_entries pk)) as [c|] eqn:Hc; [|reflexivity].
  exfalso. apply findKey_Some, Hentries in Hc as (xc & Hlc & Hvc & Hkc).
  exact (Hnone c xc Hlc Hvc Hkc).
Qed.

Lemma primaryKeyIndex_after (P : TableIndex -> TableIndex -> Prop) t t1 pk :
  m_pkeyIndex t1 = m_pkeyIndex t ->
  Forall2 P (m_indexes t) (m_indexes t1) ->
  primaryKeyIndex t = Some pk ->
  exists pk', primaryKeyIndex t1 = Some pk' /\ P pk pk'.
Proof.
  intros Hp Hall Epk. unfold primaryKeyIndex in *. rewrite Hp.
  destruct (m_pkeyIndex t) as [i|]; [|discriminate]. simpl in *.
  destruct (Forall2_lookup_l _ _ _ _ _ Hall Epk) as (pk' & Hpk' & HP). eauto.
Qed.

Lemma unique_key_one_slot (t : PersistentTable) pk a b x y :
  RowsOk t -> primaryKeyIndex t = Some pk ->
  m_tuples t !! a = Some x -> isVisible x = true ->
  m_tuples t !! b = Some y -> isVisible y = true ->
  keyOf pk x = keyOf pk y -> a = b.
Proof.
  intros (Hunique & Hpkey & _ & _) Epk Ha Hx Hb Hy Hkey.
  unfold primaryKeyIndex in Epk. destruct (m_pkeyIndex t) as [i|] eqn:Ei; [|discriminate].
  simpl in Epk.
  assert (Hpk : In pk (m_indexes t))
    by (apply list_elem_of_In; eapply list_elem_of_lookup_2; eauto).
  assert (Hshape : map indexShape (m_indexes t) !! i = Some (indexShape pk))
    by (now rewrite list_lookup_fmap, Epk).
  destruct (decide (a = b)) as [|Hne]; [assumption|]. exfalso.
  specialize (Hunique (indexShape pk) ltac:(now apply in_map)
                      (Hpkey i _ eq_refl Hshape)).
  unfold rowsOf in Hunique. rewrite map_map in Hunique.
  apply (nodup_filter_lookup _ _ _ a b x y Hunique Ha Hb Hne Hx Hy).
  change (rowKey (indexShape pk)) with (rowKey pk).
  rewrite <- !keyOf_rowKey. congruence.
Qed.

Lemma findKey_removeEntry_ne k a e : forall e' k',
  removeEntry k a e = Some e' -> k' <> k -> findKey k' e' = findKey k' e.
Proof.
  unfold findKey. induction e as [|p e IH]; intros e' k'; simpl; [discriminate|].
  destruct (bool_decide (p = (k, a))) eqn:E.
  - apply bool_decide_eq_true in E. subst p. intros [= <-] Hne. simpl.
    now rewrite bool_decide_eq_false_2 by congruence.
  - destruct (removeEntry k a e) as [e1|] eqn:Er; [|discriminate].
    simpl. intros [= <-] Hne. simpl.
    destruct (bool_decide (p.1 = k')); [reflexivity|]. now apply IH.
Qed.

(** X1. After an insert into a table with a primary key has returned,
    a lookup of the source tuple, in any mode, gives the slot the insert
    took; the tuple stored there is visible and holds the values of the
    source. *)
Theorem insert_then_lookup (source : TupleStorage) (fallible : bool) (e e1 : Engine)
    (pk : TableIndex) (lookupType : LookupType) :
  RowCostsOk -> TableOk e -> conformsTo (m_schema (table e)) source ->
  primaryKeyIndex (table e) = Some pk ->
  insertPersistentTuple source fallible e = Returns tt e1 ->
  lookupTuple (table e1) source lookupType = Some (insertSlot e) /\
  exists stored,
    m_tuples (table e1) !! insertSlot e = Some stored /\ isVisible stored = true /\
    map keyValueOf (m_columns stored) = map keyValueOf (m_columns source).
Proof.
  intros Hcost Hok Hconf Hpk Hrun.
  pose proof (insertPersistentTuple_outcome source fallible e Hcost
                (proj2 (proj2 (proj2 Hok)))) as Hout.
  rewrite Hrun in Hout.
  destruct (InsertReturned_TableOk _ _ _ _ Hcost Hok Hconf Hout) as (Hix1 & Hrows1 & _).
  destruct Hout as (stored & mark & appended & writes & after & Hframe & Htuples & Hvis
                    & (Hkeys & _) & Hadds & _).
  assert (Hl : m_tuples (table e1) !! insertSlot e = Some stored).
  { rewrite Htuples. apply list_lookup_insert_eq.
    destruct (withSlot_free e) as (free & Hf & _). eapply lookup_lt_Some; eauto. }
  destruct Hframe as (Hconfig & _).
  destruct (tableConfig_parts _ _ Hconfig) as (_ & Hpkey & _).
  destruct (primaryKeyIndex_after _ _ _ _ Hpkey Hadds Hpk) as (pk' & Epk' & _).
  split; [|eauto].
  apply (lookupTuple_by_primary_key _ pk' _ _ _ stored); auto.
  now apply keyOf_keys.
Qed.

(** X2. After the delete of a visible tuple of a table with a primary
    key has returned, a lookup of the deleted tuple gives nothing, and a
    lookup of a tuple with another key gives what it gave before. *)
Theorem delete_then_lookup (target : nat) (fallible : bool) (e e1 : Engine)
    (pk : TableIndex) (old : TupleStorage) (lookupType : LookupType) :
  TableOk e -> primaryKeyIndex (table e) = Some pk ->
  m_tuples (table e) !! target = Some old -> isVisible old = true ->
  deleteTuple target fallible e = Returns true e1 ->
  lookupTuple (table e1) old lookupType = None /\
  (forall other, keyOf pk other <> keyOf pk old ->
     lookupTuple (table e1) other lookupType = lookupTuple (table e) other lookupType).
Proof.
  intros (Hix & Hrows & _) Hpk Hl Hv Hrun.
  pose proof (deleteTuple_outcome target fallible e) as Hout. rewrite Hrun in Hout.
  destruct Hout as (_ & tuple & mark & appended & after & Hl' & _ & _ & Hframe & _ & Hdel & _).
  rewrite Hl in Hl'. injection Hl' as <-.
  destruct Hframe as (Hconfig & _).
  destruct (tableConfig_parts _ _ Hconfig) as (_ & Hpkey & _).
  apply deleteFromIndexes_each in Hdel.
  destruct (primaryKeyIndex_after _ _ _ _ Hpkey Hdel Hpk) as (pk' & Epk' & Hd).
  assert (Hin : In pk (m_indexes (table e))).
  { unfold primaryKeyIndex in Hpk. destruct (m_pkeyIndex (table e)); [|discriminate].
    apply list_elem_of_In. eapply list_elem_of_lookup_2; eauto. }
  unfold IndexesOk in Hix. rewrite Forall_forall in Hix.
  destruct (Hix pk ltac:(now apply list_elem_of_In)) as [Hnd Hentries].
  unfold deleteEntry in Hd.
  destruct (removeEntry (keyOf pk old) target (m_entries pk)) as [entries|] eqn:Er;
    [|discriminate].
  injection Hd as <-.
  destruct (removeEntry_Some _ _ _ _ Er) as [_ Hrest].
  destruct (Hrest Hnd) as [_ Hiff].
  unfold lookupTuple. rewrite Epk', Hpk. unfold uniqueMatchingTuple. simpl.
  change (keyOf (setEntries entries pk)) with (keyOf pk).
  split.
  - destruct (findKey (keyOf pk old) entries) as [c|] eqn:Hc; [|reflexivity].
    exfalso. apply findKey_Some, Hiff in Hc as [Hc Hne].
    apply Hentries in Hc as (xc & Hlc & Hvc & Hkc).
    apply Hne. f_equal.
    exact (unique_key_one_slot _ _ _ _ _ _ Hrows Hpk Hlc Hvc Hl Hv Hkc).
  - intros other Hne. now apply (findKey_removeEntry_ne _ _ _ _ _ Er).
Qed.

(** X3. After an update of a table with a primary key has returned, a
    lookup of the source tuple gives the slot of the updated tuple, and,
    when the update changed the primary key, a lookup of the tuple as it
    was gives nothing. *)
Theorem update_then_lookup (target : nat) (source old : TupleStorage) (e e1 : Engine)
    (pk : TableIndex) (lookupType : LookupType) :
  RowCostsOk -> TableOk e -> admissible (OpUpdate target source) e = true ->
  primaryKeyIndex (table e) = Some pk ->
  m_tuples (table e) !! target = Some old ->
  updateTuple target source e = Returns true e1 ->
  lookupTuple (table e1) source lookupType = Some target /\
  (keyOf pk old <> keyOf pk source -> lookupTuple (table e1) old lookupType = None).
Proof.
  intros Hcost Hok Hadm Hpk Hl Hrun.
  unfold updateTuple in Hrun. op_unfold.
  pose proof (updateTupleWithSpecificIndexes_outcome target source
                (seq 0 (length (m_indexes (table e)))) true true e) as Hout.
  rewrite Hrun in Hout. destruct Hout as [_ Hout].
  destruct (UpdateReturned_TableOk _ _ _ _ Hcost Hok Hadm Hout) as (Hix1 & Hrows1 & _).
  destruct Hok as (Hix & Hrows & _).
  destruct Hout as (old' & mark & appended & after & indexes1 & flags & H). cbv zeta in H.
  destruct H as (Hl' & Hpd & Hframe & Hnext1 & Hstreamed & Hrem & Hadd & Htuples & _).
  rewrite Hl in Hl'. injection Hl' as <-.
  simpl in Hadm. rewrite Hl in Hadm.
  apply andb_true_iff in Hadm as [Hadm Hagree].
  apply andb_true_iff in Hadm as [Hadm Hspdour]. apply negb_true_iff in Hspdour.
  apply andb_true_iff in Hadm as [Hadm Hspd]. apply negb_true_iff in Hspd.
  apply andb_true_iff in Hadm as [Hv _].
  destruct (sourceForUpdate_parts e source true) as (Hsc & Hsh & Hpds & Hpdours).
  set (stamped := sourceForUpdate e source true) in *.
  set (given := setDirty (isDirty old) (setActive true stamped)) in *.
  pose proof (updatedTuple_cells (nextObject e) old given) as Hcells. cbv zeta in Hcells.
  set (result := updatedTuple (nextObject e) old given) in *.
  set (stored := fst (fst result)) in *.
  destruct Hcells as (Hact & Hpd1 & Hpdour1 & _ & _ & _ & Hkeys & _).
  assert (Hvs : isVisible stored = true).
  { unfold isVisible. rewrite Hact, Hpd1, Hpdour1. simpl.
    now rewrite Hpds, Hpdours, Hspd, Hspdour. }
  assert (Hk : map keyValueOf (m_columns stored) = map keyValueOf (m_columns source)).
  { rewrite <- Hsc. apply Hkeys. simpl. now rewrite Hsc. }
  assert (Hlen : (target < length (m_tuples (table e)))%nat)
    by (eapply lookup_lt_Some; eauto).
  assert (Hl1 : m_tuples (table e1) !! target = Some stored)
    by (rewrite Htuples; now apply list_lookup_insert_eq).
  destruct Hframe as (Hconfig & _).
  destruct (tableConfig_parts _ _ Hconfig) as (_ & Hpkey & _).
  pose proof (update_all_indexes _ _ _ _ _ _ _ _ Hrem Hadd) as Hall.
  destruct (primaryKeyIndex_after _ _ _ _ Hpkey Hall Hpk) as (pk' & Epk' & Hupd).
  assert (Hsame : forall t, keyOf pk' t = keyOf pk t).
  { intros t. rewrite !keyOf_rowKey. apply rowKey_shape.
    destruct Hupd as [[-> _] | (removed & Hd & Ha)]; [reflexivity|].
    rewrite (addEntry_shape _ _ _ _ _ Ha). exact (deleteEntry_shape _ _ _ _ _ Hd). }
  split.
  - apply (lookupTuple_by_primary_key _ pk' _ _ _ stored); auto.
    now apply keyOf_keys.
  - intros Hchanged. apply (lookupTuple_absent _ pk'); auto.
    intros a x Ha Hx Hkx. rewrite !Hsame in Hkx.
    destruct (decide (a = target)) as [-> | Hne].
    + rewrite Hl1 in Ha. injection Ha as <-. apply Hchanged. rewrite <- Hkx.
      symmetry. now apply keyOf_keys.
    + rewrite Htuples, list_lookup_insert_ne in Ha by auto.
      apply Hne. exact (unique_key_one_slot _ _ _ _ _ _ Hrows Hpk Ha Hx Hl Hv Hkx).
Qed.

(** ** What refuses an insert or an update *)

(** X4. An insert into a table whose indexes are in step with its
    tuples returns only when no visible tuple holds the key of the
    source on a unique index; and the tuple that a unique-constraint
    failure carries is a visible tuple of the table that holds the key
    of the source on a unique index. *)
Theorem insert_refused_by_held_key (source : TupleStorage) (fallible : bool) (e : Engine) :
  RowCostsOk -> TableOk e ->
  match insertPersistentTuple source fallible e with
  | Returns _ _ =>
      forall index a x,
        In index (m_indexes (table e)) -> isUniqueIndex index = true ->
        m_tuples (table e) !! a = Some x -> isVisible x = true ->
        keyOf index x <> keyOf index source
  | Throws (ConstraintFailureException CONSTRAINT_TYPE_UNIQUE _ conflict) _ =>
      exists index c x,
        conflict = Some c /\
        In index (m_indexes (table e)) /\ isUniqueIndex index = true /\
        m_tuples (table e) !! c = Some x /\ isVisible x = true /\
        keyOf index x = keyOf index source
  | _ => True
  end.
Proof.
  intros Hcost (Hix & _ & _ & Hstreams).
  pose proof (insertPersistentTuple_outcome source fallible e Hcost Hstreams) as Hout.
  destruct (insertPersistentTuple source fallible e) as [[] e1 | x e1 | |]; try exact I.
  - destruct Hout as (stored & mark & appended & writes & after & _ & _ & _
                      & (Hkeys & _) & Hadds & _).
    intros index a x Hin Hu Ha Hx Hk.
    apply list_elem_of_In, list_elem_of_lookup in Hin as [i Hi].
    destruct (Forall2_lookup_l _ _ _ _ _ Hadds Hi) as (index' & _ & Hadd).
    pose proof (withSlot_IndexesOk e Hix) as Hixs. rewrite Forall_forall in Hixs.
    specialize (Hixs index ltac:(eapply list_elem_of_lookup_2; eauto)).
    apply (addEntry_keyFree _ _ _ _ _ Hixs Hadd Hu).
    rewrite rowsOf_withSlot. apply In_rowKeys. exists a, x.
    split; [exact Ha|]. split; [exact Hx|]. rewrite Hk. symmetry. now apply keyOf_keys.
  - destruct Hout as (_ & _ & _ & _ & _ & _ & events & _ & Hfail).
    destruct Hfail as [ | | | writes stored mark appended rolled before index rest c stream'
                              _ _ _ Hkeys Hsplit _ Hrefuse _ _]; try exact I.
    destruct (addEntry index stored (insertSlot e)) as [index' conflict] eqn:Ha.
    simpl in Hrefuse. subst conflict.
    apply addEntry_conflict in Ha as (_ & Hu & Hfound).
    assert (Hin : In index (m_indexes (table e))).
    { rewrite Hsplit. apply in_app_iff. right. now left. }
    unfold IndexesOk in Hix. rewrite Forall_forall in Hix.
    destruct (Hix index ltac:(now apply list_elem_of_In)) as [_ Hentries].
    apply findKey_Some, Hentries in Hfound as (x & Hl & Hv & Hk).
    exists index, c, x. repeat split; auto. rewrite Hk. now apply keyOf_keys.
Qed.

Lemma forallb_false_In {A} (f : A -> bool) (l : list A) :
  forallb f l = false <-> exists x, In x l /\ f x = false.
Proof.
  induction l as [|y l IH]; simpl.
  - split; [discriminate | intros (x & [] & _)].
  - rewrite andb_false_iff, IH. split.
    + intros [H | (x & Hx & H)]; eauto.
    + intros (x & [<- | Hx] & H); eauto.
Qed.

Lemma checkUpdateOnUniqueIndexes_held (t : PersistentTable) (old source : TupleStorage) :
  IndexesOk t ->
  (checkUpdateOnUniqueIndexes t old source (seq 0 (length (m_indexes t))) = false
   <-> exists index b x,
         In index (m_indexes t) /\ isUniqueIndex index = true /\
         keyOf index old <> keyOf index source /\
         m_tuples t !! b = Some x /\ isVisible x = true /\
         keyOf index x = keyOf index source).
Proof.
  intros Hix. unfold IndexesOk in Hix. rewrite Forall_forall in Hix.
  unfold checkUpdateOnUniqueIndexes. rewrite forallb_false_In. split.
  - intros (i & Hi & Hcheck). apply in_seq in Hi.
    destruct (m_indexes t !! i) as [index|] eqn:Ei; [|discriminate].
    assert (Hin : index ∈ m_indexes t) by (eapply list_elem_of_lookup_2; eauto).
    destruct (isUniqueIndex index) eqn:Hu; [|discriminate].
    unfold checkForIndexChange, indexExists in Hcheck. rewrite negb_involutive in Hcheck.
    destruct (bool_decide (keyOf index old = keyOf index source)) eqn:Hk; [discriminate|].
    apply bool_decide_eq_false in Hk. apply negb_false_iff, bool_decide_eq_true in Hcheck.
    destruct Hcheck as [b Hb]. destruct (Hix index Hin) as [_ Hentries].
    apply findKey_Some, Hentries in Hb as (x & Hl & Hv & Hkx).
    exists index, b, x. repeat split; auto. now apply list_elem_of_In.
  - intros (index & b & x & Hin & Hu & Hk & Hl & Hv & Hkx).
    apply list_elem_of_In in Hin. destruct (Hix index Hin) as [_ Hentries].
    apply list_elem_of_lookup in Hin as [i Hi]. exists i. split.
    + apply in_seq. split; [lia|]. simpl. eapply lookup_lt_Some; eauto.
    + rewrite Hi, Hu. unfold checkForIndexChange, indexExists. rewrite negb_involutive.
      rewrite bool_decide_eq_false_2 by exact Hk.
      apply negb_false_iff, bool_decide_eq_true.
      apply (findKey_is_Some _ _ b). apply Hentries. eauto.
Qed.

(** What an update throws, and why. *)
Lemma updateTupleWithSpecificIndexes_throws target source indexesToUpdate fallible
    updateDRTimestamp e old :
  m_tuples (table e) !! target = Some old ->
  match updateTupleWithSpecificIndexes target source indexesToUpdate fallible
          updateDRTimestamp e with
  | Throws x e1 =>
      (x = ConstraintFailureException CONSTRAINT_TYPE_UNIQUE source (Some target) /\
       fallible = true /\ e1 = e /\
       checkUpdateOnUniqueIndexes (table e) old source indexesToUpdate = false) \/
      (x = ConstraintFailureException CONSTRAINT_TYPE_NOT_NULL source (Some target) /\
       fallible = true /\ e1 = e /\
       checkUpdateOnUniqueIndexes (table e) old source indexesToUpdate = true /\
       checkNulls (table e) source = false) \/
      (x = TupleStreamException volt_output_buffer_overflow /\
       (fallible = true ->
        checkUpdateOnUniqueIndexes (table e) old source indexesToUpdate = true /\
        checkNulls (table e) source = true))
  | _ => True
  end.
Proof.
  intros Hl. unfold updateTupleWithSpecificIndexes. op_unfold.
  destruct (forallb _ indexesToUpdate); [|exact I].
  rewrite Hl.
  assert (Hlen : (target < length (m_tuples (table e)))%nat)
    by (eapply lookup_lt_Some; eauto).
  fold (sourceForUpdate e source updateDRTimestamp).
  set (stamped := sourceForUpdate e source updateDRTimestamp).
  assert (Hpass : fallible = false \/ fallible = true) by (destruct fallible; auto).
  destruct Hpass as [-> | ->].
  - destruct (appendToDRStream_cases DR_RECORD_UPDATE [old; stamped] old e)
      as [(mark & appended & stream' & none & index & crc & -> & Hstreamed)
         | (none & index & crc & ->)]; state_simpl.
    2:{ right. right. split; [reflexivity | discriminate]. }
    destruct (removeFromIndexesToUpdate old stamped target indexesToUpdate
                (m_indexes (table e))) as [[indexes1 flags]|] eqn:Er; [|exact I].
    state_simpl.
    unfold withPendingDeleteFlag, notifyViewsOfDelete. op_unfold. state_simpl. rewrite Hl.
    state_simpl.
    destruct (isPendingDelete old) eqn:Hpd; [exact I|]. cbn [negb]. state_simpl.
    rewrite list_lookup_insert_eq by exact Hlen. state_simpl.
    rewrite list_insert_insert_eq, (setPendingDelete_restored old Hpd).
    rewrite (list_insert_id _ _ _ Hl). rewrite Hl. state_simpl.
    erewrite copyForPersistentUpdate_run by (state_simpl; exact Hl).
    state_simpl.
    destruct (updatedTuple (nextObject e) old
                (setDirty (isDirty old) (setActive true stamped)))
      as [[stored [oldObjects newObjects]] next'] eqn:Eresult.
    state_simpl. rewrite ?list_lookup_insert_eq by exact Hlen. state_simpl.
    unfold notifyViewsOfInsert. op_unfold. state_simpl.
    destruct (addToIndexesToUpdate stored target indexesToUpdate flags indexes1);
      exact I.
  - destruct (checkUpdateOnUniqueIndexes (table e) old source indexesToUpdate) eqn:Hcheck;
      cbn [negb]; [|left; auto].
    destruct (checkNulls (table e) source) eqn:Hnulls; cbn [negb]; [|right; left; auto].
    destruct (appendToDRStream_cases DR_RECORD_UPDATE [old; stamped] old e)
      as [(mark & appended & stream' & none & index & crc & -> & Hstreamed)
         | (none & index & crc & ->)]; state_simpl.
    2:{ right. right. auto. }
    destruct (removeFromIndexesToUpdate old stamped target indexesToUpdate
                (m_indexes (table e))) as [[indexes1 flags]|] eqn:Er; [|exact I].
    state_simpl.
    unfold withPendingDeleteFlag, notifyViewsOfDelete. op_unfold. state_simpl. rewrite Hl.
    state_simpl.
    destruct (isPendingDelete old) eqn:Hpd; [exact I|]. cbn [negb]. state_simpl.
    rewrite list_lookup_insert_eq by exact Hlen. state_simpl.
    rewrite list_insert_insert_eq, (setPendingDelete_restored old Hpd).
    rewrite (list_insert_id _ _ _ Hl). rewrite Hl. state_simpl.
    erewrite copyForPersistentUpdate_run by (state_simpl; exact Hl).
    state_simpl.
    destruct (updatedTuple (nextObject e) old
                (setDirty (isDirty old) (setActive true stamped)))
      as [[stored [oldObjects newObjects]] next'] eqn:Eresult.
    state_simpl.
    destruct (currentUndoQuantum e) as [actions|] eqn:Euq;
      state_simpl; rewrite ?list_lookup_insert_eq by exact Hlen; state_simpl;
      unfold registerUndoAction, notifyViewsOfInsert; op_unfold; state_simpl;
      rewrite ?list_lookup_insert_eq by exact Hlen; state_simpl;
      destruct (addToIndexesToUpdate stored target indexesToUpdate flags indexes1);
      exact I.
Qed.

(** X5. An update is refused with the unique-constraint failure
    exactly when a unique index whose key the update changes holds the
    new key for a visible tuple; the failure carries the source and the
    tuple to update, and the engine is left as it was. *)
Theorem update_refused_iff_key_held (target : nat) (source old : TupleStorage)
    (e : Engine) :
  IndexesOk (table e) -> m_tuples (table e) !! target = Some old ->
  let keyHeld :=
    exists index b x,
      In index (m_indexes (table e)) /\ isUniqueIndex index = true /\
      keyOf index old <> keyOf index source /\
      m_tuples (table e) !! b = Some x /\ isVisible x = true /\
      keyOf index x = keyOf index source in
  (keyHeld ->
   updateTuple target source e
   = Throws (ConstraintFailureException CONSTRAINT_TYPE_UNIQUE source (Some target)) e) /\
  (forall tuple otherTuple e1,
     updateTuple target source e
     = Throws (ConstraintFailureException CONSTRAINT_TYPE_UNIQUE tuple otherTuple) e1 ->
     keyHeld /\ tuple = source /\ otherTuple = Some target /\ e1 = e).
Proof.
  intros Hix Hl keyHeld. subst keyHeld. split.
  - intros Hheld. apply (checkUpdateOnUniqueIndexes_held _ _ _ Hix) in Hheld.
    unfold updateTuple, updateTupleWithSpecificIndexes. op_unfold.
    rewrite forallb_seq_below. simpl. rewrite Hl. simpl. now rewrite Hheld.
  - intros tuple otherTuple e1 Hrun. unfold updateTuple in Hrun. op_unfold.
    pose proof (updateTupleWithSpecificIndexes_throws target source
                  (seq 0 (length (m_indexes (table e)))) true true e old Hl) as Hout.
    rewrite Hrun in Hout.
    destruct Hout as [(Hx & _ & -> & Hcheck) | [(Hx & _) | (Hx & _)]]; try discriminate.
    injection Hx as -> ->.
    apply (checkUpdateOnUniqueIndexes_held _ _ _ Hix) in Hcheck. auto.
Qed.

(** ** The release of a delete *)

Lemma deleteTupleFinalize_frame target e e' :
  table e = table e' ->
  match deleteTupleFinalize target e, deleteTupleFinalize target e' with
  | Returns _ a, Returns _ b =>
      table a = table b /\ drStream a = drStream e /\ drStream b = drStream e' /\
      currentUndoQuantum a = currentUndoQuantum e /\
      currentUndoQuantum b = currentUndoQuantum e'
  | AssertionFailed, AssertionFailed => True
  | _, _ => False
  end.
Proof.
  destruct e as [t s u c tp n tr], e' as [t' s' u' c' tp' n' tr']. simpl. intros <-.
  unfold deleteTupleFinalize, deleteTupleStorage. op_unfold. state_simpl.
  destruct (m_tuples t !! target) as [tuple|] eqn:Hl; [|exact I].
  destruct (m_tableStreamer t) as [streamer|];
    [destruct (notifyTupleDelete streamer tuple)|];
    simpl; rewrite ?Hl; destruct (isPendingDelete tuple); simpl; auto.
Qed.

(** X6. A delete under an undo quantum followed by the release of its
    undo action leaves the table and the DR stream that the same delete
    leaves when it is done at once, without undo. *)
Theorem delete_released_is_delete (target : nat) (e e1 : Engine) (tuple : TupleStorage)
    (actions : list UndoAction) :
  m_tuples (table e) !! target = Some tuple ->
  isPendingDeleteOnUndoRelease tuple = false ->
  currentUndoQuantum e = Some actions ->
  deleteTuple target true e = Returns true e1 ->
  exists e2 e3,
    deleteTupleRelease target e1 = Returns tt e2 /\
    deleteTuple target false e = Returns true e3 /\
    table e2 = table e3 /\ drStream e2 = drStream e3 /\
    currentUndoQuantum e3 = Some actions.
Proof.
  intros Hl Hpdour Huq. unfold deleteTuple. op_unfold. rewrite Hl.
  assert (Hlen : (target < length (m_tuples (table e)))%nat)
    by (eapply lookup_lt_Some; eauto).
  destruct (isActive tuple) eqn:Hactive; [|discriminate].
  destruct (appendToDRStream_cases DR_RECORD_DELETE [tuple] tuple e)
    as [(mark & appended & stream' & none & index & crc & -> & Hstreamed)
       | (none & index & crc & ->)]; state_simpl; [|discriminate].
  unfold deleteFromAllIndexes. op_unfold. state_simpl. rewrite Hl. state_simpl.
  destruct (deleteFromIndexes tuple target (m_indexes (table e))) as [indexes'|] eqn:Ed;
    [|discriminate].
  state_simpl.
  unfold withPendingDeleteFlag, notifyViewsOfDelete. op_unfold. state_simpl. rewrite Hl.
  state_simpl.
  destruct (isPendingDelete tuple) eqn:Hpd; [discriminate|]. cbn [negb]. state_simpl.
  rewrite list_lookup_insert_eq by exact Hlen. state_simpl.
  rewrite list_insert_insert_eq, (setPendingDelete_restored tuple Hpd).
  rewrite (list_insert_id _ _ _ Hl).
  rewrite Huq. unfold registerUndoAction. op_unfold. state_simpl. rewrite Hl. state_simpl.
  intros [= <-].
  unfold deleteTupleRelease. op_unfold. state_simpl.
  rewrite list_lookup_insert_eq by exact Hlen. state_simpl.
  rewrite list_insert_insert_eq, (setPendingDeleteOnUndoRelease_restored tuple Hpdour).
  rewrite (list_insert_id _ _ _ Hl).
  replace (m_tuplesPinnedByUndo (table e) + 1 - 1) with (m_tuplesPinnedByUndo (table e))
    by lia.
  replace (m_invisibleTuplesPendingDeleteCount (table e) + 1 - 1)
    with (m_invisibleTuplesPendingDeleteCount (table e)) by lia.
  match goal with
  | |- exists e2 e3, deleteTupleFinalize target ?E1 = _ /\ _ =>
      match goal with
      | |- context [match deleteTupleFinalize target ?E2 with _ => _ end] =>
          pose proof (deleteTupleFinalize_frame target E1 E2 eq_refl) as Hframe;
          destruct (deleteTupleFinalize_cases target E1 tuple Hl)
            as (tuple' & count & invisible & events & Hrun & _);
          rewrite Hrun in Hframe |- *;
          destruct (deleteTupleFinalize target E2) as [[] b | | |]; try contradiction
      end
  end.
  destruct Hframe as (Ht & _ & Hs & _ & Hu). simpl in Ht, Hs, Hu.
  eexists; exists b. split; [reflexivity|]. split; [reflexivity|].
  split; [exact Ht|]. split; [now rewrite Hs | now rewrite Hu].
Qed.
(** ** No fatal error on a table in order *)

Lemma unique_key_one_slot_of (t : PersistentTable) index a b x y :
  RowsOk t -> In index (m_indexes t) -> isUniqueIndex index = true ->
  m_tuples t !! a = Some x -> isVisible x = true ->
  m_tuples t !! b = Some y -> isVisible y = true ->
  keyOf index x = keyOf index y -> a = b.
Proof.
  intros (Hunique & _) Hin Hu Ha Hx Hb Hy Hkey.
  destruct (decide (a = b)) as [|Hne]; [assumption|]. exfalso.
  specialize (Hunique (indexShape index) ltac:(now apply in_map) Hu).
  unfold rowsOf in Hunique. rewrite map_map in Hunique.
  apply (nodup_filter_lookup _ _ _ a b x y Hunique Ha Hb Hne Hx Hy).
  change (rowKey (indexShape index)) with (rowKey index).
  rewrite <- !keyOf_rowKey. congruence.
Qed.

Lemma deleteTuple_visible target fallible e tuple :
  IndexesOk (table e) ->
  m_tuples (table e) !! target = Some tuple -> isVisible tuple = true ->
  match deleteTuple target fallible e with
  | Returns _ _ | Throws _ _ => True
  | FatalException _ | AssertionFailed => False
  end.
Proof.
  intros Hix Hl Hv. apply isVisible_flags in Hv as Hflags.
  destruct Hflags as (Hactive & Hpd & _).
  unfold deleteTuple. op_unfold. rewrite Hl, Hactive. cbn [negb].
  assert (Hlen : (target < length (m_tuples (table e)))%nat)
    by (eapply lookup_lt_Some; eauto).
  destruct (appendToDRStream_cases DR_RECORD_DELETE [tuple] tuple e)
    as [(mark & appended & stream' & none & index & crc & -> & Hstreamed)
       | (none & index & crc & ->)]; state_simpl; [|exact I].
  unfold deleteFromAllIndexes. op_unfold. state_simpl. rewrite Hl. state_simpl.
  destruct (removes_IndexesOk _ _ target tuple freeSlot Hix Hl Hv eq_refl)
    as (indexes' & -> & _).
  state_simpl.
  unfold withPendingDeleteFlag, notifyViewsOfDelete. op_unfold. state_simpl. rewrite Hl.
  state_simpl. rewrite Hpd. cbn [negb]. state_simpl.
  rewrite list_lookup_insert_eq by exact Hlen. state_simpl.
  rewrite list_insert_insert_eq, (setPendingDelete_restored tuple Hpd).
  rewrite (list_insert_id _ _ _ Hl).
  destruct (if fallible then currentUndoQuantum e else None) as [actions|] eqn:Euq.
  - unfold registerUndoAction. op_unfold. state_simpl. rewrite Hl. state_simpl. exact I.
  - match goal with
    | |- context [deleteTupleFinalize target ?E] =>
        destruct (deleteTupleFinalize_cases target E tuple Hl)
          as (tuple' & count & invisible & events & -> & _)
    end.
    exact I.
Qed.

Lemma removeFromIndexesToUpdate_succeeds old source address :
  forall todo done,
    Forall (fun index => snd (deleteEntry index old address) = true) todo ->
    is_Some (removeFromIndexesToUpdate old source address
               (seq (length done) (length todo)) (done ++ todo)).
Proof.
  induction todo as [|index rest IH]; intros done Hall; simpl; [eauto|].
  apply Forall_cons in Hall as [Hd Hall].
  rewrite list_lookup_middle by reflexivity.
  destruct (negb (keyUsesNonInlinedMemory index)
            && negb (checkForIndexChange index old source)).
  - replace (done ++ index :: rest) with ((done ++ [index]) ++ rest)
      by (now rewrite <- app_assoc).
    replace (S (length done)) with (length (done ++ [index]))
      by (rewrite length_app; simpl; lia).
    destruct (IH (done ++ [index]) Hall) as [[indexes' flags'] ->]. simpl. eauto.
  - destruct (deleteEntry index old address) as [index' [|]] eqn:Ed; [|discriminate].
    replace (<[length done := index']> (done ++ index :: rest))
      with ((done ++ [index']) ++ rest).
    2:{ rewrite insert_app_r_alt by lia. rewrite Nat.sub_diag. simpl.
        now rewrite <- app_assoc. }
    replace (S (length done)) with (length (done ++ [index']))
      by (rewrite length_app; simpl; lia).
    destruct (IH (done ++ [index']) Hall) as [[indexes' flags'] ->]. simpl. eauto.
Qed.

Lemma addToIndexesToUpdate_succeeds stored address :
  forall todo1 flags done,
    length flags = length todo1 ->
    Forall (fun before : TableIndex * bool =>
              snd before = true -> snd (addEntry (fst before) stored address) = None)
           (zip todo1 flags) ->
    is_Some (addToIndexesToUpdate stored address (seq (length done) (length todo1)) flags
               (done ++ todo1)).
Proof.
  induction todo1 as [|index rest IH]; intros flags done Hlen Hall; simpl; [eauto|].
  destruct flags as [|flag flags]; [discriminate|]. simpl in Hlen, Hall.
  apply Forall_cons in Hall as [Ha Hall]. simpl in Ha.
  destruct flag.
  - rewrite list_lookup_middle by reflexivity.
    destruct (addEntry index stored address) as [index' [conflict|]] eqn:Ea;
      [specialize (Ha eq_refl); discriminate|].
    replace (<[length done := index']> (done ++ index :: rest))
      with ((done ++ [index']) ++ rest).
    2:{ rewrite insert_app_r_alt by lia. rewrite Nat.sub_diag. simpl.
        now rewrite <- app_assoc. }
    replace (S (length done)) with (length (done ++ [index']))
      by (rewrite length_app; simpl; lia).
    apply IH; [lia | exact Hall].
  - replace (done ++ index :: rest) with ((done ++ [index]) ++ rest)
      by (now rewrite <- app_assoc).
    replace (S (length done)) with (length (done ++ [index]))
      by (rewrite length_app; simpl; lia).
    apply IH; [lia | exact Hall].
Qed.

(** The entry of the updated tuple is accepted by an index that the
    check of the update let pass and that gave up the entry of the old
    tuple. *)
Lemma update_add_accepted (t : PersistentTable) index old source stored target removed :
  IndexesOk t -> RowsOk t -> In index (m_indexes t) ->
  m_tuples t !! target = Some old -> isVisible old = true ->
  keyOf index stored = keyOf index source ->
  (isUniqueIndex index = true -> keyOf index old <> keyOf index source ->
   indexExists index source = false) ->
  deleteEntry index old target = (removed, true) ->
  snd (addEntry removed stored target) = None.
Proof.
  intros Hix Hrows Hin Hl Hv Hkeys Hcheck Hd.
  unfold IndexesOk in Hix. rewrite Forall_forall in Hix.
  destruct (Hix index ltac:(now apply list_elem_of_In)) as [Hnd Hentries].
  unfold deleteEntry in Hd.
  destruct (removeEntry (keyOf index old) target (m_entries index)) as [entries|] eqn:Er;
    [|discriminate].
  injection Hd as <-.
  destruct (removeEntry_Some _ _ _ _ Er) as [_ Hrest].
  destruct (Hrest Hnd) as [_ Hiff].
  unfold addEntry. simpl. change (keyOf (setEntries entries index)) with (keyOf index).
  destruct (isUniqueIndex index) eqn:Hu; [|reflexivity].
  destruct (findKey (keyOf index stored) entries) as [c|] eqn:Hc; [|reflexivity].
  exfalso. apply findKey_Some, Hiff in Hc as [Hc Hne]. rewrite Hkeys in Hc, Hne.
  destruct (decide (keyOf index old = keyOf index source)) as [Hsame | Hchanged].
  - apply Hentries in Hc as (x & Hlc & Hvc & Hkc).
    apply Hne. rewrite Hsame. f_equal.
    apply (unique_key_one_slot_of t index c target x old); auto. congruence.
  - specialize (Hcheck eq_refl Hchanged). unfold indexExists in Hcheck.
    apply bool_decide_eq_false in Hcheck. apply Hcheck. eapply findKey_is_Some; eauto.
Qed.

Lemma checkUpdateOnUniqueIndexes_each (t : PersistentTable) old source index :
  checkUpdateOnUniqueIndexes t old source (seq 0 (length (m_indexes t))) = true ->
  In index (m_indexes t) ->
  isUniqueIndex index = true -> keyOf index old <> keyOf index source ->
  indexExists index source = false.
Proof.
  unfold checkUpdateOnUniqueIndexes. rewrite forallb_forall. intros Hall Hin Hu Hk.
  apply list_elem_of_In, list_elem_of_lookup in Hin as [i Hi].
  specialize (Hall i). rewrite Hi, Hu in Hall.
  unfold checkForIndexChange in Hall. rewrite negb_involutive in Hall.
  rewrite bool_decide_eq_false_2 in Hall by exact Hk.
  apply negb_true_iff. apply Hall. apply in_seq. split; [lia|]. simpl.
  eapply lookup_lt_Some; eauto.
Qed.

Lemma Forall2_right {A B} (P : A -> B -> Prop) (Q : B -> Prop) l k :
  Forall2 P l k -> (forall x y, In x l -> P x y -> Q y) -> Forall Q k.
Proof.
  induction 1 as [|x y l k Hxy _ IH]; intros HQ; constructor.
  - apply (HQ x y); [now left | exact Hxy].
  - apply IH. intros x' y' Hin. apply HQ. now right.
Qed.

Lemma updateTuple_admissible target source e :
  TableOk e -> admissible (OpUpdate target source) e = true ->
  match updateTuple target source e with
  | Returns _ _ | Throws _ _ => True
  | FatalException _ | AssertionFailed => False
  end.
Proof.
  intros (Hix & Hrows & _) Hadm. simpl in Hadm.
  destruct (m_tuples (table e) !! target) as [old|] eqn:Hl; [|discriminate].
  apply andb_true_iff in Hadm as [Hadm Hagree].
  apply andb_true_iff in Hadm as [Hadm _].
  apply andb_true_iff in Hadm as [Hadm _].
  apply andb_true_iff in Hadm as [Hv _].
  apply isVisible_flags in Hv as Hflags. destruct Hflags as (_ & Hpd & _).
  unfold updateTuple, updateTupleWithSpecificIndexes. op_unfold.
  rewrite forallb_seq_below. simpl. rewrite Hl. simpl.
  assert (Hlen : (target < length (m_tuples (table e)))%nat)
    by (eapply lookup_lt_Some; eauto).
  fold (sourceForUpdate e source true).
  destruct (sourceForUpdate_parts e source true) as (Hsc & _).
  set (stamped := sourceForUpdate e source true) in *.
  destruct (checkUpdateOnUniqueIndexes (table e) old source _) eqn:Hcheck;
    cbn [negb]; [|exact I].
  destruct (checkNulls (table e) source) eqn:Hnulls; cbn [negb]; [|exact I].
  destruct (appendToDRStream_cases DR_RECORD_UPDATE [old; stamped] old e)
    as [(mark & appended & stream' & none & index & crc & -> & Hstreamed)
       | (none & index & crc & ->)]; state_simpl; [|exact I].
  assert (Hdel : Forall (fun index => snd (deleteEntry index old target) = true)
                        (m_indexes (table e))).
  { unfold IndexesOk in Hix. eapply Forall_impl; [exact Hix|]. intros j Hj.
    destruct (deleteEntry_IndexOk _ j old target old freeSlot Hj Hl Hv eq_refl eq_refl)
      as (j' & -> & _). reflexivity. }
  destruct (removeFromIndexesToUpdate_succeeds old stamped target (m_indexes (table e)) []
              Hdel) as [[indexes1 flags] Er].
  simpl in Er. rewrite Er. state_simpl.
  unfold withPendingDeleteFlag, notifyViewsOfDelete. op_unfold. state_simpl. rewrite Hl.
  state_simpl. rewrite Hpd. cbn [negb]. state_simpl.
  rewrite list_lookup_insert_eq by exact Hlen. state_simpl.
  rewrite list_insert_insert_eq, (setPendingDelete_restored old Hpd).
  rewrite (list_insert_id _ _ _ Hl). rewrite Hl. state_simpl.
  erewrite copyForPersistentUpdate_run by (state_simpl; exact Hl).
  state_simpl.
  pose proof (updatedTuple_cells (nextObject e) old
                (setDirty (isDirty old) (setActive true stamped))) as Hcells.
  cbv zeta in Hcells.
  destruct (updatedTuple (nextObject e) old
              (setDirty (isDirty old) (setActive true stamped)))
    as [[stored [oldObjects newObjects]] next'] eqn:Eresult.
  simpl in Hcells. destruct Hcells as (_ & _ & _ & _ & _ & _ & Hkeys & _).
  rewrite Hsc in Hkeys. specialize (Hkeys Hagree).
  state_simpl.
  assert (Hadd : is_Some (addToIndexesToUpdate stored target
                            (seq 0 (length (m_indexes (table e)))) flags indexes1)).
  { destruct (removeFromIndexesToUpdate_seq old stamped target (m_indexes (table e)) []
                _ _ Er) as (todo1 & -> & Hlen1 & Hflags & Hall).
    simpl. rewrite <- Hlen1.
    apply (addToIndexesToUpdate_succeeds stored target todo1 flags []); [lia|].
    apply (Forall2_right _ _ _ _ Hall). intros j [j1 flag] Hin Hj. simpl.
    intros ->. unfold removedForUpdate in Hj. simpl in Hj.
    apply (update_add_accepted (table e) j old source stored target j1); auto.
    - now apply keyOf_keys.
    - intros Hu Hk. eapply checkUpdateOnUniqueIndexes_each; eauto. }
  destruct Hadd as [indexes2 Hadd].
  destruct (currentUndoQuantum e) as [actions|] eqn:Euq;
    state_simpl; rewrite ?list_lookup_insert_eq by exact Hlen; state_simpl;
    unfold registerUndoAction, notifyViewsOfInsert; op_unfold; state_simpl;
    rewrite ?list_lookup_insert_eq by exact Hlen; state_simpl;
    rewrite Hadd; exact I.
Qed.

(** What a call may throw. *)
Definition expectedException (x : Exception) : Prop :=
  match x with
  | ConstraintFailureException _ _ _ => True
  | TupleStreamException sqlState => sqlState = volt_output_buffer_overflow
  end.

Lemma perform_never_fatal op e :
  RowCostsOk -> TableOk e -> admissible op e = true ->
  match perform op e with
  | Returns _ _ => True
  | Throws x _ => expectedException x
  | FatalException _ | AssertionFailed => False
  end.
Proof.
  intros Hcost Hok Hadm. destruct op as [source | target source | target]; simpl.
  - unfold insertTuple. op_unfold.
    pose proof (insertPersistentTuple_outcome source true e Hcost (proj2 (proj2 (proj2 Hok))))
      as Hout.
    destruct (insertPersistentTuple source true e) as [[] e1 | x e1 | |]; auto.
    destruct Hout as (_ & _ & _ & _ & _ & _ & events & _ & Hfail).
    destruct Hfail; simpl; auto.
  - pose proof (updateTuple_admissible target source e Hok Hadm) as Hfatal.
    simpl in Hadm. destruct (m_tuples (table e) !! target) as [old|] eqn:Hl; [|discriminate].
    pose proof (updateTupleWithSpecificIndexes_throws target source
                  (seq 0 (length (m_indexes (table e)))) true true e old Hl) as Hout.
    unfold updateTuple in *. op_unfold.
    destruct (updateTupleWithSpecificIndexes _ _ _ _ _ e) as [b e1 | x e1 | |]; auto.
    destruct Hout as [(-> & _) | [(-> & _) | (-> & _)]]; simpl; auto.
  - simpl in Hadm. destruct (m_tuples (table e) !! target) as [old|] eqn:Hl; [|discriminate].
    pose proof (deleteTuple_visible target true e old (proj1 Hok) Hl Hadm) as Hfatal.
    pose proof (deleteTuple_outcome target true e) as Hout.
    destruct (deleteTuple target true e) as [b e1 | x e1 | |]; auto.
    destruct Hout as [-> _]. reflexivity.
Qed.

(** X7. On a table in order, a transaction of calls that the table
    expects never ends in a fatal exception or in a failed assertion:
    it returns, or one of its calls throws a constraint failure or the
    buffer overflow of the stream. *)
Theorem transaction_never_fatal (ops : list Operation) (e : Engine)
    (actions : list UndoAction) :
  RowCostsOk -> TableOk e -> currentUndoQuantum e = Some actions ->
  callerObeys ops e = true ->
  match runOperations ops e with
  | Returns _ _ => True
  | Throws x _ => expectedException x
  | FatalException _ | AssertionFailed => False
  end.
Proof.
  revert e actions. induction ops as [|op rest IH]; intros e actions Hcost Hok Huq Hobeys;
    simpl; [exact I|].
  simpl in Hobeys. apply andb_true_iff in Hobeys as [Hadm Hobeys].
  pose proof (perform_step op e actions Hcost Hok Huq Hadm) as Hstep.
  pose proof (perform_never_fatal op e Hcost Hok Hadm) as Hfatal.
  unfold mbind, Op_bind. destruct (perform op e) as [b e1 | x e1 | |]; auto.
  destruct Hstep as (Hok1 & action & Huq1 & _).
  exact (IH e1 (action :: actions) Hcost Hok1 Huq1 Hobeys).
Qed.

(** X8. On a table in order, whatever calls that the table expects a
    transaction has made, every index holds each visible tuple once,
    under the key of the tuple, and nothing else, and no two visible
    tuples share the key of a unique index. *)
Theorem transaction_keeps_indexes_in_step (ops : list Operation) (e e1 : Engine)
    (actions : list UndoAction) :
  RowCostsOk -> TableOk e -> currentUndoQuantum e = Some actions ->
  callerObeys ops e = true ->
  runOperations ops e = Returns tt e1 ->
  forall index, In index (m_indexes (table e1)) ->
    NoDup (m_entries index) /\
    (forall k a, In (k, a) (m_entries index) <->
                 exists t, m_tuples (table e1) !! a = Some t /\ isVisible t = true /\
                           keyOf index t = k) /\
    (isUniqueIndex index = true ->
     forall a b x y,
       m_tuples (table e1) !! a = Some x -> isVisible x = true ->
       m_tuples (table e1) !! b = Some y -> isVisible y = true ->
       keyOf index x = keyOf index y -> a = b).
Proof.
  intros Hcost Hok Huq Hobeys Hrun index Hin.
  destruct (runOperations_TableOk ops e actions e1 Hcost Hok Huq Hobeys Hrun)
    as (Hix & Hrows & _).
  unfold IndexesOk in Hix. rewrite Forall_forall in Hix.
  destruct (Hix index ltac:(now apply list_elem_of_In)) as [Hnd Hentries].
  split; [exact Hnd|]. split; [exact Hentries|].
  intros Hu a b x y. now apply unique_key_one_slot_of.
Qed.

(** ** [PersistentTable::deleteAllTuples] *)

(** Modelled from the spec: the loop [while (ti.next(tuple))] over a
    [TableIterator] ([storage/tableiterator.h] is not part of these
    sources): the slots are visited in address order, and the tuples
    that a scan returns are handed to the body, here
    [deleteTuple(tuple, true)]. *)
Fixpoint deleteTuplesFrom (addresses : list nat) : Op unit :=
  match addresses with
  | [] => mret tt
  | address :: rest =>
      tuple ← readTuple address;
      (if isVisible tuple then deleteTuple address true;; mret tt else mret tt);;
      deleteTuplesFrom rest
  end.

Definition deleteAllTuples (freeAllocatedStrings : bool) : Op unit :=
  e ← getEngine;
  deleteTuplesFrom (seq 0 (length (m_tuples (table e)))).

(** The address holds a tuple that a scan returns. *)
Definition visibleAt (e : Engine) (address : nat) : bool :=
  match m_tuples (table e) !! address with
  | Some tuple => isVisible tuple
  | None => false
  end.

(** The actions registered between [e] and [e1] undo what was done. *)
Definition UndoneBy (e e1 : Engine) (actions : list UndoAction) : Prop :=
  exists newer,
    currentUndoQuantum e1 = Some (newer ++ actions) /\
    IndexesOk (table e1) /\
    forall t, Restores t e1 ->
              exists t', undoActions newer t = Returns tt t' /\ Restores t' e /\
                         currentUndoQuantum t' = currentUndoQuantum t.

Lemma UndoneBy_step e e1 e2 action actions :
  Undoes action e e1 -> UndoneBy e1 e2 (action :: actions) -> UndoneBy e e2 actions.
Proof.
  intros Hundo (newer & Huq2 & Hix2 & Hnewer). exists (newer ++ [action]).
  split; [now rewrite <- app_assoc|]. split; [exact Hix2|]. intros t Ht.
  destruct (Hnewer t Ht) as (t1 & Hrun1 & Ht1 & Hu1).
  destruct (Hundo t1 Ht1) as (t2 & Hrun2 & Ht2 & Hu2).
  exists t2. rewrite undoActions_app, Hrun1. simpl. unfold mbind, Op_bind.
  rewrite Hrun2. split; [reflexivity|]. split; [exact Ht2 | congruence].
Qed.

Lemma deleteTuplesFrom_run addresses : forall e actions,
  RowCostsOk -> TableOk e -> currentUndoQuantum e = Some actions ->
  NoDup addresses ->
  (forall a, In a addresses -> (a < length (m_tuples (table e)))%nat) ->
  match deleteTuplesFrom addresses e with
  | Returns _ e1 =>
      TableOk e1 /\
      (forall a x, In a addresses -> m_tuples (table e1) !! a = Some x ->
                   isVisible x = false) /\
      (forall a, ~ In a addresses ->
                 m_tuples (table e1) !! a = m_tuples (table e) !! a) /\
      visibleTupleCount (table e1)
      = visibleTupleCount (table e)
        - Z.of_nat (length (List.filter (visibleAt e) addresses)) /\
      UndoneBy e e1 actions
  | Throws x e1 =>
      x = TupleStreamException volt_output_buffer_overflow /\ UndoneBy e e1 actions
  | FatalException _ | AssertionFailed => False
  end.
Proof.
  induction addresses as [|a rest IH]; intros e actions Hcost Hok Huq Hnd Hbound; simpl.
  - split; [exact Hok|]. split; [intros a x []|]. split; [reflexivity|].
    split; [lia|]. exists []. split; [exact Huq|]. split; [apply Hok|].
    intros t Ht. exists t. auto.
  - apply NoDup_cons in Hnd as [Hnotin Hnd].
    assert (Hnot : ~ In a rest) by (intros H; apply Hnotin; now apply list_elem_of_In).
    destruct (lookup_lt_is_Some_2 (m_tuples (table e)) a (Hbound a (or_introl eq_refl)))
      as [tuple Hl].
    op_unfold. rewrite Hl. unfold visibleAt at 1. rewrite Hl.
    destruct (isVisible tuple) eqn:Hv.
    + assert (Hadm : admissible (OpDelete a) e = true) by (simpl; now rewrite Hl).
      pose proof (perform_step (OpDelete a) e actions Hcost Hok Huq Hadm) as Hstep.
      pose proof (deleteTuple_visible a true e tuple (proj1 Hok) Hl Hv) as Hfatal.
      pose proof (deleteTuple_outcome a true e) as Hout.
      simpl in Hstep.
      destruct (deleteTuple a true e) as [b e' | x e' | |]; try contradiction.
      * destruct Hstep as (Hok' & action & Huq' & Hundo).
        destruct Hout as (_ & tuple0 & mark & appended & after & Hl0 & _ & _ & _ & _ & _
                          & _ & _ & Hreturned).
        rewrite Hl in Hl0. injection Hl0 as <-. rewrite Huq in Hreturned.
        destruct Hreturned as (Htuples & _ & Hcount).
        assert (Hbound' : forall a', In a' rest ->
                            (a' < length (m_tuples (table e')))%nat).
        { intros a' Ha'. rewrite Htuples, length_insert. apply Hbound. now right. }
        specialize (IH e' (action :: actions) Hcost Hok' Huq' Hnd Hbound').
        destruct (deleteTuplesFrom rest e') as [[] e1 | x e1 | |]; try contradiction.
        -- destruct IH as (Hok1 & Hgone & Hkept & Hcount1 & Hundone).
           split; [exact Hok1|]. split; [|split; [|split]].
           ++ intros a' x [<- | Ha'] Hx; [|eauto].
              rewrite (Hkept a Hnot), Htuples in Hx.
              rewrite list_lookup_insert_eq in Hx by (eapply lookup_lt_Some; eauto).
              injection Hx as <-. now apply isVisible_pinned.
           ++ intros a' Ha'. rewrite Hkept by (intros H; apply Ha'; now right).
              rewrite Htuples. apply list_lookup_insert_ne. intros ->. apply Ha'. now left.
           ++ rewrite Hcount1, Hcount. simpl length.
              assert (Hsame : List.filter (visibleAt e') rest
                              = List.filter (visibleAt e) rest).
              { apply filter_ext_in. intros a' Ha'. unfold visibleAt. rewrite Htuples.
                rewrite list_lookup_insert_ne; [reflexivity|]. intros ->. contradiction. }
              rewrite Hsame. lia.
           ++ eapply UndoneBy_step; eauto.
        -- destruct IH as (Hx & Hundone). split; [exact Hx|]. eapply UndoneBy_step; eauto.
      * destruct Hout as [-> _]. destruct Hstep as (Hsame & Huq' & Hix').
        split; [reflexivity|]. exists []. split; [exact Huq'|]. split; [exact Hix'|].
        intros t [Hixt Ht]. exists t. split; [reflexivity|]. split; [|reflexivity].
        split; [exact Hixt|]. eapply SameState_trans; eauto.
    + specialize (IH e actions Hcost Hok Huq Hnd
                     (fun a' Ha' => Hbound a' (or_intror Ha'))).
      destruct (deleteTuplesFrom rest e) as [[] e1 | x e1 | |]; try contradiction;
        [|exact IH].
      destruct IH as (Hok1 & Hgone & Hkept & Hcount1 & Hundone).
      split; [exact Hok1|]. split; [|split; [|split; [exact Hcount1 | exact Hundone]]].
      * intros a' x [<- | Ha'] Hx; [|eauto].
        rewrite (Hkept a Hnot), Hl in Hx. now injection Hx as <-.
      * intros a' Ha'. apply Hkept. intros H; apply Ha'; now right.
Qed.

Lemma rowsOf_none tuples :
  (forall a x, tuples !! a = Some x -> isVisible x = false) -> rowsOf tuples = [].
Proof.
  intros H. destruct (rowsOf tuples) as [|r rest] eqn:E; [reflexivity|]. exfalso.
  assert (Hin : In r (rowsOf tuples)) by (rewrite E; now left).
  apply In_rowsOf in Hin as (a & t & Ha & Hv & _). rewrite (H a t Ha) in Hv. discriminate.
Qed.

Lemma IndexOk_no_rows tuples index :
  IndexOk tuples index -> rowsOf tuples = [] -> m_entries index = [].
Proof.
  intros [_ Hiff] Hnone. destruct (m_entries index) as [|[k a] rest]; [reflexivity|].
  exfalso. destruct (proj1 (Hiff k a) (or_introl eq_refl)) as (t & Ht & Hv & _).
  assert (Hin : In (rowOf t) (rowsOf tuples)) by (apply In_rowsOf; eauto).
  now rewrite Hnone in Hin.
Qed.

Lemma filter_seq_lookup {A} (P : A -> bool) (l : list A) : forall start,
  length (List.filter (fun a => match l !! (a - start)%nat with
                                | Some x => P x
                                | None => false
                                end)
                      (seq start (length l)))
  = length (List.filter P l).
Proof.
  induction l as [|x l IH]; intros start; simpl; [reflexivity|].
  rewrite Nat.sub_diag. simpl.
  assert (Hrest : List.filter (fun a => match (x :: l) !! (a - start)%nat with
                                        | Some y => P y
                                        | None => false
                                        end) (seq (S start) (length l))
                  = List.filter (fun a => match l !! (a - S start)%nat with
                                          | Some y => P y
                                          | None => false
                                          end) (seq (S start) (length l))).
  { apply filter_ext_in. intros a Ha. apply in_seq in Ha.
    replace (a - start)%nat with (S (a - S start)) by lia. reflexivity. }
  rewrite Hrest. destruct (P x); simpl; now rewrite IH.
Qed.

(** X9. [deleteAllTuples] under an undo quantum, on a table in order:
    it returns or throws the buffer overflow of the stream, and never a
    fatal error.  When it returns, a scan of the table returns no tuple,
    every index is empty, and the count of visible tuples went down by
    the number of tuples a scan returned before. *)
Theorem deleteAllTuples_empties (freeAllocatedStrings : bool) (e : Engine)
    (actions : list UndoAction) :
  RowCostsOk -> TableOk e -> currentUndoQuantum e = Some actions ->
  match deleteAllTuples freeAllocatedStrings e with
  | Returns _ e1 =>
      rowsOf (m_tuples (table e1)) = [] /\
      Forall (fun index => m_entries index = []) (m_indexes (table e1)) /\
      visibleTupleCount (table e1)
      = visibleTupleCount (table e) - Z.of_nat (length (rowsOf (m_tuples (table e))))
  | Throws x _ => x = TupleStreamException volt_output_buffer_overflow
  | FatalException _ | AssertionFailed => False
  end.
Proof.
  intros Hcost Hok Huq. unfold deleteAllTuples. op_unfold.
  pose proof (deleteTuplesFrom_run (seq 0 (length (m_tuples (table e)))) e actions
                Hcost Hok Huq (NoDup_seq _ _)) as Hrun.
  assert (Hbound : forall a, In a (seq 0 (length (m_tuples (table e)))) ->
                             (a < length (m_tuples (table e)))%nat)
    by (intros a Ha; apply in_seq in Ha; lia).
  specialize (Hrun Hbound).
  destruct (deleteTuplesFrom _ e) as [[] e1 | x e1 | |]; [|apply Hrun|exact Hrun..].
  destruct Hrun as ((Hix1 & _) & Hgone & Hkept & Hcount & _).
  assert (Hnone : rowsOf (m_tuples (table e1)) = []).
  { apply rowsOf_none. intros a x Hx.
    destruct (decide (a < length (m_tuples (table e)))%nat) as [Hlt | Hge].
    - apply (Hgone a x); [|exact Hx]. apply in_seq. lia.
    - rewrite Hkept in Hx by (intros H; apply in_seq in H; lia).
      apply lookup_lt_Some in Hx. lia. }
  split; [exact Hnone|]. split.
  - unfold IndexesOk in Hix1. eapply Forall_impl; [exact Hix1|].
    intros index Hindex. now apply (IndexOk_no_rows (m_tuples (table e1))).
  - rewrite Hcount. f_equal. f_equal. unfold rowsOf. rewrite length_map.
    rewrite <- (filter_seq_lookup isVisible (m_tuples (table e)) 0).
    f_equal. apply filter_ext. intros a. unfold visibleAt. now rewrite Nat.sub_0_r.
Qed.

(** X10. [deleteAllTuples] in a transaction that has done nothing
    else, on a table in order: whether it returned or threw, the undo
    of the transaction returns, and then a scan of the table returns, up
    to their order, the rows it returned before, the table counts as
    many visible tuples, every index holds exactly the visible tuples,
    and the DR stream holds the bytes it held. *)
Theorem deleteAllTuples_undone (freeAllocatedStrings : bool) (e e1 : Engine) :
  RowCostsOk -> TableOk e -> currentUndoQuantum e = Some [] ->
  (deleteAllTuples freeAllocatedStrings e = Returns tt e1 \/
   exists x, deleteAllTuples freeAllocatedStrings e = Throws x e1) ->
  exists e2,
    undoUndoQuantum e1 = Returns tt e2 /\
    Permutation (rowsOf (m_tuples (table e2))) (rowsOf (m_tuples (table e))) /\
    visibleTupleCount (table e2) = visibleTupleCount (table e) /\
    IndexesOk (table e2) /\
    (m_bytes <$> drStream e2) = (m_bytes <$> drStream e).
Proof.
  intros Hcost Hok Huq Hrun. unfold deleteAllTuples in Hrun. op_unfold.
  pose proof (deleteTuplesFrom_run (seq 0 (length (m_tuples (table e)))) e []
                Hcost Hok Huq (NoDup_seq _ _)) as Hout.
  assert (Hbound : forall a, In a (seq 0 (length (m_tuples (table e)))) ->
                             (a < length (m_tuples (table e)))%nat)
    by (intros a Ha; apply in_seq in Ha; lia).
  specialize (Hout Hbound).
  assert (Hundone : UndoneBy e e1 []).
  { destruct Hrun as [E | [x E]]; rewrite E in Hout; apply Hout. }
  destruct Hundone as (newer & Huq1 & Hix1 & Hundo). rewrite app_nil_r in Huq1.
  rewrite (undoUndoQuantum_run _ _ Huq1).
  destruct (Hundo (setUndoQuantum (Some []) e1)) as (e2 & Hrun2 & Hres & _).
  { split; [exact Hix1 | exact (SameState_refl e1)]. }
  exists e2. split; [exact Hrun2|].
  destruct (Restores_visible _ _ Hres) as (H1 & H2 & H3 & H4 & _). auto.
Qed.

(** ** A compaction move on a table in order *)

Lemma replaceAddress_Some k a b e :
  In (k, a) e -> NoDup e -> ~ In (k, b) e ->
  exists e', replaceAddress k a b e = Some e' /\ NoDup e' /\
             forall p, In p e' <-> p = (k, b) \/ (In p e /\ p <> (k, a)).
Proof.
  induction e as [|q e IH]; simpl; [intros []|].
  intros Hin Hnd Hfree. apply NoDup_cons in Hnd as [Hq Hnd].
  rewrite list_elem_of_In in Hq.
  destruct (bool_decide (q = (k, a))) eqn:E.
  - apply bool_decide_eq_true in E. subst q. eexists. split; [reflexivity|]. split.
    + apply NoDup_cons. split; [|exact Hnd]. rewrite list_elem_of_In.
      intros Hb. apply Hfree. now right.
    + intros p. simpl. split.
      * intros [<- | Hp]; [now left|]. right. split; [now right|]. congruence.
      * intros [-> | [[<- | Hp] Hne]]; [now left | congruence | now right].
  - apply bool_decide_eq_false in E.
    destruct Hin as [-> | Hin]; [congruence|].
    destruct (IH Hin Hnd (fun H => Hfree (or_intror H))) as (e' & -> & Hnd' & Hiff). simpl.
    eexists. split; [reflexivity|]. split.
    + apply NoDup_cons. split; [|exact Hnd']. rewrite list_elem_of_In, Hiff.
      intros [-> | [Hp _]]; [apply Hfree; now left | exact (Hq Hp)].
    + intros p. simpl. rewrite Hiff. split.
      * intros [<- | [-> | [Hp Hne]]]; auto.
      * intros [-> | [[<- | Hp] Hne]]; auto.
Qed.

Lemma replaceEntryNoKeyChange_IndexOk tuples index o d original moved destination :
  IndexOk tuples index -> o <> d ->
  tuples !! o = Some original -> isVisible original = true ->
  tuples !! d = Some destination -> isVisible destination = false ->
  keyOf index moved = keyOf index original -> isVisible moved = false ->
  exists index',
    replaceEntryNoKeyChange index moved o d = (index', true) /\
    IndexOk (<[o := moved]> (<[d := original]> tuples)) index'.
Proof.
  intros [Hnd Hiff] Hne Ho Hvo Hd Hvd Hk Hvm. unfold replaceEntryNoKeyChange. rewrite Hk.
  assert (Hlo : (o < length tuples)%nat) by (eapply lookup_lt_Some; eauto).
  assert (Hld : (d < length tuples)%nat) by (eapply lookup_lt_Some; eauto).
  destruct (replaceAddress_Some (keyOf index original) o d (m_entries index))
    as (e' & -> & Hnd' & Hiff').
  - apply Hiff. eauto.
  - exact Hnd.
  - intros Hin. apply Hiff in Hin as (t & Ht & Hv & _). congruence.
  - eexists. split; [reflexivity|]. split; [exact Hnd'|]. intros k c. simpl.
    change (keyOf (setEntries e' index)) with (keyOf index).
    rewrite Hiff', Hiff. split.
    + intros [[= -> ->] | [(t & Ht & Hv & Hkt) Hnot]].
      * exists original. rewrite list_lookup_insert_ne by auto.
        rewrite list_lookup_insert_eq by exact Hld. auto.
      * exists t. split; [|auto].
        assert (c <> d) by (intros ->; congruence).
        assert (c <> o) by (intros ->; apply Hnot; f_equal; congruence).
        now rewrite !list_lookup_insert_ne by auto.
    + intros (t & Ht & Hv & Hkt).
      destruct (decide (c = o)) as [-> | Hco].
      * rewrite list_lookup_insert_eq in Ht by (now rewrite length_insert). congruence.
      * rewrite list_lookup_insert_ne in Ht by auto.
        destruct (decide (c = d)) as [-> | Hcd].
        -- rewrite list_lookup_insert_eq in Ht by exact Hld. injection Ht as <-.
           left. now rewrite Hkt.
        -- rewrite list_lookup_insert_ne in Ht by auto. right. split; [eauto|]. congruence.
Qed.

Lemma replaceInIndexes_IndexesOk tuples indexes o d original moved destination :
  Forall (IndexOk tuples) indexes -> o <> d ->
  tuples !! o = Some original -> isVisible original = true ->
  tuples !! d = Some destination -> isVisible destination = false ->
  m_columns moved = m_columns original -> isVisible moved = false ->
  exists indexes',
    replaceInIndexes moved o d indexes = Some indexes' /\
    Forall (IndexOk (<[o := moved]> (<[d := original]> tuples))) indexes'.
Proof.
  intros Hall Hne Ho Hvo Hd Hvd Hc Hvm.
  induction Hall as [|index rest Hi _ IH]; simpl.
  - exists []. split; [reflexivity | constructor].
  - destruct (replaceEntryNoKeyChange_IndexOk tuples index o d original moved destination
                Hi Hne Ho Hvo Hd Hvd (keyOf_columns _ _ _ Hc) Hvm) as (index' & -> & Hok).
    destruct IH as (rest' & -> & Hrest). simpl. eexists. split; [reflexivity|].
    now constructor.
Qed.

(** X11. A compaction move of an active tuple that is not pinned by
    the undo log into a free slot, on a table whose indexes are in step
    with its tuples: the move returns, never a fatal error; a scan of the
    table returns, up to their order, the rows it returned before; and
    the indexes are in step with the tuples again, the entries of the
    tuple leading to its new slot. *)
Theorem swapTuples_keeps_table (e : Engine) (originalTuple destinationTuple : nat)
    (original destination : TupleStorage) :
  IndexesOk (table e) ->
  originalTuple <> destinationTuple ->
  m_tuples (table e) !! originalTuple = Some original ->
  m_tuples (table e) !! destinationTuple = Some destination ->
  isActive original = true -> isPendingDeleteOnUndoRelease original = false ->
  isActive destination = false ->
  exists e',
    swapTuples originalTuple destinationTuple e = Returns tt e' /\
    m_tuples (table e') !! destinationTuple = Some original /\
    Permutation (rowsOf (m_tuples (table e'))) (rowsOf (m_tuples (table e))) /\
    IndexesOk (table e') /\
    visibleTupleCount (table e') = visibleTupleCount (table e).
Proof.
  intros Hix Hne Ho Hd Hactive Hpdour Hfree.
  assert (Hlo : (originalTuple < length (m_tuples (table e)))%nat)
    by (eapply lookup_lt_Some; eauto).
  assert (Hld : (destinationTuple < length (m_tuples (table e)))%nat)
    by (eapply lookup_lt_Some; eauto).
  set (moved := <[originalTuple := setActive false original]>
                  (<[destinationTuple := original]> (m_tuples (table e)))).
  assert (Ho' : <[destinationTuple := original]> (m_tuples (table e)) !! originalTuple
                = Some original)
    by (rewrite list_lookup_insert_ne by auto; exact Ho).
  assert (Ho'' : moved !! originalTuple = Some (setActive false original)).
  { unfold moved. apply list_lookup_insert_eq. now rewrite length_insert. }
  assert (Hd' : moved !! destinationTuple = Some original).
  { unfold moved. rewrite list_lookup_insert_ne by auto.
    now apply list_lookup_insert_eq. }
  assert (Hvd : isVisible destination = false) by (now apply isVisible_inactive).
  assert (Hrows : Permutation (rowsOf moved) (rowsOf (m_tuples (table e)))).
  { destruct (rowsOf_slot _ _ _ Hd) as (rest & Hp0 & Hp1 & _).
    rewrite Hvd in Hp0. simpl in Hp0. specialize (Hp1 original).
    destruct (rowsOf_slot _ _ _ Ho') as (rest' & Hq0 & Hq1 & _).
    specialize (Hq1 (setActive false original)).
    rewrite (isVisible_inactive (setActive false original) eq_refl) in Hq1.
    simpl in Hq1. fold moved in Hq1. rewrite Hq1, Hp0.
    rewrite Hq0 in Hp1. symmetry. now apply Permutation_app_inv_l in Hp1. }
  unfold swapTuples. op_unfold. rewrite Ho, Hd. simpl. rewrite Ho'. simpl.
  fold moved. rewrite Ho''. simpl. rewrite Hpdour. simpl.
  destruct (isPendingDelete original) eqn:Hpd; simpl.
  - eexists. split; [reflexivity|]. simpl. split; [exact Hd'|]. split; [exact Hrows|].
    split; [|reflexivity]. unfold IndexesOk. simpl.
    assert (Hvo : isVisible original = false)
      by (unfold isVisible; rewrite Hpd; now rewrite andb_false_r).
    eapply Forall_impl; [exact Hix|]. intros index Hindex. unfold moved.
    apply (IndexOk_invisible _ _ _ original); auto.
    apply (IndexOk_invisible _ _ _ destination); auto.
  - assert (Hvo : isVisible original = true)
      by (unfold isVisible; now rewrite Hactive, Hpd, Hpdour).
    destruct (replaceInIndexes_IndexesOk (m_tuples (table e)) (m_indexes (table e))
                originalTuple destinationTuple original (setActive false original)
                destination Hix Hne Ho Hvo Hd Hvd eq_refl eq_refl)
      as (indexes' & -> & Hok).
    eexists. split; [reflexivity|]. simpl. split; [exact Hd'|]. split; [exact Hrows|].
    split; [exact Hok | reflexivity].
Qed.

(** ** The checks of an insert, in their order *)

Lemma checkNulls_false (t : PersistentTable) (tuple : TupleStorage) :
  checkNulls t tuple = false <->
  exists i, (i < columnCount (m_schema t))%nat /\
            nth i (m_allowNulls t) true = false /\
            isNull (nth i (m_columns tuple) NullValue) = true.
Proof.
  unfold checkNulls. rewrite forallb_false_In. split.
  - intros (i & Hi & H). apply in_rev, in_seq in Hi.
    apply orb_false_iff in H as [Ha Hn]. apply negb_false_iff in Hn.
    exists i. split; [lia | auto].
  - intros (i & Hi & Ha & Hn). exists i. split.
    + apply in_rev. rewrite rev_involutive. apply in_seq. lia.
    + now rewrite Ha, Hn.
Qed.

Lemma insertPersistentTuple_null source fallible e :
  rowLimitReached fallible e = false -> nullRefused fallible e source = true ->
  exists e1,
    insertPersistentTuple source fallible e
    = Throws (ConstraintFailureException CONSTRAINT_TYPE_NOT_NULL source None) e1.
Proof.
  intros Hlimit Hnull.
  unfold insertPersistentTuple. op_unfold.
  fold (rowLimitReached fallible e). rewrite Hlimit.
  rewrite nextFreeTuple_run. state_simpl.
  rewrite copyForPersistentInsert_run.
  destruct (nextFreeTuple_slot (m_tuples (table e))) as (old & Hold & Hfree & Hlen).
  fold (insertSlot e) in *. fold (withSlot e) in *.
  set (target := insertSlot e) in *.
  state_simpl.
  set (columns := copyObjects (nextObject e) (m_columns source)).
  set (hidden := copyObjects (snd columns) (m_hiddenColumns source)).
  set (copy := mkTuple _ _ _ _ _ _).
  unfold insertTupleCommon. op_unfold. state_simpl.
  rewrite list_lookup_insert_eq by exact Hlen.
  assert (Hkeys : map keyValueOf (m_columns copy) = map keyValueOf (m_columns source))
    by apply copyObjects_keys.
  match goal with
  | |- context [checkNulls ?t copy] =>
      rewrite (checkNulls_keys t (table e) copy source eq_refl eq_refl Hkeys)
  end.
  fold (nullRefused fallible e source). rewrite Hnull.
  erewrite deleteTupleStorage_run
    by (state_simpl; apply list_lookup_insert_eq; exact Hlen).
  eexists. reflexivity.
Qed.

(** X12. The checks of a fallible insert come in this order.  A table
    that counts as many visible tuples as its limit refuses the insert
    with the row-limit failure and the engine is untouched, no slot
    taken.  Below the limit, a source that holds a null in a column that
    allows none is refused with the not-null failure; the slot taken is
    freed again, and the indexes, the rows a scan returns, the count of
    visible tuples, the stream and the undo quantum are as before. *)
Theorem insert_checks_in_order (source : TupleStorage) (e : Engine) :
  RowCostsOk -> StreamsOk e -> isPendingDelete source = false ->
  (m_tupleLimit (table e) <= visibleTupleCount (table e) ->
   insertPersistentTuple source true e
   = Throws (ConstraintFailureException CONSTRAINT_TYPE_ROW_LIMIT source None) e) /\
  (visibleTupleCount (table e) < m_tupleLimit (table e) ->
   (exists i, (i < columnCount (m_schema (table e)))%nat /\
              nth i (m_allowNulls (table e)) true = false /\
              isNull (nth i (m_columns source) NullValue) = true) ->
   exists e1,
     insertPersistentTuple source true e
     = Throws (ConstraintFailureException CONSTRAINT_TYPE_NOT_NULL source None) e1 /\
     m_indexes (table e1) = m_indexes (table e) /\
     Permutation (rowsOf (m_tuples (table e1))) (rowsOf (m_tuples (table e))) /\
     visibleTupleCount (table e1) = visibleTupleCount (table e) /\
     streamsAgree (drStream e1) (drStream e) /\
     currentUndoQuantum e1 = currentUndoQuantum e).
Proof.
  intros Hcost Hstreams Hpd. split.
  - intros Hlimit. unfold insertPersistentTuple. op_unfold.
    apply Z.leb_le in Hlimit. simpl. now rewrite Hlimit.
  - intros Hbelow Hnull. apply checkNulls_false in Hnull.
    assert (Hlimit : rowLimitReached true e = false)
      by (unfold rowLimitReached; simpl; apply Z.leb_gt; lia).
    assert (Hrefused : nullRefused true e source = true)
      by (unfold nullRefused; now rewrite Hnull).
    destruct (insertPersistentTuple_null source true e Hlimit Hrefused) as (e1 & Hrun).
    exists e1. split; [exact Hrun|].
    pose proof (insertPersistentTuple_outcome source true e Hcost Hstreams) as Hout.
    rewrite Hrun in Hout.
    destruct (InsertThrew_SameState _ _ _ _ _ Hpd Hout) as (_ & _ & Hperm & _ & Hstr & Hcnt & _).
    destruct Hout as (_ & Hindexes & Huq & _). auto.
Qed.

(** ** The DR timestamp of an updated tuple *)

Lemma copyChangedObjects_inline new : forall next old i v,
  new !! i = Some (InlineValue v) ->
  cellsOf (copyChangedObjects next old new) !! i = Some (InlineValue v).
Proof.
  unfold cellsOf.
  induction new as [|cell new IH]; intros next old i v; simpl; [discriminate|].
  destruct i as [|i]; simpl.
  - intros [= ->].
    destruct (copyChangedObjects next (tail old) new) as [[[cells o] n] nx]. reflexivity.
  - intros Hi. destruct cell as [| w | p data].
    + specialize (IH next (tail old) i v Hi).
      destruct (copyChangedObjects next (tail old) new) as [[[cells o] n] nx]. exact IH.
    + specialize (IH next (tail old) i v Hi).
      destruct (copyChangedObjects next (tail old) new) as [[[cells o] n] nx]. exact IH.
    + destruct (bool_decide _).
      * specialize (IH next (tail old) i v Hi).
        destruct (copyChangedObjects next (tail old) new) as [[[cells o] n] nx]. exact IH.
      * specialize (IH (next + 1) (tail old) i v Hi).
        destruct (copyChangedObjects (next + 1) (tail old) new) as [[[cells o] n] nx].
        exact IH.
Qed.

(** X13. After an update of a table with the hidden DR timestamp
    column has returned, the updated tuple carries the DR timestamp of
    the running transaction in that column, whatever the source
    carried. *)
Theorem update_stamps_dr_timestamp (target : nat) (source old : TupleStorage)
    (e e1 : Engine) :
  m_tuples (table e) !! target = Some old ->
  hasDRTimestampColumn (table e) = true ->
  (Z.to_nat (m_drTimestampColumnIndex (table e)) < length (m_hiddenColumns source))%nat ->
  updateTuple target source e = Returns true e1 ->
  exists stored,
    m_tuples (table e1) !! target = Some stored /\
    m_hiddenColumns stored !! Z.to_nat (m_drTimestampColumnIndex (table e))
    = Some (InlineValue (currentDRTimestamp (executorContext e))).
Proof.
  intros Hl Hts Hbound Hrun. unfold updateTuple in Hrun. op_unfold.
  pose proof (updateTupleWithSpecificIndexes_outcome target source
                (seq 0 (length (m_indexes (table e)))) true true e) as Hout.
  rewrite Hrun in Hout. destruct Hout as [_ Hout].
  destruct Hout as (old' & mark & appended & after & indexes1 & flags & H). cbv zeta in H.
  destruct H as (Hl' & _ & _ & _ & _ & _ & _ & Htuples & _).
  assert (Hlen : (target < length (m_tuples (table e)))%nat)
    by (eapply lookup_lt_Some; eauto).
  eexists. split; [rewrite Htuples; now apply list_lookup_insert_eq|].
  unfold updatedTuple.
  destruct (copyChangedObjects (nextObject e) _ _) as [[[columns old1] new1] n1].
  match goal with
  | |- context [copyChangedObjects n1 ?held ?given] =>
      pose proof (copyChangedObjects_inline given n1 held
                    (Z.to_nat (m_drTimestampColumnIndex (table e)))
                    (currentDRTimestamp (executorContext e))) as Hcell;
      destruct (copyChangedObjects n1 held given) as [[[hidden old2] new2] n2]
  end.
  simpl in *. apply Hcell.
  unfold sourceForUpdate. rewrite Hts. simpl. unfold withDRTimestamp. simpl.
  now apply list_lookup_insert_eq.
Qed.

(** ** The cache of [getUniqueIndexForDR] *)

(** X14. [getUniqueIndexForDR] computes its answer once: a second call
    gives the same answer and leaves the table as the first call left
    it, and so does a call made after the indexes of the table were
    replaced without the cache being invalidated. *)
Theorem getUniqueIndexForDR_computes_once (isActiveActive : bool) (t : PersistentTable) :
  let first := getUniqueIndexForDR crc32cInit crc32c crc32cFinish isActiveActive t in
  getUniqueIndexForDR crc32cInit crc32c crc32cFinish isActiveActive (snd first) = first /\
  forall indexes,
    getUniqueIndexForDR crc32cInit crc32c crc32cFinish isActiveActive
      (setIndexes indexes (snd first))
    = (fst first, setIndexes indexes (snd first)).
Proof.
  unfold getUniqueIndexForDR. destruct isActiveActive; simpl; [auto|].
  destruct (m_smallestUniqueIndex t) as [i|] eqn:Ei; simpl.
  - rewrite ?Ei. simpl. rewrite ?Ei. auto.
  - destruct (m_noAvailableUniqueIndex t) eqn:En; simpl.
    + rewrite ?Ei, ?En. simpl. rewrite ?Ei, ?En. auto.
    + unfold computeSmallestUniqueIndex.
      destruct (smallestUniqueIndex (scanIndexes 0 (m_indexes t) _)) as [[pos index]|];
        simpl; auto.
Qed.

(** ** [PersistentTable::processLoadedTuple] *)







Lemma rollbackTo_invalid cost s :
  rollbackTo DRTupleStreamFormat.INVALID_DR_MARK cost s = s.
Proof. reflexivity. Qed.



End ExecutionEngine.

Arguments Returns {A} a e.
Arguments Throws {A} x e.
Arguments FatalException {A} message.
Arguments AssertionFailed {A}.


(** ** The operations on a table of the test *)

(** The collaborators of the engine, for the examples: the codes of the
    record types, one row per image, a row image of one byte per cell. *)
Definition exampleRecordTypeCode (type : DRRecordType) : Z :=
  match type with
  | DR_RECORD_INSERT => 0
  | DR_RECORD_DELETE => 1
  | DR_RECORD_UPDATE => 2
  | DR_RECORD_BEGIN_TXN => 3
  | DR_RECORD_END_TXN => 4
  | DR_RECORD_HASH_DELIMITER => 8
  end.

Definition exampleRowCost (type : DRRecordType) : Z :=
  match type with DR_RECORD_UPDATE => 2 | _ => 1 end.

Definition exampleCellByte (cell : NValue) : Z :=
  match cell with
  | NullValue => 0
  | InlineValue v => v mod 256
  | ObjectValue _ data => Z.of_nat (length data)
  end.

Definition exampleRowImage (type : DRRecordType) (indexPair : option nat * Z)
    (tuples : list TupleStorage) : list Z :=
  flat_map (fun t => map exampleCellByte (tupleData t)) tuples.

Definition exampleHashinate (v : NValue) : Z :=
  match v with InlineValue z => z mod 8 | _ => 0 end.

(** A table of TINYINT and BIGINT with a plain index on the TINYINT and
    the unique index on (BIGINT, TINYINT), holding the row (42, 55555). *)
Definition tinyint_index : TableIndex :=
  mkIndex "tinyint_index" false false [0]%nat 1 false [].

Definition tableWithOneRow : PersistentTable :=
  setIndexes [setEntries [([KeyInline 42], 0%nat)] tinyint_index;
              setEntries [([KeyInline 55555; KeyInline 42], 0%nat)] the_index]
    (setTupleCount 1
       (setTuples [otherRow 42 55555]
          (addIndex the_index
             (addIndex tinyint_index
                (newPersistentTable "OTHER_TABLE_1" 43 otherSchema [false; true] 0 false
                                    2147483647 true))))).

Definition engineWithOneRow : Engine :=
  mkEngine tableWithOneRow (Some (newDRTupleStream 42 4096 32768 1000)) (Some [])
           testContext [] 0 [].

Definition exampleInsert : TupleStorage -> bool -> Op unit :=
  insertPersistentTuple 0 (fun _ _ _ => 0) (fun c => c) exampleRecordTypeCode
    exampleRowCost exampleRowImage exampleHashinate.

Lemma exampleRowCost_ok : RowCostsOk exampleRowCost.
Proof. intros []; simpl; lia. Qed.

Lemma newDRTupleStream_ok e partitionId defaultCapacity secondaryCapacity rowTarget :
  Z.max defaultCapacity secondaryCapacity < DRTupleStreamFormat.SIZE_MAX ->
  drStream e
  = Some (newDRTupleStream partitionId defaultCapacity secondaryCapacity rowTarget) ->
  StreamsOk e.
Proof.
  intros Hmax H s Hs. rewrite H in Hs. injection Hs as <-. split.
  - intros Ho. discriminate.
  - exact Hmax.
Qed.


Definition exampleUpdate : nat -> TupleStorage -> list nat -> bool -> bool -> Op bool :=
  updateTupleWithSpecificIndexes 0 (fun _ _ _ => 0) (fun c => c) exampleRecordTypeCode
    exampleRowCost exampleRowImage exampleHashinate.

Definition exampleDelete : nat -> bool -> Op bool :=
  deleteTuple 0 (fun _ _ _ => 0) (fun c => c) exampleRecordTypeCode
    exampleRowCost exampleRowImage exampleHashinate.

(** C2 (witness): the three operations on the table with the row
    (42, 55555); the insert is that of the row once more, which the
    unique index refuses. *)
Lemma dr_record_before_visible_change_witness :
  match exampleInsert (otherRow 42 55555) true engineWithOneRow with
  | Returns _ e1 =>
      exists mark writes after,
        trace e1 = trace engineWithOneRow
                   ++ (EvAllocateSlot (insertSlot engineWithOneRow) :: writes)
                   ++ EvDRAppend DR_RECORD_INSERT mark
                   :: EvSetFlags (insertSlot engineWithOneRow) :: after /\
        Forall (eq (EvWriteTuple (insertSlot engineWithOneRow))) writes /\
        List.filter isIndexEvent after
        = map (fun j => EvIndexAdd j (insertSlot engineWithOneRow))
              (seq 0 (length (m_indexes (table engineWithOneRow))))
  | Throws x e1 =>
      streamsAgree (drStream e1) (drStream engineWithOneRow) /\
      m_indexes (table e1) = m_indexes (table engineWithOneRow) /\
      (forall t, m_tuples (table e1) !! insertSlot engineWithOneRow = Some t ->
                 isActive t = false) /\
      List.filter isVisible (m_tuples (table e1))
      = List.filter isVisible (m_tuples (table engineWithOneRow)) /\
      (isPendingDelete (otherRow 42 55555) = false ->
       visibleTupleCount (table e1) = visibleTupleCount (table engineWithOneRow)) /\
      exists events,
        trace e1 = trace engineWithOneRow ++ events /\
        (forall mark, In (EvDRAppend DR_RECORD_INSERT mark) events ->
                      In (EvDRRollback mark (exampleRowCost DR_RECORD_INSERT)) events) /\
        (events = [] \/
         exists steps, events = EvAllocateSlot (insertSlot engineWithOneRow)
                                  :: steps ++ [EvFreeSlot (insertSlot engineWithOneRow)])
  | FatalException _ | AssertionFailed => False
  end /\
  match exampleUpdate 0 (otherRow 42 55555) [0; 1]%nat true true engineWithOneRow with
  | Returns _ e1 =>
      exists mark after,
        trace e1 = trace engineWithOneRow ++ EvDRAppend DR_RECORD_UPDATE mark :: after
  | Throws x e1 => Unchanged engineWithOneRow e1
  | FatalException _ | AssertionFailed => True
  end /\
  match exampleDelete 0 true engineWithOneRow with
  | Returns _ e1 =>
      exists mark after,
        trace e1 = trace engineWithOneRow ++ EvDRAppend DR_RECORD_DELETE mark :: after
  | Throws x e1 => Unchanged engineWithOneRow e1
  | FatalException _ | AssertionFailed => True
  end.
Proof.
  apply (dr_record_before_visible_change 0 (fun _ _ _ => 0) (fun c => c)
           exampleRecordTypeCode exampleRowCost exampleRowImage exampleHashinate
           engineWithOneRow (newDRTupleStream 42 4096 32768 1000)
           (otherRow 42 55555) 0%nat [0; 1]%nat true true).
  - exact exampleRowCost_ok.
  - apply (newDRTupleStream_ok _ 42 4096 32768 1000); reflexivity.
  - reflexivity.
  - reflexivity.
Defined.

(** ** A transaction of the test, aborted *)

(** The table of the rollback tests before the transaction: no tuple
    yet, a plain index on the TINYINT column and the unique index. *)
Definition emptyTable : PersistentTable :=
  addIndex the_index
    (addIndex tinyint_index
       (newPersistentTable "OTHER_TABLE_1" 43 otherSchema [false; true] 0 false
                           2147483647 true)).

Definition engineWithEmptyTable (rowTarget : Z) : Engine :=
  mkEngine emptyTable (Some (newDRTupleStream 42 4096 32768 rowTarget)) (Some [])
           testContext [] 0 [].

Definition exampleRun : list Operation -> Op unit :=
  runOperations 0 (fun _ _ _ => 0) (fun c => c) exampleRecordTypeCode exampleRowCost
    exampleRowImage exampleHashinate.

Lemma engineWithEmptyTable_ok rowTarget : TableOk (engineWithEmptyTable rowTarget).
Proof.
  split; [|split; [|split]].
  - assert (Hempty : forall index, m_entries index = [] -> IndexOk [] index).
    { intros index He. split; rewrite He; [constructor|]. intros k a. split; [intros []|].
      intros (t & H & _). now rewrite lookup_nil in H. }
    repeat constructor; now apply Hempty.
  - split; [|split; [|split]].
    + intros shape _ _. constructor.
    + discriminate.
    + intros r [].
    + intros p d1 d2 [].
  - intros p [].
  - apply (newDRTupleStream_ok _ 42 4096 32768 rowTarget); [reflexivity | reflexivity].
Qed.

(** The rows (42, 55555) and (24, 2321) inserted in one transaction:
    the stream holds their two records, and the partition hash it saw
    last is that of 24. *)
Definition engineWithTwoRowsStreamed : Engine :=
  Eval vm_compute in
    match exampleInsert (otherRow 42 55555) true (engineWithEmptyTable 1000) with
    | Returns _ e =>
        match exampleInsert (otherRow 24 2321) true e with
        | Returns _ e' => e'
        | _ => e
        end
    | _ => engineWithEmptyTable 1000
    end.

(** C2 (counterexample). The table streams to DR and its transaction is
    open.  The insert of the row (42, 55555) once more appends its
    record, is refused by the unique index and rolls the stream back to
    the mark: the bytes are those of before, but the partition hash the
    stream saw last is now that of the refused row, so the stream is not
    as if the insert never ran.  The next insert shows it: after the
    refused insert the row (8, 9) is preceded by a hash delimiter that
    the stream would not have written otherwise. *)
Lemma refused_insert_leaves_its_hash_in_the_stream :
  exists conflict e1 s s1 e2 e2',
    streamsToDR (table engineWithTwoRowsStreamed) = true /\
    exampleInsert (otherRow 42 55555) true engineWithTwoRowsStreamed
    = Throws (ConstraintFailureException CONSTRAINT_TYPE_UNIQUE (otherRow 42 55555)
                                         (Some conflict)) e1 /\
    drStream engineWithTwoRowsStreamed = Some s /\
    drStream e1 = Some s1 /\
    m_bytes s1 = m_bytes s /\
    m_lastParHash s = 0 /\
    m_lastParHash s1 = 2 /\
    drStream e1 <> drStream engineWithTwoRowsStreamed /\
    exampleInsert (otherRow 8 9) true engineWithTwoRowsStreamed = Returns tt e2 /\
    exampleInsert (otherRow 8 9) true e1 = Returns tt e2' /\
    (m_bytes <$> drStream e2') <> (m_bytes <$> drStream e2).
Proof.
  do 6 eexists.
  split; [reflexivity|].
  split; [vm_compute; reflexivity|].
  split; [reflexivity|].
  split; [reflexivity|].
  split; [reflexivity|].
  split; [reflexivity|].
  split; [reflexivity|].
  split; [intros H; discriminate H|].
  split; [vm_compute; reflexivity|].
  split; [vm_compute; reflexivity|].
  vm_compute. intros H. discriminate H.
Qed.

(** Two inserts, an update of the first row, a delete of the second,
    and an insert that the unique index refuses. *)
Definition abortedOperations : list Operation :=
  [OpInsert (otherRow 42 55555); OpInsert (otherRow 24 2321);
   OpUpdate 0 (otherRow 42 1234); OpDelete 1; OpInsert (otherRow 42 1234)].

Definition engineAtAbort : Engine :=
  Eval vm_compute in
    match exampleRun abortedOperations (engineWithEmptyTable 1000) with
    | Returns _ e | Throws _ e => e
    | _ => engineWithEmptyTable 1000
    end.

(** C1 (witness): the transaction is undone; the table is empty again,
    the stream holds no byte and nothing is flushed. *)
Lemma aborted_transaction_is_undone_witness :
  exists e2,
    undoUndoQuantum exampleRowCost engineAtAbort = Returns tt e2 /\
    Permutation (rowsOf (m_tuples (table e2))) [] /\
    visibleTupleCount (table e2) = 0 /\
    IndexesOk (table e2) /\
    (m_bytes <$> drStream e2) = Some [] /\
    (getLastCommittedSequenceNumberAndUniqueIds <$> drStream e2)
    = Some (mkCommittedInfo (-1) 0 0) /\
    topend e2 = [] /\
    topendAfterFlush e2 = [].
Proof.
  apply (aborted_transaction_is_undone 0 (fun _ _ _ => 0) (fun c => c)
           exampleRecordTypeCode exampleRowCost exampleRowImage exampleHashinate
           abortedOperations (engineWithEmptyTable 1000) engineAtAbort).
  - exact exampleRowCost_ok.
  - apply engineWithEmptyTable_ok.
  - reflexivity.
  - vm_compute. reflexivity.
  - right. eexists. vm_compute. reflexivity.
Defined.

(** Two inserts of a transaction; the update that follows them is the
    one the stream refuses. *)
Definition insertsWithinBudget : list Operation :=
  [OpInsert (otherRow 42 55555); OpInsert (otherRow 24 2321)].

(** The empty table with a stream whose blocks hold 100 and 142 bytes:
    the two inserts fit the secondary block, and so would the header of
    one more record, but not the record of an update with its two row
    images. *)
Definition engineWithSmallBlocks : Engine :=
  mkEngine emptyTable (Some (newDRTupleStream 42 100 142 1000)) (Some [])
           testContext [] 0 [].

Lemma engineWithSmallBlocks_ok : TableOk engineWithSmallBlocks.
Proof.
  destruct (engineWithEmptyTable_ok 1000) as (Hix & Hrows & Hbelow & _).
  split; [exact Hix|]. split; [exact Hrows|]. split; [exact Hbelow|].
  apply (newDRTupleStream_ok _ 42 100 142 1000); reflexivity.
Qed.

Definition engineAtCapacity : Engine :=
  Eval vm_compute in
    match exampleRun insertsWithinBudget engineWithSmallBlocks with
    | Returns _ e | Throws _ e => e
    | _ => engineWithSmallBlocks
    end.

Definition streamAtCapacity : DRTupleStream :=
  Eval vm_compute in
    match drStream engineAtCapacity with
    | Some s => s
    | None => newDRTupleStream 42 100 142 1000
    end.

(** C9 (witness): the transaction is far from its row budget and the
    header of one more record would fit the secondary block, but the
    bytes of the update record overflow both blocks: the append is
    refused, the transaction throws the buffer overflow, and its undo
    leaves the table empty and the stream without a byte. *)
Lemma refused_record_aborts_transaction_witness :
  (m_txnRowCount streamAtCapacity + exampleRowCost DR_RECORD_UPDATE
   <= m_rowTarget streamAtCapacity /\
   openTransactionLength streamAtCapacity []
   + DRTupleStreamFormat.TXN_RECORD_HEADER_SIZE
   <= m_secondaryCapacity streamAtCapacity) /\
  (forall partitionValue uniqueId,
     appendRecord exampleRecordTypeCode exampleRowCost exampleRowImage exampleHashinate
       (m_signature (table engineAtCapacity)) partitionValue uniqueId DR_RECORD_UPDATE
       (recordImages (OpUpdate 0 (otherRow 42 1234)) engineAtCapacity)
       (uniqueIndexForDR 0 (fun _ _ _ => 0) (fun c => c) engineAtCapacity)
       streamAtCapacity
     = BufferOverflow) /\
  exists e2 e3,
    exampleRun (insertsWithinBudget ++ [OpUpdate 0 (otherRow 42 1234)])
               engineWithSmallBlocks
    = Throws (TupleStreamException volt_output_buffer_overflow) e2 /\
    undoUndoQuantum exampleRowCost e2 = Returns tt e3 /\
    Permutation (rowsOf (m_tuples (table e3))) [] /\
    visibleTupleCount (table e3) = 0 /\
    IndexesOk (table e3) /\
    (m_bytes <$> drStream e3) = Some [] /\
    (getLastCommittedSequenceNumberAndUniqueIds <$> drStream e3)
    = Some (mkCommittedInfo (-1) 0 0) /\
    topend e3 = [] /\
    topendAfterFlush e3 = [].
Proof.
  split; [split; vm_compute; discriminate|].
  apply (refused_record_aborts_transaction 0 (fun _ _ _ => 0) (fun c => c)
           exampleRecordTypeCode exampleRowCost exampleRowImage exampleHashinate
           insertsWithinBudget (OpUpdate 0 (otherRow 42 1234)) engineWithSmallBlocks
           engineAtCapacity streamAtCapacity).
  - exact exampleRowCost_ok.
  - exact engineWithSmallBlocks_ok.
  - reflexivity.
  - vm_compute. reflexivity.
  - vm_compute. reflexivity.
  - reflexivity.
  - reflexivity.
  - vm_compute. reflexivity.
  - vm_compute. reflexivity.
Defined.

(** ** The binary log sink and its conflict reports *)

(** [DRConflictType], as [DRBinaryLog_test.cpp] reads it from the
    topend. *)
Inductive DRConflictType : Type :=
| NO_CONFLICT
| CONFLICT_CONSTRAINT_VIOLATION
| CONFLICT_EXPECTED_ROW_MISSING
| CONFLICT_EXPECTED_ROW_MISMATCH.

#[global] Instance DRConflictType_eq_dec : EqDecision DRConflictType.
Proof. solve_decision. Defined.

Definition isConflict (c : DRConflictType) : bool :=
  negb (bool_decide (c = NO_CONFLICT)).

(** Modelled from the spec: a row record as the sink decodes it
    ([storage/BinaryLogSink.cpp] is not part of these sources): the
    image to insert, the image a delete expects, or both for an
    update. *)
Inductive LogRecord : Type :=
| LogInsert (newTuple : TupleStorage)
| LogDelete (expectedTuple : TupleStorage)
| LogUpdate (expectedTuple newTuple : TupleStorage).

Definition recordAction (r : LogRecord) : DRRecordType :=
  match r with
  | LogInsert _ => DR_RECORD_INSERT
  | LogDelete _ => DR_RECORD_DELETE
  | LogUpdate _ _ => DR_RECORD_UPDATE
  end.

(** What the topend of the test receives with a conflict: "four
    referenceable tuple carriers (existing-for-delete,
    expected-for-delete, existing-for-insert, new-for-insert) plus the
    action/conflict-type pair".  A carrier that the test finds NULL or
    without a tuple is the empty list. *)
Record ConflictReport : Type := mkConflictReport {
  actionType : DRRecordType;
  deleteConflictType : DRConflictType;
  existingTupleRowsForDelete : list TupleStorage;
  expectedTupleRowsForDelete : list TupleStorage;
  insertConflictType : DRConflictType;
  existingTupleRowsForInsert : list TupleStorage;
  newTupleRowsForInsert : list TupleStorage
}.

(** Modelled from the spec: the delete side, "locate the expected row
    via lookup(..., for-DR) including hidden DR timestamp; if not found,
    delete-missing-tuple; if found but the current image's
    timestamp/hidden-column differs from the expected image's,
    delete-timestamp-mismatch". *)
Definition findExpectedRow (t : PersistentTable) (expected : TupleStorage)
  : option (nat * TupleStorage) :=
  match lookupTupleForDR t expected with
  | Some address =>
      match m_tuples t !! address with
      | Some existing => Some (address, existing)
      | None => None
      end
  | None => None
  end.

Definition deleteSide (found : option (nat * TupleStorage)) (expected : TupleStorage)
  : DRConflictType * list TupleStorage :=
  match found with
  | None => (CONFLICT_EXPECTED_ROW_MISSING, [])
  | Some (_, existing) =>
      if forall2b sameValue (m_hiddenColumns existing) (m_hiddenColumns expected)
      then (NO_CONFLICT, [])
      else (CONFLICT_EXPECTED_ROW_MISMATCH, [existing])
  end.

(** Modelled from the spec: the insert side, "classify insert side by
    unique-conflict against any other local row": the indexes without
    the row that the update replaces, and the tuple that the first
    unique index holding the key reports. *)
Definition indexesWithout (t : PersistentTable) (found : option (nat * TupleStorage))
  : list TableIndex :=
  match found with
  | Some (address, existing) =>
      match deleteFromIndexes existing address (m_indexes t) with
      | Some indexes => indexes
      | None => m_indexes t
      end
  | None => m_indexes t
  end.

Definition insertSide (t : PersistentTable) (indexes : list TableIndex)
    (newTuple : TupleStorage) : DRConflictType * list TupleStorage :=
  match snd (fst (tryInsertOnIndexes newTuple (length (m_tuples t)) [] indexes)) with
  | Some conflict =>
      (CONFLICT_CONSTRAINT_VIOLATION,
       match m_tuples t !! conflict with
       | Some existing => [existing]
       | None => []
       end)
  | None => (NO_CONFLICT, [])
  end.

(** Modelled from the spec: what the sink reports for a record applied
    to the local table [t].  The carriers are those the test finds
    filled: the expected image of a delete or an update and the new
    image of an insert or an update whenever there is a conflict, the
    existing row of a mismatch, the existing row of a constraint
    violation. *)
Definition conflictReport (t : PersistentTable) (r : LogRecord) : ConflictReport :=
  match r with
  | LogInsert newTuple =>
      let (conflict, existing) := insertSide t (m_indexes t) newTuple in
      mkConflictReport DR_RECORD_INSERT NO_CONFLICT [] [] conflict existing
        (if isConflict conflict then [newTuple] else [])
  | LogDelete expected =>
      let (conflict, existing) := deleteSide (findExpectedRow t expected) expected in
      mkConflictReport DR_RECORD_DELETE conflict existing
        (if isConflict conflict then [expected] else []) NO_CONFLICT [] []
  | LogUpdate expected newTuple =>
      let found := findExpectedRow t expected in
      let (deleteConflict, existingForDelete) := deleteSide found expected in
      let (insertConflict, existingForInsert) :=
        insertSide t (indexesWithout t found) newTuple in
      if isConflict deleteConflict || isConflict insertConflict
      then mkConflictReport DR_RECORD_UPDATE deleteConflict existingForDelete [expected]
             insertConflict existingForInsert [newTuple]
      else mkConflictReport DR_RECORD_UPDATE NO_CONFLICT [] [] NO_CONFLICT [] []
  end.

Definition hasConflict (report : ConflictReport) : bool :=
  isConflict (deleteConflictType report) || isConflict (insertConflictType report).

(** The tuples a report carries. *)
Definition tuplesIncluded (report : ConflictReport) : nat :=
  (length (existingTupleRowsForDelete report) + length (expectedTupleRowsForDelete report)
   + length (existingTupleRowsForInsert report) + length (newTupleRowsForInsert report))%nat.

Inductive ConflictRowType : Type :=
| EXISTING_ROW
| EXPECTED_ROW
| NEW_ROW.

(** Of the columns of the conflict export table, "row-type,
    action-type, conflict-type, [...] tuple-bytes". *)
Record ConflictExportRow : Type := mkConflictExportRow {
  rowType : ConflictRowType;
  rowActionType : DRRecordType;
  rowConflictType : DRConflictType;
  rowTuple : TupleStorage
}.

(** Modelled from the spec: the rows the sink writes to the conflict
    export table, what the test counts in [receivedTuples]: a row for
    the existing and for the expected tuple of the delete side, a row
    for the existing and for the new tuple of the insert side. *)
Definition exportConflict (report : ConflictReport) : list ConflictExportRow :=
  if hasConflict report then
    map (mkConflictExportRow EXISTING_ROW (actionType report) (deleteConflictType report))
        (existingTupleRowsForDelete report)
    ++ map (mkConflictExportRow EXPECTED_ROW (actionType report) (deleteConflictType report))
           (expectedTupleRowsForDelete report)
    ++ map (mkConflictExportRow EXISTING_ROW (actionType report) (insertConflictType report))
           (existingTupleRowsForInsert report)
    ++ map (mkConflictExportRow NEW_ROW (actionType report) (insertConflictType report))
           (newTupleRowsForInsert report)
  else [].

(** *** The tables of the conflict tests *)

(** TINYINT and BIGINT, and the hidden DR timestamp; a unique index on
    each column, the first being the primary key. *)
Definition conflictSchema : TupleSchema := mkSchema 2 1 0.

Definition conflictRow (tinyint bigint drTimestamp : Z) : TupleStorage :=
  mkTuple true false false false [InlineValue tinyint; InlineValue bigint]
          [InlineValue drTimestamp].

Definition replicaTable (rows : list TupleStorage) : PersistentTable :=
  setIndexes
    [mkIndex "UniqueIndex" true false [0%nat] 1 false
       (imap (fun a row => (map keyValueOf (firstn 1 (m_columns row)), a)) rows);
     mkIndex "UniqueIndex" true false [1%nat] 8 false
       (imap (fun a row => (map keyValueOf (skipn 1 (m_columns row)), a)) rows)]
    (setTupleCount (Z.of_nat (length rows))
       (setTuples rows
          (setPrimaryKeyIndex 0
             (newPersistentTable "P_TABLE_REPLICA" 42 conflictSchema [false; true] 0 false
                                 2147483647 true)))).

(** The replica of the insert-constraint test holds (99, 55555) and
    (42, 34523), written at 71; the log inserts (42, 34523), written at
    72. *)
Lemma insert_constraint_violation_emits_two_rows :
  let report :=
    conflictReport (replicaTable [conflictRow 99 55555 71; conflictRow 42 34523 71])
                   (LogInsert (conflictRow 42 34523 72)) in
  actionType report = DR_RECORD_INSERT /\
  deleteConflictType report = NO_CONFLICT /\
  insertConflictType report = CONFLICT_CONSTRAINT_VIOLATION /\
  existingTupleRowsForInsert report = [conflictRow 42 34523 71] /\
  newTupleRowsForInsert report = [conflictRow 42 34523 72] /\
  length (exportConflict report) = 2%nat.
Proof. vm_compute. repeat split. Qed.

(** The replica of the update test holds (42, 12345), updated at 71,
    (24, 2321) and (72, 345); the log updates (42, 55555), written at
    70, to (42, 345). *)
Lemma update_mismatch_and_constraint_emits_four_rows :
  let report :=
    conflictReport
      (replicaTable [conflictRow 42 12345 71; conflictRow 24 2321 70; conflictRow 72 345 71])
      (LogUpdate (conflictRow 42 55555 70) (conflictRow 42 345 72)) in
  actionType report = DR_RECORD_UPDATE /\
  deleteConflictType report = CONFLICT_EXPECTED_ROW_MISMATCH /\
  insertConflictType report = CONFLICT_CONSTRAINT_VIOLATION /\
  existingTupleRowsForDelete report = [conflictRow 42 12345 71] /\
  expectedTupleRowsForDelete report = [conflictRow 42 55555 70] /\
  existingTupleRowsForInsert report = [conflictRow 72 345 71] /\
  newTupleRowsForInsert report = [conflictRow 42 345 72] /\
  length (exportConflict report) = 4%nat.
Proof. vm_compute. repeat split. Qed.

(** C5 (counterexample): the replica of the delete-missing test has
    deleted (42, 55555); the log deletes it again.  The report carries
    one tuple, the expected one, and one row is exported, not two. *)
Lemma delete_missing_emits_one_row :
  let report := conflictReport (replicaTable []) (LogDelete (conflictRow 42 55555 70)) in
  actionType report = DR_RECORD_DELETE /\
  deleteConflictType report = CONFLICT_EXPECTED_ROW_MISSING /\
  insertConflictType report = NO_CONFLICT /\
  existingTupleRowsForDelete report = [] /\
  expectedTupleRowsForDelete report = [conflictRow 42 55555 70] /\
  tuplesIncluded report = 1%nat /\
  length (exportConflict report) = 1%nat /\
  length (exportConflict report) <> (1 + tuplesIncluded report)%nat.
Proof. vm_compute. repeat split. discriminate. Qed.

Lemma deleteSide_cases found expected :
  (fst (deleteSide found expected) = NO_CONFLICT /\ snd (deleteSide found expected) = [])
  \/ (fst (deleteSide found expected) = CONFLICT_EXPECTED_ROW_MISSING
      /\ snd (deleteSide found expected) = [] /\ found = None)
  \/ (fst (deleteSide found expected) = CONFLICT_EXPECTED_ROW_MISMATCH
      /\ exists address existing,
           found = Some (address, existing) /\
           snd (deleteSide found expected) = [existing]).
Proof.
  unfold deleteSide. destruct found as [[address existing]|]; [|auto].
  destruct (forall2b _ _ _); [auto|]. right. right. eauto.
Qed.

Lemma insertSide_cases t indexes newTuple :
  (fst (insertSide t indexes newTuple) = NO_CONFLICT
   /\ snd (insertSide t indexes newTuple) = [])
  \/ (fst (insertSide t indexes newTuple) = CONFLICT_CONSTRAINT_VIOLATION
      /\ (length (snd (insertSide t indexes newTuple)) <= 1)%nat).
Proof.
  unfold insertSide. destruct (snd (fst _)) as [conflict|]; [|auto].
  right. split; [reflexivity|]. destruct (_ !! _); simpl; lia.
Qed.

(** C5 (amended).  For every record and every state of the local
    table the sink reports one conflict type of the delete side
    (none, expected row missing, expected row mismatch) and one of the
    insert side (none, constraint violation); an insert has no conflict
    of the delete side and a delete none of the insert side; the
    expected row is missing exactly when the lookup for DR finds no row.
    When there is a conflict the export table receives one row for each
    tuple the report carries, between one and four rows; without a
    conflict it receives none. *)
Theorem conflict_report_rows (t : PersistentTable) (r : LogRecord) :
  let report := conflictReport t r in
  actionType report = recordAction r /\
  (deleteConflictType report = NO_CONFLICT \/
   deleteConflictType report = CONFLICT_EXPECTED_ROW_MISSING \/
   deleteConflictType report = CONFLICT_EXPECTED_ROW_MISMATCH) /\
  (insertConflictType report = NO_CONFLICT \/
   insertConflictType report = CONFLICT_CONSTRAINT_VIOLATION) /\
  match r with
  | LogInsert _ => deleteConflictType report = NO_CONFLICT
  | LogDelete expected =>
      insertConflictType report = NO_CONFLICT /\
      (deleteConflictType report = CONFLICT_EXPECTED_ROW_MISSING <->
       findExpectedRow t expected = None)
  | LogUpdate expected _ =>
      deleteConflictType report = CONFLICT_EXPECTED_ROW_MISSING <->
      findExpectedRow t expected = None
  end /\
  length (exportConflict report) = tuplesIncluded report /\
  (hasConflict report = true ->
   (1 <= length (exportConflict report) <= 4)%nat) /\
  (hasConflict report = false -> exportConflict report = []).
Proof.
  destruct r as [newTuple | expected | expected newTuple]; cbv zeta; unfold conflictReport.
  - destruct (insertSide_cases t (m_indexes t) newTuple) as [[Hc He] | [Hc He]];
      destruct (insertSide t (m_indexes t) newTuple) as [conflict existing];
      simpl in Hc, He; subst; unfold exportConflict, tuplesIncluded, hasConflict; simpl;
      repeat split; auto; try discriminate; rewrite ?length_app, ?length_map; simpl; lia.
  - destruct (findExpectedRow t expected) as [[address existing]|]; unfold deleteSide;
      [destruct (forall2b _ _ _)|];
      unfold exportConflict, tuplesIncluded, hasConflict; simpl;
      repeat split; auto; try discriminate; lia.
  - destruct (findExpectedRow t expected) as [[address existing]|] eqn:Hf;
      unfold deleteSide; [destruct (forall2b _ _ _)|];
      match goal with
      | |- context [insertSide t ?indexes newTuple] =>
          destruct (insertSide_cases t indexes newTuple) as [[Hc He] | [Hc He]];
          destruct (insertSide t indexes newTuple) as [conflict existingForInsert]
      end;
      simpl in Hc, He; subst; unfold exportConflict, tuplesIncluded, hasConflict; simpl;
      repeat split; auto; try discriminate; rewrite ?length_app, ?length_map; simpl; lia.
Qed.

(** ** [PersistentTable::validatePartitioning] *)

(** The loop [while (iter.hasNext()) { iter.next(tuple); ... }]: the
    tuples that a scan returns are hashed by their partition column, and
    the tuples that hash to another partition are counted. *)
Fixpoint countMispartitioned (hashinate : NValue -> Z) (partitionId : Z)
    (partitionColumn : nat) (tuples : list TupleStorage) (mispartitionedRows : Z) : Z :=
  match tuples with
  | [] => mispartitionedRows
  | tuple :: rest =>
      if isVisible tuple
         && negb (hashinate (nth partitionColumn (m_columns tuple) NullValue) =? partitionId)
      then countMispartitioned hashinate partitionId partitionColumn rest
             (mispartitionedRows + 1)
      else countMispartitioned hashinate partitionId partitionColumn rest
             mispartitionedRows
  end.

Definition validatePartitioning (hashinate : NValue -> Z) (partitionId : Z)
    (t : PersistentTable) : Z :=
  countMispartitioned hashinate partitionId (Z.to_nat (m_partitionColumn t)) (m_tuples t) 0.

(** The row hashes to another partition. *)
Definition mispartitioned (hashinate : NValue -> Z) (partitionId : Z)
    (partitionColumn : nat) (r : Row) : bool :=
  negb (hashinate (nth partitionColumn (fst r) NullValue) =? partitionId).

Lemma countMispartitioned_rows hashinate partitionId partitionColumn tuples :
  forall mispartitionedRows,
    countMispartitioned hashinate partitionId partitionColumn tuples mispartitionedRows
    = mispartitionedRows
      + Z.of_nat (length (List.filter (mispartitioned hashinate partitionId partitionColumn)
                                      (rowsOf tuples))).
Proof.
  unfold rowsOf.
  induction tuples as [|tuple rest IH]; intros n; simpl; [lia|].
  destruct (isVisible tuple); simpl; [|apply IH].
  change (negb (hashinate (nth partitionColumn (m_columns tuple) NullValue) =? partitionId))
    with (mispartitioned hashinate partitionId partitionColumn (rowOf tuple)).
  destruct (mispartitioned hashinate partitionId partitionColumn (rowOf tuple));
    rewrite IH; simpl length; lia.
Qed.

(** X15. [validatePartitioning] returns the number of rows, among those
    a scan of the table returns, whose partition column hashes to
    another partition than the one given: at most the number of rows,
    and 0 exactly when every row hashes to the partition given. *)
Theorem validatePartitioning_counts (hashinate : NValue -> Z) (partitionId : Z)
    (t : PersistentTable) :
  let column := Z.to_nat (m_partitionColumn t) in
  let rows := rowsOf (m_tuples t) in
  validatePartitioning hashinate partitionId t
  = Z.of_nat (length (List.filter (mispartitioned hashinate partitionId column) rows)) /\
  0 <= validatePartitioning hashinate partitionId t <= Z.of_nat (length rows) /\
  (validatePartitioning hashinate partitionId t = 0 <->
   forall r, In r rows -> hashinate (nth column (fst r) NullValue) = partitionId).
Proof.
  intros column rows. unfold validatePartitioning. fold column.
  rewrite countMispartitioned_rows. fold rows. simpl.
  split; [reflexivity|]. split.
  - split; [lia|]. apply inj_le. apply filter_length_le.
  - split.
    + intros H r Hr.
      destruct (mispartitioned hashinate partitionId column r) eqn:E.
      * assert (Hin : In r (List.filter (mispartitioned hashinate partitionId column) rows))
          by (apply List.filter_In; auto).
        destruct (List.filter _ rows); [destruct Hin | simpl in H; lia].
      * unfold mispartitioned in E. apply negb_false_iff in E. now apply Z.eqb_eq.
    + intros H.
      assert (E : List.filter (mispartitioned hashinate partitionId column) rows = []).
      { destruct (List.filter _ rows) as [|r l] eqn:E; [reflexivity|]. exfalso.
        assert (Hin : In r (List.filter (mispartitioned hashinate partitionId column) rows))
          by (rewrite E; now left).
        apply List.filter_In in Hin as [Hr Hm]. unfold mispartitioned in Hm.
        apply negb_true_iff, Z.eqb_neq in Hm. auto. }
      now rewrite E.
Qed.

(** ** The views of a table *)

Definition setViews (v : list string) (t : PersistentTable) : PersistentTable :=
  mkTable (m_name t) (m_signature t) (m_schema t) (m_allowNulls t) (m_tuples t)
    (m_tupleCount t) (m_tuplesPinnedByUndo t) (m_invisibleTuplesPendingDeleteCount t)
    (m_tupleLimit t) (m_indexes t) (m_pkeyIndex t) v (m_tableStreamer t)
    (m_partitionColumn t) (m_isMaterialized t) (m_drEnabled t)
    (m_noAvailableUniqueIndex t) (m_smallestUniqueIndex t)
    (m_smallestUniqueIndexCrc t) (m_drTimestampColumnIndex t).

(** [m_views.push_back(view)] *)
Definition addMaterializedView (view : string) (t : PersistentTable) : PersistentTable :=
  setViews (m_views t ++ [view]) t.

(** [find(m_views.begin(), m_views.end(), targetView)]: the first
    position that holds the view, counted from [pos]. *)
Fixpoint findView (targetView : string) (views : list string) (pos : nat) : option nat :=
  match views with
  | [] => None
  | view :: rest =>
      if String.eqb view targetView then Some pos else findView targetView rest (S pos)
  end.

(** [dropMaterializedView]: the last view patches the hole that the
    target leaves, and the vector loses its last element.  [None] when
    an assertion fails: the table has no view, or not the target. *)
Definition dropMaterializedView (targetView : string) (t : PersistentTable)
  : option PersistentTable :=
  match last (m_views t) with
  | None => None
  | Some lastView =>
      if negb (String.eqb targetView lastView) then
        match findView targetView (m_views t) 0 with
        | Some toView =>
            Some (setViews (removelast (<[toView := lastView]> (m_views t))) t)
        | None => None
        end
      else Some (setViews (removelast (m_views t)) t)
  end.

Lemma findView_Some targetView views : forall pos toView,
  findView targetView views pos = Some toView ->
  exists before after,
    views = before ++ targetView :: after /\ toView = (pos + length before)%nat.
Proof.
  induction views as [|view rest IH]; intros pos toView; simpl; [discriminate|].
  destruct (String.eqb view targetView) eqn:E.
  - apply String.eqb_eq in E. subst. intros [= <-]. exists [], rest. simpl.
    split; [reflexivity | lia].
  - intros H. destruct (IH _ _ H) as (before & after & -> & ->).
    exists (view :: before), after. simpl. split; [reflexivity | lia].
Qed.

Lemma findView_None targetView views : forall pos,
  findView targetView views pos = None -> ~ In targetView views.
Proof.
  induction views as [|view rest IH]; intros pos; simpl; [auto|].
  destruct (String.eqb view targetView) eqn:E; [discriminate|].
  apply String.eqb_neq in E. intros H [Hv | Hin]; [congruence | exact (IH _ H Hin)].
Qed.

Lemma last_removelast {A} (l : list A) (x : A) :
  last l = Some x -> l = removelast l ++ [x].
Proof.
  induction l as [|y l IH]; [discriminate|].
  destruct l as [|z l]; [now intros [= ->]|].
  intros H. change (removelast (y :: z :: l)) with (y :: removelast (z :: l)).
  simpl. f_equal. now apply IH.
Qed.

(** X16. [dropMaterializedView] on a table that has the view takes one
    occurrence of it out of the views of the table and keeps every other
    view; on a table that has not the view, or no view at all, an
    assertion fails.  Dropping a view right after it was added gives the
    views back as they were, in their order. *)
Theorem dropMaterializedView_takes_one (targetView : string) (t : PersistentTable) :
  (In targetView (m_views t) ->
   exists t',
     dropMaterializedView targetView t = Some t' /\
     Permutation (m_views t) (targetView :: m_views t') /\
     length (m_views t) = S (length (m_views t')) /\
     m_tuples t' = m_tuples t /\ m_indexes t' = m_indexes t) /\
  (~ In targetView (m_views t) -> dropMaterializedView targetView t = None) /\
  (exists t',
     dropMaterializedView targetView (addMaterializedView targetView t) = Some t' /\
     m_views t' = m_views t).
Proof.
  split; [|split].
  - intros Hin. unfold dropMaterializedView.
    destruct (last (m_views t)) as [lastView|] eqn:El.
    2:{ destruct (m_views t); [destruct Hin | ]. now apply last_None in El. }
    pose proof El as El0. apply last_removelast in El.
    destruct (String.eqb targetView lastView) eqn:E; simpl.
    + apply String.eqb_eq in E. subst lastView. eexists. split; [reflexivity|]. simpl.
      split; [|split; [|auto]].
      * rewrite El at 1. symmetry. apply Permutation_cons_append.
      * rewrite El at 1. rewrite length_app. simpl. lia.
    + apply String.eqb_neq in E.
      destruct (findView targetView (m_views t) 0) as [toView|] eqn:Ef.
      2:{ exfalso. exact (findView_None _ _ _ Ef Hin). }
      destruct (findView_Some _ _ _ _ Ef) as (before & after & Hv & ->). simpl.
      eexists. split; [reflexivity|]. simpl.
      assert (Hlast0 : last after = Some lastView).
      { rewrite Hv, last_app, last_cons in El0.
        destruct (last after); [exact El0 | congruence]. }
      assert (Hafter : after <> []) by (intros ->; discriminate).
      assert (Hlast : after = removelast after ++ [lastView])
        by (now apply last_removelast).
      rewrite Hv. rewrite insert_app_r_alt by lia. rewrite Nat.sub_diag. simpl.
      change (before ++ lastView :: after) with (before ++ [lastView] ++ after).
      rewrite app_assoc, removelast_app by exact Hafter.
      split; [|split; [|auto]].
      * rewrite Hlast at 1. rewrite <- app_assoc. simpl.
        rewrite <- Permutation_middle. constructor.
        apply Permutation_app_head. symmetry. apply Permutation_cons_append.
      * rewrite Hlast at 1. rewrite !length_app. simpl. rewrite length_app. simpl. lia.
  - intros Hnot. unfold dropMaterializedView.
    destruct (last (m_views t)) as [lastView|] eqn:El; [|reflexivity].
    apply last_removelast in El.
    destruct (String.eqb targetView lastView) eqn:E; simpl.
    + apply String.eqb_eq in E. subst lastView. exfalso. apply Hnot. rewrite El.
      apply in_app_iff. right. now left.
    + destruct (findView targetView (m_views t) 0) as [toView|] eqn:Ef; [|reflexivity].
      destruct (findView_Some _ _ _ _ Ef) as (before & after & Hv & _).
      exfalso. apply Hnot. rewrite Hv. apply in_app_iff. right. now left.
  - unfold dropMaterializedView, addMaterializedView. simpl. rewrite last_snoc.
    rewrite String.eqb_refl. simpl. eexists. split; [reflexivity|]. simpl.
    apply removelast_last.
Qed.

(** What [segregateMaterializedViews] reads of a
    [catalog::MaterializedViewInfo] ([catalog/materializedviewinfo.h] is
    not part of these sources): its name; [payload] stands for the
    rest. *)
Record MaterializedViewInfo : Type := mkViewInfo {
  viewInfoName : string;
  viewInfoPayload : Z
}.

(** The inner loop over the catalog views, from [start] to [end]: the
    first one that has the name of the view. *)
Fixpoint findCatalogView (currentViewId : string) (infos : list MaterializedViewInfo)
  : option MaterializedViewInfo :=
  match infos with
  | [] => None
  | catalogViewInfo :: rest =>
      if String.eqb currentViewId (viewInfoName catalogViewInfo) then Some catalogViewInfo
      else findCatalogView currentViewId rest
  end.

(** The outer loop over the views of the table; the three vectors are
    appended to. *)
Fixpoint segregateViews (infos : list MaterializedViewInfo) (views : list string)
    (out : list MaterializedViewInfo * list string * list string)
  : list MaterializedViewInfo * list string * list string :=
  match views with
  | [] => out
  | currView :: rest =>
      let '(survivingInfosOut, survivingViewsOut, obsoleteViewsOut) := out in
      match findCatalogView currView infos with
      | Some catalogViewInfo =>
          segregateViews infos rest
            (survivingInfosOut ++ [catalogViewInfo], survivingViewsOut ++ [currView],
             obsoleteViewsOut)
      | None =>
          segregateViews infos rest
            (survivingInfosOut, survivingViewsOut, obsoleteViewsOut ++ [currView])
      end
  end.

Definition segregateMaterializedViews (infos : list MaterializedViewInfo)
    (t : PersistentTable)
    (out : list MaterializedViewInfo * list string * list string) :=
  segregateViews infos (m_views t) out.

(** The catalog has a view of that name. *)
Definition inCatalog (infos : list MaterializedViewInfo) (view : string) : bool :=
  existsb (fun info => String.eqb view (viewInfoName info)) infos.

Lemma findCatalogView_Some view infos info :
  findCatalogView view infos = Some info ->
  In info infos /\ viewInfoName info = view /\ inCatalog infos view = true.
Proof.
  unfold inCatalog. induction infos as [|i infos IH]; simpl; [discriminate|].
  destruct (String.eqb view (viewInfoName i)) eqn:E.
  - intros [= <-]. apply String.eqb_eq in E. auto.
  - intros H. destruct (IH H) as (H1 & H2 & H3). auto.
Qed.

Lemma findCatalogView_None view infos :
  findCatalogView view infos = None -> inCatalog infos view = false.
Proof.
  unfold inCatalog. induction infos as [|i infos IH]; simpl; [reflexivity|].
  destruct (String.eqb view (viewInfoName i)); [discriminate | exact IH].
Qed.

Lemma segregateViews_spec infos views : forall sI sV o,
  length sI = length sV ->
  exists sI' sV' o',
    segregateViews infos views (sI, sV, o) = (sI ++ sI', sV ++ sV', o ++ o') /\
    sV' = List.filter (inCatalog infos) views /\
    o' = List.filter (fun view => negb (inCatalog infos view)) views /\
    Forall2 (fun info view => In info infos /\ viewInfoName info = view) sI' sV'.
Proof.
  induction views as [|view rest IH]; intros sI sV o Hlen; simpl.
  - exists [], [], []. rewrite !app_nil_r. repeat split. constructor.
  - destruct (findCatalogView view infos) as [info|] eqn:Ef.
    + destruct (findCatalogView_Some _ _ _ Ef) as (Hin & Hname & Hcat). rewrite Hcat.
      destruct (IH (sI ++ [info]) (sV ++ [view]) o) as (sI' & sV' & o' & -> & -> & -> & Hall).
      { rewrite !length_app. simpl. lia. }
      exists (info :: sI'), (view :: List.filter (inCatalog infos) rest),
        (List.filter (fun view => negb (inCatalog infos view)) rest).
      rewrite <- !app_assoc. simpl. repeat split; auto.
    + rewrite (findCatalogView_None _ _ Ef). simpl.
      destruct (IH sI sV (o ++ [view]) Hlen) as (sI' & sV' & o' & -> & -> & -> & Hall).
      exists sI', (List.filter (inCatalog infos) rest),
        (view :: List.filter (fun view => negb (inCatalog infos view)) rest).
      rewrite <- !app_assoc. simpl. repeat split; auto.
Qed.

Lemma filter_partition_perm {A} (P : A -> bool) (l : list A) :
  Permutation (List.filter P l ++ List.filter (fun x => negb (P x)) l) l.
Proof.
  induction l as [|x l IH]; simpl; [constructor|].
  destruct (P x); simpl.
  - now constructor.
  - rewrite <- Permutation_middle. now constructor.
Qed.

(** X17. [segregateMaterializedViews], given empty vectors, puts every
    view of the table into exactly one of two vectors, in the order of
    the views: the surviving views are those whose name the catalog has,
    the obsolete views the others; and the surviving infos are, view by
    view, a catalog info of the name of the surviving view. *)
Theorem segregateMaterializedViews_partitions (infos : list MaterializedViewInfo)
    (t : PersistentTable) :
  exists survivingInfos survivingViews obsoleteViews,
    segregateMaterializedViews infos t ([], [], [])
    = (survivingInfos, survivingViews, obsoleteViews) /\
    survivingViews = List.filter (inCatalog infos) (m_views t) /\
    obsoleteViews = List.filter (fun view => negb (inCatalog infos view)) (m_views t) /\
    Permutation (survivingViews ++ obsoleteViews) (m_views t) /\
    Forall2 (fun info view => In info infos /\ viewInfoName info = view)
            survivingInfos survivingViews.
Proof.
  unfold segregateMaterializedViews.
  destruct (segregateViews_spec infos (m_views t) [] [] [] eq_refl)
    as (sI & sV & o & -> & -> & -> & Hall).
  simpl. eexists _, _, _. split; [reflexivity|]. repeat split; auto.
  apply filter_partition_perm.
Qed.

(** ** Examples: a table with a primary key *)

(** The table of the rollback tests with the unique index as its
    primary key. *)
Definition tableWithKey : PersistentTable := setPrimaryKeyIndex 1 emptyTable.

Definition engineWithKey : Engine :=
  mkEngine tableWithKey (Some (newDRTupleStream 42 4096 32768 1000)) (Some [])
           testContext [] 0 [].

Lemma engineWithKey_ok : TableOk engineWithKey.
Proof.
  split; [|split; [|split]].
  - assert (Hempty : forall index, m_entries index = [] -> IndexOk [] index).
    { intros index He. split; rewrite He; [constructor|]. intros k a. split; [intros []|].
      intros (t & H & _). now rewrite lookup_nil in H. }
    repeat constructor; now apply Hempty.
  - split; [|split; [|split]].
    + intros shape _ _. constructor.
    + intros i shape [= <-] [= <-]. reflexivity.
    + intros r [].
    + intros p d1 d2 [].
  - intros p [].
  - apply (newDRTupleStream_ok _ 42 4096 32768 1000); [reflexivity | reflexivity].
Qed.

(** The rows (42, 55555) and (24, 2321) are inserted. *)
Definition engineWithKeyAndRows : Engine :=
  Eval vm_compute in
    match exampleRun insertsWithinBudget engineWithKey with
    | Returns _ e => e
    | _ => engineWithKey
    end.

Lemma engineWithKeyAndRows_ok : TableOk engineWithKeyAndRows.
Proof.
  apply (runOperations_TableOk 0 (fun _ _ _ => 0) (fun c => c) exampleRecordTypeCode
           exampleRowCost exampleRowImage exampleHashinate insertsWithinBudget
           engineWithKey [] engineWithKeyAndRows).
  - exact exampleRowCost_ok.
  - exact engineWithKey_ok.
  - reflexivity.
  - vm_compute. reflexivity.
  - vm_compute. reflexivity.
Qed.

Definition keyOfExample : TableIndex :=
  Eval vm_compute in
    match primaryKeyIndex (table engineWithKeyAndRows) with
    | Some pk => pk
    | None => the_index
    end.

Definition exampleUpdateTuple : nat -> TupleStorage -> Op bool :=
  updateTuple 0 (fun _ _ _ => 0) (fun c => c) exampleRecordTypeCode exampleRowCost
    exampleRowImage exampleHashinate.

Definition exampleDeleteAllTuples : bool -> Op unit :=
  deleteAllTuples 0 (fun _ _ _ => 0) (fun c => c) exampleRecordTypeCode exampleRowCost
    exampleRowImage exampleHashinate.

Definition engineAfterThirdInsert : Engine :=
  Eval vm_compute in
    match exampleInsert (otherRow 7 7) true engineWithKeyAndRows with
    | Returns _ e => e
    | _ => engineWithKeyAndRows
    end.

(** X1 (witness): the row (7, 7) goes to the third slot, where a lookup
    by values finds it. *)
Lemma insert_then_lookup_witness :
  lookupTuple (table engineAfterThirdInsert) (otherRow 7 7) LOOKUP_BY_VALUES = Some 2%nat /\
  exists stored,
    m_tuples (table engineAfterThirdInsert) !! 2%nat = Some stored /\
    isVisible stored = true /\
    map keyValueOf (m_columns stored) = map keyValueOf (m_columns (otherRow 7 7)).
Proof.
  apply (insert_then_lookup 0 (fun _ _ _ => 0) (fun c => c) exampleRecordTypeCode
           exampleRowCost exampleRowImage exampleHashinate (otherRow 7 7) true
           engineWithKeyAndRows engineAfterThirdInsert keyOfExample LOOKUP_BY_VALUES).
  - exact exampleRowCost_ok.
  - exact engineWithKeyAndRows_ok.
  - split; reflexivity.
  - reflexivity.
  - vm_compute. reflexivity.
Defined.

Definition engineAfterDelete : Engine :=
  Eval vm_compute in
    match exampleDelete 0 true engineWithKeyAndRows with
    | Returns _ e => e
    | _ => engineWithKeyAndRows
    end.

(** X2 (witness): once the row (42, 55555) is deleted a lookup of it
    finds nothing, and the lookups of other keys are as before. *)
Lemma delete_then_lookup_witness :
  lookupTuple (table engineAfterDelete) (otherRow 42 55555) LOOKUP_FOR_DR = None /\
  (forall other,
     keyOf keyOfExample other <> keyOf keyOfExample (otherRow 42 55555) ->
     lookupTuple (table engineAfterDelete) other LOOKUP_FOR_DR
     = lookupTuple (table engineWithKeyAndRows) other LOOKUP_FOR_DR).
Proof.
  apply (delete_then_lookup 0 (fun _ _ _ => 0) (fun c => c) exampleRecordTypeCode
           exampleRowCost exampleRowImage exampleHashinate 0%nat true
           engineWithKeyAndRows engineAfterDelete keyOfExample (otherRow 42 55555)
           LOOKUP_FOR_DR).
  - exact engineWithKeyAndRows_ok.
  - reflexivity.
  - reflexivity.
  - reflexivity.
  - vm_compute. reflexivity.
Defined.

Definition engineAfterUpdate : Engine :=
  Eval vm_compute in
    match exampleUpdateTuple 0 (otherRow 42 1234) engineWithKeyAndRows with
    | Returns _ e => e
    | _ => engineWithKeyAndRows
    end.

(** X3 (witness): the row (42, 55555) becomes (42, 1234); a lookup of
    the new values finds its slot and a lookup of the old values
    nothing. *)
Lemma update_then_lookup_witness :
  lookupTuple (table engineAfterUpdate) (otherRow 42 1234) LOOKUP_BY_VALUES = Some 0%nat /\
  (keyOf keyOfExample (otherRow 42 55555) <> keyOf keyOfExample (otherRow 42 1234) ->
   lookupTuple (table engineAfterUpdate) (otherRow 42 55555) LOOKUP_BY_VALUES = None).
Proof.
  apply (update_then_lookup 0 (fun _ _ _ => 0) (fun c => c) exampleRecordTypeCode
           exampleRowCost exampleRowImage exampleHashinate 0%nat (otherRow 42 1234)
           (otherRow 42 55555) engineWithKeyAndRows engineAfterUpdate keyOfExample
           LOOKUP_BY_VALUES).
  - exact exampleRowCost_ok.
  - exact engineWithKeyAndRows_ok.
  - vm_compute. reflexivity.
  - reflexivity.
  - reflexivity.
  - vm_compute. reflexivity.
Defined.

(** X4 (witness): a second row (42, 55555) is refused, and the failure
    carries the slot of the row that holds the key. *)
Lemma insert_refused_by_held_key_witness :
  exists index c x,
    Some 0%nat = Some c /\
    In index (m_indexes (table engineWithKeyAndRows)) /\ isUniqueIndex index = true /\
    m_tuples (table engineWithKeyAndRows) !! c = Some x /\ isVisible x = true /\
    keyOf index x = keyOf index (otherRow 42 55555).
Proof.
  exact (insert_refused_by_held_key 0 (fun _ _ _ => 0) (fun c => c) exampleRecordTypeCode
           exampleRowCost exampleRowImage exampleHashinate (otherRow 42 55555) true
           engineWithKeyAndRows exampleRowCost_ok engineWithKeyAndRows_ok).
Defined.

(** X5 (witness): the update of the row (24, 2321) to (42, 55555) is
    refused, for the first row holds that key. *)
Lemma update_refused_iff_key_held_witness :
  exampleUpdateTuple 1 (otherRow 42 55555) engineWithKeyAndRows
  = Throws (ConstraintFailureException CONSTRAINT_TYPE_UNIQUE (otherRow 42 55555)
              (Some 1%nat)) engineWithKeyAndRows.
Proof.
  apply (proj1 (update_refused_iff_key_held 0 (fun _ _ _ => 0) (fun c => c)
                  exampleRecordTypeCode exampleRowCost exampleRowImage exampleHashinate
                  1%nat (otherRow 42 55555) (otherRow 24 2321) engineWithKeyAndRows
                  (proj1 engineWithKeyAndRows_ok) eq_refl)).
  exists keyOfExample, 0%nat, (otherRow 42 55555).
  split; [right; left; reflexivity|]. split; [reflexivity|].
  split; [discriminate|]. split; [reflexivity|]. split; reflexivity.
Defined.

(** X6 (witness): the delete of the first row, released, and the same
    delete without undo leave the same table and the same stream. *)
Lemma delete_released_is_delete_witness :
  exists e2 e3,
    deleteTupleRelease 0 engineAfterDelete = Returns tt e2 /\
    exampleDelete 0 false engineWithKeyAndRows = Returns true e3 /\
    table e2 = table e3 /\ drStream e2 = drStream e3 /\
    currentUndoQuantum e3 = currentUndoQuantum engineWithKeyAndRows.
Proof.
  apply (delete_released_is_delete 0 (fun _ _ _ => 0) (fun c => c) exampleRecordTypeCode
           exampleRowCost exampleRowImage exampleHashinate 0%nat engineWithKeyAndRows
           engineAfterDelete (otherRow 42 55555)).
  - reflexivity.
  - reflexivity.
  - reflexivity.
  - vm_compute. reflexivity.
Defined.

(** X7 (witness): the transaction of the rollback test ends with the
    constraint failure of its last insert. *)
Lemma transaction_never_fatal_witness :
  match exampleRun abortedOperations (engineWithEmptyTable 1000) with
  | Returns _ _ => True
  | Throws x _ => expectedException x
  | FatalException _ | AssertionFailed => False
  end.
Proof.
  apply (transaction_never_fatal 0 (fun _ _ _ => 0) (fun c => c) exampleRecordTypeCode
           exampleRowCost exampleRowImage exampleHashinate abortedOperations
           (engineWithEmptyTable 1000) []).
  - exact exampleRowCost_ok.
  - apply engineWithEmptyTable_ok.
  - reflexivity.
  - vm_compute. reflexivity.
Defined.

(** X8 (witness): after the two inserts the unique index holds the two
    rows, each once. *)
Lemma transaction_keeps_indexes_in_step_witness :
  NoDup (m_entries keyOfExample) /\
  (forall k a,
     In (k, a) (m_entries keyOfExample) <->
     exists t, m_tuples (table engineWithKeyAndRows) !! a = Some t /\
               isVisible t = true /\ keyOf keyOfExample t = k) /\
  (isUniqueIndex keyOfExample = true ->
   forall a b x y,
     m_tuples (table engineWithKeyAndRows) !! a = Some x -> isVisible x = true ->
     m_tuples (table engineWithKeyAndRows) !! b = Some y -> isVisible y = true ->
     keyOf keyOfExample x = keyOf keyOfExample y -> a = b).
Proof.
  apply (transaction_keeps_indexes_in_step 0 (fun _ _ _ => 0) (fun c => c)
           exampleRecordTypeCode exampleRowCost exampleRowImage exampleHashinate
           insertsWithinBudget engineWithKey engineWithKeyAndRows []).
  - exact exampleRowCost_ok.
  - exact engineWithKey_ok.
  - reflexivity.
  - vm_compute. reflexivity.
  - vm_compute. reflexivity.
  - right. left. reflexivity.
Defined.

(** The two rows are committed and a transaction begins. *)
Definition engineWithRowsCommitted : Engine :=
  Eval vm_compute in setUndoQuantum (Some []) engineWithKeyAndRows.

Lemma engineWithRowsCommitted_ok : TableOk engineWithRowsCommitted.
Proof. exact engineWithKeyAndRows_ok. Qed.

Definition engineAfterDeleteAll : Engine :=
  Eval vm_compute in
    match exampleDeleteAllTuples true engineWithRowsCommitted with
    | Returns _ e => e
    | _ => engineWithRowsCommitted
    end.

(** X9 (witness): the two rows are deleted; no row is left, the
    indexes are empty and the table counts no visible tuple. *)
Lemma deleteAllTuples_empties_witness :
  exampleDeleteAllTuples true engineWithRowsCommitted = Returns tt engineAfterDeleteAll /\
  rowsOf (m_tuples (table engineAfterDeleteAll)) = [] /\
  Forall (fun index => m_entries index = []) (m_indexes (table engineAfterDeleteAll)) /\
  visibleTupleCount (table engineAfterDeleteAll) = 2 - 2.
Proof.
  split; [vm_compute; reflexivity|].
  pose proof (deleteAllTuples_empties 0 (fun _ _ _ => 0) (fun c => c)
                exampleRecordTypeCode exampleRowCost exampleRowImage exampleHashinate
                true engineWithRowsCommitted [] exampleRowCost_ok
                engineWithRowsCommitted_ok eq_refl) as H.
  vm_cast_no_check H.
Defined.

(** X10 (witness): the undo of the transaction that deleted every row
    gives the two rows back. *)
Lemma deleteAllTuples_undone_witness :
  exists e2,
    undoUndoQuantum exampleRowCost engineAfterDeleteAll = Returns tt e2 /\
    Permutation (rowsOf (m_tuples (table e2)))
                (rowsOf (m_tuples (table engineWithRowsCommitted))) /\
    visibleTupleCount (table e2) = visibleTupleCount (table engineWithRowsCommitted) /\
    IndexesOk (table e2) /\
    (m_bytes <$> drStream e2) = (m_bytes <$> drStream engineWithRowsCommitted).
Proof.
  apply (deleteAllTuples_undone 0 (fun _ _ _ => 0) (fun c => c) exampleRecordTypeCode
           exampleRowCost exampleRowImage exampleHashinate true
           engineWithRowsCommitted engineAfterDeleteAll).
  - exact exampleRowCost_ok.
  - exact engineWithRowsCommitted_ok.
  - reflexivity.
  - left. vm_compute. reflexivity.
Defined.

Lemma engineBeforeMove_ok : IndexesOk (table engineBeforeMove).
Proof.
  constructor; [|constructor]. split; [repeat constructor; intros H; inversion H|].
  intros k a. simpl. split.
  - intros [[= <- <-] | []]. exists (otherRow 42 55555). repeat split.
  - intros (t & Ht & Hv & Hk). destruct a as [|[|a]]; simpl in Ht.
    + injection Ht as <-. left. now rewrite <- Hk.
    + injection Ht as <-. discriminate.
    + discriminate.
Qed.

(** X11 (witness): the row (42, 55555) moves to the free slot; the
    table holds the same row, and its index is in step again. *)
Lemma swapTuples_keeps_table_witness :
  exists e',
    swapTuples 0 1 engineBeforeMove = Returns tt e' /\
    m_tuples (table e') !! 1%nat = Some (otherRow 42 55555) /\
    Permutation (rowsOf (m_tuples (table e'))) (rowsOf (m_tuples (table engineBeforeMove))) /\
    IndexesOk (table e') /\
    visibleTupleCount (table e') = visibleTupleCount (table engineBeforeMove).
Proof.
  apply (swapTuples_keeps_table engineBeforeMove 0 1 (otherRow 42 55555) freeSlot).
  - exact engineBeforeMove_ok.
  - discriminate.
  - reflexivity.
  - reflexivity.
  - reflexivity.
  - reflexivity.
  - reflexivity.
Defined.

(** A row of the table with a null in its TINYINT column, which allows
    none. *)
Definition rowWithNull : TupleStorage :=
  mkTuple true false false false [NullValue; InlineValue 5] [].

(** X12 (witness): the row with the null is refused with the not-null
    failure, and the table, the stream and the undo quantum are as
    before. *)
Lemma insert_checks_in_order_witness :
  exists e1,
    exampleInsert rowWithNull true engineWithKeyAndRows
    = Throws (ConstraintFailureException CONSTRAINT_TYPE_NOT_NULL rowWithNull None) e1 /\
    m_indexes (table e1) = m_indexes (table engineWithKeyAndRows) /\
    Permutation (rowsOf (m_tuples (table e1)))
                (rowsOf (m_tuples (table engineWithKeyAndRows))) /\
    visibleTupleCount (table e1) = visibleTupleCount (table engineWithKeyAndRows) /\
    streamsAgree (drStream e1) (drStream engineWithKeyAndRows) /\
    currentUndoQuantum e1 = currentUndoQuantum engineWithKeyAndRows.
Proof.
  apply (insert_checks_in_order 0 (fun _ _ _ => 0) (fun c => c) exampleRecordTypeCode
           exampleRowCost exampleRowImage exampleHashinate rowWithNull
           engineWithKeyAndRows).
  - exact exampleRowCost_ok.
  - apply engineWithKeyAndRows_ok.
  - reflexivity.
  - vm_compute. reflexivity.
  - exists 0%nat. split; [simpl; lia|]. split; reflexivity.
Defined.

(** An engine of the replica: the row (42, 55555) written at 70, and a
    transaction that runs at 71. *)
Definition engineOfReplica : Engine :=
  mkEngine (replicaTable [conflictRow 42 55555 70]) None (Some [])
           (mkContext 100 100 99 71 71 false) [] 0 [].

Definition engineOfReplicaAfterUpdate : Engine :=
  Eval vm_compute in
    match exampleUpdateTuple 0 (conflictRow 42 1234 5) engineOfReplica with
    | Returns _ e => e
    | _ => engineOfReplica
    end.

(** X13 (witness): the source carries the timestamp 5; the updated
    tuple carries 71, the timestamp of the transaction. *)
Lemma update_stamps_dr_timestamp_witness :
  exists stored,
    m_tuples (table engineOfReplicaAfterUpdate) !! 0%nat = Some stored /\
    m_hiddenColumns stored !! 0%nat = Some (InlineValue 71).
Proof.
  apply (update_stamps_dr_timestamp 0 (fun _ _ _ => 0) (fun c => c) exampleRecordTypeCode
           exampleRowCost exampleRowImage exampleHashinate 0%nat (conflictRow 42 1234 5)
           (conflictRow 42 55555 70) engineOfReplica engineOfReplicaAfterUpdate).
  - reflexivity.
  - reflexivity.
  - simpl. lia.
  - vm_compute. reflexivity.
Defined.



